(** * kOS language server: parser, symbol tables, type engine, coordinator

    A shallow embedding of the analysis front end of the kOS language
    server (TypeScript) and proofs of the properties its specification
    states about it.

    - [Parser]: the recursive-descent parser of [parser/parser.ts].
    - [SymbolTableBuilder]: [analysis/symbolTableBuilder.ts].
    - [TypeEngine]: the [GenericType] and [GenericVariadicType] classes.
    - [Coordinator]: the link sets kept between symbol tables.

    TypeScript objects that are mutated through references (trackers,
    types, symbol tables) live in explicit stores indexed by [nat];
    exceptions are explicit results; loops and recursion that the source
    does not bound syntactically take a [fuel] argument that bounds the
    depth of the call stack. *)

From Stdlib Require Import ZArith Lia.
From stdpp Require Import base decidable option list strings pretty gmap.

Abbreviation Maybe := option (only parsing).

(** ** Tokens (entities/token.ts, entities/tokentypes.ts) *)

(** The members of the [TokenType] enumeration that the parser names.
    [other n] stands for any member it does not name. *)
Module TokenType.
Inductive t :=
  | plus | minus | multi | div | power
  | not | and | or | true | false
  | equal | notEqual | greaterEqual | greater | lessEqual | less
  | set | unset | to | is_ | until | if_ | else_ | for_ | when | then_
  | from | do | at_ | on | in_
  | lock | unlock | print | arrayIndex | integer | double | string
  | local | global | parameter | function | preserve | break | return_
  | declare | defined
  | bracketOpen | bracketClose | curlyOpen | curlyClose
  | squareOpen | squareClose
  | comma | colon | period | atSign | eof
  | toggle | wait | off | list | clearscreen | stage | add | remove | log
  | step | switch | copy | rename | volume | file | delete | edit
  | run | runPath | runOncePath | once | compile | reboot | shutdown
  | identifier | fileIdentifier | lazyGlobal | all
  | other (n : nat).
End TokenType.

#[global] Instance TokenType_eq_dec : EqDecision TokenType.t.
Proof. solve_decision. Defined.

Record Marker := mkMarker { line : nat; character : nat }.

(** A token.  [tracker] is the slot the symbol-table builder writes the
    resolved tracker into; it holds a reference into the tracker store. *)
Record Token := mkToken {
  type : TokenType.t;
  lexeme : string;
  literal : Maybe string;
  start : Marker;
  end_ : Marker;
  uri : string;
  tracker : Maybe nat;
}.

(** [new Token(type, lexeme, literal, start, end, uri)] *)
Definition newToken (ty : TokenType.t) (lex : string) (lit : Maybe string)
    (st en : Marker) (u : string) : Token :=
  mkToken ty lex lit st en u None.

Definition dq : string := String (Ascii.ascii_of_nat 34) EmptyString.

(** * The parser (parser/parser.ts) *)

Module Parser.

(** ** Syntax tree (parser/inst.ts, parser/expr.ts, parser/declare.ts) *)

Record DeclScope := mkDeclScope { scope : Maybe Token; declare : Maybe Token }.
Record DeclParameter := mkDeclParameter { identifier : Maybe Token }.

Unset Elimination Schemes.

Inductive Inst :=
| InstInvalid (tokens : list Token)
| InstBlock (open : Maybe Token) (instructions : list Inst) (close : Maybe Token)
| InstExpr (suffix : Expr)
| InstOnOff (suffix : Expr) (onOff : Maybe Token)
| InstCommand (command : Maybe Token)
| InstCommandExpr (command : Maybe Token) (expression : Expr)
| InstUnset (unset identifier : Maybe Token)
| InstUnlock (unlock identifier : Maybe Token)
| InstSet (set : Maybe Token) (suffix : Expr) (to : Maybe Token) (value : Expr)
| InstLazyGlobal (atSign lazyGlobal onOff : Maybe Token)
| InstIf (ifToken : Maybe Token) (condition : Expr) (instruction : Inst)
    (elseInst : Maybe Inst)
| InstElse (elseToken : Maybe Token) (instruction : Inst)
| InstUntil (until : Maybe Token) (condition : Expr) (instruction : Inst)
| InstFrom (from : Maybe Token) (initializer : Inst) (until : Maybe Token)
    (condition : Expr) (step : Maybe Token) (increment : Inst)
    (doToken : Maybe Token) (instruction : Inst)
| InstWhen (when : Maybe Token) (condition : Expr) (then_ : Maybe Token)
    (instruction : Inst)
| InstReturn (returnToken : Maybe Token) (value : Maybe Expr)
| InstBreak (breakToken : Maybe Token)
| InstSwitch (switchToken to : Maybe Token) (target : Expr)
| InstFor (forToken identifier inToken : Maybe Token) (suffix : Expr)
    (instruction : Inst)
| InstOn (on : Maybe Token) (suffix : Expr) (instruction : Inst)
| InstToggle (toggle : Maybe Token) (suffix : Expr)
| InstWait (wait : Maybe Token) (expression : Expr) (until : Maybe Token)
| InstLog (log : Maybe Token) (expression : Expr) (to : Maybe Token)
    (target : Expr)
| InstCopy (copy : Maybe Token) (source : Expr) (toFrom : Maybe Token)
    (target : Expr)
| InstRename (rename fileVolume ioIdentifier : Maybe Token) (source : Expr)
    (to : Maybe Token) (target : Expr)
| InstDelete (deleteToken : Maybe Token) (expression : Expr)
    (from : Maybe Token) (target : Maybe Expr)
| InstRun (run identifier once open : Maybe Token) (args : Maybe (list Expr))
    (close on : Maybe Token) (expr : Maybe Expr)
| InstRunPath (runPath open : Maybe Token) (expression : Expr)
    (close : Maybe Token) (args : Maybe (list Expr))
| InstRunPathOnce (runPath open : Maybe Token) (expression : Expr)
    (close : Maybe Token) (args : Maybe (list Expr))
| InstCompile (compile : Maybe Token) (expression : Expr) (to : Maybe Token)
    (target : Maybe Expr)
| InstList (list identifier inToken target : Maybe Token)
| InstEmpty (empty : Maybe Token)
| InstPrint (print : Maybe Token) (expression : Expr)
    (at_ open : Maybe Token) (x y : Maybe Expr) (close : Maybe Token)
| DeclVar (identifier toIs : Maybe Token) (value : Expr) (scope : DeclScope)
| DeclLock (lock identifier to : Maybe Token) (value : Expr)
    (scope : Maybe DeclScope)
| DeclFunc (functionToken functionIdentifier : Maybe Token)
    (instructionBlock : Inst) (scope : Maybe DeclScope)
| DeclParam (parameterToken : Maybe Token) (parameters : list DeclParameter)
    (defaultParameters : list DefaultParam) (scope : Maybe DeclScope)
with Expr :=
| ExprInvalid (tokens : list Token)
| ExprBinary (left : Expr) (operator : Maybe Token) (right : Expr)
| ExprUnary (operator : Maybe Token) (factor : Expr)
| ExprFactor (suffix : Expr) (power : Maybe Token) (exponent : Expr)
| ExprSuffix (suffixTerm : Expr) (colon : Maybe Token) (trailer : Expr)
| ExprCall (callee : Expr) (open : Maybe Token) (args : list Expr)
    (close : Maybe Token) (isTrailer : bool)
| ExprArrayIndex (array : Expr) (indexer index : Maybe Token) (isTrailer : bool)
| ExprArrayBracket (array : Expr) (open : Maybe Token) (index : Expr)
    (close : Maybe Token) (isTrailer : bool)
| ExprDelegate (variable : Expr) (atSign : Maybe Token) (isTrailer : bool)
| ExprLiteral (token : Maybe Token) (isTrailer : bool)
| ExprVariable (token : Maybe Token) (isTrailer : bool)
| ExprGrouping (open : Maybe Token) (expr : Expr) (close : Maybe Token)
    (isTrailer : bool)
| ExprAnonymousFunction (open : Maybe Token) (instructions : list Inst)
    (close : Maybe Token)
with DefaultParam :=
| mkDefaultParam (identifier toIs : Maybe Token) (value : Expr).

Definition isInvalid (i : Inst) : bool :=
  match i with InstInvalid _ => true | _ => false end.

(** ** Parse errors (parser/parserError.ts) *)

(** The node classes the parser hands to [error] as the construct that
    failed. *)
Inductive DeclClass :=
| CScope | CFunc | CParam | CParameter | CDefaultParam | CLock | CVar.

Inductive InstClass :=
| CBlock | CExprInst | COnOff | CCommand | CCommandExpr | CUnset | CUnlock
| CSet | CLazyGlobal | CIf | CUntil | CFrom | CWhen | CReturn | CBreak
| CSwitch | CFor | COn | CToggle | CWait | CLog | CCopy | CRename | CDelete
| CRun | CRunPath | CRunPathOnce | CCompile | CList | CPrint.

Inductive ExprClass :=
| CCall | CArrayBracket | CArrayIndex | CAnonymousFunction | CGrouping.

Inductive NodeConstructor :=
| Decl (c : DeclClass) | Inst_ (c : InstClass) | Expr_ (c : ExprClass).

(** What [failed.prototype instanceof ...] can answer. *)
Inductive Prototype := ProtoExpr | ProtoInst | ProtoOther.

(** Modelled from the spec: parserError.ts is not among the sources.  A
    parse error carries "the syntactic construct that failed": the
    statement class in [inst], the expression class in [expr]. *)
Record FailedConstructor := mkFailed {
  inst : Maybe NodeConstructor;
  expr : Maybe NodeConstructor;
}.

Definition failedUnknown : FailedConstructor := mkFailed None None.
Definition failedExpr (c : NodeConstructor) : FailedConstructor :=
  mkFailed None (Some c).
Definition failedInst (c : NodeConstructor) : FailedConstructor :=
  mkFailed (Some c) None.

Inductive ParseError :=
| mkParseError (token : Maybe Token) (failed : FailedConstructor)
    (message : string) (moreInfo : list string) (inner : list ParseError).

Set Elimination Schemes.

Definition failed (e : ParseError) : FailedConstructor :=
  match e with mkParseError _ f _ _ _ => f end.

(** [error.failed.inst = inst] *)
Definition setFailedInst (e : ParseError) (i : Maybe NodeConstructor)
    : ParseError :=
  match e with
  | mkParseError t f m x n => mkParseError t (mkFailed i (expr f)) m x n
  end.

(** [error.inner = errors] *)
Definition setInner (e : ParseError) (errs : list ParseError) : ParseError :=
  match e with mkParseError t f m x _ => mkParseError t f m x errs end.

(** ** Results (parser/types.ts, parser/parseResult.ts) *)

Record INodeResult (A : Type) := mkResult {
  value : A;
  errors : list ParseError;
}.
Arguments mkResult {A} _ _.
Arguments value {A} _.
Arguments errors {A} _.

(** Modelled from the spec: parseResult.ts is not among the sources.
    [nodeResult(value, ...errors)] pairs the node with the error lists of
    its parts, concatenated in order. *)
Definition nodeResult {A} (v : A) (errs : list (list ParseError))
    : INodeResult A :=
  mkResult v (concat errs).

Record Script := mkScript { insts : list Inst }.

Module ParseResult.
Record t := mk {
    parseErrors : list ParseError;
    runInsts : list Inst;
    script : Script;
  }.
End ParseResult.

(** ** The parser object and its effects *)

(** Which accessor read the token array. *)
Inductive Accessor := ByPeek | ByPeekNext | ByPrevious.

(** The mutable fields of a [Parser] ([tokens] is assigned once, by the
    constructor).  [reads] is a ghost history of the indices at which the
    token array was read; no code consults it. *)
Record PState := mkState {
  current : nat;
  runInsts : list Inst;
  reads : list (Accessor * Z);
}.

Inductive JsError := TypeError (msg : string).

(** How a call ends: it returns, it throws a [ParseError], it throws
    something else, or the fuel that bounds the call depth ran out. *)
Inductive outcome (A : Type) :=
| Ret (a : A) (s : PState)
| Throw (e : ParseError) (s : PState)
| Fault (err : JsError) (s : PState)
| Timeout.
Arguments Ret {A} _ _.
Arguments Throw {A} _ _.
Arguments Fault {A} _ _.
Arguments Timeout {A}.

Definition M (A : Type) := PState -> outcome A.

Definition ret {A} (a : A) : M A := fun s => Ret a s.
Definition throw {A} (e : ParseError) : M A := fun s => Throw e s.
Definition fault {A} (err : JsError) : M A := fun s => Fault err s.

Definition bind {A B} (m : M A) (k : A -> M B) : M B :=
  fun s =>
    match m s with
    | Ret a s' => k a s'
    | Throw e s' => Throw e s'
    | Fault err s' => Fault err s'
    | Timeout => Timeout
    end.

(** [try { m } catch (error) { if (error instanceof ParseError) { h } throw error }] *)
Definition tryCatch {A} (m : M A) (h : ParseError -> M A) : M A :=
  fun s =>
    match m s with
    | Throw e s' => h e s'
    | o => o
    end.

Notation "'let!' x ':=' m 'in' k" := (bind m (fun x => k))
  (at level 10, x name, m at level 100, k at level 200, only parsing).

Definition getCurrent : M nat := fun s => Ret (current s) s.

Section Methods.

(** [this.tokens], as the constructor left it. *)
Variable tokens : list Token.

(** entities/tokentypes.ts is not among the sources: which token types
    may stand for an identifier is a parameter of the development. *)
Variable isValidIdentifier : TokenType.t -> bool.

(** parser/declare.ts is not among the sources: which base class each
    [Decl] class extends is a parameter of the development. *)
Variable declPrototype : DeclClass -> Prototype.

Definition logRead (a : Accessor) (i : Z) (s : PState) : PState :=
  mkState (current s) (runInsts s) (reads s ++ [(a, i)]).

(** [this.tokens[i]]: [undefined] outside of the array. *)
Definition tokenAt (i : Z) : Maybe Token :=
  if decide (0 <= i)%Z then tokens !! Z.to_nat i else None.

(** [tokens.slice(from, to)] *)
Definition slice (from to : nat) : list Token :=
  take (to - from) (drop from tokens).

(** [t.type], a [TypeError] when [t] is [undefined]. *)
Definition typeOf (t : Maybe Token) : M TokenType.t :=
  match t with
  | Some t => ret (type t)
  | None => fault (TypeError "Cannot read property 'type' of undefined")
  end.

(* peek current token *)
Definition peek : M (Maybe Token) :=
  fun s => let i := Z.of_nat (current s) in
           Ret (tokenAt i) (logRead ByPeek i s).

(* peek next token *)
Definition peekNext : M (Maybe Token) :=
  fun s => let i := (Z.of_nat (current s) + 1)%Z in
           Ret (match tokenAt i with
                | None => None
                | Some nextToken =>
                    if bool_decide (type nextToken = TokenType.eof) then None
                    else Some nextToken
                end) (logRead ByPeekNext i s).

(* retrieve previous token *)
Definition previous : M (Maybe Token) :=
  fun s => let i := (Z.of_nat (current s) - 1)%Z in
           Ret (tokenAt i) (logRead ByPrevious i s).

(* is parse at the end of file *)
Definition isAtEnd : M bool :=
  let! t := peek in
  let! ty := typeOf t in
  ret (bool_decide (ty = TokenType.eof)).

(* return current token and advance *)
Definition advance : M (Maybe Token) :=
  let! atEnd := isAtEnd in
  let! _ := (if atEnd then ret tt
             else fun s => Ret tt (mkState (current s + 1) (runInsts s) (reads s))) in
  previous.

(* check if current token matches expected type *)
Definition check (tokenType : TokenType.t) : M bool :=
  let! atEnd := isAtEnd in
  if atEnd then ret false
  else
    let! t := peek in
    let! ty := typeOf t in
    ret (bool_decide (ty = tokenType)).

(* check if the next token matches expected type *)
Definition checkNext (tokenType : TokenType.t) : M bool :=
  let! nextToken := peekNext in
  match nextToken with
  | None => ret false
  | Some nextToken => ret (bool_decide (type nextToken = tokenType))
  end.

(* check if current token can be an identifier *)
Definition identifierCheck : M bool :=
  let! atEnd := isAtEnd in
  if atEnd then ret false
  else
    let! t := peek in
    let! ty := typeOf t in
    ret (isValidIdentifier ty).

(** [types.some(t => this.check(t))] *)
Fixpoint someCheck (types : list TokenType.t) : M bool :=
  match types with
  | [] => ret false
  | t :: types =>
      let! found := check t in
      if found then ret true else someCheck types
  end.

(* determine if current token matches a set of tokens *)
Definition matchToken (types : list TokenType.t) : M bool :=
  let! found := someCheck types in
  let! _ := (if found then advance else ret None) in
  ret found.

(* was identifier matched *)
Definition matchIdentifier : M bool :=
  let! found := identifierCheck in
  let! _ := (if found then advance else ret None) in
  ret found.

Definition prototypeOf (c : NodeConstructor) : Prototype :=
  match c with
  | Decl d => declPrototype d
  | Inst_ _ => ProtoInst
  | Expr_ _ => ProtoExpr
  end.

(* report parse error *)
Definition error (token : Maybe Token) (failed : Maybe NodeConstructor)
    (message : string) (extraInfo : list string) : ParseError :=
  match failed with
  | None => mkParseError token failedUnknown message extraInfo []
  | Some c =>
      match prototypeOf c with
      | ProtoExpr => mkParseError token (failedExpr c) message extraInfo []
      | ProtoInst => mkParseError token (failedInst c) message extraInfo []
      | ProtoOther => mkParseError token failedUnknown message extraInfo []
      end
  end.

(* check for any valid identifier
   throws errors if incorrect token is found *)
Definition consumeIdentifierThrow (message : string) (failed : NodeConstructor)
    : M (Maybe Token) :=
  let! found := matchIdentifier in
  if found then previous
  else
    let! p := previous in
    throw (error p (Some failed) message []).

(* consume current token if it matches type.
   throws errors if incorrect token is found *)
Definition consumeTokenThrow (message : string) (failed : NodeConstructor)
    (tokenType : list TokenType.t) : M (Maybe Token) :=
  let! found := matchToken tokenType in
  if found then previous
  else
    let! p := previous in
    throw (error p (Some failed) message []).

(* consume current token if it matches type.
   returns errors if incorrect token is found *)
Definition consumeTokenReturn (message : string) (failed : NodeConstructor)
    (tokenType : list TokenType.t) : M (Maybe Token + ParseError) :=
  let! found := matchToken tokenType in
  if found then
    let! p := previous in
    ret (inl p)
  else
    let! p := previous in
    ret (inr (error p (Some failed) message [])).

(* check for period *)
Definition terminal (failed : NodeConstructor) : M (Maybe Token) :=
  consumeTokenThrow ("Expected " +:+ dq +:+ "." +:+ dq +:+ ".") failed
    [TokenType.period].

Definition addRunInst (inst : Inst) (errors : list (list ParseError))
    : M (INodeResult Inst) :=
  fun s => Ret (nodeResult inst errors)
               (mkState (current s) (runInsts s ++ [inst]) (reads s)).

(** ** The methods

    Every method of the class, and every loop inside one, has a label;
    [this _ m] calls the method labelled [m].  The bodies below are
    written against an arbitrary [this]; [run] ties the knot. *)

Abbreviation R := INodeResult (only parsing).

Inductive Method : Type -> Type :=
| m_parse_while (instructions : list Inst) (parseErrors : list ParseError)
    : Method ParseResult.t
| m_declaration : Method (R Inst)
| m_synchronize_while : Method unit
| m_define : Method (R Inst)
| m_declareFunction (scope : Maybe DeclScope) : Method (R Inst)
| m_declareParameter (scope : Maybe DeclScope) : Method (R Inst)
| m_declareNormalParameters : Method (list DeclParameter)
| m_declareNormalParameters_do (parameters : list DeclParameter)
    : Method (list DeclParameter)
| m_declaredDefaultedParameters : Method (R (list DefaultParam))
| m_declaredDefaultedParameters_do (defaultParameters : list DefaultParam)
    (errors : list (list ParseError)) : Method (R (list DefaultParam))
| m_declareLock (scope : Maybe DeclScope) : Method (R Inst)
| m_declareVariable (scope : DeclScope) : Method (R Inst)
| m_instruction : Method (R Inst)
| m_instructionBlock : Method (R Inst)
| m_instructionBlock_while (declarations : list Inst)
    (parseErrors : list ParseError) : Method (list Inst * list ParseError)
| m_identifierLedInstruction : Method (R Inst)
| m_onOff (suffix : Expr) : Method (R Inst)
| m_command : Method (R Inst)
| m_commandExpression : Method (R Inst)
| m_unset : Method (R Inst)
| m_unlock : Method (R Inst)
| m_set : Method (R Inst)
| m_lazyGlobal : Method (R Inst)
| m_ifInst : Method (R Inst)
| m_until : Method (R Inst)
| m_from : Method (R Inst)
| m_when : Method (R Inst)
| m_returnInst : Method (R Inst)
| m_breakInst : Method (R Inst)
| m_switchInst : Method (R Inst)
| m_forInst : Method (R Inst)
| m_on : Method (R Inst)
| m_toggle : Method (R Inst)
| m_wait : Method (R Inst)
| m_log : Method (R Inst)
| m_copy : Method (R Inst)
| m_rename : Method (R Inst)
| m_delete : Method (R Inst)
| m_run : Method (R Inst)
| m_runPath : Method (R Inst)
| m_runPathOnce : Method (R Inst)
| m_compile : Method (R Inst)
| m_list : Method (R Inst)
| m_print : Method (R Inst)
| m_expression (inst : Maybe NodeConstructor) : Method (R Expr)
| m_or : Method (R Expr)
| m_and : Method (R Expr)
| m_equality : Method (R Expr)
| m_comparison : Method (R Expr)
| m_addition : Method (R Expr)
| m_multiplication : Method (R Expr)
| m_binaryExpression (recurse : Method (R Expr)) (types : list TokenType.t)
    : Method (R Expr)
| m_binaryExpression_while (recurse : Method (R Expr))
    (types : list TokenType.t) (expr : R Expr) : Method (R Expr)
| m_unary : Method (R Expr)
| m_factor : Method (R Expr)
| m_factor_while (expr : R Expr) : Method (R Expr)
| m_suffixCatch (inst : NodeConstructor) : Method (R Expr)
| m_suffix : Method (R Expr)
| m_suffix_while (expr : R Expr) : Method (R Expr)
| m_suffixTrailer (suffix : Expr) : Method (R Expr)
| m_suffixTerm (isTrailer : bool) : Method (R Expr)
| m_suffixTerm_while (isTrailer : bool) (expr : R Expr) : Method (R Expr)
| m_functionTrailer (callee : Expr) (isTrailer : bool) : Method (R Expr)
| m_arguments : Method (R (list Expr))
| m_arguments_do (args : list Expr) (errors : list (list ParseError))
    : Method (R (list Expr))
| m_arrayBracket (array : Expr) (isTrailer : bool) : Method (R Expr)
| m_arrayIndex (array : Expr) (isTrailer : bool) : Method (R Expr)
| m_anonymousFunction : Method (R Expr)
| m_anonymousFunction_while (declarations : list Inst)
    (parseErrors : list ParseError) : Method (list Inst * list ParseError)
| m_atom (isTrailer : bool) : Method (R Expr).

Definition Methods := forall A, Method A -> M A.

Definition q (s : string) : string := dq +:+ s +:+ dq.

Definition defined {A} (x : Maybe A) : bool :=
  match x with Some _ => true | None => false end.

Section Bodies.

Variable this : Methods.
Abbreviation call m := (this _ m) (only parsing).

(** The loop of [parse]: [while (!this.isAtEnd())]. *)
Definition parse_while (instructions : list Inst)
    (parseErrors : list ParseError) : M ParseResult.t :=
  let! atEnd := isAtEnd in
  if atEnd then
    fun s => Ret (ParseResult.mk parseErrors (runInsts s) (mkScript instructions)) s
  else
    let! r := call m_declaration in
    call (m_parse_while (instructions ++ [value r]) (parseErrors ++ errors r)).

(** The tokens at which [synchronize] stops. *)
Definition isSyncPoint (ty : TokenType.t) : bool :=
  match ty with
  (* declarations *)
  | TokenType.declare | TokenType.function | TokenType.parameter
  | TokenType.lock | TokenType.local | TokenType.global
  (* commands *)
  | TokenType.stage | TokenType.clearscreen | TokenType.preserve
  | TokenType.reboot | TokenType.shutdown
  (* command expressions *)
  | TokenType.edit | TokenType.add | TokenType.remove
  (* variable instructions *)
  | TokenType.unset | TokenType.unlock | TokenType.set
  (* control flow *)
  | TokenType.if_ | TokenType.until | TokenType.from | TokenType.when
  | TokenType.return_ | TokenType.break | TokenType.switch | TokenType.for_
  | TokenType.on | TokenType.toggle | TokenType.wait
  (* io instructions *)
  | TokenType.log | TokenType.copy | TokenType.rename | TokenType.delete
  | TokenType.run | TokenType.runPath | TokenType.runOncePath
  | TokenType.compile | TokenType.list | TokenType.print
  (* close scope *)
  | TokenType.curlyClose => true
  | _ => false
  end.

(** The loop of [synchronize]. *)
Definition synchronize_while : M unit :=
  let! atEnd := isAtEnd in
  if atEnd then ret tt
  else
    let! p := previous in
    let! pty := typeOf p in
    if bool_decide (pty = TokenType.period) then ret tt
    else
      let! t := peek in
      let! ty := typeOf t in
      if isSyncPoint ty then ret tt
      else
        let! _ := advance in
        call m_synchronize_while.

(* attempt to synchronize parser *)
Definition synchronize (failed : FailedConstructor) : M unit :=
  let! _ := (if defined (inst failed) then ret None else advance) in
  call m_synchronize_while.

(** The [try] block of [declaration]. *)
Definition declarationTry : M (R Inst) :=
  let! isDefine := someCheck
    [TokenType.declare; TokenType.local; TokenType.global;
     TokenType.parameter; TokenType.function; TokenType.lock] in
  if isDefine then call m_define else call m_instruction.

(* parse declaration attempt to synchronize *)
Definition declaration : M (R Inst) :=
  let! start := getCurrent in
  tryCatch declarationTry
    (fun error =>
       let! _ := synchronize (failed error) in
       let! stop := getCurrent in
       ret (mkResult (InstInvalid (slice start stop)) [error])).

(* parse declaration instructions *)
Definition define : M (R Inst) :=
  let! m := matchToken [TokenType.declare] in
  let! declare := (if m then previous else ret None) in
  let! m := matchToken [TokenType.local; TokenType.global] in
  let! scope := (if m then previous else ret None) in
  let scopeDeclare :=
    if defined declare || defined scope
    then Some (mkDeclScope scope declare) else None in
  let! m := matchToken [TokenType.function] in
  if m then call (m_declareFunction scopeDeclare) else
  let! m := matchToken [TokenType.parameter] in
  if m then call (m_declareParameter scopeDeclare) else
  let! m := matchToken [TokenType.lock] in
  if m then call (m_declareLock scopeDeclare) else
  match scopeDeclare with
  | Some scopeDeclare => call (m_declareVariable scopeDeclare)
  | None =>
      let! p := peek in
      throw (error p (Some (Decl CScope))
        "Expected function parameter or variable declaration."
        ["Example: " +:+ q "local function exampleFunc { ... }" +:+ ", "
           +:+ q "global x is 0"])
  end.

(* parse function declaration *)
Definition declareFunction (scope : Maybe DeclScope) : M (R Inst) :=
  let! functionToken := previous in
  let! functionIdentiifer :=
    consumeIdentifierThrow "Expected identifier" (Decl CFunc) in
  let! m := matchToken [TokenType.curlyOpen] in
  if m then
    let! blockResult := call m_instructionBlock in
    let! _ := matchToken [TokenType.period] in
    ret (nodeResult
           (DeclFunc functionToken functionIdentiifer (value blockResult) scope)
           [errors blockResult])
  else
    let! p := peek in
    throw (error p (Some (Decl CFunc))
      ("Expected function instruction block starting with " +:+ q "{")
      ["Example: local function { print " +:+ q "hi" +:+ ". }"]).

(** The loop of [declareNormalParameters]: [do { ... } while (matchToken(comma))]. *)
Definition declareNormalParameters_do (parameters : list DeclParameter)
    : M (list DeclParameter) :=
  let! nextIs := checkNext TokenType.is_ in
  let! defaulted := (if nextIs then ret true else checkNext TokenType.to) in
  if defaulted then ret parameters
  else
    let! identifer := consumeIdentifierThrow
      "Expected additional identiifer following comma." (Decl CParameter) in
    let parameters := parameters ++ [mkDeclParameter identifer] in
    let! m := matchToken [TokenType.comma] in
    if m then call (m_declareNormalParameters_do parameters)
    else ret parameters.

(* parse regular parameters *)
Definition declareNormalParameters : M (list DeclParameter) :=
  call (m_declareNormalParameters_do []).

(** The loop of [declaredDefaultedParameters]. *)
Definition declaredDefaultedParameters_do
    (defaultParameters : list DefaultParam) (errs : list (list ParseError))
    : M (R (list DefaultParam)) :=
  let! nextIs := checkNext TokenType.is_ in
  let! defaulted := (if nextIs then ret true else checkNext TokenType.to) in
  if negb defaulted then ret (nodeResult defaultParameters errs)
  else
    let! identifer := consumeIdentifierThrow
      "Expected identifier following comma." (Decl CDefaultParam) in
    let! toIs := consumeTokenThrow
      ("Expected default parameter using keyword " +:+ q "to" +:+ " or "
         +:+ q "is" +:+ ".")
      (Decl CDefaultParam) [TokenType.to; TokenType.is_] in
    let! valueResult := call (m_expression None) in
    let defaultParameters :=
      defaultParameters ++ [mkDefaultParam identifer toIs (value valueResult)] in
    let errs := errs ++ [errors valueResult] in
    let! m := matchToken [TokenType.comma] in
    if m then call (m_declaredDefaultedParameters_do defaultParameters errs)
    else ret (nodeResult defaultParameters errs).

(* parse defaulted parameters *)
Definition declaredDefaultedParameters : M (R (list DefaultParam)) :=
  call (m_declaredDefaultedParameters_do [] []).

(* parse parameter declaration *)
Definition declareParameter (scope : Maybe DeclScope) : M (R Inst) :=
  let! parameterToken := previous in
  let! parameters := call m_declareNormalParameters in
  let! defaultParameters := call m_declaredDefaultedParameters in
  let! _ := terminal (Decl CParam) in
  ret (nodeResult
         (DeclParam parameterToken parameters (value defaultParameters) scope)
         [errors defaultParameters]).

(* parse lock instruction *)
Definition declareLock (scope : Maybe DeclScope) : M (R Inst) :=
  let! lock := previous in
  let! identifer := consumeIdentifierThrow
    "Expected identifier following lock keyword." (Decl CLock) in
  let! to := consumeTokenThrow
    ("Expected keyword " +:+ q "to" +:+ " following lock.")
    (Decl CLock) [TokenType.to] in
  let! valueResult := call (m_expression (Some (Decl CLock))) in
  let! _ := terminal (Decl CLock) in
  ret (nodeResult (DeclLock lock identifer to (value valueResult) scope)
         [errors valueResult]).

(* parse a variable declaration, scoping occurs elseware *)
Definition declareVariable (scope : DeclScope) : M (R Inst) :=
  let! identifer := consumeIdentifierThrow "Expected identifier." (Decl CVar) in
  let! toIs := consumeTokenThrow
    ("Expected keyword " +:+ q "to" +:+ " or " +:+ q "is"
       +:+ " following declare.")
    (Decl CVar) [TokenType.to; TokenType.is_] in
  let! valueResult := call (m_expression (Some (Decl CVar))) in
  let! _ := terminal (Decl CVar) in
  ret (nodeResult (DeclVar identifer toIs (value valueResult) scope)
         [errors valueResult]).

(* parse instruction *)
Definition instruction : M (R Inst) :=
  let! t := peek in
  let! ty := typeOf t in
  match ty with
  | TokenType.curlyOpen =>
      let! _ := advance in call m_instructionBlock
  | TokenType.integer | TokenType.double | TokenType.true | TokenType.false
  | TokenType.identifier | TokenType.fileIdentifier | TokenType.bracketOpen
  | TokenType.string =>
      (* note we don't advance the token index here *)
      call m_identifierLedInstruction
  | TokenType.stage | TokenType.clearscreen | TokenType.preserve
  | TokenType.reboot | TokenType.shutdown =>
      let! _ := advance in call m_command
  | TokenType.edit | TokenType.add | TokenType.remove =>
      let! _ := advance in call m_commandExpression
  | TokenType.unset => let! _ := advance in call m_unset
  | TokenType.unlock => let! _ := advance in call m_unlock
  | TokenType.set => let! _ := advance in call m_set
  | TokenType.atSign => let! _ := advance in call m_lazyGlobal
  | TokenType.if_ => let! _ := advance in call m_ifInst
  | TokenType.until => let! _ := advance in call m_until
  | TokenType.from => let! _ := advance in call m_from
  | TokenType.when => let! _ := advance in call m_when
  | TokenType.return_ => let! _ := advance in call m_returnInst
  | TokenType.break => let! _ := advance in call m_breakInst
  | TokenType.switch => let! _ := advance in call m_switchInst
  | TokenType.for_ => let! _ := advance in call m_forInst
  | TokenType.on => let! _ := advance in call m_on
  | TokenType.toggle => let! _ := advance in call m_toggle
  | TokenType.wait => let! _ := advance in call m_wait
  | TokenType.log => let! _ := advance in call m_log
  | TokenType.copy => let! _ := advance in call m_copy
  | TokenType.rename => let! _ := advance in call m_rename
  | TokenType.delete => let! _ := advance in call m_delete
  | TokenType.run => let! _ := advance in call m_run
  | TokenType.runPath => let! _ := advance in call m_runPath
  | TokenType.runOncePath => let! _ := advance in call m_runPathOnce
  | TokenType.compile => let! _ := advance in call m_compile
  | TokenType.list => let! _ := advance in call m_list
  | TokenType.print => let! _ := advance in call m_print
  | TokenType.period =>
      let! period := advance in
      ret (nodeResult (InstEmpty period) [])
  | _ =>
      let! p := peek in
      throw (error p None "Unknown instruction found"
        ["Examples: " +:+ q ("print " +:+ q "hi") +:+ ", " +:+ q "LIST."
           +:+ ", " +:+ q ("RUN " +:+ q "example.ks")])
  end.

(** The loop of [instructionBlock]:
    [while (!this.check(TokenType.curlyClose) && !this.isAtEnd())]. *)
Definition instructionBlock_while (declarations : list Inst)
    (parseErrors : list ParseError) : M (list Inst * list ParseError) :=
  let! closing := check TokenType.curlyClose in
  if closing then ret (declarations, parseErrors)
  else
    let! atEnd := isAtEnd in
    if atEnd then ret (declarations, parseErrors)
    else
      let! r := call m_declaration in
      call (m_instructionBlock_while
              (declarations ++ [value r]) (parseErrors ++ errors r)).

(* parse a block of instructions *)
Definition instructionBlock : M (R Inst) :=
  let! open := previous in
  let! body := call (m_instructionBlock_while [] []) in
  (* check closing curly is found *)
  let! close := consumeTokenReturn
    ("Expected " +:+ q "}" +:+ " to finish instruction block")
    (Inst_ CBlock) [TokenType.curlyClose] in
  (* throw and bundle inner error if close not found *)
  match close with
  | inr close => throw (setInner close body.2)
  | inl None => fault (TypeError "Cannot read property 'tag' of undefined")
  | inl (Some close) =>
      ret (nodeResult (InstBlock open body.1 (Some close)) [body.2])
  end.

(* parse on off statement *)
Definition onOff (suffix : Expr) : M (R Inst) :=
  let! onOff := previous in
  let! _ := terminal (Inst_ COnOff) in
  ret (nodeResult (InstOnOff suffix onOff) []).

(* parse an instruction lead with a identifier *)
Definition identifierLedInstruction : M (R Inst) :=
  let! suffix := call (m_suffixCatch (Inst_ CExprInst)) in
  let! m := matchToken [TokenType.on; TokenType.off] in
  if m then
    let! onOff := call (m_onOff (value suffix)) in
    ret (nodeResult (value onOff) [errors suffix; errors onOff])
  else
    let! _ := terminal (Inst_ CExprInst) in
    ret (nodeResult (InstExpr (value suffix)) [errors suffix]).

(* parse command instruction *)
Definition command : M (R Inst) :=
  let! command := previous in
  let! _ := terminal (Inst_ CCommand) in
  ret (nodeResult (InstCommand command) []).

(* parse command instruction *)
Definition commandExpression : M (R Inst) :=
  let! command := previous in
  let! expr := call (m_expression (Some (Inst_ CCommandExpr))) in
  let! _ := terminal (Inst_ CCommandExpr) in
  ret (nodeResult (InstCommandExpr command (value expr)) [errors expr]).

(* parse unset instruction *)
Definition unset : M (R Inst) :=
  let! unset := previous in
  let! identifer := consumeTokenThrow
    ("Excpeted identifier or " +:+ q "all" +:+ " following keyword "
       +:+ q "unset" +:+ ".")
    (Inst_ CUnset) [TokenType.identifier; TokenType.all] in
  let! _ := terminal (Inst_ CUnset) in
  ret (nodeResult (InstUnset unset identifer) []).

(* parse unlock instruction *)
Definition unlock : M (R Inst) :=
  let! unlock := previous in
  let! identifer := consumeTokenThrow
    ("Excpeted identifier or " +:+ q "all" +:+ " following keyword "
       +:+ q "unlock" +:+ ".")
    (Inst_ CUnlock) [TokenType.identifier; TokenType.all] in
  let! _ := terminal (Inst_ CUnlock) in
  ret (nodeResult (InstUnlock unlock identifer) []).

(* parse set instruction *)
Definition set : M (R Inst) :=
  let! set := previous in
  let! suffix := call (m_suffixCatch (Inst_ CSet)) in
  let! to := consumeTokenThrow
    ("Expected " +:+ q "to" +:+ " following keyword " +:+ q "set" +:+ ".")
    (Inst_ CSet) [TokenType.to] in
  let! valueResult := call (m_expression (Some (Inst_ CSet))) in
  let! _ := terminal (Inst_ CSet) in
  ret (nodeResult (InstSet set (value suffix) to (value valueResult))
         [errors suffix; errors valueResult]).

(* parse lazy global *)
Definition lazyGlobal : M (R Inst) :=
  let! atSign := previous in
  let! lazyGlobal := consumeTokenThrow
    ("Expected keyword " +:+ q "lazyGlobal" +:+ " following @.")
    (Inst_ CLazyGlobal) [TokenType.lazyGlobal] in
  let! onOff := consumeTokenThrow
    ("Expected " +:+ q "on" +:+ " or " +:+ q "off"
       +:+ " following lazy global directive.")
    (Inst_ CLazyGlobal) [TokenType.on; TokenType.off] in
  let! _ := terminal (Inst_ CLazyGlobal) in
  ret (nodeResult (InstLazyGlobal atSign lazyGlobal onOff) []).

(* parse if instruction *)
Definition ifInst : M (R Inst) :=
  let! ifToken := previous in
  let! conditionResult := call (m_expression (Some (Inst_ CIf))) in
  let! inst := call m_declaration in
  let! _ := matchToken [TokenType.period] in
  (* if else if found parse that branch *)
  let! m := matchToken [TokenType.else_] in
  if m then
    let! elseToken := previous in
    let! elseResult := call m_declaration in
    let elseInst := InstElse elseToken (value elseResult) in
    let! _ := matchToken [TokenType.period] in
    ret (nodeResult
           (InstIf ifToken (value conditionResult) (value inst) (Some elseInst))
           [errors conditionResult; errors inst; errors elseResult])
  else
    ret (nodeResult (InstIf ifToken (value conditionResult) (value inst) None)
           [errors inst]).

(* parse until instruction *)
Definition until : M (R Inst) :=
  let! until := previous in
  let! conditionResult := call (m_expression (Some (Inst_ CUntil))) in
  let! inst := call m_declaration in
  let! _ := matchToken [TokenType.period] in
  ret (nodeResult (InstUntil until (value conditionResult) (value inst))
         [errors conditionResult; errors inst]).

Definition fromExample : string :=
  "Example: FROM {LOCAL x is 0.} UNTIL x >= 10 STEP { set x to x + 1. } { print x. }".

(* parse from instruction *)
Definition from : M (R Inst) :=
  let! from := previous in
  let! m := matchToken [TokenType.curlyOpen] in
  if m then
    let! initResult := call m_instructionBlock in
    let! until := consumeTokenThrow
      ("Expected " +:+ q "until" +:+ " expression following from.")
      (Inst_ CFrom) [TokenType.until] in
    let! conditionResult := call (m_expression (Some (Inst_ CFrom))) in
    let! step := consumeTokenThrow
      ("Expected " +:+ q "step" +:+ " statment following until.")
      (Inst_ CFrom) [TokenType.step] in
    let! m := matchToken [TokenType.curlyOpen] in
    if m then
      let! incrementResult := call m_instructionBlock in
      let! doToken := consumeTokenThrow
        ("Expected " +:+ q "do" +:+ " block following step.")
        (Inst_ CFrom) [TokenType.do] in
      let! inst := call m_declaration in
      ret (nodeResult
             (InstFrom from (value initResult) until (value conditionResult)
                step (value incrementResult) doToken (value inst))
             [errors initResult; errors conditionResult;
              errors incrementResult; errors inst])
    else
      let! p := peek in
      throw (error p (Some (Inst_ CFrom))
        ("Expected " +:+ q "{" +:+ " followed by step block logic.")
        [fromExample])
  else
    let! p := peek in
    throw (error p (Some (Inst_ CFrom))
      ("Expected " +:+ q "{" +:+ " followed by initializer logic")
      [fromExample]).

(* parse when instruction *)
Definition when : M (R Inst) :=
  let! when := previous in
  let! conditionResult := call (m_expression (Some (Inst_ CWhen))) in
  let! then_ := consumeTokenThrow
    ("Expected " +:+ q "then" +:+ " following " +:+ q "when" +:+ " condition.")
    (Inst_ CWhen) [TokenType.then_] in
  let! inst := call m_declaration in
  let! _ := matchToken [TokenType.period] in
  ret (nodeResult (InstWhen when (value conditionResult) then_ (value inst))
         [errors conditionResult; errors inst]).

(* parse return instruction *)
Definition returnInst : M (R Inst) :=
  let! returnToken := previous in
  let! isPeriod := check TokenType.period in
  let! valueResult :=
    (if negb isPeriod then
       let! r := call (m_expression (Some (Inst_ CReturn))) in ret (Some r)
     else ret None) in
  let! _ := terminal (Inst_ CReturn) in
  match valueResult with
  | None => ret (nodeResult (InstReturn returnToken None) [])
  | Some valueResult =>
      ret (nodeResult (InstReturn returnToken (Some (value valueResult)))
             [errors valueResult])
  end.

(* parse return instruction *)
Definition breakInst : M (R Inst) :=
  let! breakToken := previous in
  let! _ := terminal (Inst_ CBreak) in
  ret (nodeResult (InstBreak breakToken) []).

(* parse switch instruction *)
Definition switchInst : M (R Inst) :=
  let! switchToken := previous in
  let! to := consumeTokenThrow
    ("Expected " +:+ q "to" +:+ " following keyword " +:+ q "switch" +:+ ".")
    (Inst_ CSwitch) [TokenType.to] in
  let! targetResult := call (m_expression (Some (Inst_ CSwitch))) in
  let! _ := terminal (Inst_ CSwitch) in
  ret (nodeResult (InstSwitch switchToken to (value targetResult))
         [errors targetResult]).

(* parse for instruction *)
Definition forInst : M (R Inst) :=
  let! forToken := previous in
  let! identifer := consumeIdentifierThrow
    ("Expected identifier. following keyword " +:+ q "for") (Inst_ CFor) in
  let! inToken := consumeTokenThrow
    ("Expected " +:+ q "in" +:+ " after " +:+ q "for" +:+ " loop variable.")
    (Inst_ CFor) [TokenType.in_] in
  let! suffix := call (m_suffixCatch (Inst_ CFor)) in
  let! inst := call m_declaration in
  let! _ := matchToken [TokenType.period] in
  ret (nodeResult
         (InstFor forToken identifer inToken (value suffix) (value inst))
         [errors suffix; errors inst]).

(* parse on instruction *)
Definition on : M (R Inst) :=
  let! on := previous in
  let! suffix := call (m_suffixCatch (Inst_ COn)) in
  let! inst := call m_declaration in
  ret (nodeResult (InstOn on (value suffix) (value inst))
         [errors suffix; errors inst]).

(* parse toggle instruction *)
Definition toggle : M (R Inst) :=
  let! toggle := previous in
  let! suffix := call (m_suffixCatch (Inst_ CToggle)) in
  let! _ := terminal (Inst_ CToggle) in
  ret (nodeResult (InstToggle toggle (value suffix)) [errors suffix]).

(* parse wait instruction *)
Definition wait : M (R Inst) :=
  let! wait := previous in
  let! m := matchToken [TokenType.until] in
  let! until := (if m then previous else ret None) in
  let! expr := call (m_expression (Some (Inst_ CWait))) in
  let! _ := terminal (Inst_ CWait) in
  ret (nodeResult (InstWait wait (value expr) until) [errors expr]).

(* parse log instruction *)
Definition log : M (R Inst) :=
  let! log := previous in
  let! expr := call (m_expression (Some (Inst_ CLog))) in
  let! to := consumeTokenThrow
    ("Expected " +:+ q "to" +:+ " following " +:+ q "log" +:+ " expression.")
    (Inst_ CLog) [TokenType.to] in
  let! targetResult := call (m_expression (Some (Inst_ CLog))) in
  let! _ := terminal (Inst_ CLog) in
  ret (nodeResult (InstLog log (value expr) to (value targetResult))
         [errors expr; errors targetResult]).

(* parse copy instruction *)
Definition copy : M (R Inst) :=
  let! copy := previous in
  let! expr := call (m_expression (Some (Inst_ CCopy))) in
  let! toFrom := consumeTokenThrow
    ("Expected " +:+ q "to" +:+ " or " +:+ q "from" +:+ " following "
       +:+ q "copy" +:+ " expression.")
    (Inst_ CCopy) [TokenType.from; TokenType.to] in
  let! targetResult := call (m_expression (Some (Inst_ CCopy))) in
  let! _ := terminal (Inst_ CCopy) in
  ret (nodeResult (InstCopy copy (value expr) toFrom (value targetResult))
         [errors expr; errors targetResult]).

(* parse rename instruction *)
Definition rename : M (R Inst) :=
  let! rename := previous in
  let! fileVolume := consumeTokenThrow
    ("Expected file or volume following keyword " +:+ q "rename")
    (Inst_ CRename) [TokenType.volume; TokenType.file] in
  let! ioIdentifier := consumeTokenThrow
    ("Expected identifier or file identifier following keyword " +:+ q "rename")
    (Inst_ CRename) [TokenType.identifier; TokenType.fileIdentifier] in
  let! expr := call (m_expression (Some (Inst_ CRename))) in
  let! to := consumeTokenThrow
    ("Expected " +:+ q "to" +:+ " following keyword " +:+ q "rename" +:+ ".")
    (Inst_ CRename) [TokenType.to] in
  let! targetResult := call (m_expression (Some (Inst_ CRename))) in
  let! _ := terminal (Inst_ CRename) in
  ret (nodeResult
         (InstRename rename fileVolume ioIdentifier (value expr) to
            (value targetResult))
         [errors expr; errors targetResult]).

(* parse delete instruction *)
Definition delete : M (R Inst) :=
  let! deleteToken := previous in
  let! expr := call (m_expression (Some (Inst_ CDelete))) in
  let! m := matchToken [TokenType.from] in
  if m then
    let! from := previous in
    let! targetResult := call (m_expression (Some (Inst_ CDelete))) in
    let! _ := terminal (Inst_ CDelete) in
    ret (nodeResult
           (InstDelete deleteToken (value expr) from (Some (value targetResult)))
           [errors expr; errors targetResult])
  else
    let! _ := terminal (Inst_ CDelete) in
    ret (nodeResult (InstDelete deleteToken (value expr) None None)
           [errors expr]).

(* parse run instruction *)
Definition run : M (R Inst) :=
  let! run := previous in
  let! m := matchToken [TokenType.once] in
  let! once := (if m then previous else ret None) in
  let! identifier := consumeTokenThrow
    ("Expected string or fileidentifier following keyword " +:+ q "run" +:+ ".")
    (Inst_ CRun)
    [TokenType.string; TokenType.identifier; TokenType.fileIdentifier] in
  (* parse arguments if found *)
  let! m := matchToken [TokenType.bracketOpen] in
  let! bracket :=
    (if m then
       let! open := previous in
       let! args := call m_arguments in
       let! close := consumeTokenThrow
         ("Expected " +:+ q ")" +:+ " after " +:+ q "run" +:+ " arguments.")
         (Inst_ CRun) [TokenType.bracketClose] in
       ret (open, Some args, close)
     else ret (None, None, None)) in
  let open := bracket.1.1 in
  let close := bracket.2 in
  (* parse arguments if found *)
  let! m := matchToken [TokenType.on] in
  let! onPart :=
    (if m then
       let! on := previous in
       let! args := call m_arguments in
       let! expr := call (m_expression (Some (Inst_ CRun))) in
       ret (on, Some args, Some expr)
     else ret (None, bracket.1.2, None)) in
  let on := onPart.1.1 in
  let args := onPart.1.2 in
  let expr := onPart.2 in
  let! _ := terminal (Inst_ CRun) in
  (* handle all the cases *)
  match expr, args with
  | None, None =>
      addRunInst (InstRun run identifier once open None close on None) []
  | None, Some args =>
      addRunInst
        (InstRun run identifier once open (Some (value args)) close on None)
        [errors args]
  | Some expr, None =>
      addRunInst
        (InstRun run identifier once open None close on (Some (value expr)))
        [errors expr]
  | Some expr, Some args =>
      addRunInst
        (InstRun run identifier once open (Some (value args)) close on
           (Some (value expr)))
        [errors args; errors expr]
  end.

(* parse run path instruction *)
Definition runPath : M (R Inst) :=
  let! runPath := previous in
  let! open := consumeTokenThrow
    ("Expected " +:+ q "(" +:+ " after keyword " +:+ q "runPath" +:+ ".")
    (Inst_ CRunPath) [TokenType.bracketOpen] in
  let! expr := call (m_expression (Some (Inst_ CRunPath))) in
  let! m := matchToken [TokenType.comma] in
  let! args :=
    (if m then let! a := call m_arguments in ret (Some a) else ret None) in
  let! close := consumeTokenThrow
    ("Expected " +:+ q ")" +:+ " after runPath arguments.")
    (Inst_ CRunPath) [TokenType.bracketClose] in
  let! _ := terminal (Inst_ CRunPath) in
  match args with
  | None =>
      addRunInst (InstRunPath runPath open (value expr) close None)
        [errors expr]
  | Some args =>
      addRunInst (InstRunPath runPath open (value expr) close (Some (value args)))
        [errors expr; errors args]
  end.

(* parse run path once instruction *)
Definition runPathOnce : M (R Inst) :=
  let! runPath := previous in
  let! open := consumeTokenThrow
    ("Expected " +:+ q "(" +:+ " after keyword " +:+ q "runPathOnce" +:+ ".")
    (Inst_ CRunPathOnce) [TokenType.bracketOpen] in
  let! expr := call (m_expression (Some (Inst_ CRunPathOnce))) in
  let! m := matchToken [TokenType.comma] in
  let! args :=
    (if m then let! a := call m_arguments in ret (Some a) else ret None) in
  let! close := consumeTokenThrow
    ("Expected " +:+ q ")" +:+ " after runPathOnce arugments.")
    (Inst_ CRunPathOnce) [TokenType.bracketClose] in
  let! _ := terminal (Inst_ CRunPathOnce) in
  match args with
  | None =>
      addRunInst (InstRunPathOnce runPath open (value expr) close None)
        [errors expr]
  | Some args =>
      addRunInst
        (InstRunPathOnce runPath open (value expr) close (Some (value args)))
        [errors expr; errors args]
  end.

(* parse compile instruction *)
Definition compile : M (R Inst) :=
  let! compile := previous in
  let! expr := call (m_expression (Some (Inst_ CCompile))) in
  let! m := matchToken [TokenType.to] in
  if m then
    let! to := previous in
    let! targetResult := call (m_expression (Some (Inst_ CCompile))) in
    let! _ := terminal (Inst_ CCompile) in
    ret (nodeResult
           (InstCompile compile (value expr) to (Some (value targetResult)))
           [errors expr; errors targetResult])
  else
    let! _ := terminal (Inst_ CCompile) in
    ret (nodeResult (InstCompile compile (value expr) None None) [errors expr]).

(* parse list instruction *)
Definition list_ : M (R Inst) :=
  let! list := previous in
  let! m := matchIdentifier in
  let! parts :=
    (if m then
       let! identifier := previous in
       let! m := matchToken [TokenType.in_] in
       if m then
         let! inToken := previous in
         let! target := consumeIdentifierThrow
           ("Expected identifier after " +:+ q "in" +:+ " keyword in "
              +:+ q "list" +:+ " command")
           (Inst_ CList) in
         ret (identifier, inToken, target)
       else ret (identifier, None, None)
     else ret (None, None, None)) in
  let! _ := terminal (Inst_ CList) in
  ret (nodeResult (InstList list parts.1.1 parts.1.2 parts.2) []).

(* parse print instruction *)
Definition print : M (R Inst) :=
  let! print := previous in
  let! expr := call (m_expression (Some (Inst_ CPrint))) in
  let! m := matchToken [TokenType.at_] in
  if m then
    let! at_ := previous in
    let! open := consumeTokenThrow
      ("Expected " +:+ q "(" +:+ ".") (Inst_ CPrint) [TokenType.bracketOpen] in
    let! xResult := call (m_expression (Some (Inst_ CPrint))) in
    let! _ := consumeTokenThrow
      ("Expected " +:+ q "," +:+ ".") (Inst_ CPrint) [TokenType.comma] in
    let! yResult := call (m_expression (Some (Inst_ CPrint))) in
    let! close := consumeTokenThrow
      ("Expected " +:+ q ")" +:+ ".") (Inst_ CPrint) [TokenType.bracketClose] in
    let! _ := terminal (Inst_ CPrint) in
    ret (nodeResult
           (InstPrint print (value expr) at_ open (Some (value xResult))
              (Some (value yResult)) close)
           [errors expr; errors xResult; errors yResult])
  else
    let! _ := terminal (Inst_ CPrint) in
    ret (nodeResult (InstPrint print (value expr) None None None None None)
           [errors expr]).

(* parse any expression *)
Definition expression (inst : Maybe NodeConstructor) : M (R Expr) :=
  tryCatch
    ((* match anonymous function *)
     let! m := matchToken [TokenType.curlyOpen] in
     if m then call m_anonymousFunction
     else (* other match conditional *) call m_or)
    (fun error => throw (setFailedInst error inst)).

(** The loop of [binaryExpression]: [while (this.matchToken(...types))]. *)
Definition binaryExpression_while (recurse : Method (R Expr))
    (types : list TokenType.t) (expr : R Expr) : M (R Expr) :=
  let! m := matchToken types in
  if m then
    let! operator := previous in
    let! right := call recurse in
    call (m_binaryExpression_while recurse types
            (nodeResult (ExprBinary (value expr) operator (value right))
               [errors expr; errors right]))
  else ret expr.

(* binary expression parser *)
Definition binaryExpression (recurse : Method (R Expr))
    (types : list TokenType.t) : M (R Expr) :=
  let! expr := call recurse in
  call (m_binaryExpression_while recurse types expr).

(* parse or expression *)
Definition or_ : M (R Expr) :=
  call (m_binaryExpression m_and [TokenType.or]).

(* parse and expression *)
Definition and_ : M (R Expr) :=
  call (m_binaryExpression m_equality [TokenType.and]).

(* parse equality expression *)
Definition equality : M (R Expr) :=
  call (m_binaryExpression m_comparison [TokenType.equal; TokenType.notEqual]).

(* parse comparison expression *)
Definition comparison : M (R Expr) :=
  call (m_binaryExpression m_addition
          [TokenType.less; TokenType.greater;
           TokenType.lessEqual; TokenType.greaterEqual]).

(* parse addition expression *)
Definition addition : M (R Expr) :=
  call (m_binaryExpression m_multiplication [TokenType.plus; TokenType.minus]).

(* parse multiplication expression *)
Definition multiplication : M (R Expr) :=
  call (m_binaryExpression m_unary [TokenType.multi; TokenType.div]).

(* parse unary expression *)
Definition unary : M (R Expr) :=
  (* if unary token found parse as unary *)
  let! m := matchToken
    [TokenType.plus; TokenType.minus; TokenType.not; TokenType.defined] in
  if m then
    let! operator := previous in
    let! unary := call m_unary in
    ret (nodeResult (ExprUnary operator (value unary)) [errors unary])
  else
    (* else parse plain factor *)
    call m_factor.

(** The loop of [factor]: [while (this.matchToken(TokenType.power))]. *)
Definition factor_while (expr : R Expr) : M (R Expr) :=
  let! m := matchToken [TokenType.power] in
  if m then
    let! power := previous in
    let! exponenent := call m_suffix in
    call (m_factor_while
            (nodeResult (ExprFactor (value expr) power (value exponenent))
               [errors exponenent]))
  else ret expr.

(* parse factor expression *)
Definition factor : M (R Expr) :=
  let! expr := call m_suffix in
  call (m_factor_while expr).

(* parse suffix for use in inst directly, will catch *)
Definition suffixCatch (inst : NodeConstructor) : M (R Expr) :=
  tryCatch (call m_suffix)
    (fun error => throw (setFailedInst error (Some inst))).

(** The loop of [suffix]: [while (this.matchToken(TokenType.colon))]. *)
Definition suffix_while (expr : R Expr) : M (R Expr) :=
  let! m := matchToken [TokenType.colon] in
  if m then
    let! trailer := call (m_suffixTrailer (value expr)) in
    call (m_suffix_while
            (nodeResult (value trailer) [errors expr; errors trailer]))
  else ret expr.

(* parse suffix *)
Definition suffix : M (R Expr) :=
  let! expr := call (m_suffixTerm false) in
  call (m_suffix_while expr).

(* parse suffix trailer expression *)
Definition suffixTrailer (suffix : Expr) : M (R Expr) :=
  let! colon := previous in
  let! trailer := call (m_suffixTerm true) in
  ret (nodeResult (ExprSuffix suffix colon (value trailer)) [errors trailer]).

(** The loop of [suffixTerm]: [while (true)]. *)
Definition suffixTerm_while (isTrailer : bool) (expr : R Expr) : M (R Expr) :=
  let! m := matchToken [TokenType.arrayIndex] in
  if m then
    let! index := call (m_arrayIndex (value expr) isTrailer) in
    call (m_suffixTerm_while isTrailer
            (nodeResult (value index) [errors expr; errors index]))
  else
  let! m := matchToken [TokenType.squareOpen] in
  if m then
    let! bracket := call (m_arrayBracket (value expr) isTrailer) in
    call (m_suffixTerm_while isTrailer
            (nodeResult (value bracket) [errors expr; errors bracket]))
  else
  let! m := matchToken [TokenType.bracketOpen] in
  if m then
    let! trailer := call (m_functionTrailer (value expr) isTrailer) in
    call (m_suffixTerm_while isTrailer
            (nodeResult (value trailer) [errors expr; errors trailer]))
  else
  let! m := matchToken [TokenType.atSign] in
  if m then
    let! atSign := previous in
    ret (nodeResult (ExprDelegate (value expr) atSign isTrailer) [errors expr])
  else ret expr.

(* parse suffix term expression *)
Definition suffixTerm (isTrailer : bool) : M (R Expr) :=
  (* parse primary *)
  let! expr := call (m_atom isTrailer) in
  (* parse any trailers that exist *)
  call (m_suffixTerm_while isTrailer expr).

(* function call *)
Definition functionTrailer (callee : Expr) (isTrailer : bool) : M (R Expr) :=
  let! open := previous in
  let! args := call m_arguments in
  let! close := consumeTokenThrow
    ("Expect " +:+ q ")" +:+ " after arguments.")
    (Expr_ CCall) [TokenType.bracketClose] in
  ret (nodeResult (ExprCall callee open (value args) close isTrailer)
         [errors args]).

(** The loop of [arguments]: [do { ... } while (this.matchToken(TokenType.comma))]. *)
Definition arguments_do (args : list Expr) (errs : list (list ParseError))
    : M (R (list Expr)) :=
  let! arg := call (m_expression None) in
  let args := args ++ [value arg] in
  let errs := errs ++ [errors arg] in
  let! m := matchToken [TokenType.comma] in
  if m then call (m_arguments_do args errs)
  else ret (nodeResult args errs).

(* get an argument list *)
Definition arguments : M (R (list Expr)) :=
  let! atEnd := isAtEnd in
  if atEnd then ret (nodeResult [] [])
  else
    let! closing := check TokenType.bracketClose in
    if closing then ret (nodeResult [] [])
    else call (m_arguments_do [] []).

(* generate array bracket expression *)
Definition arrayBracket (array : Expr) (isTrailer : bool) : M (R Expr) :=
  let! open := previous in
  let! index := call (m_expression None) in
  let! close := consumeTokenThrow
    ("Expected " +:+ q "]" +:+ " at end of array index.")
    (Expr_ CArrayBracket) [TokenType.squareClose] in
  ret (nodeResult (ExprArrayBracket array open (value index) close isTrailer)
         [errors index]).

(* generate array index expression *)
Definition arrayIndex (array : Expr) (isTrailer : bool) : M (R Expr) :=
  let! indexer := previous in
  (* check for integer or identifier *)
  let! index := consumeTokenThrow "Expected integer or identifer."
    (Expr_ CArrayIndex) [TokenType.integer; TokenType.identifier] in
  ret (nodeResult (ExprArrayIndex array indexer index isTrailer) []).

(** The loop of [anonymousFunction]:
    [while (!this.check(TokenType.curlyClose) && !this.isAtEnd())]. *)
Definition anonymousFunction_while (declarations : list Inst)
    (parseErrors : list ParseError) : M (list Inst * list ParseError) :=
  let! closing := check TokenType.curlyClose in
  if closing then ret (declarations, parseErrors)
  else
    let! atEnd := isAtEnd in
    if atEnd then ret (declarations, parseErrors)
    else
      let! r := call m_declaration in
      call (m_anonymousFunction_while
              (declarations ++ [value r]) (parseErrors ++ errors r)).

(* parse anonymous function *)
Definition anonymousFunction : M (R Expr) :=
  let! open := previous in
  let! body := call (m_anonymousFunction_while [] []) in
  (* check closing curly is found *)
  let! close := consumeTokenThrow
    ("Expected " +:+ q "}" +:+ " to finish instruction block")
    (Expr_ CAnonymousFunction) [TokenType.curlyClose] in
  (* if inner errors found bundle and throw *)
  if (0 <? length body.2)%nat then
    throw (setInner
             (error open (Some (Expr_ CAnonymousFunction))
                "Error found in this block." [])
             body.2)
  else
    ret (nodeResult (ExprAnonymousFunction open body.1 close) [body.2]).

(* match atom expressions literals, identifers, list, and parenthesis *)
Definition atom (isTrailer : bool) : M (R Expr) :=
  (* match all literals *)
  let! m := matchToken
    [TokenType.false; TokenType.true; TokenType.fileIdentifier;
     TokenType.string; TokenType.integer; TokenType.double] in
  if m then
    let! p := previous in
    ret (nodeResult (ExprLiteral p isTrailer) [])
  else
  (* match identifiers *)
  let! t := peek in
  let! ty := typeOf t in
  if isValidIdentifier ty then
    let! a := advance in
    ret (nodeResult (ExprVariable a isTrailer) [])
  else
  (* match grouping expression *)
  let! m := matchToken [TokenType.bracketOpen] in
  if m then
    let! open := previous in
    let! expr := call (m_expression None) in
    let! close := consumeTokenThrow
      ("Expect " +:+ q ")" +:+ " after expression")
      (Expr_ CGrouping) [TokenType.bracketClose] in
    ret (nodeResult (ExprGrouping open (value expr) close isTrailer)
           [errors expr])
  else
    (* valid expression not found *)
    let! p := peek in
    throw (error p None "Expected expression." []).

(** One unfolding of every method against [this]. *)
Definition step : Methods :=
  fun A m =>
    match m in Method A return M A with
    | m_parse_while instructions parseErrors =>
        parse_while instructions parseErrors
    | m_declaration => declaration
    | m_synchronize_while => synchronize_while
    | m_define => define
    | m_declareFunction scope => declareFunction scope
    | m_declareParameter scope => declareParameter scope
    | m_declareNormalParameters => declareNormalParameters
    | m_declareNormalParameters_do ps => declareNormalParameters_do ps
    | m_declaredDefaultedParameters => declaredDefaultedParameters
    | m_declaredDefaultedParameters_do ps errs =>
        declaredDefaultedParameters_do ps errs
    | m_declareLock scope => declareLock scope
    | m_declareVariable scope => declareVariable scope
    | m_instruction => instruction
    | m_instructionBlock => instructionBlock
    | m_instructionBlock_while ds errs => instructionBlock_while ds errs
    | m_identifierLedInstruction => identifierLedInstruction
    | m_onOff suffix => onOff suffix
    | m_command => command
    | m_commandExpression => commandExpression
    | m_unset => unset
    | m_unlock => unlock
    | m_set => set
    | m_lazyGlobal => lazyGlobal
    | m_ifInst => ifInst
    | m_until => until
    | m_from => from
    | m_when => when
    | m_returnInst => returnInst
    | m_breakInst => breakInst
    | m_switchInst => switchInst
    | m_forInst => forInst
    | m_on => on
    | m_toggle => toggle
    | m_wait => wait
    | m_log => log
    | m_copy => copy
    | m_rename => rename
    | m_delete => delete
    | m_run => run
    | m_runPath => runPath
    | m_runPathOnce => runPathOnce
    | m_compile => compile
    | m_list => list_
    | m_print => print
    | m_expression inst => expression inst
    | m_or => or_
    | m_and => and_
    | m_equality => equality
    | m_comparison => comparison
    | m_addition => addition
    | m_multiplication => multiplication
    | m_binaryExpression recurse types => binaryExpression recurse types
    | m_binaryExpression_while recurse types e =>
        binaryExpression_while recurse types e
    | m_unary => unary
    | m_factor => factor
    | m_factor_while e => factor_while e
    | m_suffixCatch inst => suffixCatch inst
    | m_suffix => suffix
    | m_suffix_while e => suffix_while e
    | m_suffixTrailer s => suffixTrailer s
    | m_suffixTerm isTrailer => suffixTerm isTrailer
    | m_suffixTerm_while isTrailer e => suffixTerm_while isTrailer e
    | m_functionTrailer callee isTrailer => functionTrailer callee isTrailer
    | m_arguments => arguments
    | m_arguments_do args errs => arguments_do args errs
    | m_arrayBracket array isTrailer => arrayBracket array isTrailer
    | m_arrayIndex array isTrailer => arrayIndex array isTrailer
    | m_anonymousFunction => anonymousFunction
    | m_anonymousFunction_while ds errs => anonymousFunction_while ds errs
    | m_atom isTrailer => atom isTrailer
    end.

End Bodies.

(** [exec fuel] runs the methods with a call stack of depth at most
    [fuel]; a deeper call ends in [Timeout]. *)
Fixpoint exec (fuel : nat) : Methods :=
  match fuel with
  | 0 => fun _ _ _ => Timeout
  | S fuel => step (exec fuel)
  end.

Definition initial : PState := mkState 0 [] [].

Definition emptyResult : ParseResult.t := ParseResult.mk [] [] (mkScript []).

(** What [parse] hands back, and whether it went through its [catch]
    (which logs the error before returning the empty result). *)
Record ParseRun := mkParseRun {
  result : ParseResult.t;
  logged : Maybe string;
  final : PState;
}.

(* parse tokens *)
Definition parseWith (fuel : nat) : Maybe ParseRun :=
  match exec fuel _ (m_parse_while [] []) initial with
  | Ret r s => Some (mkParseRun r None s)
  | Throw e s => Some (mkParseRun emptyResult (Some "Error occured in parser") s)
  | Fault err s => Some (mkParseRun emptyResult (Some "Error occured in parser") s)
  | Timeout => None
  end.

(* testing function / utility *)
Definition parseInstruction (fuel : nat) : M (R Inst) :=
  exec fuel _ m_declaration.

(* testing function / utility *)
Definition parseExpression (fuel : nat) : M (R Expr) :=
  tryCatch (exec fuel _ (m_expression None))
    (fun error =>
       let! _ := synchronize (exec fuel) (failed error) in
       let! stop := getCurrent in
       ret (mkResult (ExprInvalid (slice 0 stop)) [error])).

End Methods.

(* generate a placholder token as a fake end of file *)
Definition eof (tokens : list Token) : Token :=
  match last tokens with
  | None =>
      newToken TokenType.eof "" None (mkMarker 0 0) (mkMarker 0 1) ""
  | Some last =>
      newToken TokenType.eof "" None
        (mkMarker (line (end_ last) + 1) 0)
        (mkMarker (line (end_ last) + 1) 1)
        (uri last)
  end.

(** The constructor: [this.tokens = tokens.concat(this.eof(tokens))]. *)
Definition constructTokens (tokens : list Token) : list Token :=
  tokens ++ [eof tokens].

(** ** The statements of a script

    What the statement loop of [parse] does, turn by turn: the [try]
    block of [declaration] either returns a statement, or throws a parse
    error, after which [synchronize] skips to a statement boundary and
    the statement is replaced by an [Invalid] node over the tokens
    from its first to the boundary. *)

Inductive Attempt :=
| Parsed (from to : nat) (node : INodeResult Inst)
| Failed (from to : nat) (error : ParseError).

Definition didFail (a : Attempt) : bool :=
  match a with Parsed _ _ _ => false | Failed _ _ _ => true end.

Section Statements.

Variable tokens : list Token.
Variable isValidIdentifier : TokenType.t -> bool.
Variable declPrototype : DeclClass -> Prototype.

Definition attemptNode (a : Attempt) : Inst :=
  match a with
  | Parsed _ _ node => value node
  | Failed from to _ => InstInvalid (slice tokens from to)
  end.

Definition attemptErrors (a : Attempt) : list ParseError :=
  match a with
  | Parsed _ _ node => errors node
  | Failed _ _ error => [error]
  end.

Abbreviation execute := (exec tokens isValidIdentifier declPrototype) (only parsing).

Inductive Statements : PState -> list Attempt -> PState -> Prop :=
| statements_end s s' :
    isAtEnd tokens s = Ret true s' ->
    Statements s [] s'
| statements_parsed s s0 fuel node s1 rest s' :
    isAtEnd tokens s = Ret false s0 ->
    declarationTry tokens (execute fuel) s0 = Ret node s1 ->
    Statements s1 rest s' ->
    Statements s (Parsed (current s0) (current s1) node :: rest) s'
| statements_failed s s0 fuel error s1 s2 rest s' :
    isAtEnd tokens s = Ret false s0 ->
    declarationTry tokens (execute fuel) s0 = Throw error s1 ->
    synchronize tokens (execute fuel) (failed error) s1 = Ret tt s2 ->
    Statements s2 rest s' ->
    Statements s (Failed (current s0) (current s2) error :: rest) s'.

End Statements.

(** The tokens a turn of the statement loop went over: from the first,
    up to the one the next turn starts on. *)
Definition span (a : Attempt) : nat * nat :=
  match a with
  | Parsed from to _ | Failed from to _ => (from, to)
  end.

(** The turns go over the tokens from [from] up to [to] one after the
    other, each over one token at least. *)
Fixpoint Tiles (from : nat) (attempts : list Attempt) (to : nat) : Prop :=
  match attempts with
  | [] => from = to
  | a :: rest =>
      (span a).1 = from /\ from < (span a).2 /\ Tiles (span a).2 rest to
  end.

(** [new Parser(tokens).parse()] *)
Definition parse (isValidIdentifier : TokenType.t -> bool)
    (declPrototype : DeclClass -> Prototype)
    (tokens : list Token) (fuel : nat) : Maybe ParseRun :=
  parseWith (constructTokens tokens) isValidIdentifier declPrototype fuel.

(** ** Contracts of the methods

    The vocabulary in which the behaviour of the methods is stated:
    what holds of the state when a call returns or throws. *)

(** [wp o QR QT QO]: the outcome [o] is a return satisfying [QR], a throw
    of a parse error satisfying [QT], or a timeout under [QO]; it is not
    another exception. *)
Definition wp {A} (o : outcome A) (QR : A -> PState -> Prop)
    (QT : ParseError -> PState -> Prop) (QO : Prop) : Prop :=
  match o with
  | Ret a s => QR a s
  | Throw e s => QT e s
  | Fault _ _ => False
  | Timeout => QO
  end.

Section Contracts.

Variable tokens : list Token.

(** The type of the token at index [i]; past the end of the array the
    parser is as good as at the end of file. *)
Definition typeAt (i : nat) : TokenType.t :=
  match tokens !! i with
  | Some t => type t
  | None => TokenType.eof
  end.

(** A read of the token array hits a token. *)
Definition inBounds (r : Accessor * Z) : Prop :=
  (0 <= r.2 < Z.of_nat (length tokens))%Z.

(** What the parser keeps to: [peek] and [previous] read a token;
    [peekNext] looks one token ahead, at most one place past the end, and
    guards against what it finds there. *)
Definition readOk (r : Accessor * Z) : Prop :=
  match r.1 with
  | ByPeekNext => (0 <= r.2 <= Z.of_nat (length tokens))%Z
  | _ => inBounds r
  end.

(** The invariant of the parser object: the cursor is on a token, and
    every read of [peek] and [previous] so far was in bounds. *)
Definition Inv (s : PState) : Prop :=
  current s < length tokens /\ Forall readOk (reads s).

(** Tokens left before the last one. *)
Definition remaining (s : PState) : nat := length tokens - 1 - current s.

Definition started (s : PState) : Prop := 1 <= current s.

Definition live (s : PState) : Prop :=
  1 <= current s \/ typeAt (current s) <> TokenType.eof.

(** The tokens on which [instruction] starts an expression statement. *)
Definition atomStart (s : PState) : Prop :=
  typeAt (current s) ∈
    [TokenType.integer; TokenType.double; TokenType.true; TokenType.false;
     TokenType.identifier; TokenType.fileIdentifier; TokenType.bracketOpen;
     TokenType.string].

(** The tokens on which [declaration] calls [define]. *)
Definition declStart (s : PState) : Prop :=
  typeAt (current s) ∈
    [TokenType.declare; TokenType.local; TokenType.global;
     TokenType.parameter; TokenType.function; TokenType.lock].

(** Where a method may be called: most methods run after their keyword
    was consumed and take it back with [previous]. *)
Fixpoint pre {A} (m : Method A) (s : PState) : Prop :=
  match m with
  | m_parse_while _ _ | m_define | m_instruction => True
  | m_binaryExpression_while _ _ _ | m_factor_while _
  | m_suffix_while _ | m_suffixTerm_while _ _ => True
  | m_declaration | m_identifierLedInstruction
  | m_expression _ | m_or | m_and | m_equality | m_comparison
  | m_addition | m_multiplication | m_unary | m_factor
  | m_suffixCatch _ | m_suffix | m_suffixTerm _ | m_atom _ => live s
  | m_binaryExpression recurse _ => pre recurse s
  | _ => started s
  end.

(** What a return adds to "the cursor did not move back". *)
Definition extraR {A} (m : Method A) (s : PState) : A -> PState -> Prop :=
  match m in Method A return A -> PState -> Prop with
  | m_parse_while _ _ => fun _ s' => typeAt (current s') = TokenType.eof
  | m_declaration => fun _ s' =>
      typeAt (current s) <> TokenType.eof -> current s < current s'
  | m_define => fun r s' =>
      isInvalid (value r) = false /\ (declStart s -> current s < current s')
  | m_instruction => fun r s' =>
      isInvalid (value r) = false /\ current s < current s'
  | m_identifierLedInstruction => fun r s' =>
      isInvalid (value r) = false /\
      (typeAt (current s) <> TokenType.eof -> current s < current s')
  | m_suffixCatch _ | m_suffix | m_suffixTerm _ | m_atom _ => fun _ s' =>
      typeAt (current s) <> TokenType.eof -> current s < current s'
  | m_declareFunction _ | m_declareParameter _ | m_declareLock _
  | m_declareVariable _ | m_instructionBlock | m_onOff _ | m_command
  | m_commandExpression | m_unset | m_unlock | m_set | m_lazyGlobal
  | m_ifInst | m_until | m_from | m_when | m_returnInst | m_breakInst
  | m_switchInst | m_forInst | m_on | m_toggle | m_wait | m_log | m_copy
  | m_rename | m_delete | m_run | m_runPath | m_runPathOnce | m_compile
  | m_list | m_print => fun r _ => isInvalid (value r) = false
  | _ => fun _ _ => True
  end.

(** What a throw adds to "the cursor did not move back". *)
Definition extraT {A} (m : Method A) (s : PState)
    : ParseError -> PState -> Prop :=
  match m with
  | m_parse_while _ _ | m_declaration | m_synchronize_while =>
      fun _ _ => False
  | m_define => fun _ s' => declStart s -> current s < current s'
  | m_instruction => fun e s' =>
      current s < current s' \/ inst (failed e) = None
  | m_identifierLedInstruction | m_suffixCatch _ | m_suffix
  | m_suffixTerm _ | m_atom _ => fun _ s' =>
      atomStart s -> current s < current s'
  | _ => fun _ _ => True
  end.

Definition postR {A} (m : Method A) (s : PState) (a : A) (s' : PState) : Prop :=
  Inv s' /\ current s <= current s' /\ extraR m s a s'.

Definition postT {A} (m : Method A) (s : PState) (e : ParseError)
    (s' : PState) : Prop :=
  Inv s' /\ current s <= current s' /\ extraT m s e s'.

(** The methods in the order in which they call each other without
    consuming a token in between: every such call goes to a method of
    lower rank. *)
Fixpoint rank {A} (m : Method A) : nat :=
  match m with
  | m_atom _ | m_arrayIndex _ _ | m_synchronize_while | m_onOff _ => 0
  | m_suffixTerm_while _ _ | m_declareNormalParameters_do _ => 1
  | m_suffixTerm _ | m_declareNormalParameters => 2
  | m_suffixTrailer _ => 3
  | m_suffix_while _ => 4
  | m_suffix => 5
  | m_suffixCatch _ | m_factor_while _ => 6
  | m_factor => 7
  | m_unary => 8
  | m_binaryExpression_while recurse _ _ => rank recurse + 1
  | m_binaryExpression recurse _ => rank recurse + 2
  | m_multiplication => 11
  | m_addition => 14
  | m_comparison => 17
  | m_equality => 20
  | m_and => 23
  | m_or => 26
  | m_expression _ => 27
  | m_arguments_do _ _ | m_arrayBracket _ _
  | m_declaredDefaultedParameters_do _ _ | m_identifierLedInstruction => 28
  | m_arguments | m_declaredDefaultedParameters | m_instruction => 29
  | m_functionTrailer _ _ | m_declareFunction _ | m_declareParameter _
  | m_declareLock _ | m_declareVariable _ => 30
  | m_define => 31
  | m_declaration => 32
  | m_instructionBlock_while _ _ | m_anonymousFunction_while _ _ => 33
  | m_instructionBlock | m_anonymousFunction => 34
  | m_parse_while _ _ => 36
  | _ => 35
  end.

(** Calls that a method can stack up per token it consumes. *)
Definition depthPerToken : nat := 64.

(** A call stack this deep is enough for [m] started in [s]. *)
Definition enough {A} (m : Method A) (s : PState) : nat :=
  depthPerToken * remaining s + rank m.

(** The contract of [this]: called where it may be, with [fuel] to spend,
    every method keeps the invariant, does not move the cursor back, and
    times out only if [fuel] is not [enough]. *)
Definition Contract (this : Methods) (fuel : nat) : Prop :=
  forall A (m : Method A) s,
    Inv s -> pre m s ->
    wp (this _ m s) (postR m s) (postT m s) (fuel <= enough m s).

(** The goal of a method [m] whose body is [b], run with [fuel] left for
    the calls it makes. *)
Definition Meets (fuel : nat) {A} (m : Method A) (b : M A) : Prop :=
  forall s,
    Inv s -> pre m s ->
    wp (b s) (postR m s) (postT m s) (S fuel <= enough m s).

End Contracts.

#[global] Instance inBounds_dec tokens r : Decision (inBounds tokens r).
Proof. unfold inBounds. apply _. Defined.

(** ** Sample inputs *)

(** A choice for the two parameters of the model: only [identifier]
    tokens stand for identifiers, and every [Decl] class extends [Inst]. *)
Definition identifierOnly (ty : TokenType.t) : bool :=
  bool_decide (ty = TokenType.identifier).

Definition declAsInst (_ : DeclClass) : Prototype := ProtoInst.

Definition sampleToken (ty : TokenType.t) (lex : string) (col : nat) : Token :=
  newToken ty lex None (mkMarker 0 col) (mkMarker 0 (col + String.length lex))
    "file:///sample.ks".

(** [print(10).] *)
Definition printTen : list Token :=
  [sampleToken TokenType.print "print" 0;
   sampleToken TokenType.bracketOpen "(" 5;
   sampleToken TokenType.integer "10" 6;
   sampleToken TokenType.bracketClose ")" 8;
   sampleToken TokenType.period "." 9].

(** [parameter] *)
Definition loneParameter : list Token :=
  [sampleToken TokenType.parameter "parameter" 0].

Definition runOf (tokens : list Token) (fuel : nat) : ParseRun :=
  match parse identifierOnly declAsInst tokens fuel with
  | Some p => p
  | None => mkParseRun emptyResult None initial
  end.

Definition printTenRun : ParseRun := runOf printTen 400.

Definition loneParameterRun : ParseRun := runOf loneParameter 200.

End Parser.

(** * The symbol-table builder (analysis/symbolTableBuilder.ts) *)

Module SymbolTableBuilder.

(** ** Entities (parser/types.ts, analysis/types.ts, entities/) *)

Module ScopeType.
Inductive t := local | global.
End ScopeType.

Module KsSymbolKind.
Inductive t := variable | function | lock | parameter | suffix.
End KsSymbolKind.

Module SymbolState.
Inductive t := declared | used.
End SymbolState.

(** vscode-languageserver *)
Module DiagnosticSeverity.
Inductive t := Error | Warning | Information | Hint.
End DiagnosticSeverity.

#[global] Instance ScopeType_eq_dec : EqDecision ScopeType.t.
Proof. solve_decision. Defined.
#[global] Instance KsSymbolKind_eq_dec : EqDecision KsSymbolKind.t.
Proof. solve_decision. Defined.
#[global] Instance DiagnosticSeverity_eq_dec : EqDecision DiagnosticSeverity.t.
Proof. solve_decision. Defined.

Record Range := mkRange { rangeStart : Marker; rangeEnd : Marker }.

(** A token is a range: its [start] and [end]. *)
Definition rangeOf (t : Token) : Range := mkRange (start t) (end_ t).

Record Location := mkLocation { locationUri : string; locationRange : Range }.

Record DiagnosticRelatedInformation := mkRelated {
  relatedLocation : Location;
  relatedMessage : string;
}.

Record Diagnostic := mkDiagnostic {
  range : Range;
  message : string;
  severity : DiagnosticSeverity.t;
  relatedInformation : list DiagnosticRelatedInformation;
}.

(** Modelled from the spec: utilities/diagnosticsUtilities.ts is not among
    the sources.  [createDiagnostic(range, message, severity, code,
    relatedInformation)] builds a diagnostic of the shape the spec gives:
    range, message, severity, related information. *)
Definition createDiagnostic (r : Token) (msg : string)
    (sev : DiagnosticSeverity.t)
    (related : list DiagnosticRelatedInformation) : Diagnostic :=
  mkDiagnostic (rangeOf r) msg sev related.

Record KsParameter := mkKsParameter {
  parameterName : Token;
  defaulted : bool;
  state : SymbolState.t;
}.

(** [KsSymbol = KsVariable | KsFunction | KsLock | KsParameter] *)
Inductive KsSymbol :=
| KsVariable (scope : ScopeType.t) (name : Token)
| KsFunction (scope : ScopeType.t) (name : Token)
    (parameters : list KsParameter) (returnValue : bool)
| KsLock (scope : ScopeType.t) (name : Token)
| KsParam (p : KsParameter).

Definition tag (s : KsSymbol) : KsSymbolKind.t :=
  match s with
  | KsVariable _ _ => KsSymbolKind.variable
  | KsFunction _ _ _ _ => KsSymbolKind.function
  | KsLock _ _ => KsSymbolKind.lock
  | KsParam _ => KsSymbolKind.parameter
  end.

Definition name (s : KsSymbol) : Token :=
  match s with
  | KsVariable _ n | KsFunction _ n _ _ | KsLock _ n => n
  | KsParam p => parameterName p
  end.

(** Modelled from the spec: entities/entityHelpers.ts is not among the
    sources.  Its guards tell the four kinds of symbol apart: [isKsX]
    holds of the symbols of kind X. *)
Definition isKsVariable (s : KsSymbol) : bool :=
  bool_decide (tag s = KsSymbolKind.variable).
Definition isKsLock (s : KsSymbol) : bool :=
  bool_decide (tag s = KsSymbolKind.lock).
Definition isKsParameter (s : KsSymbol) : bool :=
  bool_decide (tag s = KsSymbolKind.parameter).

(** [KsSymbolKind[kind]]: the name of a member of the enumeration. *)
Definition kindName (k : KsSymbolKind.t) : string :=
  match k with
  | KsSymbolKind.variable => "variable"
  | KsSymbolKind.function => "function"
  | KsSymbolKind.lock => "lock"
  | KsSymbolKind.parameter => "parameter"
  | KsSymbolKind.suffix => "suffix"
  end.

(** [`${kind}`]: a member of the enumeration prints as its number. *)
Definition kindNumber (k : KsSymbolKind.t) : string :=
  match k with
  | KsSymbolKind.variable => "0"
  | KsSymbolKind.function => "1"
  | KsSymbolKind.lock => "2"
  | KsSymbolKind.parameter => "3"
  | KsSymbolKind.suffix => "4"
  end.

Definition toUpperCase (c : Ascii.ascii) : Ascii.ascii :=
  let n := Ascii.nat_of_ascii c in
  if (97 <=? n)%nat && (n <=? 122)%nat then Ascii.ascii_of_nat (n - 32) else c.

(* Convert a string to pascalCase *)
Definition pascalCase (str : string) : string :=
  match str with
  | EmptyString => EmptyString
  | String c rest => String (toUpperCase c) rest
  end.

(** A use of a symbol.  Modelled from the spec: analysis/tracker.ts is
    not among the sources; [createEnitityChange(token, expr)] records
    the location of the token and the expression it occurs in. *)
Record Usage := mkUsage {
  usageUri : string;
  usageRange : Range;
  usageExpr : Maybe Parser.Expr;
}.

Definition createEnitityChange (token : Token) (e : Maybe Parser.Expr) : Usage :=
  mkUsage (uri token) (rangeOf token) e.

(** The tracker of a declared symbol.  Trackers are shared objects: a
    scope, the tokens that resolve to the symbol and the symbol tables of
    other documents all refer to the same tracker.  They live in a store
    and are referred to by their index. *)
Record KsSymbolTracker := mkTracker {
  declared : KsSymbol;
  declaredType : Maybe nat;
  sets : list Usage;
  usages : list Usage;
}.

(** [new KsSymbolTracker(symbol, type)] *)
Definition newTracker (s : KsSymbol) (ty : Maybe nat) : KsSymbolTracker :=
  mkTracker s ty [] [].

(** ** Scopes (analysis/scope.ts, analysis/scopePosition.ts) *)

(** [Map<string, IKsSymbolTracker>], in insertion order. *)
Definition Scope := list (string * nat).

Fixpoint scopeGet (sc : Scope) (key : string) : Maybe nat :=
  match sc with
  | [] => None
  | (k, v) :: sc => if decide (k = key) then Some v else scopeGet sc key
  end.

(** [scope.set(key, tracker)]: a key already present keeps its place. *)
Fixpoint scopeSet (sc : Scope) (key : string) (v : nat) : Scope :=
  match sc with
  | [] => [(key, v)]
  | (k, w) :: sc =>
      if decide (k = key) then (k, v) :: sc else (k, w) :: scopeSet sc key v
  end.

Definition scopeValues (sc : Scope) : list nat := map snd sc.

Inductive ScopePosition :=
| GlobalPosition
| RealPosition (from to : Marker).

Unset Elimination Schemes.
Inductive ScopeNode :=
| mkScopeNode (scope : Scope) (position : ScopePosition)
    (children : list ScopeNode).
Set Elimination Schemes.

Definition scope (n : ScopeNode) : Scope :=
  match n with mkScopeNode s _ _ => s end.
Definition position (n : ScopeNode) : ScopePosition :=
  match n with mkScopeNode _ p _ => p end.
Definition children (n : ScopeNode) : list ScopeNode :=
  match n with mkScopeNode _ _ c => c end.

(** The finished product of a builder, as far as another builder reads
    it: the root scope of the other document. *)
Record SymbolTable := mkSymbolTable { tableRoot : ScopeNode; tableUri : string }.

(** ** The builder *)

Record Builder := mkBuilder {
  trackers : list KsSymbolTracker;
  rootScope : ScopeNode;
  activeScopePath : list nat;
  backTrackPath : list nat;
  childSymbolTables : list SymbolTable;
  builderUri : string;
}.

(** [this.global]: the scope of the root node. *)
Definition global (b : Builder) : Scope := scope (rootScope b).

(** How a method ends: it returns, or it throws an [Error]. *)
Inductive Result (A : Type) :=
| Returned (a : A)
| Thrown (msg : string).
Arguments Returned {A} _.
Arguments Thrown {A} _.

Definition andThen {A B} (r : Result A) (k : A -> Result B) : Result B :=
  match r with
  | Returned a => k a
  | Thrown msg => Thrown msg
  end.

Notation "'let?' x ':=' r 'in' k" := (andThen r (fun x => k))
  (at level 10, x name, r at level 100, k at level 200, only parsing).

(** [new SymbolTableBuilder(uri)] *)
Definition newBuilder (u : string) : Builder :=
  mkBuilder [] (mkScopeNode [] GlobalPosition []) [] [] [] u.

(** The node a path of child indices leads to. *)
Fixpoint nodeAt (path : list nat) (node : ScopeNode) : Maybe ScopeNode :=
  match path with
  | [] => Some node
  | scopeId :: path =>
      match children node !! scopeId with
      | Some child => nodeAt path child
      | None => None
      end
  end.

(** The scopes along a path, outermost first. *)
Fixpoint stackAt (path : list nat) (node : ScopeNode) : Maybe (list Scope) :=
  match path with
  | [] => Some [scope node]
  | scopeId :: path =>
      match children node !! scopeId with
      | Some child =>
          match stackAt path child with
          | Some scopes => Some (scope node :: scopes)
          | None => None
          end
      | None => None
      end
  end.

(** Replace the node a path leads to. *)
Fixpoint updateAt (path : list nat) (f : ScopeNode -> ScopeNode)
    (node : ScopeNode) : ScopeNode :=
  match path with
  | [] => f node
  | scopeId :: path =>
      match children node !! scopeId with
      | Some child =>
          mkScopeNode (scope node) (position node)
            (<[scopeId := updateAt path f child]> (children node))
      | None => node
      end
  end.

(** [JSON.stringify(path)] *)
Definition stringify (path : list nat) : string :=
  "[" +:+ String.concat "," (map pretty path) +:+ "]".

(* Get the currently active scope node *)
Definition activeScopeNode (b : Builder) : Result ScopeNode :=
  match nodeAt (activeScopePath b) (rootScope b) with
  | Some scopeNode => Returned scopeNode
  | None =>
      Thrown ("Unable to find scope node for path "
                +:+ stringify (activeScopePath b))
  end.

(* Generate an actual scope of the current scope path *)
Definition activeScopeStack (b : Builder) : Result (list Scope) :=
  match stackAt (activeScopePath b) (rootScope b) with
  | Some scopes => Returned scopes
  | None =>
      Thrown ("Unable to find scope stack for path "
                +:+ stringify (activeScopePath b))
  end.

(* Retrieve the currently active scope *)
Definition peekScope (b : Builder) : Result Scope :=
  let? node := activeScopeNode b in
  Returned (scope node).

(** The first scope, from the innermost out, that has the key. *)
Fixpoint firstInStack (innermostFirst : list Scope) (key : string) : Maybe nat :=
  match innermostFirst with
  | [] => None
  | sc :: rest =>
      match scopeGet sc key with
      | Some tracker => Some tracker
      | None => firstInStack rest key
      end
  end.

(** The first child symbol table whose root scope has the key. *)
Fixpoint firstInTables (tables : list SymbolTable) (key : string) : Maybe nat :=
  match tables with
  | [] => None
  | child :: rest =>
      match scopeGet (scope (tableRoot child)) key with
      | Some tracker => Some tracker
      | None => firstInTables rest key
      end
  end.

(* Lookup a symbol in the active scope stack *)
Definition lookup (b : Builder) (token : Token) (sc : ScopeType.t)
    : Result (Maybe nat) :=
  match sc with
  | ScopeType.local =>
      let? active := peekScope b in
      Returned (scopeGet active (lexeme token))
  | ScopeType.global =>
      let? scopes := activeScopeStack b in
      match firstInStack (reverse scopes) (lexeme token) with
      | Some tracker => Returned (Some tracker)
      | None =>
          (* check child scopes symbol is in another file *)
          Returned (firstInTables (childSymbolTables b) (lexeme token))
      end
  end.

(** [tracker.declared.symbol], through the store. *)
Definition symbolOf (b : Builder) (tracker : nat) : Result KsSymbol :=
  match trackers b !! tracker with
  | Some t => Returned (declared t)
  | None => Thrown "Cannot read property 'declared' of undefined"
  end.

Definition originallyDeclared (b : Builder) (symbol : KsSymbol)
    : list DiagnosticRelatedInformation :=
  [mkRelated (mkLocation (builderUri b) (rangeOf (name symbol)))
     "Orignally declared here"].

(* generate a resolver error when a declare symbol shadows with an existing on *)
Definition shadowSymbolHint (b : Builder) (nm : Token) (symbol : KsSymbol)
    : Diagnostic :=
  createDiagnostic nm
    (pascalCase (kindName (tag symbol)) +:+ " " +:+ lexeme (name symbol)
       +:+ " already exists here. This "
       +:+ pascalCase (kindName (tag symbol)) +:+ " shadows it.")
    DiagnosticSeverity.Warning
    (originallyDeclared b symbol).

(* generate a resolver error when a declare symbol collides with an existing on *)
Definition localConflictError (b : Builder) (nm : Token) (symbol : KsSymbol)
    : Diagnostic :=
  createDiagnostic nm
    (pascalCase (kindName (tag symbol)) +:+ " " +:+ lexeme (name symbol)
       +:+ " already exists.")
    DiagnosticSeverity.Error
    (originallyDeclared b symbol).

(** [token.tracker = tracker] *)
Definition setTracker (token : Token) (tracker : nat) : Token :=
  mkToken (type token) (lexeme token) (literal token) (start token)
    (end_ token) (uri token) (Some tracker).

(** [this.selectScope(type).set(key, tracker)]: the global scope is the
    scope of the root node, the local one that of the active node. *)
Definition setInScope (b : Builder) (sc : ScopeType.t) (key : string)
    (tracker : nat) : Builder :=
  let path :=
    match sc with
    | ScopeType.global => []
    | ScopeType.local => activeScopePath b
    end in
  mkBuilder (trackers b)
    (updateAt path
       (fun n => mkScopeNode (scopeSet (scope n) key tracker) (position n)
                   (children n))
       (rootScope b))
    (activeScopePath b) (backTrackPath b) (childSymbolTables b) (builderUri b).

(** Allocate a tracker in the store. *)
Definition addTracker (b : Builder) (t : KsSymbolTracker) : Builder :=
  mkBuilder (trackers b ++ [t]) (rootScope b) (activeScopePath b)
    (backTrackPath b) (childSymbolTables b) (builderUri b).

(** What a declare or use method hands back: the diagnostic it returns,
    the builder after the call, and the token after the call. *)
Definition Outcome : Type := Maybe Diagnostic * Builder * Token.

(** The part the four declare methods share, from the shadowing check
    on; [symbol] builds the declared symbol around the token. *)
Definition declareIn (b : Builder) (scopeType : ScopeType.t) (token : Token)
    (symbol : Token -> KsSymbol) (ty : Maybe nat) : Result Outcome :=
  let? diagnostic :=
    (match scopeType with
     (* if global we can't shadow *)
     | ScopeType.global => Returned None
     (* if local check for shadowing hints *)
     | ScopeType.local =>
         let? shadowTracker := lookup b token ScopeType.global in
         match shadowTracker with
         | None => Returned None
         | Some shadowTracker =>
             let? shadowed := symbolOf b shadowTracker in
             Returned (Some (shadowSymbolHint b token shadowed))
         end
     end) in
  let? _ := (match scopeType with
             | ScopeType.global => Returned []
             | ScopeType.local => peekScope b
             end) in
  let tracker := length (trackers b) in
  let token := setTracker token tracker in
  let b := addTracker b (newTracker (symbol token) ty) in
  let b := setInScope b scopeType (lexeme token) tracker in
  Returned (diagnostic, b, token).

(** The part the four declare methods share, up to the conflict check. *)
Definition declareSymbol (b : Builder) (scopeType : ScopeType.t)
    (token : Token) (symbol : Token -> KsSymbol) (ty : Maybe nat)
    : Result Outcome :=
  let? conflictTracker := lookup b token scopeType in
  (* check if variable has already been defined *)
  match conflictTracker with
  | Some conflictTracker =>
      let? conflict := symbolOf b conflictTracker in
      Returned (Some (localConflictError b token conflict), b, token)
  | None => declareIn b scopeType token symbol ty
  end.

(* Add a new variable symbol to the table *)
Definition declareVariable (b : Builder) (scopeType : ScopeType.t)
    (token : Token) (ty : Maybe nat) : Result Outcome :=
  declareSymbol b scopeType token (KsVariable scopeType) ty.

(* Add a new function symbol to the table *)
Definition declareFunction (b : Builder) (scopeType : ScopeType.t)
    (token : Token) (parameters : list KsParameter) (returnValue : bool)
    (ty : Maybe nat) : Result Outcome :=
  declareSymbol b scopeType token
    (fun token => KsFunction scopeType token parameters returnValue) ty.

(* Add a new lock symbol to the table *)
Definition declareLock (b : Builder) (scopeType : ScopeType.t)
    (token : Token) (ty : Maybe nat) : Result Outcome :=
  declareSymbol b scopeType token (KsLock scopeType) ty.

(* Add a new parameter symbol to the table *)
Definition declareParameter (b : Builder) (scopeType : ScopeType.t)
    (token : Token) (isDefaulted : bool) : Result Outcome :=
  declareSymbol b scopeType token
    (fun token => KsParam (mkKsParameter token isDefaulted SymbolState.declared))
    None.

(** [tracker.usages.push(usage)], through the store. *)
Definition pushUsage (b : Builder) (tracker : nat) (u : Usage) : Builder :=
  mkBuilder
    (alter (fun t => mkTracker (declared t) (declaredType t) (sets t)
                       (usages t ++ [u]))
       tracker (trackers b))
    (rootScope b) (activeScopePath b) (backTrackPath b)
    (childSymbolTables b) (builderUri b).

(* check if the symbol exist and add a usage if it does *)
Definition checkUseSymbol (b : Builder) (token : Token) (tracker : Maybe nat)
    (symbolType : KsSymbolKind.t) (e : Maybe Parser.Expr) : Result Outcome :=
  match tracker with
  (* check that variable has already been defined *)
  | None =>
      Returned
        (Some (createDiagnostic token
                 (kindNumber symbolType +:+ " " +:+ lexeme token
                    +:+ " may not exist.")
                 DiagnosticSeverity.Error []),
         b, token)
  | Some tracker =>
      let token := setTracker token tracker in
      Returned (None, pushUsage b tracker (createEnitityChange token e), token)
  end.

(** The part the four typed lookups share: the tracker, if the guard
    holds of its symbol. *)
Definition lookupGuarded (guard : KsSymbol -> bool) (b : Builder)
    (token : Token) (sc : ScopeType.t) : Result (Maybe nat) :=
  let? tracker := lookup b token sc in
  match tracker with
  | None => Returned None
  | Some tracker =>
      let? symbol := symbolOf b tracker in
      Returned (if guard symbol then Some tracker else None)
  end.

(* lookup a variable tracker *)
Definition lookupVariableTracker := lookupGuarded isKsVariable.

(* lookup a function tracker *)
Definition lookupFunctionTracker := lookupGuarded isKsVariable.

(* lookup a lock tracker *)
Definition lookupLockTracker := lookupGuarded isKsLock.

(* lookup a parameter tracker *)
Definition lookupParameterTracker := lookupGuarded isKsParameter.

(* Use a symbol in the symbol table *)
Definition useSymbol (b : Builder) (nm : Token) (e : Maybe Parser.Expr)
    : Result Outcome :=
  let? tracker := lookup b nm ScopeType.global in
  match tracker with
  (* check if symbols exists *)
  | None =>
      Returned
        (Some (createDiagnostic nm
                 ("Symbol " +:+ lexeme nm +:+ " may not exist")
                 DiagnosticSeverity.Error []),
         b, nm)
  | Some tracker =>
      let? symbol := symbolOf b tracker in
      checkUseSymbol b nm (Some tracker) (tag symbol) e
  end.

(* Use a variable symbol *)
Definition useVariable (b : Builder) (nm : Token) (e : Maybe Parser.Expr)
    : Result Outcome :=
  let? variable := lookupVariableTracker b nm ScopeType.global in
  checkUseSymbol b nm variable KsSymbolKind.variable e.

(* Use a function symbol *)
Definition useFunction (b : Builder) (nm : Token) (e : Maybe Parser.Expr)
    : Result Outcome :=
  let? func := lookupFunctionTracker b nm ScopeType.global in
  checkUseSymbol b nm func KsSymbolKind.function e.

(* Use a lock symbol *)
Definition useLock (b : Builder) (nm : Token) (e : Maybe Parser.Expr)
    : Result Outcome :=
  let? lock := lookupLockTracker b nm ScopeType.global in
  checkUseSymbol b nm lock KsSymbolKind.lock e.

(* Use a parameter symbol *)
Definition useParameter (b : Builder) (nm : Token) (e : Maybe Parser.Expr)
    : Result Outcome :=
  let? parameter := lookupParameterTracker b nm ScopeType.global in
  checkUseSymbol b nm parameter KsSymbolKind.parameter e.

(* Set a variable symbol *)
Definition setVariable (b : Builder) (token : Token) : Result Outcome :=
  let? tracker := lookup b token ScopeType.global in
  match tracker with
  (* check if variable has already been defined *)
  | None =>
      Returned
        (Some (createDiagnostic token (lexeme token +:+ " may not exist")
                 DiagnosticSeverity.Error []),
         b, token)
  | Some tracker => Returned (None, b, setTracker token tracker)
  end.

(* Push a new scope onto the scope stack *)
Definition beginScope (b : Builder) (r : Range) : Result Builder :=
  let depth := (Z.of_nat (length (activeScopePath b)) - 1)%Z in
  let next :=
    match backTrackPath b !! Z.to_nat (depth + 1)%Z with
    | Some i => i + 1
    | None => 0
    end in
  let? activeNode := activeScopeNode b in
  let root :=
    match children activeNode !! next with
    | Some _ => rootScope b
    | None =>
        updateAt (activeScopePath b)
          (fun n => mkScopeNode (scope n) (position n)
                      (children n ++
                         [mkScopeNode [] (RealPosition (rangeStart r) (rangeEnd r)) []]))
          (rootScope b)
    end in
  let path := activeScopePath b ++ [next] in
  Returned (mkBuilder (trackers b) root path path (childSymbolTables b)
              (builderUri b)).

(* Rewind the current scope path for a second pass *)
Definition rewindScope (b : Builder) : Builder :=
  mkBuilder (trackers b) (rootScope b) [] [] (childSymbolTables b)
    (builderUri b).

(* Add a child symbol table to this symbol table builder *)
(** The set of child tables is kept as the list of the tables added: a
    lookup reads the first table that has the name, so a table added a
    second time is never reached. *)
Definition addScope (b : Builder) (symbolTable : SymbolTable) : Builder :=
  mkBuilder (trackers b) (rootScope b) (activeScopePath b) (backTrackPath b)
    (childSymbolTables b ++ [symbolTable]) (builderUri b).

Section EndScope.

(** entities/lock.ts is not among the sources: which locks are cooked is
    a parameter of the development. *)
Variable cooked : KsSymbol -> bool.

(** What the loop of [endScope] pushes for one tracker of the scope. *)
Definition unusedDiagnostic (t : KsSymbolTracker) : list Diagnostic :=
  match tag (declared t) with
  | KsSymbolKind.function => []
  | KsSymbolKind.parameter =>
      if (length (usages t) =? 0)%nat then
        [createDiagnostic (name (declared t))
           ("Parameter " +:+ lexeme (name (declared t)) +:+ " was not used.")
           DiagnosticSeverity.Error []]
      else []
  | KsSymbolKind.lock =>
      if negb (cooked (declared t)) && (length (usages t) =? 0)%nat then
        [createDiagnostic (name (declared t))
           ("Lock " +:+ lexeme (name (declared t)) +:+ " was not used.")
           DiagnosticSeverity.Error []]
      else []
  | KsSymbolKind.variable =>
      if (length (usages t) =? 0)%nat then
        [createDiagnostic (name (declared t))
           ("Variable " +:+ lexeme (name (declared t)) +:+ " was not used.")
           DiagnosticSeverity.Error []]
      else []
  | KsSymbolKind.suffix => []
  end.

(** The trackers a closing scope reports: those without a usage that
    declare a parameter, a variable, or a lock that is not cooked. *)
Definition reported (t : KsSymbolTracker) : bool :=
  (length (usages t) =? 0)%nat &&
  match tag (declared t) with
  | KsSymbolKind.parameter | KsSymbolKind.variable => true
  | KsSymbolKind.lock => negb (cooked (declared t))
  | _ => false
  end.

(** [for (const tracker of scope.values())] *)
Fixpoint unusedIn (store : list KsSymbolTracker) (refs : list nat)
    : Result (list Diagnostic) :=
  match refs with
  | [] => Returned []
  | tracker :: refs =>
      match store !! tracker with
      | None => Thrown "Cannot read property 'declared' of undefined"
      | Some t =>
          match tag (declared t) with
          | KsSymbolKind.suffix => Thrown EmptyString
          | _ =>
              let? rest := unusedIn store refs in
              Returned (unusedDiagnostic t ++ rest)
          end
      end
  end.

(* Pop the current scope off the stack *)
Definition endScope (b : Builder) : Result (list Diagnostic * Builder) :=
  let? node := activeScopeNode b in
  let b' := mkBuilder (trackers b) (rootScope b)
              (removelast (activeScopePath b)) (backTrackPath b)
              (childSymbolTables b) (builderUri b) in
  let? errors := unusedIn (trackers b) (scopeValues (scope node)) in
  Returned (errors, b').

End EndScope.

(** The four declare methods as calls, with the arguments in which they
    differ. *)
Inductive DeclareCall :=
| DeclareVariable (ty : Maybe nat)
| DeclareFunction (parameters : list KsParameter) (returnValue : bool)
    (ty : Maybe nat)
| DeclareLock (ty : Maybe nat)
| DeclareParameter (isDefaulted : bool).

Definition declare (c : DeclareCall) (b : Builder) (scopeType : ScopeType.t)
    (token : Token) : Result Outcome :=
  match c with
  | DeclareVariable ty => declareVariable b scopeType token ty
  | DeclareFunction parameters returnValue ty =>
      declareFunction b scopeType token parameters returnValue ty
  | DeclareLock ty => declareLock b scopeType token ty
  | DeclareParameter isDefaulted =>
      declareParameter b scopeType token isDefaulted
  end.

(** The tracker a declare call builds around the token. *)
Definition declaredTracker (c : DeclareCall) (scopeType : ScopeType.t)
    (token : Token) : KsSymbolTracker :=
  match c with
  | DeclareVariable ty => newTracker (KsVariable scopeType token) ty
  | DeclareFunction parameters returnValue ty =>
      newTracker (KsFunction scopeType token parameters returnValue) ty
  | DeclareLock ty => newTracker (KsLock scopeType token) ty
  | DeclareParameter isDefaulted =>
      newTracker
        (KsParam (mkKsParameter token isDefaulted SymbolState.declared)) None
  end.

(** The four typed use methods and [useSymbol] as calls. *)
Inductive UseCall :=
| UseSymbol
| UseVariable
| UseFunction
| UseLock
| UseParameter.

Definition use (c : UseCall) (b : Builder) (nm : Token) (e : Maybe Parser.Expr)
    : Result Outcome :=
  match c with
  | UseSymbol => useSymbol b nm e
  | UseVariable => useVariable b nm e
  | UseFunction => useFunction b nm e
  | UseLock => useLock b nm e
  | UseParameter => useParameter b nm e
  end.

(** The kind of symbol a use call expects; [useSymbol] takes any. *)
Definition expects (c : UseCall) (k : KsSymbolKind.t) : Prop :=
  match c with
  | UseSymbol => True
  | UseVariable => k = KsSymbolKind.variable
  | UseFunction => k = KsSymbolKind.function
  | UseLock => k = KsSymbolKind.lock
  | UseParameter => k = KsSymbolKind.parameter
  end.

(** ** Well-formed builders and what the calls leave *)

(** The active path leads to a node of the tree. *)
Definition Active (b : Builder) : Prop :=
  is_Some (nodeAt (activeScopePath b) (rootScope b)).

(** Every tracker a lookup finds is an object of the store. *)
Definition Closed (b : Builder) : Prop :=
  forall token sc ref,
    lookup b token sc = Returned (Some ref) -> is_Some (trackers b !! ref).

(** Every tracker a scope of the tree, or the root scope of a child
    table, refers to is an object of the store. *)
Definition Bounded (b : Builder) : Prop :=
  (forall path node ref,
     nodeAt path (rootScope b) = Some node ->
     ref ∈ scopeValues (scope node) -> ref < length (trackers b)) /\
  (forall table ref,
     table ∈ childSymbolTables b ->
     ref ∈ scopeValues (scope (tableRoot table)) -> ref < length (trackers b)).

(** What a declare call that meets a conflict leaves: the diagnostic of
    the conflict, and the table and the token as they were. *)
Definition Conflict (b : Builder) (scopeType : ScopeType.t) (token : Token)
    (result : Outcome) : Prop :=
  exists ref t,
    lookup b token scopeType = Returned (Some ref) /\
    trackers b !! ref = Some t /\
    result = (Some (localConflictError b token (declared t)), b, token).

(** What a declare call that meets no conflict leaves: the new tracker in
    the store, in the selected scope and on the token; the diagnostic is
    the hint of a shadowed symbol, if a lookup through the enclosing
    scopes finds one. *)
Definition Takes (c : DeclareCall) (b : Builder) (scopeType : ScopeType.t)
    (token : Token) (result : Outcome) : Prop :=
  let '(d, b', token') := result in
  let ref := length (trackers b) in
  lookup b token scopeType = Returned None /\
  (d = None \/
   exists shadow t,
     scopeType = ScopeType.local /\
     lookup b token ScopeType.global = Returned (Some shadow) /\
     trackers b !! shadow = Some t /\
     d = Some (shadowSymbolHint b token (declared t))) /\
  token' = setTracker token ref /\
  trackers b' = trackers b ++ [declaredTracker c scopeType token'] /\
  lookup b' token' scopeType = Returned (Some ref).

(** The kind of symbol a declare call declares. *)
Definition kindOf (c : DeclareCall) : KsSymbolKind.t :=
  match c with
  | DeclareVariable _ => KsSymbolKind.variable
  | DeclareFunction _ _ _ => KsSymbolKind.function
  | DeclareLock _ => KsSymbolKind.lock
  | DeclareParameter _ => KsSymbolKind.parameter
  end.

(** [tracker.usages.push(usage)] on one tracker. *)
Definition used (t : KsSymbolTracker) (u : Usage) : KsSymbolTracker :=
  mkTracker (declared t) (declaredType t) (sets t) (usages t ++ [u]).

(** ** Runs of calls *)

(** A client of the builder, as the resolver below in the file, is a
    sequence of calls of its public methods. *)
Inductive Call :=
| Begins (r : Range)
| Ends
| Declares (c : DeclareCall) (scopeType : ScopeType.t) (token : Token)
| Uses (c : UseCall) (nm : Token) (e : Maybe Parser.Expr)
| Sets (token : Token).

(** The diagnostics a declare or use call returns, and the builder it
    leaves. *)
Definition reportedBy (r : Outcome) : list Diagnostic * Builder :=
  (option_list r.1.1, r.1.2).

Definition call (cooked : KsSymbol -> bool) (c : Call) (b : Builder)
    : Result (list Diagnostic * Builder) :=
  match c with
  | Begins r => let? b' := beginScope b r in Returned ([], b')
  | Ends => endScope cooked b
  | Declares c scopeType token =>
      let? r := declare c b scopeType token in Returned (reportedBy r)
  | Uses c nm e => let? r := use c b nm e in Returned (reportedBy r)
  | Sets token => let? r := setVariable b token in Returned (reportedBy r)
  end.

(** The calls in order; the first that throws ends the run. *)
Fixpoint calls (cooked : KsSymbol -> bool) (cs : list Call) (b : Builder)
    : Result (list Diagnostic * Builder) :=
  match cs with
  | [] => Returned ([], b)
  | c :: cs =>
      let? r := call cooked c b in
      let? rs := calls cooked cs r.2 in
      Returned (r.1 ++ rs.1, rs.2)
  end.

(** The scopes a run opens and closes, in order. *)
Inductive ScopeCall := Opens | Closes.

Fixpoint skeleton (cs : list Call) : list ScopeCall :=
  match cs with
  | [] => []
  | Begins _ :: cs => Opens :: skeleton cs
  | Ends :: cs => Closes :: skeleton cs
  | _ :: cs => skeleton cs
  end.

(** [next] of [beginScope]: the child to enter, from the two paths. *)
Definition nextChild (active backTrack : list nat) : nat :=
  match backTrack !! Z.to_nat (Z.of_nat (length active) - 1 + 1)%Z with
  | Some i => i + 1
  | None => 0
  end.

(** The active paths a run goes through, from the two paths it starts
    with. *)
Fixpoint visited (s : list ScopeCall) (active backTrack : list nat)
    : list (list nat) :=
  match s with
  | [] => [active]
  | Opens :: s =>
      let path := active ++ [nextChild active backTrack] in
      active :: visited s path path
  | Closes :: s => active :: visited s (removelast active) backTrack
  end.

(** The two paths after a run, from the two paths before it. *)
Fixpoint walk (s : list ScopeCall) (paths : list nat * list nat)
    : list nat * list nat :=
  match s with
  | [] => paths
  | Opens :: s =>
      let path := paths.1 ++ [nextChild paths.1 paths.2] in
      walk s (path, path)
  | Closes :: s => walk s (removelast paths.1, paths.2)
  end.

(** Whether a run opens a block at once, closes it with its last call,
    and declares only in the local scopes of the block: [depth] is the
    number of scopes open. *)
Fixpoint stays (depth : nat) (cs : list Call) : bool :=
  match cs with
  | [] => (depth =? 0)%nat
  | Begins _ :: cs => stays (S depth) cs
  | Ends :: cs =>
      match depth with
      | 0 => false
      | S depth => stays depth cs
      end
  | Declares _ ScopeType.local _ :: cs => (0 <? depth)%nat && stays depth cs
  | Declares _ ScopeType.global _ :: _ => false
  | Uses _ _ _ :: cs | Sets _ :: cs => stays depth cs
  end.

(** What holds of the two paths and of the tree while a builder makes its
    first pass: the active path is the beginning of the back-track path,
    and along the back-track path every node has, as its children, the
    scopes opened so far, the last being the one the path enters. *)
Definition FirstPass (b : Builder) : Prop :=
  activeScopePath b `prefix_of` backTrackPath b /\
  forall k, k <= length (backTrackPath b) ->
    exists node,
      nodeAt (take k (backTrackPath b)) (rootScope b) = Some node /\
      length (children node)
        = (match backTrackPath b !! k with
           | Some i => S i
           | None => 0
           end).

(** The scopes along the active path of [b], and the child tables, are
    in [c] what they are in [b]. *)
Definition Agree (b c : Builder) : Prop :=
  childSymbolTables c = childSymbolTables b /\
  forall k, k <= length (activeScopePath b) ->
    exists n n',
      nodeAt (take k (activeScopePath b)) (rootScope b) = Some n /\
      nodeAt (take k (activeScopePath b)) (rootScope c) = Some n' /\
      scope n' = scope n.

(** The two trees have nodes at the same paths. *)
Definition SameShape (t1 t2 : ScopeNode) : Prop :=
  forall path, is_Some (nodeAt path t1) <-> is_Some (nodeAt path t2).

(** ** Sample tables *)

Definition sampleUri : string := "file:///sample.ks".

Definition sampleName (lex : string) : Token :=
  Parser.sampleToken TokenType.identifier lex 0.

(** The builder a call leaves; the builder before it if the call throws. *)
Definition after (b : Builder) (r : Result Outcome) : Builder :=
  match r with
  | Returned (_, b', _) => b'
  | Thrown _ => b
  end.

Definition entered (b : Builder) (r : Result Builder) : Builder :=
  match r with
  | Returned b' => b'
  | Thrown _ => b
  end.

(** [function hi { }] at the top of a file. *)
Definition withFunction : Builder :=
  let b := newBuilder sampleUri in
  after b (declareFunction b ScopeType.global (sampleName "hi") [] false None).

(** A block that declares a variable, a lock, a parameter and a function
    and uses none of them. *)
Definition withUnused : Builder :=
  let b := newBuilder sampleUri in
  let b := entered b (beginScope b (mkRange (mkMarker 0 0) (mkMarker 9 0))) in
  let b := after b (declareVariable b ScopeType.local (sampleName "x") None) in
  let b := after b (declareLock b ScopeType.local (sampleName "l") None) in
  let b := after b (declareParameter b ScopeType.local (sampleName "p") false) in
  after b (declareFunction b ScopeType.local (sampleName "f") [] false None).

(** No lock of the samples is cooked. *)
Definition rawLocks (_ : KsSymbol) : bool := false.

Definition sampleRange : Range := mkRange (mkMarker 0 0) (mkMarker 9 0).

(** A block that declares a variable and uses it, after a function
    declared at the top of the file. *)
Definition sampleBlock : list Call :=
  [Declares (DeclareFunction [] false None) ScopeType.global (sampleName "hi");
   Begins sampleRange;
   Declares (DeclareVariable None) ScopeType.local (sampleName "x");
   Uses UseVariable (sampleName "x") None;
   Ends].

(** The same scopes in a second pass, which sets the variable. *)
Definition sampleSecondPass : list Call :=
  [Begins sampleRange; Sets (sampleName "x"); Ends].

(** The diagnostics of a run, and the builder it leaves; of a run that
    throws, none and the builder before it. *)
Definition reports (r : Result (list Diagnostic * Builder)) : list Diagnostic :=
  match r with
  | Returned (ds, _) => ds
  | Thrown _ => []
  end.

Definition ended (b : Builder) (r : Result (list Diagnostic * Builder))
    : Builder :=
  match r with
  | Returned (_, b') => b'
  | Thrown _ => b
  end.

Definition blockRun : Result (list Diagnostic * Builder) :=
  calls rawLocks sampleBlock (newBuilder sampleUri).

Definition afterBlock : Builder := ended (newBuilder sampleUri) blockRun.

End SymbolTableBuilder.

(** * The type engine (typeChecker/) *)

Module TypeEngine.

(** Types are objects compared by identity ([===]): they live in a store
    and are referred to by their index. *)
Definition TypeRef := nat.

(** typeChecker/types.ts is not among the sources: the members of the
    enumeration [OperatorKind] are taken by their numbers. *)
Definition OperatorKind := nat.

(** typeChecker/operator.ts is not among the sources: of an operator the
    code reads [otherOperand]; [returnType] stands for the rest. *)
Record Operator := mkOperator {
  otherOperand : Maybe TypeRef;
  returnType : TypeRef;
}.

#[global] Instance Operator_eq_dec : EqDecision Operator.
Proof. solve_decision. Defined.

(** How a method ends: it returns, it throws an [Error], or the call
    depth granted to the run is used up. *)
Inductive Outcome (A : Type) :=
| Returned (a : A)
| Thrown (msg : string)
| Unfinished.
Arguments Returned {A} _.
Arguments Thrown {A} _.
Arguments Unfinished {A}.

Definition notImplemented : string := "Method not implemented.".

(** Reading a field of an object that is not in the store. *)
Definition undefinedObject : string := "Cannot read property of undefined".

Module GenericType.

(** The fields the methods below read and write. *)
Record t := mk {
  name : string;
  superType : Maybe TypeRef;
  coercibleTypes : list TypeRef;
  suffixes : list (string * TypeRef);
  operators : list (OperatorKind * list Operator);
}.

Definition Store := list t.

(** [new GenericType(name, ...)] *)
Definition create (nm : string) : t := mk nm None [] [] [].

(** [map.get(key)] *)
Fixpoint get {K V} `{EqDecision K} (m : list (K * V)) (key : K) : Maybe V :=
  match m with
  | [] => None
  | (k, v) :: m => if decide (k = key) then Some v else get m key
  end.

(** [map.set(key, value)] *)
Fixpoint set {K V} `{EqDecision K} (m : list (K * V)) (key : K) (value : V)
    : list (K * V) :=
  match m with
  | [] => [(key, value)]
  | (k, v) :: m =>
      if decide (k = key) then (k, value) :: m else (k, v) :: set m key value
  end.

Definition addSuper (store : Store) (this type : TypeRef) : Outcome Store :=
  match store !! this with
  | None => Thrown undefinedObject
  | Some self =>
      match superType self with
      | Some _ =>
          Thrown ("Super type for " +:+ name self +:+ " has already been set.")
      | None =>
          Returned
            (<[this := mk (name self) (Some type) (coercibleTypes self)
                         (suffixes self) (operators self)]> store)
      end
  end.

(** [addSuffixes(...suffixes)], one pair at a time. *)
Fixpoint addSuffixesTo (self : t) (new : list (string * TypeRef)) : Outcome t :=
  match new with
  | [] => Returned self
  | (nm, type) :: new =>
      match get (suffixes self) nm with
      | Some _ =>
          Thrown ("Duplicate suffix of " +:+ nm +:+ " added to " +:+ name self)
      | None =>
          addSuffixesTo
            (mk (name self) (superType self) (coercibleTypes self)
               (set (suffixes self) nm type) (operators self))
            new
      end
  end.

Definition addSuffixes (store : Store) (this : TypeRef)
    (new : list (string * TypeRef)) : Outcome Store :=
  match store !! this with
  | None => Thrown undefinedObject
  | Some self =>
      match addSuffixesTo self new with
      | Returned self => Returned (<[this := self]> store)
      | Thrown msg => Thrown msg
      | Unfinished => Unfinished
      end
  end.

(** The operator already registered with the same other operand. *)
Definition sameOperand (operator : Operator) (existingOperator : Operator) : bool :=
  bool_decide (otherOperand existingOperator = otherOperand operator).

(** [OperatorKind[kind]]: the number of the member stands for its name. *)
Definition kindLabel (kind : OperatorKind) : string := pretty kind.

Definition alreadyExists (store : Store) (self : t) (kind : OperatorKind)
    (existingOperator : Operator) : string :=
  match otherOperand existingOperator with
  | None =>
      "Operator of kind " +:+ kindLabel kind
        +:+ " already exists between for " +:+ name self
  | Some other =>
      "Operator of kind " +:+ kindLabel kind +:+ " already exists between "
        +:+ name self +:+ " and "
        +:+ match store !! other with
            | Some otherOperand => name otherOperand
            | None => "undefined"
            end
  end.

(** [addOperator(...operators)], one pair at a time.  What a call that
    throws has added before it throws is not kept. *)
Fixpoint addOperatorTo (store : Store) (self : t)
    (new : list (OperatorKind * Operator)) : Outcome t :=
  match new with
  | [] => Returned self
  | (kind, operator) :: new =>
      let operatorsKind :=
        match get (operators self) kind with
        | Some operatorsKind => operatorsKind
        | None => []
        end in
      (* check to make sure we didn't add two operators with the same
         other operand *)
      match find (sameOperand operator) operatorsKind with
      | Some existingOperator =>
          Thrown (alreadyExists store self kind existingOperator)
      | None =>
          addOperatorTo store
            (mk (name self) (superType self) (coercibleTypes self)
               (suffixes self)
               (set (operators self) kind (operatorsKind ++ [operator])))
            new
      end
  end.

Definition addOperator (store : Store) (this : TypeRef)
    (new : list (OperatorKind * Operator)) : Outcome Store :=
  match store !! this with
  | None => Thrown undefinedObject
  | Some self =>
      match addOperatorTo store self new with
      | Returned self => Returned (<[this := self]> store)
      | Thrown msg => Thrown msg
      | Unfinished => Unfinished
      end
  end.

Definition getSuperType (store : Store) (this : TypeRef) : Outcome (Maybe TypeRef) :=
  match store !! this with
  | None => Thrown undefinedObject
  | Some self => Returned (superType self)
  end.

(** The recursion is on the receiver, through its super type; [fuel]
    bounds the depth of the calls. *)
Fixpoint isSubtype (fuel : nat) (store : Store) (this type : TypeRef)
    : Outcome bool :=
  match fuel with
  | 0 => Unfinished
  | S fuel =>
      if decide (type = this) then Returned true
      else
        match store !! this with
        | None => Thrown undefinedObject
        | Some self =>
            match superType self with
            | None => Returned false
            | Some super => isSubtype fuel store super type
            end
        end
  end.

Fixpoint canCoerce (fuel : nat) (store : Store) (this type : TypeRef)
    : Outcome bool :=
  match fuel with
  | 0 => Unfinished
  | S fuel =>
      if decide (type = this) then Returned true
      else
        match store !! this with
        | None => Thrown undefinedObject
        | Some self =>
            if bool_decide (type ∈ coercibleTypes self) then Returned true
            else
              match superType self with
              | None => Returned false
              | Some super => canCoerce fuel store super type
              end
        end
  end.

Fixpoint getSuffix (fuel : nat) (store : Store) (this : TypeRef) (nm : string)
    : Outcome (Maybe TypeRef) :=
  match fuel with
  | 0 => Unfinished
  | S fuel =>
      match store !! this with
      | None => Thrown undefinedObject
      | Some self =>
          match get (suffixes self) nm with
          | Some suffix => Returned (Some suffix)
          | None =>
              match superType self with
              | None => Returned None
              | Some super => getSuffix fuel store super nm
              end
          end
      end
  end.

(** [for (const operator of operators) if (other === operator.otherOperand)
    return operator] *)
Definition firstWith (other : Maybe TypeRef) (ops : list Operator) : Maybe Operator :=
  find (fun operator => bool_decide (other = otherOperand operator)) ops.

Definition getOperator (store : Store) (this : TypeRef) (kind : OperatorKind)
    (other : Maybe TypeRef) : Outcome (Maybe Operator) :=
  match store !! this with
  | None => Thrown undefinedObject
  | Some self =>
      match get (operators self) kind with
      | None => Returned None
      | Some ops =>
          match firstWith other ops with
          | Some operator => Returned (Some operator)
          | None => Thrown notImplemented
          end
      end
  end.

(** [typeArguments]: a map from type parameters to types. *)
Definition toConcreteType (store : Store) (this : TypeRef)
    (typeArguments : list (nat * TypeRef)) : Outcome TypeRef :=
  Thrown notImplemented.

End GenericType.

(** The classes [Type], [SuffixType] and [FunctionType]: they are their
    own concrete representation. *)
Module ConcreteType.

Definition toConcreteType (this : TypeRef) (_ : TypeRef) : Outcome TypeRef :=
  Returned this.

End ConcreteType.

(** [GenericVariadicType] and its subclass [VariadicType].  The objects of
    the two classes live in one store; [concrete] tells the subclass. *)
Module GenericVariadicType.

Record t := mk {
  type : TypeRef;
  concreteTypes : list (TypeRef * nat);
  concrete : bool;
}.

Definition Store := list t.

(** [new GenericVariadicType(type)] *)
Definition create (ty : TypeRef) : t := mk ty [] false.

Definition toConcreteType (store : Store) (this : nat) (ty : TypeRef)
    : Outcome (nat * Store) :=
  match store !! this with
  | None => Thrown undefinedObject
  | Some self =>
      (* check cache *)
      match GenericType.get (concreteTypes self) ty with
      | Some cache => Returned (cache, store)
      | None =>
          let newType := length store in
          let store := store ++ [mk ty [] true] in
          Returned
            (newType,
             <[this := mk (type self)
                         (GenericType.set (concreteTypes self) ty newType)
                         (concrete self)]> store)
      end
  end.

End GenericVariadicType.

Module VariadicType.

Definition toConcreteType (store : GenericVariadicType.Store) (this : nat)
    (_ : TypeRef) : Outcome (nat * GenericVariadicType.Store) :=
  Returned (this, store).

End VariadicType.

(** [object.toConcreteType(type)] on an object of the variadic store: the
    method of its class. *)
Definition instantiate (store : GenericVariadicType.Store) (this : nat)
    (ty : TypeRef) : Outcome (nat * GenericVariadicType.Store) :=
  match store !! this with
  | None => Thrown undefinedObject
  | Some self =>
      if GenericVariadicType.concrete self
      then VariadicType.toConcreteType store this ty
      else GenericVariadicType.toConcreteType store this ty
  end.

(** A sequence of instantiations, each on the store the one before it
    left. *)
Fixpoint instantiateAll (store : GenericVariadicType.Store)
    (calls : list (nat * TypeRef)) : Outcome GenericVariadicType.Store :=
  match calls with
  | [] => Returned store
  | (this, ty) :: calls =>
      match instantiate store this ty with
      | Returned (_, store) => instantiateAll store calls
      | Thrown msg => Thrown msg
      | Unfinished => Unfinished
      end
  end.

(** ** Chains and caches *)

(** The length of the chain of super types above a type. *)
Inductive Height (store : GenericType.Store) : TypeRef -> nat -> Prop :=
| height_top this self :
    store !! this = Some self -> GenericType.superType self = None ->
    Height store this 0
| height_super this self super n :
    store !! this = Some self -> GenericType.superType self = Some super ->
    Height store super n -> Height store this (S n).

(** The object [this] answers [result] when instantiated with [ty]
    without changing the store. *)
Definition Cached (store : GenericVariadicType.Store) (this : nat)
    (ty : TypeRef) (result : nat) : Prop :=
  exists self,
    store !! this = Some self /\
    if GenericVariadicType.concrete self then result = this
    else
      GenericType.get (GenericVariadicType.concreteTypes self) ty = Some result.

(** What an instantiation keeps of a store: the objects, their classes
    and the entries of their caches. *)
Definition Extends (before after : GenericVariadicType.Store) : Prop :=
  forall this ty result,
    Cached before this ty result -> Cached after this ty result.

(** ** Sample types *)

(** [structure], and below it [scalar], [string] and [list]; [scalar] has
    one operator, with another [scalar]. *)
Definition sampleTypes : GenericType.Store :=
  [ GenericType.mk "structure" None [] [] []
  ; GenericType.mk "scalar" (Some 0) [] []
      [(0, [mkOperator (Some 1) 1])]
  ; GenericType.mk "string" (Some 0) [] [] []
  ; GenericType.mk "list" (Some 0) [] [] [] ].

Definition structureType : TypeRef := 0.
Definition scalarType : TypeRef := 1.
Definition stringType : TypeRef := 2.
Definition listType : TypeRef := 3.

(** The operator kind [scalar] has an operator for. *)
Definition plusKind : OperatorKind := 0.


(** ** Conditions on a store *)

(** No type of the store has a coercible type. *)
Definition Plain (store : GenericType.Store) : Prop :=
  forall this self,
    store !! this = Some self -> GenericType.coercibleTypes self = [].

(** Of the operators a type has for a kind, no two have the same other
    operand. *)
Definition UniqueOperators (self : GenericType.t) : Prop :=
  forall kind ops,
    GenericType.get (GenericType.operators self) kind = Some ops ->
    NoDup (map otherOperand ops).

(** Every entry of the cache of a generic variadic type refers to a
    variadic type of the argument of the entry. *)
Definition Instances (store : GenericVariadicType.Store) : Prop :=
  forall this self ty result,
    store !! this = Some self ->
    GenericVariadicType.concrete self = false ->
    GenericType.get (GenericVariadicType.concreteTypes self) ty = Some result ->
    exists instance,
      store !! result = Some instance /\
      GenericVariadicType.type instance = ty /\
      GenericVariadicType.concrete instance = true.

(** A store with one generic variadic type, of [scalar]. *)
Definition sampleVariadic : GenericVariadicType.Store :=
  [GenericVariadicType.create scalarType].

End TypeEngine.

(** * The analysis coordinator *)

(** Modelled from the spec: the analysis service is not among the sources,
    only its tests are (tests/service.spec.ts).  The coordinator owns one
    symbol table per document.  A symbol table carries two sets of tables,
    those it depends on and those that depend on it.  Validating a
    document detaches the table the document had from its dependencies
    and dependents, builds a table from scratch, links it to the two
    library tables and to the tables of the documents its load statements
    name, analysing those that are not cached, and links the dependents
    of the table it replaces to the new one. *)

Module Coordinator.

(** Symbol tables are objects compared by identity: they live in a store
    and are referred to by their index.  Of a table the coordinator reads
    and writes the two sets. *)
Record SymbolTable := mkSymbolTable {
  dependencyTables : gset nat;
  dependentTables : gset nat;
}.

Definition emptyTable : SymbolTable := mkSymbolTable ∅ ∅.

Record AnalysisService := mkService {
  symbolTables : list SymbolTable;
  documentInfos : gmap string nat;
}.

(** The tables of the two libraries, built with the service. *)
Definition standardLibrary : nat := 0.
Definition bodyLibrary : nat := 1.

Definition newService : AnalysisService :=
  mkService [emptyTable; emptyTable] ∅.

(** Table [a] depends on table [b]: both directions of the link. *)
Definition linkDependency (tables : list SymbolTable) (a b : nat)
    : list SymbolTable :=
  alter (fun t => mkSymbolTable (dependencyTables t) (dependentTables t ∪ {[a]}))
    b
    (alter (fun t => mkSymbolTable (dependencyTables t ∪ {[b]}) (dependentTables t))
       a tables).

(** Detach a table: it is removed from the dependents of each of its
    dependencies and from the dependencies of each of its dependents, and
    its own sets are cleared. *)
Definition detach (tables : list SymbolTable) (old : nat) : list SymbolTable :=
  match tables !! old with
  | None => tables
  | Some t =>
      imap (fun id other =>
              if decide (id = old) then emptyTable
              else
                mkSymbolTable
                  (if decide (id ∈ dependentTables t)
                   then dependencyTables other ∖ {[old]}
                   else dependencyTables other)
                  (if decide (id ∈ dependencyTables t)
                   then dependentTables other ∖ {[old]}
                   else dependentTables other))
        tables
  end.

(** The dependents of the table a document has, the table itself apart. *)
Definition dependentsOf (tables : list SymbolTable) (old : Maybe nat) : list nat :=
  match old with
  | None => []
  | Some old =>
      match tables !! old with
      | None => []
      | Some t => elements (dependentTables t ∖ {[old]})
      end
  end.

Section Validation.

(** The documents the load statements of a stored document resolve to. *)
Variable documentLoads : string -> list string.

(** Follow the load statements of the document whose table is [new]:
    each loaded document that is not cached is analysed by [load], and
    its table becomes a dependency of [new]. *)
Fixpoint follow (load : AnalysisService -> string -> Maybe AnalysisService)
    (new : nat) (service : AnalysisService) (loads : list string)
    : Maybe AnalysisService :=
  match loads with
  | [] => Some service
  | uri :: loads =>
      let loaded :=
        match documentInfos service !! uri with
        | Some _ => Some service
        | None => load service uri
        end in
      match loaded with
      | None => None
      | Some service =>
          match documentInfos service !! uri with
          | None => None
          | Some table =>
              follow load new
                (mkService (linkDependency (symbolTables service) new table)
                   (documentInfos service))
                loads
          end
      end
  end.

(** The table a validation of [uri] starts from: the table the document
    had is detached, a new table is added and linked to the libraries,
    the dependents of the old table are linked to the new one, and the
    document is registered with the new table. *)
Definition rebuild (service : AnalysisService) (uri : string) : AnalysisService :=
  let old := documentInfos service !! uri in
  let dependents := dependentsOf (symbolTables service) old in
  let tables :=
    match old with
    | Some old => detach (symbolTables service) old
    | None => symbolTables service
    end in
  let new := length tables in
  let tables := tables ++ [emptyTable] in
  let tables := linkDependency tables new standardLibrary in
  let tables := linkDependency tables new bodyLibrary in
  let tables :=
    foldl (fun tables dependent => linkDependency tables dependent new)
      tables dependents in
  mkService tables (<[uri := new]> (documentInfos service)).

(** Analyse a document whose load statements resolve to [loads].  A
    loaded document that is not cached is analysed in turn; [fuel] bounds
    the depth of such loads.  The document is registered before its loads
    are followed, so that a load cycle finds it cached. *)
Fixpoint loadDocument (fuel : nat) (service : AnalysisService) (uri : string)
    (loads : list string) : Maybe AnalysisService :=
  match fuel with
  | 0 => None
  | S fuel =>
      follow
        (fun service uri => loadDocument fuel service uri (documentLoads uri))
        (length (symbolTables service)) (rebuild service uri) loads
  end.

(** [validateDocument(uri, text)]; [loads] is what the load statements
    of the text resolve to. *)
Definition validateDocument (fuel : nat) (service : AnalysisService)
    (uri : string) (loads : list string) : Maybe AnalysisService :=
  loadDocument fuel service uri loads.

(** A sequence of validations. *)
Fixpoint validateAll (fuel : nat) (service : AnalysisService)
    (edits : list (string * list string)) : Maybe AnalysisService :=
  match edits with
  | [] => Some service
  | (uri, loads) :: edits =>
      match validateDocument fuel service uri loads with
      | Some service => validateAll fuel service edits
      | None => None
      end
  end.

End Validation.

(** ** The link sets as relations *)

(** Table [a] has [b] among its dependencies. *)
Definition Dependency (tables : list SymbolTable) (a b : nat) : Prop :=
  exists t, tables !! a = Some t /\ b ∈ dependencyTables t.

(** Table [b] has [a] among its dependents. *)
Definition Dependent (tables : list SymbolTable) (b a : nat) : Prop :=
  exists t, tables !! b = Some t /\ a ∈ dependentTables t.

(** The two sets are mutually consistent: [a] is in the dependents of
    [b] iff [b] is in the dependencies of [a]. *)
Definition Consistent (tables : list SymbolTable) : Prop :=
  forall a b, Dependency tables a b <-> Dependent tables b a.

(** The tables in use: those of the libraries and the one each document
    has now. *)
Definition Current (service : AnalysisService) (table : nat) : Prop :=
  table < 2 \/ exists uri, documentInfos service !! uri = Some table.

(** No stale edge: every link joins two tables in use. *)
Definition Fresh (service : AnalysisService) : Prop :=
  forall a b,
    Dependency (symbolTables service) a b -> Current service a /\ Current service b.

(** A table no link mentions, in either direction, in any table. *)
Definition Isolated (service : AnalysisService) (table : nat) : Prop :=
  forall other,
    ~ Dependency (symbolTables service) table other /\
    ~ Dependency (symbolTables service) other table /\
    ~ Dependent (symbolTables service) table other /\
    ~ Dependent (symbolTables service) other table.

(** The document has this table. *)
Definition Was (service : AnalysisService) (uri : string) (table : nat) : Prop :=
  documentInfos service !! uri = Some table.

(** What a later state keeps of an earlier one: the tables, and, of the
    tables the documents have, those that are not new. *)
Definition Later (service service' : AnalysisService) : Prop :=
  length (symbolTables service) <= length (symbolTables service') /\
  forall uri table,
    documentInfos service' !! uri = Some table ->
    documentInfos service !! uri = Some table \/
    length (symbolTables service) <= table.

(** A later state in which every document still has its table. *)
Definition Grows (service service' : AnalysisService) : Prop :=
  (forall uri table,
     documentInfos service !! uri = Some table ->
     documentInfos service' !! uri = Some table) /\
  Later service service'.

(** A later state in which [uri] has a new table, the first one past the
    tables of the earlier state, and every other document still has its
    table. *)
Definition Replaces (service : AnalysisService) (uri : string)
    (service' : AnalysisService) : Prop :=
  documentInfos service' !! uri = Some (length (symbolTables service)) /\
  (forall uri' table,
     uri' <> uri -> documentInfos service !! uri' = Some table ->
     documentInfos service' !! uri' = Some table) /\
  length (symbolTables service) < length (symbolTables service') /\
  (forall uri' table,
     documentInfos service' !! uri' = Some table ->
     (uri' <> uri /\ documentInfos service !! uri' = Some table) \/
     length (symbolTables service) <= table).

(** The state of a coordinator between validations. *)
Record Invariant (service : AnalysisService) : Prop := mkInvariant {
  libraries_built : 2 <= length (symbolTables service);
  documents_built :
    forall uri table,
      documentInfos service !! uri = Some table ->
      2 <= table < length (symbolTables service);
  documents_apart :
    forall uri uri' table,
      documentInfos service !! uri = Some table ->
      documentInfos service !! uri' = Some table -> uri = uri';
  links_consistent : Consistent (symbolTables service);
  links_fresh : Fresh service;
}.

(** [getInfo(uri)], as far as the symbol table goes. *)
Definition getInfo (service : AnalysisService) (uri : string) : Maybe nat :=
  documentInfos service !! uri.

(** The sizes of the two sets of a table. *)
Definition sizes (service : AnalysisService) (table : nat) : nat * nat :=
  match symbolTables service !! table with
  | Some t => (size (dependencyTables t), size (dependentTables t))
  | None => (0, 0)
  end.

(** ** The documents of the test *)

Definition uri1 : string := "file:///example/folder/example1.ks".
Definition uri2 : string := "file:///example/folder/example2.ks".

(** [example1.ks] runs [example2.ks]. *)
Definition exampleLoads (uri : string) : list string :=
  if decide (uri = uri1) then [uri2] else [].

(** The four validations of the test, and the table each leaves its
    document with. *)
Definition afterEdits (n : nat) : AnalysisService :=
  match
    validateAll exampleLoads 3 newService
      (take n [(uri1, [uri2]); (uri2, []); (uri1, [uri2]); (uri2, [])])
  with
  | Some service => service
  | None => newService
  end.

Definition tableAfter (n : nat) (uri : string) : nat :=
  match getInfo (afterEdits n) uri with
  | Some table => table
  | None => 0
  end.

End Coordinator.

(** * Positions and ranges (utilities/positionUtils.ts) *)

Module PositionUtils.

(** vscode-languageserver: a [Position] is a line and a character, a
    [Range] a start and an end, a [Location] a uri and a range. *)
Definition Position := Marker.
Definition Range := SymbolTableBuilder.Range.
Definition Location := SymbolTableBuilder.Location.

Definition rangeStart : Range -> Position := SymbolTableBuilder.rangeStart.
Definition rangeEnd : Range -> Position := SymbolTableBuilder.rangeEnd.

(* Is this position after the next *)
Definition positionAfter (pos1 pos2 : Position) : bool :=
  if line pos2 <? line pos1 then true
  else if line pos1 =? line pos2 then
    if character pos2 <? character pos1 then true else false
  else false.

(* Is this position equal to the next *)
Definition positionEqual (pos1 pos2 : Position) : bool :=
  (line pos1 =? line pos2) && (character pos1 =? character pos2).

(* Is this position equal to or after the next *)
Definition positionAfterEqual (pos1 pos2 : Position) : bool :=
  positionAfter pos1 pos2 || positionEqual pos1 pos2.

(* Is this position before the next *)
Definition positionBefore (pos1 pos2 : Position) : bool :=
  if line pos1 <? line pos2 then true
  else if line pos1 =? line pos2 then
    if character pos1 <? character pos2 then true else false
  else false.

(* Is this position equal or before the next *)
Definition positionBeforeEqual (pos1 pos2 : Position) : bool :=
  positionBefore pos1 pos2 || positionEqual pos1 pos2.

(* Is this range equal to the next *)
Definition rangeEqual (range1 range2 : Range) : bool :=
  if negb (positionEqual (rangeStart range1) (rangeStart range2)) then false
  else positionEqual (rangeEnd range1) (rangeEnd range2).

(* Does this range contain this position *)
Definition rangeContains (range : Range) (pos : Position) : bool :=
  if line pos <? line (rangeStart range) then false
  else if (line pos =? line (rangeStart range))
          && (character pos <? character (rangeStart range)) then false
  else if line (rangeEnd range) <? line pos then false
  else if (line pos =? line (rangeEnd range))
          && (character (rangeEnd range) <? character pos) then false
  else true.

(* Is this range before this position *)
Definition rangeBefore (range : Range) (pos : Position) : bool :=
  if line (rangeEnd range) <? line pos then true
  else if line pos =? line (rangeEnd range) then
    if character (rangeEnd range) <? character pos then true else false
  else false.

(* Is this range after this position *)
Definition rangeAfter (range : Range) (pos : Position) : bool :=
  if line pos <? line (rangeStart range) then true
  else if line pos =? line (rangeStart range) then
    if character pos <? character (rangeStart range) then true else false
  else false.

(* Does this range intersect the next *)
Definition rangeIntersection (range1 range2 : Range) : bool :=
  if rangeAfter range1 (rangeEnd range2) then false
  else if rangeBefore range2 (rangeEnd range2) then false
  else true.

(* Are these locations equal *)
Definition locationEqual (loc1 loc2 : Location) : bool :=
  if negb (String.eqb (SymbolTableBuilder.locationUri loc1)
             (SymbolTableBuilder.locationUri loc2)) then false
  else rangeEqual (SymbolTableBuilder.locationRange loc1)
         (SymbolTableBuilder.locationRange loc2).

(* Generate a human readable string of this position *)
Definition positionToString (pos : Position) : string :=
  "line: " +:+ pretty (line pos + 1) +:+ " character: "
    +:+ pretty (character pos + 1).

(* Generate a human readable string of the range *)
Definition rangeToString (range : Range) : string :=
  let sameLine := line (rangeStart range) =? line (rangeEnd range) in
  if line (rangeStart range) =? line (rangeEnd range) then
    let sameCharacter :=
      character (rangeStart range) =? character (rangeEnd range) in
    let chars :=
      if sameLine && sameCharacter
      then pretty (character (rangeStart range) + 1)
      else pretty (character (rangeStart range) + 1) +:+ "-"
             +:+ pretty (character (rangeEnd range) + 1) in
    "line: " +:+ pretty (line (rangeStart range) + 1) +:+ " character: "
      +:+ chars
  else
    positionToString (rangeStart range) +:+ " to "
      +:+ positionToString (rangeEnd range).

(** The order of positions: by line, then by character. *)
Definition Precedes (pos1 pos2 : Position) : Prop :=
  line pos1 < line pos2 \/
  (line pos1 = line pos2 /\ character pos1 < character pos2).

(** A range that does not end before it starts. *)
Definition WellFormed (range : Range) : Prop :=
  ~ Precedes (rangeEnd range) (rangeStart range).

(** How a search ends: it returns, it throws a [TypeError] on reading a
    field of [undefined], or the turns granted to its loop are used up. *)
Inductive Run (A : Type) :=
| Done (a : A)
| Raised (msg : string)
| OutOfFuel.
Arguments Done {A} _.
Arguments Raised {A} _.
Arguments OutOfFuel {A}.

(** [number | [number, number]] *)
Inductive SearchIndex :=
| At (index : Z)
| Between (left right : Z).

Definition undefinedRange : string := "Cannot read property 'end' of undefined".
Definition undefinedStart : string := "Cannot read property 'start' of undefined".

Section Search.

(** The elements of the array and the range of each.  In
    [binarySearchIndex], [binarySearch], [binaryRight] and [binaryLeft]
    the elements are ranges themselves ([T extends Range]) and [key] is
    the inclusion; [binarySearchKeyIndex] and [binaryRightKey] take
    [key] as an argument. *)
Context {T : Type}.
Variable key : T -> Range.

(** [ranges[i]]: [undefined] outside of the array. *)
Definition at_ (ranges : list T) (i : Z) : Maybe T :=
  if decide (0 <= i)%Z then ranges !! Z.to_nat i else None.

(** The loop of [binarySearchKeyIndex], [fuel] turns of it at most. *)
Fixpoint searchLoop (fuel : nat) (ranges : list T) (pos : Position)
    (left right : Z) : Run SearchIndex :=
  match fuel with
  | 0 => OutOfFuel
  | S fuel =>
      if (left <=? right)%Z then
        let mid := ((right + left) / 2)%Z in
        match at_ ranges mid with
        | None => Raised undefinedRange
        | Some r =>
            if rangeBefore (key r) pos then
              searchLoop fuel ranges pos (mid + 1)%Z right
            else if rangeAfter (key r) pos then
              searchLoop fuel ranges pos left (mid - 1)%Z
            else if rangeContains (key r) pos then Done (At mid)
            else Done (Between left right)
        end
      else Done (Between left right)
  end.

(* Binary search for index of matching item using . Returns array if
   between ranges *)
(** The loop is given one turn more than the array has elements. *)
Definition binarySearchKeyIndex (ranges : list T) (pos : Position)
    : Run SearchIndex :=
  searchLoop (S (length ranges)) ranges pos 0 (Z.of_nat (length ranges) - 1).

(** [Array.isArray(index) ? a : b] on the outcome of a search. *)
Definition select (ranges : list T) (index : Run SearchIndex)
    (between : Z -> Z -> Maybe T) : Run (Maybe T) :=
  match index with
  | Done (At i) => Done (at_ ranges i)
  | Done (Between l r) => Done (between l r)
  | Raised msg => Raised msg
  | OutOfFuel => OutOfFuel
  end.

(* Binary search a collection of ordered ranges *)
Definition binarySearch (ranges : list T) (pos : Position) : Run (Maybe T) :=
  select ranges (binarySearchKeyIndex ranges pos) (fun _ _ => None).

(* Binary search right on a collection of ordered ranges *)
Definition binaryRight (ranges : list T) (pos : Position) : Run (Maybe T) :=
  match at_ ranges 0 with
  | None => Raised undefinedStart
  | Some first =>
      if rangeAfter (key first) pos then Done None
      else
        select ranges (binarySearchKeyIndex ranges pos)
          (fun (_ right : Z) => at_ ranges right)
  end.

(** [rangeAfter.length]: the number of parameters of [rangeAfter]. *)
Definition rangeAfter_length : Z := 2.

(* Binary search left on a collection of ordered ranges *)
Definition binaryLeft (ranges : list T) (pos : Position) : Run (Maybe T) :=
  if (length ranges =? 0)%nat then Done None
  else
    match at_ ranges (rangeAfter_length - 1) with
    | None => Raised undefinedRange
    | Some r =>
        if rangeBefore (key r) pos then Done None
        else
          select ranges (binarySearchKeyIndex ranges pos)
            (fun (left _ : Z) => at_ ranges left)
    end.

(* Binary search with provided function to generate a range *)
Definition binaryRightKey (ranges : list T) (pos : Position) : Run (Maybe T) :=
  if (length ranges =? 0)%nat then Done None
  else
    match at_ ranges 0 with
    | None => Raised undefinedStart
    | Some first =>
        if rangeAfter (key first) pos then Done None
        else
          select ranges (binarySearchKeyIndex ranges pos)
            (fun (_ right : Z) => at_ ranges right)
    end.

(** What the loop has found out about the elements next to its bounds:
    the one left of [left] is before the position, the one right of
    [right] is after it. *)
Definition Probed (ranges : list T) (pos : Position) (l r : Z) : Prop :=
  (forall x, at_ ranges (l - 1) = Some x -> rangeBefore (key x) pos = true) /\
  (forall x, at_ ranges (r + 1) = Some x -> rangeAfter (key x) pos = true).

(** What a search returns. *)
Definition Answer (ranges : list T) (pos : Position) (idx : SearchIndex)
    : Prop :=
  match idx with
  | At i => exists r, at_ ranges i = Some r /\ rangeContains (key r) pos = true
  | Between l r =>
      l = (r + 1)%Z /\ (0 <= l <= Z.of_nat (length ranges))%Z /\
      Probed ranges pos l r
  end.

(** The array is ordered: no range ends before it starts, and each ends
    before the next one starts. *)
Definition Ordered (ranges : list T) : Prop :=
  (forall i r, ranges !! i = Some r ->
     positionBeforeEqual (rangeStart (key r)) (rangeEnd (key r)) = true) /\
  (forall i j r r',
     i < j -> ranges !! i = Some r -> ranges !! j = Some r' ->
     positionBefore (rangeEnd (key r)) (rangeStart (key r')) = true).

End Search.

(** [binarySearchIndex]: the search of an array of ranges. *)
Definition binarySearchIndex (ranges : list Range) (pos : Position)
    : Run SearchIndex :=
  binarySearchKeyIndex (fun r => r) ranges pos.

(** ** Sample ranges *)

Definition span (l c l' c' : nat) : Range :=
  SymbolTableBuilder.mkRange (mkMarker l c) (mkMarker l' c').

(** Three ranges on one line, with a gap between the last two. *)
Definition threeRanges : list Range :=
  [span 0 0 0 3; span 0 4 0 6; span 0 9 0 12].

End PositionUtils.

(** * The function resolver (analysis/symbolTableBuilder.ts, second part) *)

Module FuncResolver.
Import Parser.

(** analysis/resolverError.ts is not among the sources: of a
    [ResolverError] the arguments of its constructor are kept. *)
Record ResolverError := mkResolverError {
  token : Maybe Token;
  message : string;
  otherInfo : list string;
}.

(** entities/parameters.ts is not among the sources: of a [KsParameter]
    the arguments of its constructor are kept, the identifier as the
    parser left it. *)
Record KsParameter := mkKsParameter {
  name : Maybe Token;
  defaulted : bool;
  state : SymbolTableBuilder.SymbolState.t;
}.

(** What the resolver reads of a [Param] declaration: its parameters and
    its defaulted parameters. *)
Definition Param : Type := list DeclParameter * list DefaultParam.

Definition defaultIdentifier (p : DefaultParam) : Maybe Token :=
  match p with
  | mkDefaultParam identifier _ _ => identifier
  end.

(** The three variables of [buildParameters]. *)
Record Built := mkBuilt {
  parameters : list KsParameter;
  errors : list ResolverError;
  seenDefaulted : bool;
}.

(** The body of [for (const parameter of decl.parameters)] *)
Definition normalStep (st : Built) (parameter : DeclParameter) : Built :=
  mkBuilt
    (parameters st
       ++ [mkKsParameter (identifier parameter) false
             SymbolTableBuilder.SymbolState.declared])
    (if seenDefaulted st then
       errors st
         ++ [mkResolverError (identifier parameter)
               "Normal parameters cannot occur after defaulted parameters" []]
     else errors st)
    (seenDefaulted st).

(** The body of [for (const parameter of decl.defaultParameters)] *)
Definition defaultStep (st : Built) (parameter : DefaultParam) : Built :=
  mkBuilt
    (parameters st
       ++ [mkKsParameter (defaultIdentifier parameter) true
             SymbolTableBuilder.SymbolState.declared])
    (errors st) true.

(** The body of [for (const decl of decls)] *)
Definition declStep (st : Built) (decl : Param) : Built :=
  fold_left defaultStep decl.2 (fold_left normalStep decl.1 st).

Definition buildParameters (decls : list Param)
    : list KsParameter * list ResolverError :=
  let st := fold_left declStep decls (mkBuilt [] [] false) in
  (parameters st, errors st).

(** The loop of [visitDeclFunction] over the instructions of the body:
    the [Param] declarations in order, and whether a [Return] is among
    the instructions. *)
Definition collectStep (acc : list Param * bool) (inst : Inst)
    : list Param * bool :=
  match inst with
  | DeclParam _ parameters defaultParameters _ =>
      (acc.1 ++ [(parameters, defaultParameters)], acc.2)
  | InstReturn _ _ => (acc.1, true)
  | _ => acc
  end.

Definition collect (instructions : list Inst) : list Param * bool :=
  fold_left collectStep instructions ([], false).

(** The identifiers a list of declarations declares, in order, each with
    whether it is defaulted. *)
Definition declared (decls : list Param) : list (Maybe Token * bool) :=
  concat
    (map (fun decl : Param =>
            map (fun p => (identifier p, false)) decl.1
              ++ map (fun p => (defaultIdentifier p, true)) decl.2)
       decls).

(** The identifiers that are not defaulted and come after a defaulted
    one; [seen] tells whether a defaulted one came before the list. *)
Fixpoint late (seen : bool) (l : list (Maybe Token * bool))
    : list (Maybe Token) :=
  match l with
  | [] => []
  | (_, true) :: l => late true l
  | (identifier, false) :: l =>
      (if seen then [identifier] else []) ++ late seen l
  end.

(** No parameter that is not defaulted comes after a defaulted one. *)
Definition Ordered (l : list (Maybe Token * bool)) : Prop :=
  forall i j x y,
    i < j -> l !! i = Some (x, true) -> l !! j = Some (y, false) -> False.

End FuncResolver.

(** * The document service (services/documentService.ts) *)

Module DocumentService.

(** [TextDocument.create(uri, languageId, version, text)]: of a text
    document of vscode-languageserver the four arguments are kept. *)
Record TextDocument := create {
  uri : string;
  languageId : string;
  version : Z;
  text : string;
}.

(** ** [Map<string, TextDocument>]

    The entries in the order of insertion, which is the order of
    [values()]. *)
Definition Docs := list (string * TextDocument).

Fixpoint docsGet (m : Docs) (key : string) : Maybe TextDocument :=
  match m with
  | [] => None
  | (k, v) :: m => if decide (k = key) then Some v else docsGet m key
  end.

Definition docsHas (m : Docs) (key : string) : bool :=
  match docsGet m key with
  | Some _ => true
  | None => false
  end.

(** [m.set(key, v)]: a key already present keeps its place. *)
Fixpoint docsSet (m : Docs) (key : string) (v : TextDocument) : Docs :=
  match m with
  | [] => [(key, v)]
  | (k, w) :: m =>
      if decide (k = key) then (k, v) :: m else (k, w) :: docsSet m key v
  end.

Fixpoint docsDelete (m : Docs) (key : string) : Docs :=
  match m with
  | [] => []
  | (k, w) :: m =>
      if decide (k = key) then m else (k, w) :: docsDelete m key
  end.

Definition docsValues (m : Docs) : list TextDocument := map snd m.

(** ** [String.prototype.replace] with a string pattern: the first
    occurrence is replaced. *)
Fixpoint dropString (n : nat) (s : string) : string :=
  match n, s with
  | 0, _ => s
  | S n, String _ s => dropString n s
  | S _, EmptyString => EmptyString
  end.

Fixpoint replaceFirst (pattern replacement s : string) : string :=
  if String.prefix pattern s then
    replacement +:+ dropString (String.length pattern) s
  else
    match s with
    | EmptyString => EmptyString
    | String c s => String c (replaceFirst pattern replacement s)
    end.

(** What a handler is called with: [handler(document)] of [onChange],
    with the uri and the text, and [handler(uri)] of [onClose]. *)
Inductive Notification :=
| DocumentChanged (uri : string) (text : string)
| DocumentClosed (uri : string).

(** A change of [params.contentChanges]: its range, if it has one, and
    its text. *)
Definition Change : Type := Maybe SymbolTableBuilder.Range * string.

(** An edit [{ range, newText }]. *)
Definition Edit : Type := SymbolTableBuilder.Range * string.

(** How far [loadDocument] gets before it waits for the loader: it
    returns, or it waits for the file at [path] to store it under
    [normalized]. *)
Inductive Loading (A : Type) :=
| Answered (a : A)
| Awaiting (normalized path : string).
Arguments Answered {A} _.
Arguments Awaiting {A} _ _.

Section Service.

(** vscode-uri, path and utilities/pathResolver.ts are not among the
    sources: uris, the path resolver and the functions the service calls
    on them are parameters. *)
Context {Uri Resolver : Type}.

(** [extname] of path. *)
Variable extname : string -> string.
(** [uri.toString()] and [uri.fsPath] *)
Variable uriString : Uri -> string.
Variable fsPath : Uri -> string.
(** [URI.parse]; [None] when it throws. *)
Variable parseUri : string -> Maybe Uri.
(** [pathResolver.ready()], [pathResolver.volume0Uri],
    [pathResolver.volume0Uri = uri] and [pathResolver.resolveUri]. *)
Variable resolverReady : Resolver -> bool.
Variable volume0Uri : Resolver -> Maybe Uri.
Variable setVolume0 : Resolver -> Uri -> Resolver.
Variable resolveUri :
  Resolver -> SymbolTableBuilder.Location -> string -> Maybe Uri.
(** [TextDocument.applyEdits] *)
Variable applyEdits : TextDocument -> list Edit -> string.

Record Service := mkService {
  clientDocs : Docs;
  serverDocs : Docs;
  pathResolver : Resolver;
}.

(** The constructor, around the path resolver it makes. *)
Definition newService (resolver : Resolver) : Service :=
  mkService [] [] resolver.

(* Is the document service read *)
Definition ready (s : Service) : bool := resolverReady (pathResolver s).

(* Normalize a filepath to the the default extension .ks if rules allow it to *)
Definition normalizeExtensions (target : Uri + string) : Maybe string :=
  let ext :=
    match target with
    | inl u => extname (fsPath u)
    | inr path => extname path
    end in
  let uriString :=
    match target with
    | inl u => uriString u
    | inr path => path
    end in
  if decide (ext = ".ks") then Some uriString
  else if decide (ext = ".ksm") then
    Some (replaceFirst ".ksm" ".ks" uriString)
  else if decide (ext = EmptyString) then Some (uriString +:+ ".ks")
  else None.

(* Get a document from this document service *)
Definition getDocument (s : Service) (target : string) : Maybe TextDocument :=
  match normalizeExtensions (inr target) with
  | None => None
  | Some normalized =>
      match docsGet (clientDocs s) normalized with
      | Some document => Some document
      | None => docsGet (serverDocs s) normalized
      end
  end.

(* Get all document held in this service *)
Definition getAllDocuments (s : Service) : list TextDocument :=
  docsValues (clientDocs s) ++ docsValues (serverDocs s).

(* Generate a loading diagnostic if file cannot be loaded *)
Definition loadError (range : SymbolTableBuilder.Range) (path : string)
    : SymbolTableBuilder.Diagnostic :=
  SymbolTableBuilder.mkDiagnostic range
    ("Unable to load script at " +:+ path)
    SymbolTableBuilder.DiagnosticSeverity.Information [].

(** The part of [loadDocument] and of [loadDocumentFromScript] from the
    normalized uri to the call of the loader; [failure] is what the
    method returns when it cannot load. *)
Definition loadNormalized {A} (s : Service) (normalized : Maybe string)
    (found : TextDocument -> A) (failure : A) : Loading A :=
  match normalized with
  | None => Answered failure
  | Some normalized =>
      (* check for cached versions first *)
      match docsGet (serverDocs s) normalized with
      | Some cached => Answered (found cached)
      | None =>
          match parseUri normalized with
          | None => Answered failure
          | Some u => Awaiting normalized (fsPath u)
          end
      end
  end.

(* Attempt to load a document from a provided uri *)
Definition loadDocumentBegin (s : Service) (target : string)
    : Loading (Maybe TextDocument) :=
  (* resolver must first be ready *)
  if negb (ready s) then Answered None
  else loadNormalized s (normalizeExtensions (inr target)) Some None.

(* Attempt load a document from a kOS script *)
Definition loadDocumentFromScriptBegin (s : Service)
    (caller : SymbolTableBuilder.Location) (kosPath : string)
    : Loading (Maybe (SymbolTableBuilder.Diagnostic + TextDocument)) :=
  let failure :=
    Some (inl (loadError (SymbolTableBuilder.locationRange caller) kosPath)) in
  if negb (ready s) then Answered None
  else
    (* resolve kos path to uri *)
    match resolveUri (pathResolver s) caller kosPath with
    | None => Answered failure
    | Some u =>
        loadNormalized s (normalizeExtensions (inl u))
          (fun cached => Some (inr cached)) failure
    end.

(** The rest of the two methods, once the loader has answered:
    [retrieved] is the text of the file, or [None] when the loader
    rejects. *)
Definition stored (s : Service) (normalized : string) (retrieved : string)
    : Service :=
  mkService (clientDocs s)
    (docsSet (serverDocs s) normalized (create normalized "kos" 0 retrieved))
    (pathResolver s).

Definition loadDocumentEnd (s : Service) (normalized : string)
    (retrieved : Maybe string) : Service * Maybe TextDocument :=
  match retrieved with
  | Some retrieved =>
      (stored s normalized retrieved,
       Some (create normalized "kos" 0 retrieved))
  | None => (s, None)
  end.

Definition loadDocumentFromScriptEnd (s : Service)
    (caller : SymbolTableBuilder.Location) (kosPath : string)
    (normalized : string) (retrieved : Maybe string)
    : Service * Maybe (SymbolTableBuilder.Diagnostic + TextDocument) :=
  match retrieved with
  | Some retrieved =>
      (stored s normalized retrieved,
       Some (inr (create normalized "kos" 0 retrieved)))
  | None =>
      (s, Some (inl (loadError (SymbolTableBuilder.locationRange caller)
                       kosPath)))
  end.

(** [loadDocument] when nothing else happens while it waits: [load] is
    the loader, the files it finds by their paths. *)
Definition loadDocument (load : string -> Maybe string) (s : Service)
    (target : string) : Service * Maybe TextDocument :=
  match loadDocumentBegin s target with
  | Answered document => (s, document)
  | Awaiting normalized path => loadDocumentEnd s normalized (load path)
  end.

(** One turn of the loop of [cacheDocuments], over a document the
    loader yields. *)
Definition cacheDocument (s : Service) (loaded : string * string) : Service :=
  if docsHas (clientDocs s) loaded.1 then s
  else
    mkService (clientDocs s)
      (docsSet (serverDocs s) loaded.1 (create loaded.1 "kos" 0 loaded.2))
      (pathResolver s).

(* Cache all documents in the workspace. *)
(** [cacheDocuments] when nothing else happens while it waits for the
    loader: [yielded] are the documents the loader yields before it
    ends or rejects. *)
Definition cacheDocuments (s : Service) (yielded : list (string * string))
    : Service :=
  match volume0Uri (pathResolver s) with
  | None => s
  | Some _ => fold_left cacheDocument yielded s
  end.

(* Set the volume 0 uri *)
(** The call of [cacheDocuments] it makes is not awaited: its turns come
    as events of their own. *)
Definition setVolume0Uri (s : Service) (u : Uri) : Service :=
  mkService (clientDocs s) (serverDocs s) (setVolume0 (pathResolver s) u).

(* Handle calls to open text document. *)
Definition onOpenHandler (s : Service) (document : TextDocument)
    : Service * list Notification :=
  (mkService
     (docsSet (docsDelete (clientDocs s) (uri document)) (uri document)
        (create (uri document) (languageId document) (version document)
           (text document)))
     (serverDocs s) (pathResolver s),
   [DocumentChanged (uri document) (text document)]).

(** The edits of the changes that have a range. *)
Definition editsOf (contentChanges : list Change) : list Edit :=
  omap (fun change : Change =>
          match change.1 with
          | Some range => Some (range, change.2)
          | None => None
          end)
    contentChanges.

(* Handle calls to on change text document *)
Definition onChangeHandler (s : Service) (target : string)
    (contentChanges : list Change) : Service * list Notification :=
  (* lookup existing document *)
  match docsGet (clientDocs s) target with
  | None => (s, [])
  | Some document =>
      let text := applyEdits document (editsOf contentChanges) in
      let updatedDoc :=
        create (uri document) (languageId document) (version document) text in
      (mkService (docsSet (clientDocs s) (uri document) updatedDoc)
         (serverDocs s) (pathResolver s),
       [DocumentChanged (uri document) text])
  end.

(* On document close handler. Move document from editor docs to server docs. *)
Definition onCloseHandler (s : Service) (target : string)
    : Service * list Notification :=
  let document := docsGet (clientDocs s) target in
  (mkService (docsDelete (clientDocs s) target)
     (match document with
      | Some document => docsSet (serverDocs s) target document
      | None => serverDocs s
      end)
     (pathResolver s),
   [DocumentClosed target]).

(** ** Runs of the service

    What happens to a service, one turn of the event loop at a time: the
    three notifications of the client, the end of a load, a turn of the
    loop of [cacheDocuments], and [setVolume0Uri]. *)
Inductive Event :=
| DidOpen (document : TextDocument)
| DidChange (target : string) (contentChanges : list Change)
| DidClose (target : string)
| Loaded (normalized : string) (retrieved : string)
| Cached (target : string) (retrieved : string)
| VolumeSet (u : Uri).

Definition handle (s : Service) (e : Event) : Service :=
  match e with
  | DidOpen document => (onOpenHandler s document).1
  | DidChange target contentChanges =>
      (onChangeHandler s target contentChanges).1
  | DidClose target => (onCloseHandler s target).1
  | Loaded normalized retrieved => stored s normalized retrieved
  | Cached target retrieved => cacheDocument s (target, retrieved)
  | VolumeSet u => setVolume0Uri s u
  end.

Definition run (s : Service) (events : list Event) : Service :=
  fold_left handle events s.

(** Every document of the map is stored under its own uri. *)
Definition Keyed (m : Docs) : Prop :=
  forall key document, docsGet m key = Some document -> uri document = key.

(** What the service keeps: in both maps every document is stored once,
    under its own uri. *)
Definition Stored (s : Service) : Prop :=
  Keyed (clientDocs s) /\ Keyed (serverDocs s) /\
  NoDup (map fst (clientDocs s)) /\ NoDup (map fst (serverDocs s)).

(** The uri a notification of the client is about. *)
Definition about (e : Event) : Maybe string :=
  match e with
  | DidOpen document => Some (uri document)
  | DidChange target _ | DidClose target => Some target
  | _ => None
  end.

(** The events that are not the opening or the closing of [target]. *)
Definition keepsOpen (target : string) (e : Event) : bool :=
  match e with
  | DidOpen document => negb (bool_decide (uri document = target))
  | DidClose closed => negb (bool_decide (closed = target))
  | _ => true
  end.

End Service.

(** ** Sample service: every path has the extension [.ks], uris are
    strings, and the resolver is ready once a volume is set. *)
Definition sampleExtname (_ : string) : string := ".ks".

Definition sampleEdits (document : TextDocument) (edits : list Edit) : string :=
  String.concat EmptyString (map snd edits).

Definition sampleDocument : TextDocument :=
  create "file:///boot.ks" "kos" 3 "print 1.".

Definition sampleService : Service (Resolver := bool) := newService true.

Definition sampleSetVolume (resolver : bool) (u : string) : bool := true.

(** The file of the document is loaded, and a change comes for it. *)
Definition sampleEvents : list (Event (Uri := string)) :=
  [Loaded "file:///boot.ks" "print 2.";
   DidChange "file:///boot.ks"
     [(Some (SymbolTableBuilder.mkRange (mkMarker 0 6) (mkMarker 0 7)), "3")]].

End DocumentService.

(** * Facts about the parser *)

Module ParserFacts.
Import Parser.

#[local] Arguments wp {A} !o QR QT QO /.
#[local] Ltac wp_simpl := cbn [wp ret throw fault getCurrent typeOf].

(** ** Rules of [wp] *)

Lemma wp_bind {A B} (m : M A) (k : A -> M B) s QR QT QO :
  wp (m s) (fun a s' => wp (k a s') QR QT QO) QT QO ->
  wp (bind m k s) QR QT QO.
Proof. unfold bind. destruct (m s); simpl; auto. Qed.

Lemma wp_tryCatch {A} (m : M A) (h : ParseError -> M A) s QR QT QO :
  wp (m s) QR (fun e s' => wp (h e s') QR QT QO) QO ->
  wp (tryCatch m h s) QR QT QO.
Proof. unfold tryCatch. destruct (m s); simpl; auto. Qed.

Lemma wp_wand {A} (o : outcome A) QR QT (QO : Prop) QR' QT' (QO' : Prop) :
  wp o QR QT QO ->
  (forall a s, QR a s -> QR' a s) ->
  (forall e s, QT e s -> QT' e s) ->
  (QO -> QO') ->
  wp o QR' QT' QO'.
Proof. destruct o; simpl; auto. Qed.

Section Primitives.

Variable tokens : list Token.
Variable isValidIdentifier : TokenType.t -> bool.
Variable declPrototype : DeclClass -> Prototype.

Hypothesis tokens_end :
  exists front e, tokens = front ++ [e] /\ type e = TokenType.eof.

Abbreviation Inv := (Inv tokens).
Abbreviation typeAt := (typeAt tokens).

Lemma typeAt_lt i : typeAt i <> TokenType.eof -> S i < length tokens.
Proof.
  destruct tokens_end as (front & e & -> & He). unfold Parser.typeAt.
  rewrite length_app. simpl. intros H.
  destruct (decide (i < length front)) as [Hlt|Hge]; [lia|].
  exfalso. apply H.
  destruct (decide (i = length front)) as [->|Hne].
  - rewrite lookup_app_r by lia. rewrite Nat.sub_diag. simpl. exact He.
  - rewrite lookup_ge_None_2; [reflexivity|]. rewrite length_app. simpl. lia.
Qed.

Lemma typeAt_lookup i t : tokens !! i = Some t -> typeAt i = type t.
Proof. intros H. unfold Parser.typeAt. rewrite H. reflexivity. Qed.

Lemma tokenAt_nat i t : tokens !! i = Some t -> tokenAt tokens (Z.of_nat i) = Some t.
Proof.
  intros H. unfold tokenAt. rewrite decide_True by lia. rewrite Nat2Z.id. exact H.
Qed.

Lemma Inv_lookup s : Inv s -> exists t, tokens !! current s = Some t.
Proof. intros [H _]. apply lookup_lt_is_Some_2 in H. destruct H as [t H]. eauto. Qed.

Lemma Inv_logRead a i s :
  Inv s -> readOk tokens (a, i) -> Inv (logRead a i s).
Proof.
  intros [H1 H2] H. split; [exact H1|]. simpl. apply Forall_app. split; [exact H2|].
  constructor; [exact H|constructor].
Qed.

Lemma Inv_move s :
  Inv s -> typeAt (current s) <> TokenType.eof ->
  Inv (mkState (current s + 1) (runInsts s) (reads s)).
Proof.
  intros [H1 H2] H. apply typeAt_lt in H. split; simpl; [lia|exact H2].
Qed.

(** *** The cursor primitives *)

Lemma wp_peek s QR QT QO :
  Inv s ->
  (forall t s', tokens !! current s = Some t -> current s' = current s ->
                Inv s' -> QR (Some t) s') ->
  wp (peek tokens s) QR QT QO.
Proof.
  intros HI H. destruct (Inv_lookup s HI) as [t Ht].
  unfold peek. cbn [wp]. rewrite (tokenAt_nat _ _ Ht). apply H; auto.
  apply Inv_logRead; auto. unfold readOk, inBounds. simpl. destruct HI. lia.
Qed.

Lemma wp_previous s QR QT QO :
  Inv s -> 1 <= current s ->
  (forall t s', current s' = current s -> Inv s' -> QR (Some t) s') ->
  wp (previous tokens s) QR QT QO.
Proof.
  intros HI H1 H. unfold previous. cbn [wp].
  assert (Hlt : current s - 1 < length tokens) by (destruct HI; lia).
  apply lookup_lt_is_Some_2 in Hlt. destruct Hlt as [t Ht].
  replace (Z.of_nat (current s) - 1)%Z with (Z.of_nat (current s - 1)) by lia.
  rewrite (tokenAt_nat _ _ Ht). apply H; auto.
  apply Inv_logRead; auto. unfold readOk, inBounds. simpl. destruct HI. lia.
Qed.

Lemma wp_peekNext s QR QT QO :
  Inv s ->
  (forall t s', current s' = current s -> Inv s' -> QR t s') ->
  wp (peekNext tokens s) QR QT QO.
Proof.
  intros HI H. unfold peekNext. cbn [wp]. apply H; auto.
  apply Inv_logRead; auto. unfold readOk, inBounds. simpl. destruct HI. lia.
Qed.

Lemma wp_isAtEnd s QR QT QO :
  Inv s ->
  (forall (b : bool) s', current s' = current s -> Inv s' ->
     (if b then typeAt (current s) = TokenType.eof
      else typeAt (current s) <> TokenType.eof) -> QR b s') ->
  wp (isAtEnd tokens s) QR QT QO.
Proof.
  intros HI H. unfold isAtEnd. apply wp_bind. apply wp_peek; [exact HI|].
  intros t s' Ht Hc HI'. wp_simpl. apply H; auto.
  unfold Parser.typeAt. rewrite Ht. case_bool_decide; auto.
Qed.

Lemma wp_advance s QR QT QO :
  Inv s -> live tokens s ->
  (forall t s', Inv s' -> 1 <= current s' ->
     (typeAt (current s) <> TokenType.eof /\ current s' = S (current s) \/
      typeAt (current s) = TokenType.eof /\ current s' = current s) ->
     QR (Some t) s') ->
  wp (advance tokens s) QR QT QO.
Proof.
  intros HI Hl H. unfold advance. apply wp_bind. apply wp_isAtEnd; [exact HI|].
  intros b s1 Hc HI1 Hb. apply wp_bind. destruct b.
  - wp_simpl. apply wp_previous; [exact HI1| |].
    + destruct Hl as [Hl|Hl]; [lia|contradiction].
    + intros t s2 Hc2 HI2. apply H; auto.
      * destruct Hl as [Hl|Hl]; [lia|contradiction].
      * right. split; [exact Hb|lia].
  - wp_simpl. rewrite <- Hc in Hb. pose proof (Inv_move _ HI1 Hb) as HI2.
    apply wp_previous; [exact HI2|simpl; lia|].
    intros t s2 Hc2 HI2'. simpl in Hc2. apply H; auto; [lia|].
    left. rewrite Hc in Hb. split; [exact Hb|lia].
Qed.

Lemma wp_check ty s QR QT QO :
  Inv s ->
  (forall (b : bool) s', current s' = current s -> Inv s' ->
     (if b then typeAt (current s) = ty /\ ty <> TokenType.eof
      else typeAt (current s) = TokenType.eof \/ typeAt (current s) <> ty) ->
     QR b s') ->
  wp (check tokens ty s) QR QT QO.
Proof.
  intros HI H. unfold check. apply wp_bind. apply wp_isAtEnd; [exact HI|].
  intros b s1 Hc HI1 Hb. destruct b.
  - wp_simpl. apply H; auto.
  - apply wp_bind. apply wp_peek; [exact HI1|]. intros t s2 Ht Hc2 HI2.
    wp_simpl. apply H; auto; [lia|].
    rewrite Hc in Ht. unfold Parser.typeAt in *. rewrite Ht in *.
    case_bool_decide; [split; congruence | right; assumption].
Qed.

Lemma wp_checkNext ty s QR QT QO :
  Inv s ->
  (forall (b : bool) s', current s' = current s -> Inv s' -> QR b s') ->
  wp (checkNext tokens ty s) QR QT QO.
Proof.
  intros HI H. unfold checkNext. apply wp_bind. apply wp_peekNext; [exact HI|].
  intros [t|] s' Hc HI'; simpl; apply H; auto.
Qed.

Lemma wp_someCheck types s QR QT QO :
  Inv s ->
  (forall (b : bool) s', current s' = current s -> Inv s' ->
     (if b then typeAt (current s) ∈ types /\ typeAt (current s) <> TokenType.eof
      else typeAt (current s) = TokenType.eof \/ typeAt (current s) ∉ types) ->
     QR b s') ->
  wp (someCheck tokens types s) QR QT QO.
Proof.
  revert s. induction types as [|ty types IH]; intros s HI H.
  - wp_simpl. apply H; auto. right. apply not_elem_of_nil.
  - wp_simpl. apply wp_bind. apply wp_check; [exact HI|]. intros b s1 Hc HI1 Hb.
    destruct b.
    + wp_simpl. apply H; auto. destruct Hb as [Hb1 Hb2]. split.
      * rewrite Hb1. apply elem_of_cons. left. reflexivity.
      * congruence.
    + apply IH; [exact HI1|]. intros b s2 Hc2 HI2 Hb2. apply H; auto; [lia|].
      rewrite Hc in Hb2. destruct b.
      * destruct Hb2 as [Hb2 Hb3]. split; [apply elem_of_cons; right; exact Hb2|exact Hb3].
      * destruct Hb2 as [Hb2|Hb2]; [left; exact Hb2|].
        destruct Hb as [Hb|Hb]; [left; exact Hb|]. right.
        apply not_elem_of_cons. split; assumption.
Qed.

Lemma wp_matchToken types s QR QT QO :
  Inv s ->
  (forall (b : bool) s', Inv s' ->
     (if b then current s' = S (current s) /\ typeAt (current s) ∈ types /\
                typeAt (current s) <> TokenType.eof
      else current s' = current s /\
           (typeAt (current s) = TokenType.eof \/ typeAt (current s) ∉ types)) ->
     QR b s') ->
  wp (matchToken tokens types s) QR QT QO.
Proof.
  intros HI H. unfold matchToken. apply wp_bind. apply wp_someCheck; [exact HI|].
  intros b s1 Hc HI1 Hb. apply wp_bind. destruct b.
  - destruct Hb as [Hb1 Hb2]. apply wp_advance; [exact HI1| |].
    + right. rewrite Hc. exact Hb2.
    + intros t s2 HI2 _ Hm. wp_simpl. apply H; auto. rewrite Hc in Hm.
      destruct Hm as [[_ Hm]|[Hm _]]; [|contradiction]. auto.
  - wp_simpl. apply H; auto.
Qed.

Lemma wp_identifierCheck s QR QT QO :
  Inv s ->
  (forall (b : bool) s', current s' = current s -> Inv s' ->
     (if b then isValidIdentifier (typeAt (current s)) = true /\
                typeAt (current s) <> TokenType.eof
      else True) ->
     QR b s') ->
  wp (identifierCheck tokens isValidIdentifier s) QR QT QO.
Proof.
  intros HI H. unfold identifierCheck. apply wp_bind. apply wp_isAtEnd; [exact HI|].
  intros b s1 Hc HI1 Hb. destruct b.
  - wp_simpl. apply H; auto.
  - apply wp_bind. apply wp_peek; [exact HI1|]. intros t s2 Ht Hc2 HI2.
    wp_simpl. apply H; auto; [lia|].
    rewrite Hc in Ht. unfold Parser.typeAt in *. rewrite Ht in *.
    destruct (isValidIdentifier (type t)); auto.
Qed.

Lemma wp_matchIdentifier s QR QT QO :
  Inv s ->
  (forall (b : bool) s', Inv s' ->
     (if b then current s' = S (current s) else current s' = current s) ->
     QR b s') ->
  wp (matchIdentifier tokens isValidIdentifier s) QR QT QO.
Proof.
  intros HI H. unfold matchIdentifier. apply wp_bind.
  apply wp_identifierCheck; [exact HI|].
  intros b s1 Hc HI1 Hb. apply wp_bind. destruct b.
  - destruct Hb as [Hb1 Hb2]. apply wp_advance; [exact HI1| |].
    + right. rewrite Hc. exact Hb2.
    + intros t s2 HI2 _ Hm. wp_simpl. apply H; auto. rewrite Hc in Hm.
      destruct Hm as [[_ Hm]|[Hm _]]; [|contradiction]. auto.
  - wp_simpl. apply H; auto.
Qed.

Lemma wp_consumeTokenThrow msg c types s QR QT QO :
  Inv s -> 1 <= current s ->
  (forall t s', Inv s' -> current s' = S (current s) ->
     typeAt (current s) ∈ types -> QR (Some t) s') ->
  (forall e s', Inv s' -> current s' = current s -> QT e s') ->
  wp (consumeTokenThrow tokens declPrototype msg c types s) QR QT QO.
Proof.
  intros HI H1 HR HT. unfold consumeTokenThrow. apply wp_bind.
  apply wp_matchToken; [exact HI|]. intros b s1 HI1 Hb. destruct b.
  - destruct Hb as (Hc & Hin & _). apply wp_previous; [exact HI1|lia|].
    intros t s2 Hc2 HI2. apply HR; auto. lia.
  - destruct Hb as [Hc _]. apply wp_bind. apply wp_previous; [exact HI1|lia|].
    intros t s2 Hc2 HI2. wp_simpl. apply HT; auto. lia.
Qed.

Lemma wp_terminal c s QR QT QO :
  Inv s -> 1 <= current s ->
  (forall t s', Inv s' -> current s' = S (current s) -> QR (Some t) s') ->
  (forall e s', Inv s' -> current s' = current s -> QT e s') ->
  wp (terminal tokens declPrototype c s) QR QT QO.
Proof.
  intros HI H1 HR HT. unfold terminal. apply wp_consumeTokenThrow; auto.
Qed.

Lemma wp_consumeIdentifierThrow msg c s QR QT QO :
  Inv s -> 1 <= current s ->
  (forall t s', Inv s' -> current s' = S (current s) -> QR (Some t) s') ->
  (forall e s', Inv s' -> current s' = current s -> QT e s') ->
  wp (consumeIdentifierThrow tokens isValidIdentifier declPrototype msg c s)
     QR QT QO.
Proof.
  intros HI H1 HR HT. unfold consumeIdentifierThrow. apply wp_bind.
  apply wp_matchIdentifier; [exact HI|]. intros b s1 HI1 Hb. destruct b.
  - apply wp_previous; [exact HI1|lia|].
    intros t s2 Hc2 HI2. apply HR; auto. lia.
  - apply wp_bind. apply wp_previous; [exact HI1|lia|].
    intros t s2 Hc2 HI2. wp_simpl. apply HT; auto. lia.
Qed.

Lemma wp_consumeTokenReturn msg c types s QR QT QO :
  Inv s -> 1 <= current s ->
  (forall t s', Inv s' -> current s' = S (current s) -> QR (inl (Some t)) s') ->
  (forall e s', Inv s' -> current s' = current s -> QR (inr e) s') ->
  wp (consumeTokenReturn tokens declPrototype msg c types s) QR QT QO.
Proof.
  intros HI H1 HR HT. unfold consumeTokenReturn. apply wp_bind.
  apply wp_matchToken; [exact HI|]. intros b s1 HI1 Hb. destruct b.
  - destruct Hb as (Hc & Hin & _). apply wp_bind. apply wp_previous; [exact HI1|lia|].
    intros t s2 Hc2 HI2. wp_simpl. apply HR; auto. lia.
  - destruct Hb as [Hc _]. apply wp_bind. apply wp_previous; [exact HI1|lia|].
    intros t s2 Hc2 HI2. wp_simpl. apply HT; auto. lia.
Qed.

Lemma wp_addRunInst i errs s QR QT QO :
  Inv s ->
  (forall s', Inv s' -> current s' = current s -> QR (nodeResult i errs) s') ->
  wp (addRunInst i errs s) QR QT QO.
Proof. intros HI H. unfold addRunInst. cbn [wp]. apply H; auto. Qed.

End Primitives.

(** ** The contract of every method *)

Section MethodContracts.

Variable tokens : list Token.
Variable isValidIdentifier : TokenType.t -> bool.
Variable declPrototype : DeclClass -> Prototype.

Hypothesis tokens_end :
  exists front e, tokens = front ++ [e] /\ type e = TokenType.eof.
Hypothesis identifier_valid : isValidIdentifier TokenType.identifier = true.

Variable this : Methods.
Variable fuel : nat.
Hypothesis IH : Contract tokens this fuel.

Abbreviation Inv := (Inv tokens).
Abbreviation typeAt := (typeAt tokens).

Abbreviation Meets := (Meets tokens fuel).

Lemma started_pre {A} (m : Method A) s : 1 <= current s -> pre tokens m s.
Proof.
  induction m; simpl; unfold started, live; auto.
Qed.

Lemma atomStart_live s :
  atomStart tokens s -> typeAt (current s) <> TokenType.eof.
Proof.
  unfold atomStart. intros H Heq. rewrite Heq in H.
  repeat (apply elem_of_cons in H; destruct H as [H|H]; [discriminate H|]).
  apply elem_of_nil in H. exact H.
Qed.

Lemma declStart_live s :
  declStart tokens s -> typeAt (current s) <> TokenType.eof.
Proof.
  unfold declStart. intros H Heq. rewrite Heq in H.
  repeat (apply elem_of_cons in H; destruct H as [H|H]; [discriminate H|]).
  apply elem_of_nil in H. exact H.
Qed.

Ltac destruct_ands :=
  repeat match goal with
         | H : _ /\ _ |- _ => destruct H
         | H : postR _ _ _ _ _ |- _ => unfold postR in H
         | H : postT _ _ _ _ _ |- _ => unfold postT in H
         end.

(** Rewrite the cursor of every later state in terms of earlier ones. *)
Ltac cur_rewrite :=
  repeat match goal with
         | H : current ?a = _ |- _ => is_var a; try rewrite H in *; revert H
         end;
  intros.

Ltac use_imps :=
  repeat match goal with
         | H : ?P -> _, H' : ?P |- _ => specialize (H H')
         end.

(** Close a side condition: arithmetic on cursors, or facts about the
    type of the current token. *)
Ltac leaf :=
  intros; destruct_ands;
  unfold enough, remaining, depthPerToken, started, live in *;
  cbn [rank pre extraR extraT] in *;
  repeat match goal with
         | H : Parser.Inv _ _ |- _ => destruct H as [H _]
         end;
  try match goal with
      | H : atomStart _ _ |- _ => pose proof (atomStart_live _ H)
      end;
  try match goal with
      | H : declStart _ _ |- _ => pose proof (declStart_live _ H)
      end;
  unfold atomStart, declStart in *;
  cur_rewrite;
  use_imps;
  first [ lia | tauto | congruence | left; lia | right; lia
        | left; congruence | right; congruence | right; reflexivity
        | repeat match goal with
                 | H : _ \/ _ |- _ => destruct H; destruct_ands
                 end;
          cur_rewrite; use_imps;
          first [ lia | tauto | congruence | left; lia | right; lia
                | left; congruence | right; congruence ] ].

Ltac arith := leaf.

Ltac solve_pre :=
  first [ exact I
        | assumption
        | apply started_pre; leaf
        | leaf ].

Ltac call_method :=
  eapply wp_wand;
  [ apply IH; [ assumption | solve_pre ]
  | let a := fresh "r" in let s' := fresh "s" in
    intros a s' ?; destruct_ands; cbn [extraR extraT] in *
  | let e := fresh "e" in let s' := fresh "s" in
    intros e s' ?; destruct_ands; cbn [extraR extraT] in *
  | let H := fresh "Hfuel" in intros H; try leaf ].

Ltac prim :=
  lazymatch goal with
  | |- wp (peek _ _) _ _ _ => apply wp_peek; [assumption | intros ? ? ? ? ?]
  | |- wp (previous _ _) _ _ _ =>
      apply wp_previous; [assumption | leaf | intros ? ? ? ?]
  | |- wp (isAtEnd _ _) _ _ _ =>
      apply wp_isAtEnd; [assumption | intros [|] ? ? ? ?]
  | |- wp (check _ _ _) _ _ _ =>
      apply wp_check; [assumption | intros [|] ? ? ? ?]
  | |- wp (checkNext _ _ _) _ _ _ =>
      apply wp_checkNext; [assumption | intros ? ? ? ?]
  | |- wp (someCheck _ _ _) _ _ _ =>
      apply wp_someCheck; [assumption | intros [|] ? ? ? ?]
  | |- wp (matchToken _ _ _) _ _ _ =>
      apply wp_matchToken; [exact tokens_end | assumption | intros [|] ? ? ?]
  | |- wp (matchIdentifier _ _ _) _ _ _ =>
      apply wp_matchIdentifier; [exact tokens_end | assumption | intros [|] ? ? ?]
  | |- wp (advance _ _) _ _ _ =>
      apply wp_advance; [exact tokens_end | assumption | leaf | intros ? ? ? ? ?]
  | |- wp (consumeTokenThrow _ _ _ _ _ _) _ _ _ =>
      apply wp_consumeTokenThrow;
      [exact tokens_end | assumption | leaf | intros ? ? ? ? ? | intros ? ? ? ?]
  | |- wp (terminal _ _ _ _) _ _ _ =>
      apply wp_terminal;
      [exact tokens_end | assumption | leaf | intros ? ? ? ? | intros ? ? ? ?]
  | |- wp (consumeIdentifierThrow _ _ _ _ _ _) _ _ _ =>
      apply wp_consumeIdentifierThrow;
      [exact tokens_end | assumption | leaf | intros ? ? ? ? | intros ? ? ? ?]
  | |- wp (consumeTokenReturn _ _ _ _ _ _) _ _ _ =>
      apply wp_consumeTokenReturn;
      [exact tokens_end | assumption | leaf | intros ? ? ? ? | intros ? ? ? ?]
  | |- wp (addRunInst _ _ _) _ _ _ =>
      apply (wp_addRunInst tokens); [assumption | intros ? ? ?]
  end.

Ltac finish :=
  cbn [wp ret throw fault getCurrent typeOf];
  lazymatch goal with
  | |- postR _ _ _ _ _ =>
      unfold postR; cbn [extraR];
      split; [assumption | split; [leaf | try (repeat split; first [reflexivity | leaf])]]
  | |- postT _ _ _ _ _ =>
      unfold postT; cbn [extraT];
      split; [assumption | split; [leaf | try (repeat split; first [reflexivity | leaf])]]
  | |- _ => idtac
  end.

Ltac wp_go :=
  cbn beta zeta iota delta [fst snd defined orb negb]; destruct_ands;
  lazymatch goal with
  | |- postR _ _ _ _ _ => finish
  | |- postT _ _ _ _ _ => finish
  | |- wp (bind _ _ _) _ _ _ => apply wp_bind; wp_go
  | |- wp (tryCatch _ _ _) _ _ _ => apply wp_tryCatch; wp_go
  | |- wp (this _ _ _) _ _ _ => call_method; try wp_go
  | |- wp ((if ?b then _ else _) _) _ _ _ => destruct b eqn:?; wp_go
  | |- wp ((match ?x with _ => _ end) _) _ _ _ => destruct x; wp_go
  | |- wp (ret _ _) _ _ _ => finish; try wp_go
  | |- wp (throw _ _) _ _ _ => finish; try wp_go
  | |- wp (getCurrent _) _ _ _ => cbn [wp getCurrent]; wp_go
  | |- wp (typeOf _ _) _ _ _ => cbn [wp typeOf ret]; wp_go
  | |- wp (Ret _ _) _ _ _ => finish; try wp_go
  | |- wp (synchronize _ _ _ _) _ _ _ => unfold synchronize; wp_go
  | |- wp _ _ _ _ => first [prim; wp_go | idtac]
  | |- _ => idtac
  end.

Ltac method := intros s HI Hpre; simpl pre in Hpre; wp_go.

Abbreviation body m := (step tokens isValidIdentifier declPrototype this _ m).


(** Membership in a literal list of token types, as equations. *)
Ltac types :=
  repeat match goal with
         | H : tokens !! _ = Some ?t |- _ =>
             lazymatch goal with
             | H' : typeAt _ = type t |- _ => fail
             | _ => let E := fresh "Hty" in
                    pose proof H as E; apply typeAt_lookup in E
             end
         end;
  unfold atomStart, declStart in *; cur_rewrite;
  repeat match goal with
         | H : context [_ ∈ _ :: _] |- _ => rewrite elem_of_cons in H
         | H : context [_ ∈ []] |- _ => rewrite elem_of_nil in H
         end;
  repeat rewrite elem_of_cons; repeat rewrite elem_of_nil.


Lemma atom_ok isTrailer : Meets (m_atom isTrailer) (body (m_atom isTrailer)).
Proof.
  cbn [step]. unfold atom. method.
  intros Ha. exfalso. types. 
  rewrite Hty in *.
  destruct Ha as [Ha|[Ha|[Ha|[Ha|[Ha|[Ha|[Ha|[Ha|[]]]]]]]]];
    rewrite Ha in *; try congruence; intuition congruence.
Qed.


Lemma define_ok : Meets m_define (body m_define).
Proof.
  cbn [step]. unfold define. method.
  intros Hd. exfalso. types.
  intuition congruence.
Qed.

Lemma instruction_ok : Meets m_instruction (body m_instruction).
Proof.
  cbn [step]. unfold instruction. intros s HI _.
  apply wp_bind. apply wp_peek; [assumption|]. intros t s1 Ht Hc HI1.
  cbn [wp typeOf ret]. pose proof (typeAt_lookup _ _ _ Ht) as Hty.
  destruct (type t) eqn:Et;
    try (assert (Ha : atomStart tokens s1)
           by (unfold atomStart; rewrite Hc, Hty; types; tauto));
    wp_go.
Qed.


Lemma declaration_ok : Meets m_declaration (body m_declaration).
Proof.
  cbn [step]. unfold declaration, declarationTry. intros s HI Hpre.
  simpl pre in Hpre.
  apply wp_bind. cbn [wp getCurrent]. apply wp_tryCatch.
  apply wp_bind. apply wp_someCheck; [assumption|].
  intros [|] s1 Hc HI1 Hb.
  - destruct Hb as [Hd Hne].
    assert (Hd1 : declStart tokens s1) by (unfold declStart; rewrite Hc; exact Hd).
    call_method.
    + finish.
    + specialize (H1 Hd1).
      unfold synchronize. wp_go.
  - call_method.
    + finish.
    + unfold synchronize. destruct H1 as [Hlt|Hnone].
      * wp_go.
      * rewrite Hnone. cbn [defined].
        destruct (decide (current s0 = current s1)) as [Heq|Hneq]; wp_go.
Qed.


Lemma parse_while_ok instructions parseErrors : Meets (m_parse_while instructions parseErrors) (body (m_parse_while instructions parseErrors)).
Proof. cbn [step]. unfold parse_while. method. Qed.

Lemma synchronize_while_ok  : Meets (m_synchronize_while) (body (m_synchronize_while)).
Proof. cbn [step]. unfold synchronize_while. method. Qed.

Lemma declareFunction_ok scope : Meets (m_declareFunction scope) (body (m_declareFunction scope)).
Proof. cbn [step]. unfold declareFunction. method. Qed.

Lemma declareParameter_ok scope : Meets (m_declareParameter scope) (body (m_declareParameter scope)).
Proof. cbn [step]. unfold declareParameter. method. Qed.

Lemma declareNormalParameters_ok  : Meets (m_declareNormalParameters) (body (m_declareNormalParameters)).
Proof. cbn [step]. unfold declareNormalParameters. method. Qed.

Lemma declareNormalParameters_do_ok ps : Meets (m_declareNormalParameters_do ps) (body (m_declareNormalParameters_do ps)).
Proof. cbn [step]. unfold declareNormalParameters_do. method. Qed.

Lemma declaredDefaultedParameters_ok  : Meets (m_declaredDefaultedParameters) (body (m_declaredDefaultedParameters)).
Proof. cbn [step]. unfold declaredDefaultedParameters. method. Qed.

Lemma declaredDefaultedParameters_do_ok ps errs : Meets (m_declaredDefaultedParameters_do ps errs) (body (m_declaredDefaultedParameters_do ps errs)).
Proof. cbn [step]. unfold declaredDefaultedParameters_do. method. Qed.

Lemma declareLock_ok scope : Meets (m_declareLock scope) (body (m_declareLock scope)).
Proof. cbn [step]. unfold declareLock. method. Qed.

Lemma declareVariable_ok scope : Meets (m_declareVariable scope) (body (m_declareVariable scope)).
Proof. cbn [step]. unfold declareVariable. method. Qed.

Lemma instructionBlock_ok  : Meets (m_instructionBlock) (body (m_instructionBlock)).
Proof. cbn [step]. unfold instructionBlock. method. Qed.

Lemma instructionBlock_while_ok ds errs : Meets (m_instructionBlock_while ds errs) (body (m_instructionBlock_while ds errs)).
Proof. cbn [step]. unfold instructionBlock_while. method. Qed.

Lemma identifierLedInstruction_ok  : Meets (m_identifierLedInstruction) (body (m_identifierLedInstruction)).
Proof. cbn [step]. unfold identifierLedInstruction. method. Qed.

Lemma onOff_ok sfx : Meets (m_onOff sfx) (body (m_onOff sfx)).
Proof. cbn [step]. unfold onOff. method. Qed.

Lemma commandExpression_ok  : Meets (m_commandExpression) (body (m_commandExpression)).
Proof. cbn [step]. unfold commandExpression. method. Qed.

Lemma unset_ok  : Meets (m_unset) (body (m_unset)).
Proof. cbn [step]. unfold unset. method. Qed.

Lemma unlock_ok  : Meets (m_unlock) (body (m_unlock)).
Proof. cbn [step]. unfold unlock. method. Qed.

Lemma set_ok  : Meets (m_set) (body (m_set)).
Proof. cbn [step]. unfold set. method. Qed.

Lemma lazyGlobal_ok  : Meets (m_lazyGlobal) (body (m_lazyGlobal)).
Proof. cbn [step]. unfold lazyGlobal. method. Qed.

Lemma until_ok  : Meets (m_until) (body (m_until)).
Proof. cbn [step]. unfold until. method. Qed.

Lemma from_ok  : Meets (m_from) (body (m_from)).
Proof. cbn [step]. unfold from. method. Qed.

Lemma when_ok  : Meets (m_when) (body (m_when)).
Proof. cbn [step]. unfold when. method. Qed.

Lemma returnInst_ok  : Meets (m_returnInst) (body (m_returnInst)).
Proof. cbn [step]. unfold returnInst. method. Qed.

Lemma breakInst_ok  : Meets (m_breakInst) (body (m_breakInst)).
Proof. cbn [step]. unfold breakInst. method. Qed.

Lemma switchInst_ok  : Meets (m_switchInst) (body (m_switchInst)).
Proof. cbn [step]. unfold switchInst. method. Qed.

Lemma forInst_ok  : Meets (m_forInst) (body (m_forInst)).
Proof. cbn [step]. unfold forInst. method. Qed.

Lemma on_ok  : Meets (m_on) (body (m_on)).
Proof. cbn [step]. unfold on. method. Qed.

Lemma toggle_ok  : Meets (m_toggle) (body (m_toggle)).
Proof. cbn [step]. unfold toggle. method. Qed.

Lemma wait_ok  : Meets (m_wait) (body (m_wait)).
Proof. cbn [step]. unfold wait. method. Qed.

Lemma log_ok  : Meets (m_log) (body (m_log)).
Proof. cbn [step]. unfold log. method. Qed.

Lemma copy_ok  : Meets (m_copy) (body (m_copy)).
Proof. cbn [step]. unfold copy. method. Qed.

Lemma rename_ok  : Meets (m_rename) (body (m_rename)).
Proof. cbn [step]. unfold rename. method. Qed.

Lemma delete_ok  : Meets (m_delete) (body (m_delete)).
Proof. cbn [step]. unfold delete. method. Qed.

Lemma runPath_ok  : Meets (m_runPath) (body (m_runPath)).
Proof. cbn [step]. unfold runPath. method. Qed.

Lemma runPathOnce_ok  : Meets (m_runPathOnce) (body (m_runPathOnce)).
Proof. cbn [step]. unfold runPathOnce. method. Qed.

Lemma compile_ok  : Meets (m_compile) (body (m_compile)).
Proof. cbn [step]. unfold compile. method. Qed.

Lemma list__ok  : Meets (m_list) (body (m_list)).
Proof. cbn [step]. unfold list_. method. Qed.

Lemma print_ok  : Meets (m_print) (body (m_print)).
Proof. cbn [step]. unfold print. method. Qed.

Lemma expression_ok i : Meets (m_expression i) (body (m_expression i)).
Proof. cbn [step]. unfold expression. method. Qed.

Lemma or__ok  : Meets (m_or) (body (m_or)).
Proof. cbn [step]. unfold or_. method. Qed.

Lemma and__ok  : Meets (m_and) (body (m_and)).
Proof. cbn [step]. unfold and_. method. Qed.

Lemma equality_ok  : Meets (m_equality) (body (m_equality)).
Proof. cbn [step]. unfold equality. method. Qed.

Lemma comparison_ok  : Meets (m_comparison) (body (m_comparison)).
Proof. cbn [step]. unfold comparison. method. Qed.

Lemma addition_ok  : Meets (m_addition) (body (m_addition)).
Proof. cbn [step]. unfold addition. method. Qed.

Lemma multiplication_ok  : Meets (m_multiplication) (body (m_multiplication)).
Proof. cbn [step]. unfold multiplication. method. Qed.

Lemma binaryExpression_ok rec tys : Meets (m_binaryExpression rec tys) (body (m_binaryExpression rec tys)).
Proof. cbn [step]. unfold binaryExpression. method. Qed.

Lemma binaryExpression_while_ok rec tys e : Meets (m_binaryExpression_while rec tys e) (body (m_binaryExpression_while rec tys e)).
Proof. cbn [step]. unfold binaryExpression_while. method. Qed.

Lemma unary_ok  : Meets (m_unary) (body (m_unary)).
Proof. cbn [step]. unfold unary. method. Qed.

Lemma factor_ok  : Meets (m_factor) (body (m_factor)).
Proof. cbn [step]. unfold factor. method. Qed.

Lemma factor_while_ok e : Meets (m_factor_while e) (body (m_factor_while e)).
Proof. cbn [step]. unfold factor_while. method. Qed.

Lemma suffixCatch_ok i : Meets (m_suffixCatch i) (body (m_suffixCatch i)).
Proof. cbn [step]. unfold suffixCatch. method. Qed.

Lemma suffix_ok  : Meets (m_suffix) (body (m_suffix)).
Proof. cbn [step]. unfold suffix. method. Qed.

Lemma suffix_while_ok e : Meets (m_suffix_while e) (body (m_suffix_while e)).
Proof. cbn [step]. unfold suffix_while. method. Qed.

Lemma suffixTrailer_ok sfx : Meets (m_suffixTrailer sfx) (body (m_suffixTrailer sfx)).
Proof. cbn [step]. unfold suffixTrailer. method. Qed.

Lemma suffixTerm_ok isTrailer : Meets (m_suffixTerm isTrailer) (body (m_suffixTerm isTrailer)).
Proof. cbn [step]. unfold suffixTerm. method. Qed.

Lemma suffixTerm_while_ok isTrailer e : Meets (m_suffixTerm_while isTrailer e) (body (m_suffixTerm_while isTrailer e)).
Proof. cbn [step]. unfold suffixTerm_while. method. Qed.

Lemma functionTrailer_ok callee isTrailer : Meets (m_functionTrailer callee isTrailer) (body (m_functionTrailer callee isTrailer)).
Proof. cbn [step]. unfold functionTrailer. method. Qed.

Lemma arguments_ok  : Meets (m_arguments) (body (m_arguments)).
Proof. cbn [step]. unfold arguments. method. Qed.

Lemma arguments_do_ok args errs : Meets (m_arguments_do args errs) (body (m_arguments_do args errs)).
Proof. cbn [step]. unfold arguments_do. method. Qed.

Lemma arrayBracket_ok array isTrailer : Meets (m_arrayBracket array isTrailer) (body (m_arrayBracket array isTrailer)).
Proof. cbn [step]. unfold arrayBracket. method. Qed.

Lemma arrayIndex_ok array isTrailer : Meets (m_arrayIndex array isTrailer) (body (m_arrayIndex array isTrailer)).
Proof. cbn [step]. unfold arrayIndex. method. Qed.

Lemma anonymousFunction_ok  : Meets (m_anonymousFunction) (body (m_anonymousFunction)).
Proof. cbn [step]. unfold anonymousFunction. method. Qed.

Lemma anonymousFunction_while_ok ds errs : Meets (m_anonymousFunction_while ds errs) (body (m_anonymousFunction_while ds errs)).
Proof. cbn [step]. unfold anonymousFunction_while. method. Qed.

Lemma command_ok : Meets (m_command) (body (m_command)).
Proof. cbn [step]. unfold command. method. Qed.

Lemma ifInst_ok : Meets (m_ifInst) (body (m_ifInst)).
Proof. cbn [step]. unfold ifInst. method. Qed.

Lemma run_ok : Meets (m_run) (body (m_run)).
Proof. cbn [step]. unfold run. method. Qed.

Lemma step_contract : Contract tokens (step tokens isValidIdentifier declPrototype this) (S fuel).
Proof.
  intros A m. destruct m.
  - apply parse_while_ok.
  - apply declaration_ok.
  - apply synchronize_while_ok.
  - apply define_ok.
  - apply declareFunction_ok.
  - apply declareParameter_ok.
  - apply declareNormalParameters_ok.
  - apply declareNormalParameters_do_ok.
  - apply declaredDefaultedParameters_ok.
  - apply declaredDefaultedParameters_do_ok.
  - apply declareLock_ok.
  - apply declareVariable_ok.
  - apply instruction_ok.
  - apply instructionBlock_ok.
  - apply instructionBlock_while_ok.
  - apply identifierLedInstruction_ok.
  - apply onOff_ok.
  - apply command_ok.
  - apply commandExpression_ok.
  - apply unset_ok.
  - apply unlock_ok.
  - apply set_ok.
  - apply lazyGlobal_ok.
  - apply ifInst_ok.
  - apply until_ok.
  - apply from_ok.
  - apply when_ok.
  - apply returnInst_ok.
  - apply breakInst_ok.
  - apply switchInst_ok.
  - apply forInst_ok.
  - apply on_ok.
  - apply toggle_ok.
  - apply wait_ok.
  - apply log_ok.
  - apply copy_ok.
  - apply rename_ok.
  - apply delete_ok.
  - apply run_ok.
  - apply runPath_ok.
  - apply runPathOnce_ok.
  - apply compile_ok.
  - apply list__ok.
  - apply print_ok.
  - apply expression_ok.
  - apply or__ok.
  - apply and__ok.
  - apply equality_ok.
  - apply comparison_ok.
  - apply addition_ok.
  - apply multiplication_ok.
  - apply binaryExpression_ok.
  - apply binaryExpression_while_ok.
  - apply unary_ok.
  - apply factor_ok.
  - apply factor_while_ok.
  - apply suffixCatch_ok.
  - apply suffix_ok.
  - apply suffix_while_ok.
  - apply suffixTrailer_ok.
  - apply suffixTerm_ok.
  - apply suffixTerm_while_ok.
  - apply functionTrailer_ok.
  - apply arguments_ok.
  - apply arguments_do_ok.
  - apply arrayBracket_ok.
  - apply arrayIndex_ok.
  - apply anonymousFunction_ok.
  - apply anonymousFunction_while_ok.
  - apply atom_ok.
Qed.

End MethodContracts.

Section Execution.

Variable tokens : list Token.
Variable isValidIdentifier : TokenType.t -> bool.
Variable declPrototype : DeclClass -> Prototype.

Hypothesis tokens_end :
  exists front e, tokens = front ++ [e] /\ type e = TokenType.eof.
Hypothesis identifier_valid : isValidIdentifier TokenType.identifier = true.

(** Every method, run with any amount of fuel, meets its contract. *)
Lemma exec_contract fuel :
  Contract tokens (exec tokens isValidIdentifier declPrototype fuel) fuel.
Proof.
  induction fuel as [|fuel IH].
  - intros A m s _ _. simpl. lia.
  - simpl. apply step_contract; assumption.
Qed.


Lemma initial_Inv : Inv tokens initial.
Proof.
  destruct tokens_end as (front & e & -> & _). split.
  - rewrite length_app. simpl. lia.
  - constructor.
Qed.

Lemma remaining_initial : remaining tokens initial = length tokens - 1.
Proof. unfold remaining. simpl. lia. Qed.

(** With enough fuel the statement loop returns: it neither throws nor
    runs out of fuel. *)
Lemma parse_while_returns fuel :
  depthPerToken * (length tokens - 1) + 36 < fuel ->
  exists r s,
    exec tokens isValidIdentifier declPrototype fuel _ (m_parse_while [] []) initial
    = Ret r s /\ Inv tokens s.
Proof.
  intros Hfuel.
  pose proof (exec_contract fuel _ (m_parse_while [] []) initial initial_Inv I) as W.
  destruct (exec _ _ _ _ _ _ _) as [r s|e s|err s|]; simpl in W.
  - exists r, s. split; [reflexivity|]. apply W.
  - destruct W as (_ & _ & []).
  - destruct W.
  - unfold enough in W. rewrite remaining_initial in W. simpl rank in W. lia.
Qed.

(** Whatever the fuel, the loop does not end in an exception. *)
Lemma parse_while_no_exception fuel :
  match exec tokens isValidIdentifier declPrototype fuel _
          (m_parse_while [] []) initial with
  | Ret _ s => Inv tokens s
  | Timeout => True
  | _ => False
  end.
Proof.
  pose proof (exec_contract fuel _ (m_parse_while [] []) initial initial_Inv I) as W.
  destruct (exec _ _ _ _ _ _ _) as [r s|e s|err s|]; simpl in W.
  - apply W.
  - destruct W as (_ & _ & []).
  - destruct W.
  - exact I.
Qed.

End Execution.

Lemma constructTokens_end tokens :
  exists front e, constructTokens tokens = front ++ [e] /\ type e = TokenType.eof.
Proof.
  exists tokens, (eof tokens). split; [reflexivity|].
  unfold eof. destruct (last tokens); reflexivity.
Qed.

Lemma constructTokens_length tokens :
  length (constructTokens tokens) = S (length tokens).
Proof. unfold constructTokens. rewrite length_app. simpl. lia. Qed.

(** C1. For every finite token stream, [parse] terminates and returns a
    result: with a call stack of [depthPerToken] frames per token (plus a
    constant) it returns a script and a list of parse errors, and it does
    so without entering its catch-all handler. *)
Theorem parse_terminates isValidIdentifier declPrototype tokens fuel :
  isValidIdentifier TokenType.identifier = true ->
  depthPerToken * length tokens + 36 < fuel ->
  exists r s,
    parse isValidIdentifier declPrototype tokens fuel
    = Some (mkParseRun r None s).
Proof.
  intros Hid Hfuel. unfold parse, parseWith.
  destruct (parse_while_returns (constructTokens tokens) isValidIdentifier
              declPrototype (constructTokens_end tokens) Hid fuel)
    as (r & s & E & _).
  - rewrite constructTokens_length. simpl. rewrite Nat.sub_0_r. exact Hfuel.
  - rewrite E. eauto.
Qed.

(** ** The statements of a script *)

Section TopLevel.

Variable tokens : list Token.
Variable isValidIdentifier : TokenType.t -> bool.
Variable declPrototype : DeclClass -> Prototype.

Hypothesis tokens_end :
  exists front e, tokens = front ++ [e] /\ type e = TokenType.eof.
Hypothesis identifier_valid : isValidIdentifier TokenType.identifier = true.

Abbreviation execute := (exec tokens isValidIdentifier declPrototype).
Abbreviation Stmts := (Statements tokens isValidIdentifier declPrototype).

Lemma isAtEnd_returns s :
  Inv tokens s ->
  exists b s', isAtEnd tokens s = Ret b s' /\ Inv tokens s' /\
               current s' = current s /\
               (b = false -> typeAt tokens (current s) <> TokenType.eof).
Proof.
  intros HI.
  pose proof (wp_isAtEnd tokens s
    (fun b s' => Inv tokens s' /\ current s' = current s /\
                 (b = false -> typeAt tokens (current s) <> TokenType.eof))
    (fun _ _ => False) False HI) as W.
  assert (Hk : forall (b : bool) s1, current s1 = current s -> Inv tokens s1 ->
             (if b then typeAt tokens (current s) = TokenType.eof
              else typeAt tokens (current s) <> TokenType.eof) ->
             Inv tokens s1 /\ current s1 = current s /\
             (b = false -> typeAt tokens (current s) <> TokenType.eof)).
  { intros [|] s1 Hc HI1 Hb; (split; [assumption|split; [assumption|]]).
    - intros; discriminate.
    - intros _; exact Hb. }
  specialize (W Hk).
  destruct (isAtEnd tokens s) as [b s'| | |]; simpl in W; try contradiction.
  exists b, s'. split; [reflexivity|]. exact W.
Qed.

(** The [try] block of [declaration] returns a node that is not
    [Invalid]. *)
Lemma declarationTry_valid fuel s :
  Inv tokens s ->
  wp (declarationTry tokens (execute fuel) s)
     (fun r s' => Inv tokens s' /\ isInvalid (value r) = false)
     (fun _ s' => Inv tokens s') True.
Proof.
  intros HI. unfold declarationTry. apply wp_bind.
  apply wp_someCheck; [assumption|]. intros b s1 Hc HI1 _.
  pose proof (exec_contract tokens isValidIdentifier declPrototype
                tokens_end identifier_valid fuel) as C.
  destruct b.
  - eapply wp_wand; [apply (C _ m_define s1 HI1 I)| | |]; simpl.
    + intros r s2 (H1 & _ & H2 & _). auto.
    + intros e s2 (H1 & _). auto.
    + auto.
  - eapply wp_wand; [apply (C _ m_instruction s1 HI1 I)| | |]; simpl.
    + intros r s2 (H1 & _ & H2 & _). auto.
    + intros e s2 (H1 & _). auto.
    + auto.
Qed.



End TopLevel.




(** [advance] leaves the cursor on a token. *)
Lemma advance_in_bounds tokens s :
  (exists front e, tokens = front ++ [e] /\ type e = TokenType.eof) ->
  current s < length tokens ->
  exists t s', advance tokens s = Ret t s' /\
               current s <= current s' < length tokens.
Proof.
  intros Hend Hlt.
  destruct (lookup_lt_is_Some_2 _ _ Hlt) as [t Ht].
  unfold advance, isAtEnd, bind, peek, previous.
  rewrite (tokenAt_nat _ _ _ Ht). simpl.
  case_bool_decide as Hty; simpl.
  - eexists _, _. split; [reflexivity|]. simpl. lia.
  - eexists _, _. split; [reflexivity|]. simpl.
    assert (typeAt tokens (current s) <> TokenType.eof) as Hne
      by (rewrite (typeAt_lookup _ _ _ Ht); exact Hty).
    apply (typeAt_lt _ Hend) in Hne. lia.
Qed.

(** C10, as amended.  The constructor appends an end-of-file token to any
    input, [advance] never moves the cursor past the last token, and
    throughout [parse] every read of [peek] and of [previous] hits a
    token; [peekNext] reads at most one place past the last token. *)
Theorem token_reads_in_bounds isValidIdentifier declPrototype tokens fuel p :
  isValidIdentifier TokenType.identifier = true ->
  parse isValidIdentifier declPrototype tokens fuel = Some p ->
  constructTokens tokens = tokens ++ [eof tokens] /\
  type (eof tokens) = TokenType.eof /\
  (forall s, current s < length (constructTokens tokens) ->
     exists t s', advance (constructTokens tokens) s = Ret t s' /\
                  current s <= current s' < length (constructTokens tokens)) /\
  current (final p) < length (constructTokens tokens) /\
  Forall (readOk (constructTokens tokens)) (reads (final p)).
Proof.
  intros Hid Hp.
  split; [reflexivity|].
  split; [unfold eof; destruct (last tokens); reflexivity|].
  split; [intros s; apply advance_in_bounds, constructTokens_end|].
  unfold parse, parseWith in Hp.
  pose proof (parse_while_no_exception (constructTokens tokens)
                isValidIdentifier declPrototype (constructTokens_end tokens)
                Hid fuel) as Hno.
  destruct (exec _ _ _ _ _ _ _) as [r s| | |] eqn:E; try contradiction;
    [|discriminate Hp].
  inversion Hp; subst p; simpl. exact Hno.
Qed.

(** C10, as stated, fails: parsing the lone token [parameter] reads the
    token array out of bounds ([peekNext], at index 2 of 2 tokens). *)
Lemma peekNext_reads_past_the_end :
  exists p,
    parse identifierOnly declAsInst loneParameter 200 = Some p /\
    ~ Forall (inBounds (constructTokens loneParameter)) (reads (final p)).
Proof.
  exists loneParameterRun. split; [vm_compute; reflexivity|].
  apply (bool_decide_eq_false_1 (Forall _ _)). vm_compute. reflexivity.
Qed.

Lemma parse_terminates_witness :
  identifierOnly TokenType.identifier = true /\
  depthPerToken * length printTen + 36 < 400 /\
  exists r s, parse identifierOnly declAsInst printTen 400
              = Some (mkParseRun r None s).
Proof.
  split; [reflexivity|]. split; [vm_compute; lia|].
  apply parse_terminates; [reflexivity|vm_compute; lia].
Defined.


Lemma token_reads_in_bounds_witness :
  identifierOnly TokenType.identifier = true /\
  parse identifierOnly declAsInst loneParameter 200 = Some loneParameterRun /\
  current (final loneParameterRun) < length (constructTokens loneParameter) /\
  Forall (readOk (constructTokens loneParameter)) (reads (final loneParameterRun)).
Proof.
  split; [reflexivity|]. split; [vm_compute; reflexivity|].
  apply (token_reads_in_bounds identifierOnly declAsInst loneParameter 200);
    [reflexivity|vm_compute; reflexivity].
Defined.

End ParserFacts.

(** * Facts about the type engine *)

Module TypeEngineFacts.
Import TypeEngine.

Section Subtyping.

Variable store : GenericType.Store.

(** A call that returns with some depth returns the same with more. *)
Lemma isSubtype_more_fuel fuel fuel' this type r :
  GenericType.isSubtype fuel store this type = Returned r ->
  fuel <= fuel' ->
  GenericType.isSubtype fuel' store this type = Returned r.
Proof.
  revert fuel' this.
  induction fuel as [|fuel IH]; intros fuel' this H Hle; [discriminate|].
  destruct fuel' as [|fuel']; [lia|].
  simpl in *.
  destruct (decide (type = this)); [assumption|].
  destruct (store !! this) as [self|]; [|discriminate].
  destruct (GenericType.superType self); [|assumption].
  apply IH; [assumption | lia].
Qed.

Lemma canCoerce_more_fuel fuel fuel' this type r :
  GenericType.canCoerce fuel store this type = Returned r ->
  fuel <= fuel' ->
  GenericType.canCoerce fuel' store this type = Returned r.
Proof.
  revert fuel' this.
  induction fuel as [|fuel IH]; intros fuel' this H Hle; [discriminate|].
  destruct fuel' as [|fuel']; [lia|].
  simpl in *.
  destruct (decide (type = this)); [assumption|].
  destruct (store !! this) as [self|]; [|discriminate].
  destruct (bool_decide _); [assumption|].
  destruct (GenericType.superType self); [|assumption].
  apply IH; [assumption | lia].
Qed.

(** One step of the definition: a type is a subtype of another iff it is
    that type or its super type is a subtype of it. *)
Lemma isSubtype_step fuel this type :
  GenericType.isSubtype (S fuel) store this type = Returned true <->
  type = this \/
  exists self super,
    store !! this = Some self /\ GenericType.superType self = Some super /\
    GenericType.isSubtype fuel store super type = Returned true.
Proof.
  simpl. destruct (decide (type = this)) as [->|Hne].
  - split; [left; reflexivity | reflexivity].
  - split.
    + destruct (store !! this) as [self|]; [|discriminate].
      destruct (GenericType.superType self) as [super|] eqn:Hs; [|discriminate].
      intros H. right. exists self, super. auto.
    + intros [Heq | (self & super & -> & -> & H)]; [congruence | assumption].
Qed.

Lemma isSubtype_refl fuel t :
  GenericType.isSubtype (S fuel) store t t = Returned true.
Proof. simpl. rewrite decide_True; reflexivity. Qed.

Lemma isSubtype_trans f1 f2 a b c :
  GenericType.isSubtype f1 store a b = Returned true ->
  GenericType.isSubtype f2 store b c = Returned true ->
  GenericType.isSubtype (f1 + f2) store a c = Returned true.
Proof.
  revert a. induction f1 as [|f1 IH]; intros a Hab Hbc; [discriminate|].
  simpl in Hab. destruct (decide (b = a)) as [->|Hne].
  - apply isSubtype_more_fuel with (fuel := f2); [assumption | lia].
  - destruct (store !! a) as [self|] eqn:Ha; [|discriminate].
    destruct (GenericType.superType self) as [super|] eqn:Hs; [|discriminate].
    change (S f1 + f2) with (S (f1 + f2)).
    apply isSubtype_step.
    destruct (decide (c = a)) as [->|]; [left; reflexivity|].
    right. exists self, super. auto.
Qed.

Lemma isSubtype_canCoerce fuel this type :
  GenericType.isSubtype fuel store this type = Returned true ->
  GenericType.canCoerce fuel store this type = Returned true.
Proof.
  revert this. induction fuel as [|fuel IH]; intros this H; [discriminate|].
  simpl in *.
  destruct (decide (type = this)); [reflexivity|].
  destruct (store !! this) as [self|]; [|discriminate].
  destruct (bool_decide _); [reflexivity|].
  destruct (GenericType.superType self); [|discriminate].
  apply IH. assumption.
Qed.

(** On a chain that ends, both tests return. *)
Lemma isSubtype_returns this n type :
  Height store this n ->
  exists r, GenericType.isSubtype (S n) store this type = Returned r.
Proof.
  induction 1 as [this self Hl Hs | this self super n Hl Hs _ IH];
    cbn [GenericType.isSubtype];
    (destruct (decide (type = this)); [eexists; reflexivity|]);
    rewrite Hl, Hs; [eexists; reflexivity | exact IH].
Qed.

Lemma canCoerce_returns this n type :
  Height store this n ->
  exists r, GenericType.canCoerce (S n) store this type = Returned r.
Proof.
  induction 1 as [this self Hl Hs | this self super n Hl Hs _ IH];
    cbn [GenericType.canCoerce];
    (destruct (decide (type = this)); [eexists; reflexivity|]);
    rewrite Hl; (destruct (bool_decide _); [eexists; reflexivity|]);
    rewrite Hs; [eexists; reflexivity | exact IH].
Qed.

End Subtyping.

(** C5.  In every store of types, [isSubtype] is reflexive; it is
    transitive along the chain of super types; a type is a subtype of
    another iff it is that type or its super type is a subtype of it;
    whenever [isSubtype] answers true, so does [canCoerce]; and on a type
    whose chain of super types ends after [n] steps both tests return an
    answer within depth [n + 1]. *)
Theorem isSubtype_preorder_below_canCoerce (store : GenericType.Store) :
  (forall fuel t, GenericType.isSubtype (S fuel) store t t = Returned true) /\
  (forall f1 f2 a b c,
     GenericType.isSubtype f1 store a b = Returned true ->
     GenericType.isSubtype f2 store b c = Returned true ->
     GenericType.isSubtype (f1 + f2) store a c = Returned true) /\
  (forall fuel this type,
     GenericType.isSubtype (S fuel) store this type = Returned true <->
     type = this \/
     exists self super,
       store !! this = Some self /\ GenericType.superType self = Some super /\
       GenericType.isSubtype fuel store super type = Returned true) /\
  (forall fuel this type,
     GenericType.isSubtype fuel store this type = Returned true ->
     GenericType.canCoerce fuel store this type = Returned true) /\
  (forall this n type,
     Height store this n ->
     (exists r, GenericType.isSubtype (S n) store this type = Returned r) /\
     (exists r, GenericType.canCoerce (S n) store this type = Returned r)).
Proof.
  split; [intros; apply isSubtype_refl|].
  split; [intros; eapply isSubtype_trans; eassumption|].
  split; [intros; apply isSubtype_step|].
  split; [intros; apply isSubtype_canCoerce; assumption|].
  intros this n type H. split.
  - apply isSubtype_returns; assumption.
  - apply canCoerce_returns; assumption.
Qed.

Lemma isSubtype_preorder_below_canCoerce_witness :
  GenericType.isSubtype 2 sampleTypes scalarType structureType = Returned true /\
  GenericType.isSubtype 1 sampleTypes structureType structureType = Returned true /\
  GenericType.isSubtype (2 + 1) sampleTypes scalarType structureType = Returned true /\
  GenericType.canCoerce 2 sampleTypes scalarType structureType = Returned true.
Proof.
  split; [reflexivity|]. split; [reflexivity|]. split.
  - apply (proj1 (proj2 (isSubtype_preorder_below_canCoerce sampleTypes))
             2 1 scalarType structureType structureType); reflexivity.
  - apply (proj1 (proj2 (proj2 (proj2
             (isSubtype_preorder_below_canCoerce sampleTypes))))
             2 scalarType structureType); reflexivity.
Defined.

(** ** Operators *)

Lemma firstWith_Some other ops operator :
  GenericType.firstWith other ops = Some operator ->
  operator ∈ ops /\ otherOperand operator = other.
Proof.
  unfold GenericType.firstWith. induction ops as [|o ops IH]; simpl; [discriminate|].
  case_bool_decide as Ho.
  - intros [= <-]. split; [apply elem_of_cons; left; reflexivity | congruence].
  - intros H. destruct (IH H) as [Hin Heq].
    split; [apply elem_of_cons; right|]; assumption.
Qed.

Lemma firstWith_None other ops :
  (forall operator, operator ∈ ops -> otherOperand operator <> other) ->
  GenericType.firstWith other ops = None.
Proof.
  unfold GenericType.firstWith. induction ops as [|o ops IH]; simpl; [reflexivity|].
  intros H. case_bool_decide as Ho.
  - exfalso. apply (H o); [apply elem_of_cons; left; reflexivity | congruence].
  - apply IH. intros operator Hin. apply H. apply elem_of_cons. right. assumption.
Qed.

Lemma firstWith_is_Some other ops operator :
  operator ∈ ops -> otherOperand operator = other ->
  exists found, GenericType.firstWith other ops = Some found.
Proof.
  unfold GenericType.firstWith. induction ops as [|o ops IH]; simpl.
  - intros H. apply elem_of_nil in H. contradiction.
  - intros Hin Heq. case_bool_decide as Ho; [eexists; reflexivity|].
    apply elem_of_cons in Hin as [->|Hin]; [congruence|].
    apply IH; assumption.
Qed.

(** No operator of the kind: nothing is returned. *)
Lemma getOperator_no_kind store this self kind other :
  store !! this = Some self ->
  GenericType.get (GenericType.operators self) kind = None ->
  GenericType.getOperator store this kind other = Returned None.
Proof. intros Hl Hk. unfold GenericType.getOperator. rewrite Hl, Hk. reflexivity. Qed.

(** An operator of the kind with the other operand: it is returned. *)
Lemma getOperator_registered store this self kind ops operator other :
  store !! this = Some self ->
  GenericType.get (GenericType.operators self) kind = Some ops ->
  operator ∈ ops -> otherOperand operator = other ->
  exists found,
    GenericType.getOperator store this kind other = Returned (Some found) /\
    found ∈ ops /\ otherOperand found = other.
Proof.
  intros Hl Hk Hin Heq. unfold GenericType.getOperator. rewrite Hl, Hk.
  destruct (firstWith_is_Some other ops operator Hin Heq) as [found Hf].
  rewrite Hf. exists found. split; [reflexivity|].
  apply firstWith_Some. assumption.
Qed.

(** The sample types are built by the engine. *)
Lemma sampleTypes_built :
  let store := map GenericType.create ["structure"; "scalar"; "string"; "list"] in
  exists s1 s2 s3,
    GenericType.addSuper store scalarType structureType = Returned s1 /\
    GenericType.addSuper s1 stringType structureType = Returned s2 /\
    GenericType.addSuper s2 listType structureType = Returned s3 /\
    GenericType.addOperator s3 scalarType
      [(plusKind, mkOperator (Some scalarType) scalarType)]
      = Returned sampleTypes.
Proof. repeat eexists. Qed.

(** C7.  [getOperator] asked for a kind the type has operators for, and
    for an other operand none of them is registered with, throws the
    error [Method not implemented.]; it does not return nothing. *)
Theorem getOperator_throws_on_unregistered_operand
    store this self kind ops other :
  store !! this = Some self ->
  GenericType.get (GenericType.operators self) kind = Some ops ->
  (forall operator, operator ∈ ops -> otherOperand operator <> other) ->
  GenericType.getOperator store this kind other = Thrown notImplemented.
Proof.
  intros Hl Hk Hnone. unfold GenericType.getOperator. rewrite Hl, Hk.
  rewrite (firstWith_None other ops Hnone). reflexivity.
Qed.

Lemma getOperator_throws_on_unregistered_operand_witness :
  GenericType.getOperator sampleTypes scalarType plusKind (Some stringType)
    = Thrown notImplemented.
Proof.
  apply (getOperator_throws_on_unregistered_operand sampleTypes scalarType
           (GenericType.mk "scalar" (Some 0) [] [] [(0, [mkOperator (Some 1) 1])])
           plusKind [mkOperator (Some 1) 1] (Some stringType)).
  - reflexivity.
  - reflexivity.
  - intros operator Hin. apply elem_of_cons in Hin as [->|Hin]; [discriminate|].
    apply elem_of_nil in Hin. contradiction.
Defined.

(** ** Instantiation *)

Section Memo.

Import GenericVariadicType.

Lemma get_set_eq {V} (m : list (nat * V)) key value :
  GenericType.get (GenericType.set m key value) key = Some value.
Proof.
  induction m as [|[k v] m IH]; simpl.
  - rewrite decide_True; reflexivity.
  - destruct (decide (k = key)) as [->|Hne]; simpl.
    + rewrite decide_True; reflexivity.
    + rewrite decide_False; assumption.
Qed.

Lemma get_set_ne {V} (m : list (nat * V)) key key' value :
  key <> key' ->
  GenericType.get (GenericType.set m key value) key' = GenericType.get m key'.
Proof.
  intros Hne. induction m as [|[k v] m IH]; simpl.
  - rewrite decide_False; [reflexivity | assumption].
  - destruct (decide (k = key)) as [->|Hk]; simpl.
    + rewrite !decide_False; [reflexivity | assumption | assumption].
    + destruct (decide (k = key')); [reflexivity | assumption].
Qed.

Lemma Cached_instantiate store this ty result :
  Cached store this ty result ->
  instantiate store this ty = Returned (result, store).
Proof.
  intros (self & Hl & Hc). unfold instantiate. rewrite Hl.
  destruct (concrete self).
  - subst. reflexivity.
  - unfold toConcreteType. rewrite Hl, Hc. reflexivity.
Qed.

Lemma instantiate_Cached store this ty result store' :
  instantiate store this ty = Returned (result, store') ->
  Cached store' this ty result /\ Extends store store'.
Proof.
  unfold instantiate. destruct (store !! this) as [self|] eqn:Hl; [|discriminate].
  destruct (concrete self) eqn:Hc.
  - intros [= <- <-]. split; [|intros ? ? ? H; exact H].
    exists self. rewrite Hc. auto.
  - unfold toConcreteType. rewrite Hl.
    destruct (GenericType.get (concreteTypes self) ty) as [cache|] eqn:Hg.
    + intros [= <- <-]. split; [|intros ? ? ? H; exact H].
      exists self. rewrite Hc. auto.
    + cbv zeta. intros [= <- <-].
      assert (Hlt : this < length store) by (eapply lookup_lt_Some; eassumption).
      split.
      * eexists. split.
        -- apply list_lookup_insert_eq. rewrite length_app. simpl. lia.
        -- simpl. rewrite Hc. apply get_set_eq.
      * intros other ty' r (o & Ho & Hr).
        destruct (decide (other = this)) as [->|Hne].
        -- eexists. split.
           ++ apply list_lookup_insert_eq. rewrite length_app. simpl. lia.
           ++ simpl. rewrite Hl in Ho. injection Ho as <-. rewrite Hc in *.
              destruct (decide (ty = ty')) as [->|Hty]; [congruence|].
              rewrite get_set_ne; assumption.
        -- exists o. split; [|assumption].
           etrans; [apply list_lookup_insert_ne; congruence|].
           apply lookup_app_l_Some. assumption.
Qed.

Lemma instantiateAll_Extends calls : forall store store',
  instantiateAll store calls = Returned store' -> Extends store store'.
Proof.
  induction calls as [|[this ty] calls IH]; simpl; intros store store'.
  - intros [= <-] ? ? ? H. exact H.
  - destruct (instantiate store this ty) as [[r mid]| |] eqn:Hi; try discriminate.
    intros H other ty' r' Hc.
    apply (IH _ _ H). apply (proj2 (instantiate_Cached _ _ _ _ _ Hi)). assumption.
Qed.

End Memo.

(** The memoized sibling: once an object of the variadic store has been
    instantiated with an argument, instantiating it again with the same
    argument, after any further instantiations, returns the same object
    and leaves the store as it is. *)
Lemma GenericVariadicType_toConcreteType_memoized
    store this ty result store1 calls store2 :
  instantiate store this ty = Returned (result, store1) ->
  instantiateAll store1 calls = Returned store2 ->
  instantiate store2 this ty = Returned (result, store2).
Proof.
  intros H1 H2. apply Cached_instantiate.
  apply (instantiateAll_Extends _ _ _ H2).
  exact (proj1 (instantiate_Cached _ _ _ _ _ H1)).
Qed.

(** The first instantiation of a generic variadic type returns. *)
Lemma GenericVariadicType_toConcreteType_returns store this self ty :
  store !! this = Some self ->
  exists result store1, instantiate store this ty = Returned (result, store1).
Proof.
  intros Hl. unfold instantiate, GenericVariadicType.toConcreteType,
    VariadicType.toConcreteType. rewrite Hl.
  destruct (GenericVariadicType.concrete self); [eauto|].
  destruct (GenericType.get _ ty); eauto.
Qed.

(** C6.  [GenericType.toConcreteType] throws the error [Method not
    implemented.] whatever the type and the type arguments: instantiating
    a generic type twice with the same arguments returns no object at
    all, neither the first nor the second time. *)
Theorem GenericType_toConcreteType_throws store this typeArguments :
  GenericType.toConcreteType store this typeArguments = Thrown notImplemented /\
  ~ exists first second,
      GenericType.toConcreteType store this typeArguments = Returned first /\
      GenericType.toConcreteType store this typeArguments = Returned second /\
      first = second.
Proof.
  split; [reflexivity|]. intros (first & second & H & _). discriminate.
Qed.

End TypeEngineFacts.

(** * Facts about the symbol-table builder *)

Module SymbolTableFacts.
Import SymbolTableBuilder.

(** ** Scopes and the scope tree *)

Lemma scopeGet_scopeSet (sc : Scope) key v :
  scopeGet (scopeSet sc key v) key = Some v.
Proof.
  induction sc as [|[k w] sc IH]; simpl.
  - rewrite decide_True; reflexivity.
  - destruct (decide (k = key)) as [->|Hne]; simpl.
    + rewrite decide_True; reflexivity.
    + rewrite decide_False; assumption.
Qed.

Lemma nodeAt_updateAt f path : forall root n,
  nodeAt path root = Some n ->
  nodeAt path (updateAt path f root) = Some (f n).
Proof.
  induction path as [|i path IH]; intros root n; simpl.
  - intros [= ->]. reflexivity.
  - destruct (children root !! i) as [child|] eqn:Hc; [|discriminate].
    intros Hn. simpl.
    rewrite list_lookup_insert_eq by (eapply lookup_lt_Some; eassumption).
    apply IH. assumption.
Qed.

Lemma stackAt_nodeAt path : forall root n,
  nodeAt path root = Some n -> exists scopes, stackAt path root = Some scopes.
Proof.
  induction path as [|i path IH]; intros root n; simpl.
  - eauto.
  - destruct (children root !! i) as [child|]; [|discriminate].
    intros Hn. destruct (IH _ _ Hn) as [scopes ->]. eauto.
Qed.

(** The stack begins with the scope of the root, and the rest of it does
    not depend on that scope. *)
Lemma stackAt_root path root scopes :
  stackAt path root = Some scopes ->
  exists rest,
    scopes = scope root :: rest /\
    forall sc p, stackAt path (mkScopeNode sc p (children root)) = Some (sc :: rest).
Proof.
  destruct path as [|i path]; simpl.
  - intros [= <-]. exists []. auto.
  - destruct (children root !! i) as [child|]; [|discriminate].
    destruct (stackAt path child) as [rest|]; [|discriminate].
    intros [= <-]. exists rest. auto.
Qed.

Lemma firstInStack_app l1 l2 key :
  firstInStack (l1 ++ l2) key =
  match firstInStack l1 key with
  | Some tracker => Some tracker
  | None => firstInStack l2 key
  end.
Proof.
  induction l1 as [|sc l1 IH]; simpl; [reflexivity|].
  destruct (scopeGet sc key); [reflexivity | assumption].
Qed.

(** ** Well-formed builders *)

Lemma lookup_returns b token sc :
  Active b -> exists r, lookup b token sc = Returned r.
Proof.
  intros [n Hn]. unfold lookup, peekScope, activeScopeNode, activeScopeStack.
  destruct sc.
  - rewrite Hn. simpl. eauto.
  - destruct (stackAt_nodeAt _ _ _ Hn) as [scopes ->]. simpl.
    destruct (firstInStack _ _); eauto.
Qed.

Lemma symbolOf_lookup b ref t :
  trackers b !! ref = Some t -> symbolOf b ref = Returned (declared t).
Proof. unfold symbolOf. intros ->. reflexivity. Qed.

Lemma scopeGet_values (sc : Scope) key ref :
  scopeGet sc key = Some ref -> ref ∈ scopeValues sc.
Proof.
  induction sc as [|[k v] sc IH]; simpl; [discriminate|].
  destruct (decide (k = key)).
  - intros [= ->]. apply elem_of_cons. left. reflexivity.
  - intros H. apply elem_of_cons. right. apply IH. assumption.
Qed.

Lemma scopeSet_values (sc : Scope) key v ref :
  ref ∈ scopeValues (scopeSet sc key v) -> ref ∈ scopeValues sc \/ ref = v.
Proof.
  induction sc as [|[k w] sc IH]; simpl.
  - intros H. apply elem_of_cons in H as [->|H]; [right; reflexivity|].
    apply elem_of_nil in H. contradiction.
  - destruct (decide (k = key)); simpl; intros H;
      apply elem_of_cons in H as [->|H].
    + right. reflexivity.
    + left. apply elem_of_cons. right. assumption.
    + left. apply elem_of_cons. left. reflexivity.
    + destruct (IH H) as [H'|H']; [left|right; assumption].
      apply elem_of_cons. right. assumption.
Qed.

(** Every scope of the stack is the scope of a node of the tree. *)
Lemma stackAt_scopes path : forall root scopes sc,
  stackAt path root = Some scopes -> sc ∈ scopes ->
  exists p node, nodeAt p root = Some node /\ scope node = sc.
Proof.
  induction path as [|i path IH]; intros root scopes sc; simpl.
  - intros [= <-] H. apply elem_of_cons in H as [->|H].
    + exists [], root. auto.
    + apply elem_of_nil in H. contradiction.
  - destruct (children root !! i) as [child|] eqn:Hc; [|discriminate].
    destruct (stackAt path child) as [rest|] eqn:Hs; [|discriminate].
    intros [= <-] H. apply elem_of_cons in H as [->|H].
    + exists [], root. auto.
    + destruct (IH _ _ _ Hs H) as (p & node & Hn & Hsc).
      exists (i :: p), node. simpl. rewrite Hc. auto.
Qed.

Lemma firstInStack_in l key ref :
  firstInStack l key = Some ref ->
  exists sc, sc ∈ l /\ scopeGet sc key = Some ref.
Proof.
  induction l as [|sc l IH]; simpl; [discriminate|].
  destruct (scopeGet sc key) as [r|] eqn:Hg.
  - intros [= ->]. exists sc. split; [apply elem_of_cons; left; reflexivity|].
    assumption.
  - intros H. destruct (IH H) as (sc' & Hin & Hg').
    exists sc'. split; [apply elem_of_cons; right|]; assumption.
Qed.

Lemma firstInTables_in tables key ref :
  firstInTables tables key = Some ref ->
  exists table,
    table ∈ tables /\ scopeGet (scope (tableRoot table)) key = Some ref.
Proof.
  induction tables as [|table tables IH]; simpl; [discriminate|].
  destruct (scopeGet (scope (tableRoot table)) key) as [r|] eqn:Hg.
  - intros [= ->]. exists table.
    split; [apply elem_of_cons; left; reflexivity | assumption].
  - intros H. destruct (IH H) as (table' & Hin & Hg').
    exists table'. split; [apply elem_of_cons; right|]; assumption.
Qed.

Lemma Bounded_Closed b : Bounded b -> Closed b.
Proof.
  intros [Htree Htables] token sc ref Hl.
  apply lookup_lt_is_Some_2.
  unfold lookup, peekScope, activeScopeNode, activeScopeStack in Hl.
  destruct sc.
  - destruct (nodeAt _ _) as [node|] eqn:Hn; [|discriminate].
    simpl in Hl. injection Hl as Hg.
    apply (Htree _ _ _ Hn). apply (scopeGet_values _ _ _ Hg).
  - destruct (stackAt _ _) as [scopes|] eqn:Hs; [|discriminate].
    simpl in Hl.
    destruct (firstInStack _ _) as [r|] eqn:Hf.
    + injection Hl as ->.
      destruct (firstInStack_in _ _ _ Hf) as (sc & Hin & Hg).
      apply elem_of_reverse in Hin. rewrite reverse_involutive in Hin.
      destruct (stackAt_scopes _ _ _ _ Hs Hin) as (p & node & Hn & <-).
      apply (Htree _ _ _ Hn). apply (scopeGet_values _ _ _ Hg).
    + injection Hl as Hf'.
      destruct (firstInTables_in _ _ _ Hf') as (table & Hin & Hg).
      apply (Htables _ _ Hin). apply (scopeGet_values _ _ _ Hg).
Qed.

(** A builder as it is made meets both conditions. *)
Lemma newBuilder_well_formed u :
  Active (newBuilder u) /\ Bounded (newBuilder u).
Proof.
  split; [eexists; reflexivity|]. split.
  - intros path node ref. destruct path as [|i path]; simpl.
    + intros [= <-] H. apply elem_of_nil in H. contradiction.
    + discriminate.
  - intros table ref H. apply elem_of_nil in H. contradiction.
Qed.

(** Setting a key in the scope of one node changes the scope of no other
    node, and keeps the shape of the tree. *)
Lemma nodeAt_setScope key v path : forall p root node',
  nodeAt p
    (updateAt path
       (fun n => mkScopeNode (scopeSet (scope n) key v) (position n) (children n))
       root) = Some node' ->
  exists node,
    nodeAt p root = Some node /\
    (scope node' = scope node \/ scope node' = scopeSet (scope node) key v).
Proof.
  induction path as [|j path IH]; intros p root node'; simpl.
  - destruct p as [|i p]; simpl.
    + intros [= <-]. exists root. auto.
    + intros H. exists node'. auto.
  - destruct (children root !! j) as [child|] eqn:Hc; [|eauto].
    destruct p as [|i p]; simpl.
    + intros [= <-]. exists root. auto.
    + destruct (decide (i = j)) as [->|Hne].
      * rewrite list_lookup_insert_eq by (eapply lookup_lt_Some; eassumption).
        rewrite Hc. apply IH.
      * rewrite list_lookup_insert_ne by congruence.
        intros H. exists node'. auto.
Qed.

Lemma setInScope_Active b scopeType key v :
  Active b -> Active (setInScope b scopeType key v).
Proof.
  intros [node Hn]. unfold Active, setInScope. simpl. destruct scopeType.
  - rewrite (nodeAt_updateAt _ _ _ _ Hn). eauto.
  - simpl. destruct (activeScopePath b) as [|i path]; simpl in *; eauto.
Qed.

Lemma setInScope_Bounded b scopeType key t :
  Bounded b ->
  Bounded (setInScope (addTracker b t) scopeType key (length (trackers b))).
Proof.
  intros [Htree Htables]. split; simpl; rewrite length_app; simpl.
  - intros path node' ref Hn Hin.
    destruct (nodeAt_setScope _ _ _ _ _ _ Hn) as (node & Hn' & [Hs | Hs]);
      rewrite Hs in Hin.
    + pose proof (Htree _ _ _ Hn' Hin). lia.
    + apply scopeSet_values in Hin as [Hin | ->]; [|lia].
      pose proof (Htree _ _ _ Hn' Hin). lia.
  - intros table ref Hin Href. pose proof (Htables _ _ Hin Href). lia.
Qed.

(** ** Declarations *)

(** After the new tracker is set in the selected scope, a lookup in that
    scope finds it. *)
Lemma lookup_setInScope b scopeType token t ref :
  Active b ->
  lookup b token scopeType = Returned None ->
  lookup (setInScope (addTracker b t) scopeType (lexeme token) ref) token
    scopeType = Returned (Some ref).
Proof.
  intros [n Hn].
  unfold lookup, peekScope, activeScopeNode, activeScopeStack, setInScope.
  destruct scopeType; simpl.
  - intros _. rewrite (nodeAt_updateAt _ _ _ _ Hn). simpl.
    rewrite scopeGet_scopeSet. reflexivity.
  - destruct (stackAt_nodeAt _ _ _ Hn) as [scopes Hs]. rewrite Hs. simpl.
    destruct (stackAt_root _ _ _ Hs) as (rest & -> & Hrest).
    rewrite Hrest. simpl. rewrite !reverse_cons, !firstInStack_app.
    destruct (firstInStack (reverse rest) (lexeme token)); [discriminate|].
    simpl. rewrite scopeGet_scopeSet. reflexivity.
Qed.

Lemma declareSymbol_conflict b scopeType token symbol ty ref t :
  lookup b token scopeType = Returned (Some ref) ->
  trackers b !! ref = Some t ->
  declareSymbol b scopeType token symbol ty
    = Returned (Some (localConflictError b token (declared t)), b, token).
Proof.
  intros Hl Ht. unfold declareSymbol. rewrite Hl. cbn [andThen].
  rewrite (symbolOf_lookup _ _ _ Ht). reflexivity.
Qed.

Lemma declareSymbol_takes b scopeType token symbol ty :
  Active b -> Closed b ->
  lookup b token scopeType = Returned None ->
  exists d,
    declareSymbol b scopeType token symbol ty
      = Returned
          (d,
           setInScope
             (addTracker b
                (newTracker (symbol (setTracker token (length (trackers b)))) ty))
             scopeType (lexeme token) (length (trackers b)),
           setTracker token (length (trackers b))) /\
    (d = None \/
     exists shadow t,
       scopeType = ScopeType.local /\
       lookup b token ScopeType.global = Returned (Some shadow) /\
       trackers b !! shadow = Some t /\
       d = Some (shadowSymbolHint b token (declared t))).
Proof.
  intros Ha Hc Hl. unfold declareSymbol. rewrite Hl. cbn [andThen].
  unfold declareIn. destruct scopeType.
  - destruct (lookup_returns b token ScopeType.global Ha) as [r Hr].
    rewrite Hr. cbn [andThen].
    assert (Hp : exists sc, peekScope b = Returned sc).
    { destruct Ha as [n Hn]. unfold peekScope, activeScopeNode. rewrite Hn.
      simpl. eauto. }
    destruct Hp as [sc Hp].
    destruct r as [shadow|].
    + destruct (Hc _ _ _ Hr) as [t Ht].
      rewrite (symbolOf_lookup _ _ _ Ht). cbn [andThen]. rewrite Hp.
      cbn [andThen].
      eexists. split; [reflexivity|]. right. exists shadow, t. auto.
    + cbn [andThen]. rewrite Hp. cbn [andThen].
      eexists. split; [reflexivity|]. left. reflexivity.
  - cbn [andThen]. eexists. split; [reflexivity|]. left. reflexivity.
Qed.

Lemma declareSymbol_either c b scopeType token symbol ty :
  (forall token', declaredTracker c scopeType token' = newTracker (symbol token') ty) ->
  Active b -> Closed b ->
  exists result,
    declareSymbol b scopeType token symbol ty = Returned result /\
    (Conflict b scopeType token result \/ Takes c b scopeType token result).
Proof.
  intros Hsym Ha Hc.
  destruct (lookup_returns b token scopeType Ha) as [[ref|] Hl].
  - destruct (Hc _ _ _ Hl) as [t Ht].
    eexists. split; [apply (declareSymbol_conflict _ _ _ _ _ _ _ Hl Ht)|].
    left. exists ref, t. auto.
  - destruct (declareSymbol_takes b scopeType token symbol ty Ha Hc Hl)
      as (d & Hd & Hshadow).
    eexists. split; [exact Hd|]. right.
    unfold Takes. split; [assumption|]. split; [assumption|].
    split; [reflexivity|]. split.
    + simpl. rewrite Hsym. reflexivity.
    + apply (lookup_setInScope b scopeType token _ _ Ha Hl).
Qed.

(** A declare call keeps a builder well formed. *)
Lemma declare_well_formed c b scopeType token d b' token' :
  Active b -> Bounded b ->
  declare c b scopeType token = Returned (d, b', token') ->
  Active b' /\ Bounded b'.
Proof.
  intros Ha Hb.
  assert (H : forall symbol ty,
            declareSymbol b scopeType token symbol ty = Returned (d, b', token') ->
            Active b' /\ Bounded b').
  { intros symbol ty Hd.
    destruct (lookup_returns b token scopeType Ha) as [[ref|] Hl].
    - destruct (Bounded_Closed _ Hb _ _ _ Hl) as [t Ht].
      rewrite (declareSymbol_conflict _ _ _ _ _ _ _ Hl Ht) in Hd.
      injection Hd as _ <- _. auto.
    - destruct (declareSymbol_takes b scopeType token symbol ty Ha
                  (Bounded_Closed _ Hb) Hl) as (d0 & Hd0 & _).
      rewrite Hd0 in Hd. injection Hd as _ <- _. split.
      + apply setInScope_Active. exact Ha.
      + apply setInScope_Bounded. exact Hb. }
  destruct c; simpl;
    unfold declareVariable, declareFunction, declareLock, declareParameter;
    apply H.
Qed.

(** ** Uses *)

Lemma lookupGuarded_found guard b nm ref t :
  lookup b nm ScopeType.global = Returned (Some ref) ->
  trackers b !! ref = Some t ->
  lookupGuarded guard b nm ScopeType.global
    = Returned (if guard (declared t) then Some ref else None).
Proof.
  intros Hl Ht. unfold lookupGuarded. rewrite Hl. cbn [andThen].
  rewrite (symbolOf_lookup _ _ _ Ht). reflexivity.
Qed.

(** The sibling paths: [useSymbol], [useVariable], [useLock] and
    [useParameter] record a visible tracker of the kind they expect on
    the token, append the usage and return no diagnostic. *)
Lemma use_records c b nm e ref t :
  c <> UseFunction ->
  lookup b nm ScopeType.global = Returned (Some ref) ->
  trackers b !! ref = Some t ->
  expects c (tag (declared t)) ->
  use c b nm e
    = Returned
        (None,
         pushUsage b ref (createEnitityChange (setTracker nm ref) e),
         setTracker nm ref).
Proof.
  intros Hc Hl Ht He.
  destruct c; cbn [use expects] in *; try congruence;
    unfold useSymbol, useVariable, useLock, useParameter,
      lookupVariableTracker, lookupLockTracker, lookupParameterTracker.
  - rewrite Hl. cbn [andThen]. rewrite (symbolOf_lookup _ _ _ Ht). reflexivity.
  - rewrite (lookupGuarded_found _ _ _ _ _ Hl Ht). simpl.
    unfold isKsVariable. rewrite bool_decide_eq_true_2 by assumption. reflexivity.
  - rewrite (lookupGuarded_found _ _ _ _ _ Hl Ht). simpl.
    unfold isKsLock. rewrite bool_decide_eq_true_2 by assumption. reflexivity.
  - rewrite (lookupGuarded_found _ _ _ _ _ Hl Ht). simpl.
    unfold isKsParameter. rewrite bool_decide_eq_true_2 by assumption. reflexivity.
Qed.

(** A name no lookup resolves: every use method returns an [Error]
    diagnostic and leaves the table and the token as they were. *)
Lemma use_unresolved c b nm e :
  lookup b nm ScopeType.global = Returned None ->
  exists d,
    use c b nm e = Returned (Some d, b, nm) /\
    severity d = DiagnosticSeverity.Error.
Proof.
  intros Hl.
  destruct c; cbn [use];
    unfold useSymbol, useVariable, useFunction, useLock, useParameter,
      lookupVariableTracker, lookupFunctionTracker, lookupLockTracker,
      lookupParameterTracker, lookupGuarded;
    rewrite Hl; cbn [andThen]; eexists; split; reflexivity.
Qed.

(** A use call keeps a builder well formed. *)
Lemma use_well_formed c b nm e d b' nm' :
  Active b -> Bounded b ->
  use c b nm e = Returned (d, b', nm') ->
  Active b' /\ Bounded b'.
Proof.
  intros Ha Hb.
  assert (Hpush : forall ref u, Active (pushUsage b ref u) /\
                                Bounded (pushUsage b ref u)).
  { intros ref u. split; [exact Ha|]. destruct Hb as [Htree Htables].
    split; simpl; rewrite length_alter; assumption. }
  assert (Hcheck : forall tracker kind,
            checkUseSymbol b nm tracker kind e = Returned (d, b', nm') ->
            Active b' /\ Bounded b').
  { intros [ref|] kind; simpl.
    - intros [= _ <- _]. apply Hpush.
    - intros [= _ <- _]. auto. }
  assert (Hguard : forall guard kind,
            (let? tracker := lookupGuarded guard b nm ScopeType.global in
             checkUseSymbol b nm tracker kind e) = Returned (d, b', nm') ->
            Active b' /\ Bounded b').
  { intros guard kind.
    destruct (lookupGuarded guard b nm ScopeType.global) as [tracker|];
      [|discriminate].
    apply Hcheck. }
  destruct c; cbn [use];
    unfold useSymbol, useVariable, useFunction, useLock, useParameter,
      lookupVariableTracker, lookupFunctionTracker, lookupLockTracker,
      lookupParameterTracker; try apply Hguard.
  destruct (lookup b nm ScopeType.global) as [[ref|]|]; cbn [andThen];
    [|intros [= _ <- _]; auto | discriminate].
  destruct (symbolOf b ref); cbn [andThen]; [apply Hcheck | discriminate].
Qed.

(** C3.  [useFunction] on a name that resolves to the tracker of a
    function does not record the use: its lookup keeps the tracker only
    if the symbol is a variable, so it returns the [may not exist]
    diagnostic and leaves the tracker without the usage and the token
    without the tracker. *)
Theorem useFunction_reports_declared_function b nm e ref t :
  lookup b nm ScopeType.global = Returned (Some ref) ->
  trackers b !! ref = Some t ->
  tag (declared t) = KsSymbolKind.function ->
  useFunction b nm e
    = Returned
        (Some (createDiagnostic nm ("1 " +:+ lexeme nm +:+ " may not exist.")
                 DiagnosticSeverity.Error []),
         b, nm).
Proof.
  intros Hl Ht Hk. unfold useFunction, lookupFunctionTracker.
  rewrite (lookupGuarded_found _ _ _ _ _ Hl Ht). simpl.
  unfold isKsVariable. rewrite bool_decide_eq_false_2 by congruence. reflexivity.
Qed.

Lemma useFunction_reports_declared_function_witness :
  useFunction withFunction (sampleName "hi") None
    = Returned
        (Some (createDiagnostic (sampleName "hi") "1 hi may not exist."
                 DiagnosticSeverity.Error []),
         withFunction, sampleName "hi").
Proof.
  apply (useFunction_reports_declared_function withFunction (sampleName "hi")
           None 0
           (newTracker
              (KsFunction ScopeType.global (setTracker (sampleName "hi") 0) []
                 false) None)); reflexivity.
Defined.



(** ** Closing a scope *)

Section EndScope.

Variable cooked : KsSymbol -> bool.

Lemma unusedDiagnostic_reported t :
  if reported cooked t
  then exists d, unusedDiagnostic cooked t = [d] /\
                 severity d = DiagnosticSeverity.Error
  else unusedDiagnostic cooked t = [].
Proof.
  unfold reported, unusedDiagnostic.
  destruct (tag (declared t)); destruct (length (usages t) =? 0)%nat;
    try destruct (cooked (declared t)); simpl; eauto.
Qed.

Lemma unusedIn_spec store refs : forall diags,
  unusedIn cooked store refs = Returned diags ->
  exists ts,
    Forall2 (fun ref t => store !! ref = Some t) refs ts /\
    diags = concat (map (unusedDiagnostic cooked) ts) /\
    Forall (fun d => severity d = DiagnosticSeverity.Error) diags /\
    length diags = length (filter (fun t => reported cooked t = true) ts).
Proof.
  induction refs as [|ref refs IH]; simpl; intros diags.
  - intros [= <-]. exists []. repeat split; constructor.
  - destruct (store !! ref) as [t|] eqn:Ht; [|discriminate].
    assert (Hrest : forall rest,
              unusedIn cooked store refs = Returned rest ->
              diags = unusedDiagnostic cooked t ++ rest ->
              exists ts,
                Forall2 (fun ref t => store !! ref = Some t) (ref :: refs) ts /\
                diags = concat (map (unusedDiagnostic cooked) ts) /\
                Forall (fun d => severity d = DiagnosticSeverity.Error) diags /\
                length diags = length (filter (fun t => reported cooked t = true) ts)).
    { intros rest Hr ->. destruct (IH _ Hr) as (ts & Hts & -> & Hsev & Hlen).
      exists (t :: ts). split; [constructor; assumption|].
      split; [reflexivity|].
      pose proof (unusedDiagnostic_reported t) as Hrep.
      rewrite filter_cons. destruct (reported cooked t).
      - destruct Hrep as (d & -> & Hd). rewrite decide_True by reflexivity.
        split; [constructor; assumption|]. simpl. rewrite Hlen. reflexivity.
      - rewrite Hrep. rewrite decide_False by discriminate.
        split; assumption. }
    destruct (unusedIn cooked store refs) as [rest|msg] eqn:Hr;
      destruct (tag (declared t)); simpl; try discriminate;
      intros [= <-]; eapply Hrest; reflexivity.
Qed.

End EndScope.

(** C4, as the code has it.  When a scope is closed, every diagnostic
    [endScope] returns has severity [Error], and there is one for each
    tracker of the closing scope that has no usage and declares a
    parameter, a variable, or a lock that is not cooked; a function
    yields none.  The store and the tree stay as they were; the active
    path loses its last step. *)
Theorem endScope_reports_errors cooked b diags b' :
  endScope cooked b = Returned (diags, b') ->
  exists node ts,
    nodeAt (activeScopePath b) (rootScope b) = Some node /\
    Forall2 (fun ref t => trackers b !! ref = Some t)
      (scopeValues (scope node)) ts /\
    diags = concat (map (unusedDiagnostic cooked) ts) /\
    Forall (fun d => severity d = DiagnosticSeverity.Error) diags /\
    length diags = length (filter (fun t => reported cooked t = true) ts) /\
    trackers b' = trackers b /\ rootScope b' = rootScope b /\
    activeScopePath b' = removelast (activeScopePath b).
Proof.
  unfold endScope, activeScopeNode.
  destruct (nodeAt _ _) as [node|] eqn:Hn; [|discriminate]. simpl.
  destruct (unusedIn _ _ _) as [errors|] eqn:He; [|discriminate]. simpl.
  intros [= <- <-].
  destruct (unusedIn_spec _ _ _ _ He) as (ts & Hts & Hd & Hsev & Hlen).
  exists node, ts. simpl. auto 10.
Qed.

Lemma endScope_reports_errors_witness :
  exists diags b',
    endScope rawLocks withUnused = Returned (diags, b') /\
    Forall (fun d => severity d = DiagnosticSeverity.Error) diags /\
    length diags = 3.
Proof.
  eexists _, _. split; [reflexivity|].
  destruct (endScope_reports_errors rawLocks withUnused _ _ eq_refl)
    as (node & ts & _ & _ & _ & Hsev & _).
  split; [exact Hsev | reflexivity].
Defined.

(** An unused variable and an unused lock are reported with severity
    [Error], not as warnings. *)
Lemma unused_variable_is_an_error :
  exists diags b' dv dl,
    endScope rawLocks withUnused = Returned (diags, b') /\
    dv ∈ diags /\ message dv = "Variable x was not used." /\
    severity dv = DiagnosticSeverity.Error /\
    severity dv <> DiagnosticSeverity.Warning /\
    dl ∈ diags /\ message dl = "Lock l was not used." /\
    severity dl = DiagnosticSeverity.Error /\
    severity dl <> DiagnosticSeverity.Warning.
Proof.
  eexists _, _, _, _. split; [vm_compute; reflexivity|].
  split; [apply elem_of_cons; left; reflexivity|].
  split; [reflexivity|]. split; [reflexivity|]. split; [discriminate|].
  split; [apply elem_of_cons; right; apply elem_of_cons; left; reflexivity|].
  split; [reflexivity|]. split; [reflexivity|]. discriminate.
Qed.

End SymbolTableFacts.

(** * Facts about the analysis coordinator *)

Module CoordinatorFacts.
Import Coordinator.

(** ** What the operations do to the links *)

Lemma lookup_linkDependency tables a b i :
  linkDependency tables a b !! i =
  (fun t =>
     mkSymbolTable
       (if decide (i = a) then dependencyTables t ∪ {[b]} else dependencyTables t)
       (if decide (i = b) then dependentTables t ∪ {[a]} else dependentTables t))
    <$> tables !! i.
Proof.
  unfold linkDependency. rewrite !list_lookup_alter.
  repeat case_decide; subst; try congruence;
    destruct (tables !! i) as [[]|]; reflexivity.
Qed.

Lemma length_linkDependency tables a b :
  length (linkDependency tables a b) = length tables.
Proof. unfold linkDependency. rewrite !length_alter. reflexivity. Qed.

Lemma Dependency_link tables a b x y :
  a < length tables ->
  Dependency (linkDependency tables a b) x y <->
  Dependency tables x y \/ (x = a /\ y = b).
Proof.
  intros Ha. unfold Dependency. rewrite lookup_linkDependency. split.
  - intros (t & Ht & Hy). destruct (tables !! x) as [t0|]; [|discriminate].
    injection Ht as <-. simpl in Hy. destruct (decide (x = a)) as [->|].
    + apply elem_of_union in Hy as [Hy|Hy]; [left; eauto|].
      apply elem_of_singleton in Hy. right. auto.
    + left. eauto.
  - intros [(t & Ht & Hy) | [-> ->]].
    + rewrite Ht. eexists. split; [reflexivity|]. simpl.
      destruct (decide (x = a)); [apply elem_of_union; left|]; assumption.
    + destruct (lookup_lt_is_Some_2 tables a Ha) as [t Ht]. rewrite Ht.
      eexists. split; [reflexivity|]. simpl. rewrite decide_True by done.
      apply elem_of_union. right. apply elem_of_singleton. reflexivity.
Qed.

Lemma Dependent_link tables a b y x :
  b < length tables ->
  Dependent (linkDependency tables a b) y x <->
  Dependent tables y x \/ (x = a /\ y = b).
Proof.
  intros Hb. unfold Dependent. rewrite lookup_linkDependency. split.
  - intros (t & Ht & Hx). destruct (tables !! y) as [t0|]; [|discriminate].
    injection Ht as <-. simpl in Hx. destruct (decide (y = b)) as [->|].
    + apply elem_of_union in Hx as [Hx|Hx]; [left; eauto|].
      apply elem_of_singleton in Hx. right. auto.
    + left. eauto.
  - intros [(t & Ht & Hx) | [-> ->]].
    + rewrite Ht. eexists. split; [reflexivity|]. simpl.
      destruct (decide (y = b)); [apply elem_of_union; left|]; assumption.
    + destruct (lookup_lt_is_Some_2 tables b Hb) as [t Ht]. rewrite Ht.
      eexists. split; [reflexivity|]. simpl. rewrite decide_True by done.
      apply elem_of_union. right. apply elem_of_singleton. reflexivity.
Qed.

Lemma Dependency_new tables x y :
  Dependency (tables ++ [emptyTable]) x y <-> Dependency tables x y.
Proof.
  unfold Dependency. split.
  - intros (t & Ht & Hy). apply lookup_app_Some in Ht as [Ht | [_ Ht]]; [eauto|].
    apply list_lookup_singleton_Some in Ht as [_ <-].
    apply elem_of_empty in Hy. contradiction.
  - intros (t & Ht & Hy). exists t. split; [|assumption].
    apply lookup_app_l_Some. assumption.
Qed.

Lemma Dependent_new tables y x :
  Dependent (tables ++ [emptyTable]) y x <-> Dependent tables y x.
Proof.
  unfold Dependent. split.
  - intros (t & Ht & Hx). apply lookup_app_Some in Ht as [Ht | [_ Ht]]; [eauto|].
    apply list_lookup_singleton_Some in Ht as [_ <-].
    apply elem_of_empty in Hx. contradiction.
  - intros (t & Ht & Hx). exists t. split; [|assumption].
    apply lookup_app_l_Some. assumption.
Qed.

Lemma length_detach tables old : length (detach tables old) = length tables.
Proof.
  unfold detach. destruct (tables !! old); [apply length_imap | reflexivity].
Qed.

Lemma Dependency_detach tables old x y :
  Consistent tables -> is_Some (tables !! old) ->
  Dependency (detach tables old) x y <->
  Dependency tables x y /\ x <> old /\ y <> old.
Proof.
  intros Hcons [told Hold]. unfold detach. rewrite Hold.
  unfold Dependency at 1. rewrite list_lookup_imap. split.
  - intros (t & Ht & Hy). destruct (tables !! x) as [tx|] eqn:Hx; [|discriminate].
    injection Ht as <-. destruct (decide (x = old)) as [->|Hne].
    { apply elem_of_empty in Hy. contradiction. }
    simpl in Hy. destruct (decide (x ∈ dependentTables told)) as [Hin|Hnin].
    + apply elem_of_difference in Hy as [Hy Hyo].
      split; [exists tx; auto|]. split; [assumption|].
      intros ->. apply Hyo. apply elem_of_singleton. reflexivity.
    + split; [exists tx; auto|]. split; [assumption|].
      intros ->. apply Hnin.
      assert (Hd : Dependent tables old x) by (apply Hcons; exists tx; auto).
      destruct Hd as (t' & Ht' & Hd). congruence.
  - intros ((t & Ht & Hy) & Hx & Hyo). rewrite Ht. eexists.
    split; [reflexivity|]. rewrite decide_False by assumption. simpl.
    destruct (decide (x ∈ dependentTables told)); [|assumption].
    apply elem_of_difference. split; [assumption|].
    intros Hs. apply elem_of_singleton in Hs. contradiction.
Qed.

Lemma Dependent_detach tables old y x :
  Consistent tables -> is_Some (tables !! old) ->
  Dependent (detach tables old) y x <->
  Dependent tables y x /\ x <> old /\ y <> old.
Proof.
  intros Hcons [told Hold]. unfold detach. rewrite Hold.
  unfold Dependent at 1. rewrite list_lookup_imap. split.
  - intros (t & Ht & Hx). destruct (tables !! y) as [ty|] eqn:Hy; [|discriminate].
    injection Ht as <-. destruct (decide (y = old)) as [->|Hne].
    { apply elem_of_empty in Hx. contradiction. }
    simpl in Hx. destruct (decide (y ∈ dependencyTables told)) as [Hin|Hnin].
    + apply elem_of_difference in Hx as [Hx Hxo].
      split; [exists ty; auto|]. split; [|assumption].
      intros ->. apply Hxo. apply elem_of_singleton. reflexivity.
    + split; [exists ty; auto|]. split; [|assumption].
      intros ->. apply Hnin.
      assert (Hd : Dependency tables old y) by (apply Hcons; exists ty; auto).
      destruct Hd as (t' & Ht' & Hd). congruence.
  - intros ((t & Ht & Hx) & Hxo & Hy). rewrite Ht. eexists.
    split; [reflexivity|]. rewrite decide_False by assumption. simpl.
    destruct (decide (y ∈ dependencyTables told)); [|assumption].
    apply elem_of_difference. split; [assumption|].
    intros Hs. apply elem_of_singleton in Hs. contradiction.
Qed.

Lemma relink_spec new dependents : forall tables,
  new < length tables ->
  Forall (fun d => d < length tables) dependents ->
  let tables' :=
    foldl (fun tables dependent => linkDependency tables dependent new)
      tables dependents in
  length tables' = length tables /\
  (forall x y, Dependency tables' x y <->
               Dependency tables x y \/ (x ∈ dependents /\ y = new)) /\
  (forall y x, Dependent tables' y x <->
               Dependent tables y x \/ (x ∈ dependents /\ y = new)).
Proof.
  induction dependents as [|d ds IH]; intros tables Hnew Hds; simpl.
  - split; [reflexivity|].
    split; intros; (split; [auto | intros [H|[H _]]; [assumption|]]);
      apply elem_of_nil in H; contradiction.
  - apply Forall_cons in Hds as [Hd Hds].
    destruct (IH (linkDependency tables d new)) as (Hlen & Hdep & Hrev).
    + rewrite length_linkDependency. assumption.
    + rewrite length_linkDependency. assumption.
    + rewrite Hlen, length_linkDependency. split; [reflexivity|]. split.
      * intros x y. rewrite Hdep, (Dependency_link _ _ _ _ _ Hd), elem_of_cons.
        tauto.
      * intros y x. rewrite Hrev, (Dependent_link _ _ _ _ _ Hnew), elem_of_cons.
        tauto.
Qed.

(** ** Rebuilding the table of a document *)

Lemma Current_lt service table :
  Invariant service -> Current service table ->
  table < length (symbolTables service).
Proof.
  intros HI [Hlib | [uri Hu]].
  - pose proof (libraries_built _ HI). lia.
  - apply (documents_built _ HI) in Hu. lia.
Qed.

Lemma Dependency_lt service a b :
  Invariant service -> Dependency (symbolTables service) a b ->
  a < length (symbolTables service) /\ b < length (symbolTables service).
Proof.
  intros HI Hd. destruct (links_fresh _ HI _ _ Hd).
  split; apply Current_lt; assumption.
Qed.

Lemma rebuild_spec service uri :
  Invariant service ->
  let new := length (symbolTables service) in
  let tables' := symbolTables (rebuild service uri) in
  length tables' = S new /\
  documentInfos (rebuild service uri) = <[uri := new]> (documentInfos service) /\
  (forall x y,
     Dependency tables' x y <->
     (Dependency (symbolTables service) x y /\
      ~ Was service uri x /\ ~ Was service uri y) \/
     (x = new /\ (y = standardLibrary \/ y = bodyLibrary)) \/
     (y = new /\ exists old, Was service uri old /\ x <> old /\
                             Dependency (symbolTables service) x old)) /\
  (forall y x,
     Dependent tables' y x <->
     (Dependent (symbolTables service) y x /\
      ~ Was service uri x /\ ~ Was service uri y) \/
     (x = new /\ (y = standardLibrary \/ y = bodyLibrary)) \/
     (y = new /\ exists old, Was service uri old /\ x <> old /\
                             Dependency (symbolTables service) x old)).
Proof.
  intros HI new. unfold rebuild, Was.
  pose proof (libraries_built _ HI) as Hlibs.
  set (old := documentInfos service !! uri).
  set (detached := match old with
                   | Some old => detach (symbolTables service) old
                   | None => (symbolTables service)
                   end).
  assert (Hlen : length detached = new).
  { unfold detached. destruct old; [apply length_detach | reflexivity]. }
  assert (Hdet :
    (forall x y, Dependency detached x y <->
       Dependency (symbolTables service) x y /\ old <> Some x /\ old <> Some y) /\
    (forall y x, Dependent detached y x <->
       Dependent (symbolTables service) y x /\ old <> Some x /\ old <> Some y)).
  { unfold detached. destruct old as [o|] eqn:Ho.
    - assert (Hsome : is_Some ((symbolTables service) !! o)).
      { apply lookup_lt_is_Some_2.
        apply (documents_built _ HI) in Ho. lia. }
      split; intros.
      + rewrite (Dependency_detach _ _ _ _ (links_consistent _ HI) Hsome).
        split; intros (? & ? & ?); (split; [assumption|]); split; congruence.
      + rewrite (Dependent_detach _ _ _ _ (links_consistent _ HI) Hsome).
        split; intros (? & ? & ?); (split; [assumption|]); split; congruence.
    - split; intros; split; try tauto; intros ?; (split; [assumption|]);
        split; discriminate. }
  destruct Hdet as [Hdep Hrev].
  set (linked :=
         linkDependency
           (linkDependency (detached ++ [emptyTable]) (length detached)
              standardLibrary)
           (length detached) bodyLibrary).
  assert (Hlinked : length linked = S new).
  { unfold linked. rewrite !length_linkDependency, length_app. simpl. lia. }
  assert (Hds : Forall (fun d => d < length linked)
                  (dependentsOf (symbolTables service) old)).
  { apply Forall_forall. intros d Hd. unfold dependentsOf in Hd.
    destruct old as [o|]; [|apply elem_of_nil in Hd; contradiction].
    destruct ((symbolTables service) !! o) as [t|] eqn:Ht; [|apply elem_of_nil in Hd; contradiction].
    apply elem_of_elements, elem_of_difference in Hd as [Hd _].
    assert (Hdd : Dependency (symbolTables service) d o).
    { apply (links_consistent _ HI). exists t. auto. }
    apply (Dependency_lt _ _ _ HI) in Hdd. rewrite Hlinked. unfold new. lia. }
  assert (Hnew : length detached < length linked) by lia.
  destruct (relink_spec (length detached) (dependentsOf (symbolTables service) old) linked
              Hnew Hds) as (Hl & Hd2 & Hr2).
  simpl. rewrite Hl. split; [assumption|]. split; [rewrite Hlen; reflexivity|].
  assert (Hin : forall x,
            x ∈ dependentsOf (symbolTables service) old <->
            exists o, old = Some o /\ x <> o /\ Dependency (symbolTables service) x o).
  { intros x. unfold dependentsOf. destruct old as [o|] eqn:Ho.
    - assert (Hsome : is_Some ((symbolTables service) !! o)).
      { apply lookup_lt_is_Some_2.
        apply (documents_built _ HI) in Ho. lia. }
      destruct Hsome as [t Ht]. rewrite Ht.
      rewrite elem_of_elements, elem_of_difference, elem_of_singleton. split.
      + intros [Hx Hne]. exists o. split; [reflexivity|]. split; [assumption|].
        apply (links_consistent _ HI). exists t. auto.
      + intros (o' & [= <-] & Hne & Hdx). split; [|assumption].
        apply (links_consistent _ HI) in Hdx. destruct Hdx as (t' & Ht' & Hx).
        congruence.
    - split; [intros H; apply elem_of_nil in H; contradiction|].
      intros (o & Ho' & _). discriminate. }
  assert (Hb1 : length detached < length (detached ++ [emptyTable])).
  { rewrite length_app. simpl. lia. }
  assert (Hb2 : length detached
                < length (linkDependency (detached ++ [emptyTable])
                            (length detached) standardLibrary)).
  { rewrite length_linkDependency. assumption. }
  assert (Hb3 : standardLibrary < length (detached ++ [emptyTable])).
  { rewrite length_app. unfold standardLibrary. simpl. lia. }
  assert (Hb4 : bodyLibrary
                < length (linkDependency (detached ++ [emptyTable])
                            (length detached) standardLibrary)).
  { rewrite length_linkDependency, length_app. unfold bodyLibrary. simpl. lia. }
  split.
  - intros x y. rewrite Hd2. unfold linked.
    rewrite (Dependency_link _ _ _ _ _ Hb2), (Dependency_link _ _ _ _ _ Hb1),
      Dependency_new, Hdep, Hin, Hlen.
    unfold old. split.
    + intros [[[H|H]|H]|H]; [left; tauto | right; left; tauto
                             | right; left; tauto |].
      right. right. destruct H as [(o & Ho & Hne & Hx) ->]. eauto.
    + intros [H|[[-> [->| ->]]|[-> (o & Ho & Hne & Hx)]]];
        [left; left; left; tauto | left; left; right; auto | left; right; auto |].
      right. split; [|reflexivity]. eauto.
  - intros y x. rewrite Hr2. unfold linked.
    rewrite (Dependent_link _ _ _ _ _ Hb4), (Dependent_link _ _ _ _ _ Hb3),
      Dependent_new, Hrev, Hin, Hlen.
    unfold old. split.
    + intros [[[H|H]|H]|H]; [left; tauto | right; left; tauto
                             | right; left; tauto |].
      right. right. destruct H as [(o & Ho & Hne & Hx) ->]. eauto.
    + intros [H|[[-> [->| ->]]|[-> (o & Ho & Hne & Hx)]]];
        [left; left; left; tauto | left; left; right; auto | left; right; auto |].
      right. split; [|reflexivity]. eauto.
Qed.

Lemma Invariant_newService : Invariant newService.
Proof.
  assert (Hno : forall a b, ~ Dependency (symbolTables newService) a b).
  { intros a b (t & Ht & Hb). simpl in Ht.
    destruct a as [|[|a]]; simpl in Ht; try discriminate;
      injection Ht as <-; apply elem_of_empty in Hb; contradiction. }
  assert (Hno' : forall a b, ~ Dependent (symbolTables newService) a b).
  { intros a b (t & Ht & Hb). simpl in Ht.
    destruct a as [|[|a]]; simpl in Ht; try discriminate;
      injection Ht as <-; apply elem_of_empty in Hb; contradiction. }
  constructor; simpl.
  - lia.
  - intros uri table H. rewrite lookup_empty in H. discriminate.
  - intros uri uri' table H. rewrite lookup_empty in H. discriminate.
  - intros a b. split; intros H; exfalso; [eapply Hno | eapply Hno']; exact H.
  - intros a b H. exfalso. eapply Hno. exact H.
Qed.

Lemma rebuild_invariant service uri :
  Invariant service -> Invariant (rebuild service uri).
Proof.
  intros HI.
  destruct (rebuild_spec service uri HI) as (Hlen & Hdocs & Hdep & Hrev).
  pose proof (libraries_built _ HI) as Hlibs.
  assert (Hcur : forall x,
            Current service x -> ~ Was service uri x ->
            Current (rebuild service uri) x).
  { intros x [Hx | [u Hu]] Hw; [left; assumption|]. right. exists u.
    rewrite Hdocs, lookup_insert_ne; [assumption|]. intros ->. contradiction. }
  assert (Hnew : Current (rebuild service uri) (length (symbolTables service))).
  { right. exists uri. rewrite Hdocs. apply lookup_insert_eq. }
  constructor.
  - rewrite Hlen. lia.
  - intros u t. rewrite Hdocs, Hlen, lookup_insert_Some.
    intros [[_ <-] | [_ Hu]]; [lia|].
    apply (documents_built _ HI) in Hu. lia.
  - intros u u' t. rewrite Hdocs, !lookup_insert_Some.
    intros [[<- <-] | [Hne Hu]] [[<- Heq] | [Hne' Hu']]; try reflexivity.
    + apply (documents_built _ HI) in Hu'. lia.
    + apply (documents_built _ HI) in Hu. lia.
    + apply (documents_apart _ HI _ _ _ Hu Hu').
  - intros a b. rewrite Hdep, Hrev.
    pose proof (links_consistent _ HI a b) as Hab. tauto.
  - intros a b. rewrite Hdep.
    intros [(Hd & Ha & Hb) | [[-> Hb] | [-> (old & Ho & Hne & Hd)]]].
    + destruct (links_fresh _ HI _ _ Hd). split; apply Hcur; assumption.
    + split; [assumption|]. left.
      unfold standardLibrary, bodyLibrary in Hb. lia.
    + split; [|assumption]. destruct (links_fresh _ HI _ _ Hd) as [Ha _].
      apply Hcur; [assumption|]. unfold Was. rewrite Ho.
      intros [= <-]. contradiction.
Qed.

Lemma link_invariant service a b :
  Invariant service -> Current service a -> Current service b ->
  Invariant
    (mkService (linkDependency (symbolTables service) a b)
       (documentInfos service)).
Proof.
  intros HI Ha Hb.
  pose proof (Current_lt _ _ HI Ha) as Hla.
  pose proof (Current_lt _ _ HI Hb) as Hlb.
  constructor; unfold Consistent, Fresh, Current; simpl;
    rewrite ?length_linkDependency.
  - apply (libraries_built _ HI).
  - apply (documents_built _ HI).
  - apply (documents_apart _ HI).
  - intros x y. rewrite (Dependency_link _ _ _ _ _ Hla),
      (Dependent_link _ _ _ _ _ Hlb).
    pose proof (links_consistent _ HI x y). tauto.
  - intros x y. rewrite (Dependency_link _ _ _ _ _ Hla).
    intros [Hd | [-> ->]]; [apply (links_fresh _ HI _ _ Hd) | split; assumption].
Qed.

Lemma Later_refl service : Later service service.
Proof. split; [lia | auto]. Qed.

Lemma Later_trans s1 s2 s3 : Later s1 s2 -> Later s2 s3 -> Later s1 s3.
Proof.
  intros [Hl1 H1] [Hl2 H2]. split; [lia|].
  intros u t Hu. destruct (H2 _ _ Hu) as [Hu2 | Hge]; [|right; lia].
  apply H1. assumption.
Qed.

Lemma Grows_trans s1 s2 s3 : Grows s1 s2 -> Grows s2 s3 -> Grows s1 s3.
Proof.
  intros [H1 L1] [H2 L2]. split; [auto | eapply Later_trans; eassumption].
Qed.

Lemma Grows_Current s1 s2 table :
  Grows s1 s2 -> Current s1 table -> Current s2 table.
Proof. intros [H _] [Hl | [u Hu]]; [left; assumption | right; eauto]. Qed.

Lemma Later_not_Current s1 s2 table :
  Later s1 s2 -> table < length (symbolTables s1) ->
  ~ Current s1 table -> ~ Current s2 table.
Proof.
  intros [_ H] Hlt Hn [Hl | [u Hu]]; [apply Hn; left; assumption|].
  destruct (H _ _ Hu) as [Hu1 | Hge]; [|lia]. apply Hn. right. eauto.
Qed.

Lemma follow_invariant load new :
  (forall service uri service',
     Invariant service -> documentInfos service !! uri = None ->
     load service uri = Some service' ->
     Invariant service' /\ Grows service service') ->
  forall loads service service',
    Invariant service -> Current service new ->
    follow load new service loads = Some service' ->
    Invariant service' /\ Grows service service'.
Proof.
  intros Hload. induction loads as [|uri loads IH]; intros service service' HI Hnew.
  - simpl. intros [= <-]. split; [assumption|]. split; [auto | apply Later_refl].
  - simpl.
    assert (Hstep : forall mid table,
              Invariant mid -> Grows service mid ->
              documentInfos mid !! uri = Some table ->
              follow load new
                (mkService (linkDependency (symbolTables mid) new table)
                   (documentInfos mid)) loads = Some service' ->
              Invariant service' /\ Grows service service').
    { intros mid table HIm Hg Ht Hf.
      assert (Hnm : Current mid new) by (eapply Grows_Current; eassumption).
      assert (Htm : Current mid table) by (right; eauto).
      destruct (IH _ _ (link_invariant _ _ _ HIm Hnm Htm) Hnm Hf) as [HI' Hg'].
      split; [assumption|]. eapply Grows_trans; [exact Hg|].
      destruct Hg' as [Hg1 [Hg2 Hg3]]. simpl in *.
      rewrite length_linkDependency in *. split; [|split]; assumption. }
    destruct (documentInfos service !! uri) as [table|] eqn:Hu.
    + rewrite Hu. apply Hstep; [assumption| |assumption].
      split; [auto | apply Later_refl].
    + destruct (load service uri) as [mid|] eqn:Hl; [|discriminate].
      destruct (Hload _ _ _ HI Hu Hl) as [HIm Hg].
      destruct (documentInfos mid !! uri) as [table|] eqn:Ht; [|discriminate].
      apply Hstep; assumption.
Qed.

Section Validation.

Variable documentLoads : string -> list string.

Lemma loadDocument_invariant fuel : forall service uri loads service',
  Invariant service ->
  loadDocument documentLoads fuel service uri loads = Some service' ->
  Invariant service' /\ Replaces service uri service'.
Proof.
  induction fuel as [|fuel IH]; intros service uri loads service' HI;
    [discriminate|].
  simpl. intros Hf.
  destruct (rebuild_spec service uri HI) as (Hlen & Hdocs & _).
  assert (Hnew : Current (rebuild service uri) (length (symbolTables service))).
  { right. exists uri. rewrite Hdocs. apply lookup_insert_eq. }
  assert (Hload : forall s u s',
            Invariant s -> documentInfos s !! u = None ->
            (fun service uri =>
               loadDocument documentLoads fuel service uri (documentLoads uri))
              s u = Some s' ->
            Invariant s' /\ Grows s s').
  { intros s u s' HIs Hu Hl.
    destruct (IH _ _ _ _ HIs Hl) as (HI' & _ & Hkeep & Hlt & Hlater).
    split; [assumption|]. split; [|split; [lia|]].
    - intros u' t Hu'. apply Hkeep; [congruence | assumption].
    - intros u' t Hu'. destruct (Hlater _ _ Hu') as [[_ H]|H]; auto. }
  destruct (follow_invariant _ _ Hload loads _ _ (rebuild_invariant _ _ HI)
              Hnew Hf)
    as [HI' [Hkeep [Hle Hlater]]].
  split; [assumption|]. split; [|split; [|split]].
  - apply Hkeep. rewrite Hdocs. apply lookup_insert_eq.
  - intros u t Hne Hu. apply Hkeep. rewrite Hdocs, lookup_insert_ne; auto.
  - lia.
  - intros u t Hu. destruct (Hlater _ _ Hu) as [Hr | Hge]; [|right; lia].
    rewrite Hdocs in Hr. apply lookup_insert_Some in Hr as [[<- <-] | [Hne Hr]].
    + right. lia.
    + left. auto.
Qed.

Lemma Replaces_Later service uri service' :
  Replaces service uri service' -> Later service service'.
Proof.
  intros (_ & _ & Hlt & Hl). split; [lia|].
  intros u t Hu. destruct (Hl _ _ Hu) as [[_ H] | H]; auto.
Qed.

Lemma validateAll_invariant fuel edits : forall service service',
  Invariant service ->
  validateAll documentLoads fuel service edits = Some service' ->
  Invariant service' /\ Later service service'.
Proof.
  induction edits as [|[uri loads] edits IH]; intros service service' HI; simpl.
  - intros [= <-]. split; [assumption | apply Later_refl].
  - unfold validateDocument.
    destruct (loadDocument documentLoads fuel service uri loads) as [mid|] eqn:Hl;
      [|discriminate].
    intros Hv. destruct (loadDocument_invariant _ _ _ _ _ HI Hl) as [HIm Hr].
    destruct (IH _ _ HIm Hv) as [HI' Hlater]. split; [assumption|].
    eapply Later_trans; [eapply Replaces_Later; eassumption | assumption].
Qed.

End Validation.

(** A validation whose loads are all cached, or are the document itself,
    returns, with any fuel but none. *)
Lemma follow_cached load new loads : forall service,
  Forall (fun uri => is_Some (documentInfos service !! uri)) loads ->
  exists service', follow load new service loads = Some service'.
Proof.
  induction loads as [|uri loads IH]; intros service Hall; simpl; [eauto|].
  apply Forall_cons in Hall as [[table Ht] Hall].
  rewrite Ht. rewrite Ht. apply IH. exact Hall.
Qed.

Lemma validateDocument_returns documentLoads fuel service uri loads :
  Forall (fun load => load = uri \/ is_Some (documentInfos service !! load))
    loads ->
  exists service',
    validateDocument documentLoads (S fuel) service uri loads = Some service'.
Proof.
  intros Hall. unfold validateDocument. simpl. apply follow_cached.
  eapply Forall_impl; [exact Hall|]. intros load Hl. unfold rebuild. simpl.
  apply lookup_insert_is_Some. destruct (decide (uri = load)); [auto|].
  right. split; [assumption|]. destruct Hl as [->|Hl]; [congruence | assumption].
Qed.

(** A table that is not in use has no link, in either direction. *)
Lemma not_Current_Isolated service table :
  Invariant service -> ~ Current service table -> Isolated service table.
Proof.
  intros HI Hn other.
  assert (H1 : ~ Dependency (symbolTables service) table other).
  { intros Hd. apply Hn. apply (links_fresh _ HI _ _ Hd). }
  assert (H2 : ~ Dependency (symbolTables service) other table).
  { intros Hd. apply Hn. apply (links_fresh _ HI _ _ Hd). }
  split; [assumption|]. split; [assumption|].
  split; intros Hd; apply (links_consistent _ HI) in Hd; contradiction.
Qed.

(** The table a document had is no longer in use once the document is
    validated again. *)
Lemma Replaces_not_Current service uri old service' :
  Invariant service -> documentInfos service !! uri = Some old ->
  Replaces service uri service' -> ~ Current service' old.
Proof.
  intros HI Ho (Hnew & _ & _ & Hl) [Hlib | [u Hu]].
  - apply (documents_built _ HI) in Ho. lia.
  - destruct (Hl _ _ Hu) as [[Hne Hu'] | Hge].
    + apply Hne. apply (documents_apart _ HI _ _ _ Hu' Ho).
    + apply (documents_built _ HI) in Ho. lia.
Qed.

(** C8.  The coordinator starts in a state that meets the invariant.
    Every sequence of validations keeps it: the link sets stay mutually
    consistent, and every link joins two tables in use.  A validation of
    a document that had a table gives the document a table that did not
    exist before, and leaves the old table isolated, with no link from or
    to it in any table, then and after any further validations. *)
Theorem validation_keeps_links_consistent documentLoads fuel :
  Invariant newService /\
  (forall service edits service',
     Invariant service ->
     validateAll documentLoads fuel service edits = Some service' ->
     Invariant service' /\
     Consistent (symbolTables service') /\ Fresh service') /\
  (forall service uri loads old service',
     Invariant service ->
     getInfo service uri = Some old ->
     validateDocument documentLoads fuel service uri loads = Some service' ->
     getInfo service' uri = Some (length (symbolTables service)) /\
     symbolTables service !! length (symbolTables service) = None /\
     Isolated service' old /\
     forall edits service'',
       validateAll documentLoads fuel service' edits = Some service'' ->
       Isolated service'' old).
Proof.
  split; [apply Invariant_newService|]. split.
  - intros service edits service' HI Hv.
    destruct (validateAll_invariant _ _ _ _ _ HI Hv) as [HI' _].
    split; [assumption|].
    split; [apply (links_consistent _ HI') | apply (links_fresh _ HI')].
  - intros service uri loads old service' HI Ho Hv.
    unfold getInfo, validateDocument in *.
    destruct (loadDocument_invariant _ _ _ _ _ _ HI Hv) as [HI' Hr].
    pose proof (Replaces_not_Current _ _ _ _ HI Ho Hr) as Hn.
    split; [exact (proj1 Hr)|]. split; [apply lookup_ge_None_2; lia|].
    split; [apply not_Current_Isolated; assumption|].
    intros edits service'' Hv'.
    destruct (validateAll_invariant _ _ _ _ _ HI' Hv') as [HI'' Hlater].
    apply not_Current_Isolated; [assumption|].
    apply (Later_not_Current _ _ _ Hlater); [|assumption].
    apply (documents_built _ HI) in Ho. destruct Hr as (_ & _ & Hlt & _). lia.
Qed.

Lemma validation_keeps_links_consistent_witness :
  Invariant (afterEdits 4) /\ Isolated (afterEdits 4) (tableAfter 1 uri1).
Proof.
  destruct (validation_keeps_links_consistent exampleLoads 3)
    as (H0 & Hall & Hre).
  assert (H2 : Invariant (afterEdits 2)).
  { apply (Hall newService [(uri1, [uri2]); (uri2, [])] (afterEdits 2) H0).
    vm_compute. reflexivity. }
  split.
  - apply (Hall newService
             [(uri1, [uri2]); (uri2, []); (uri1, [uri2]); (uri2, [])]
             (afterEdits 4) H0).
    vm_compute. reflexivity.
  - destruct (Hre (afterEdits 2) uri1 [uri2] (tableAfter 1 uri1) (afterEdits 3) H2)
      as (_ & _ & _ & Hlater).
    + vm_compute. reflexivity.
    + vm_compute. reflexivity.
    + apply (Hlater [(uri2, [])] (afterEdits 4)). vm_compute. reflexivity.
Defined.

(** The test of the service: after the four validations the first table
    of either document has no dependency and no dependent, the last table
    of [example1.ks] has three dependencies and no dependent, and the
    last table of [example2.ks] has two dependencies and one dependent. *)
Lemma validate_multiple_with_updates :
  sizes (afterEdits 4) (tableAfter 1 uri1) = (0, 0) /\
  sizes (afterEdits 4) (tableAfter 2 uri2) = (0, 0) /\
  sizes (afterEdits 4) (tableAfter 3 uri1) = (3, 0) /\
  sizes (afterEdits 4) (tableAfter 4 uri2) = (2, 1) /\
  getInfo (afterEdits 4) uri1 = Some (tableAfter 3 uri1) /\
  getInfo (afterEdits 4) uri2 = Some (tableAfter 4 uri2) /\
  tableAfter 3 uri1 <> tableAfter 1 uri1 /\
  tableAfter 4 uri2 <> tableAfter 2 uri2.
Proof. vm_compute. repeat split; discriminate. Qed.

End CoordinatorFacts.

(** * Facts about positions and ranges *)

Module PositionFacts.
Import PositionUtils.

#[local] Ltac cmp :=
  repeat match goal with
    | |- context [(?a <? ?b)%nat] => destruct (Nat.ltb_spec a b)
    | |- context [(?a =? ?b)%nat] => destruct (Nat.eqb_spec a b)
    | H : context [(?a <? ?b)%nat] |- _ => destruct (Nat.ltb_spec a b)
    | H : context [(?a =? ?b)%nat] |- _ => destruct (Nat.eqb_spec a b)
    end;
  simpl in *.

Lemma positionBefore_Precedes pos1 pos2 :
  positionBefore pos1 pos2 = true <-> Precedes pos1 pos2.
Proof. unfold positionBefore, Precedes. cmp; split; intros; try lia; try discriminate; reflexivity. Qed.

Lemma positionAfter_Precedes pos1 pos2 :
  positionAfter pos1 pos2 = true <-> Precedes pos2 pos1.
Proof. unfold positionAfter, Precedes. cmp; split; intros; try lia; try discriminate; reflexivity. Qed.

Lemma positionEqual_eq (pos1 pos2 : Position) :
  positionEqual pos1 pos2 = true <-> pos1 = pos2.
Proof.
  unfold positionEqual. destruct pos1, pos2. cmp; split; intros H;
    try discriminate; try reflexivity; try (injection H; intros; lia).
  subst. reflexivity.
Qed.

Lemma rangeBefore_Precedes range pos :
  rangeBefore range pos = true <-> Precedes (rangeEnd range) pos.
Proof. unfold rangeBefore, Precedes. cmp; split; intros; try lia; try discriminate; reflexivity. Qed.

Lemma rangeAfter_Precedes range pos :
  rangeAfter range pos = true <-> Precedes pos (rangeStart range).
Proof. unfold rangeAfter, Precedes. cmp; split; intros; try lia; try discriminate; reflexivity. Qed.

Lemma rangeContains_Precedes range pos :
  rangeContains range pos = true <->
  ~ Precedes pos (rangeStart range) /\ ~ Precedes (rangeEnd range) pos.
Proof.
  unfold rangeContains, Precedes.
  cmp; split; intros; try lia; try discriminate; reflexivity.
Qed.

Lemma not_true_false (b : bool) : b <> true <-> b = false.
Proof. destruct b; split; congruence. Qed.

Lemma Precedes_total (pos1 pos2 : Position) :
  Precedes pos1 pos2 \/ pos1 = pos2 \/ Precedes pos2 pos1.
Proof.
  unfold Precedes. destruct pos1 as [l1 c1], pos2 as [l2 c2]. simpl.
  destruct (lt_eq_lt_dec l1 l2) as [[?|?]|?]; [lia| |lia].
  destruct (lt_eq_lt_dec c1 c2) as [[?|?]|?]; [lia| |lia].
  right. left. subst. reflexivity.
Qed.

(** X1.  The positions are totally ordered, by line and then by
    character: [positionBefore] is the strict order, irreflexive and
    transitive, [positionAfter] is its converse, [positionEqual] holds of
    equal positions only, of two positions exactly one is before, equal
    to or after the other, and [positionBeforeEqual] and
    [positionAfterEqual] are the negations of [positionAfter] and
    [positionBefore]. *)
Theorem position_order (pos1 pos2 pos3 : Position) :
  (positionBefore pos1 pos2 = true <-> Precedes pos1 pos2) /\
  positionAfter pos1 pos2 = positionBefore pos2 pos1 /\
  (positionEqual pos1 pos2 = true <-> pos1 = pos2) /\
  positionBefore pos1 pos1 = false /\
  (positionBefore pos1 pos2 = true -> positionBefore pos2 pos3 = true ->
   positionBefore pos1 pos3 = true) /\
  (positionBefore pos1 pos2 = true /\ positionEqual pos1 pos2 = false /\
     positionAfter pos1 pos2 = false \/
   positionBefore pos1 pos2 = false /\ positionEqual pos1 pos2 = true /\
     positionAfter pos1 pos2 = false \/
   positionBefore pos1 pos2 = false /\ positionEqual pos1 pos2 = false /\
     positionAfter pos1 pos2 = true) /\
  positionBeforeEqual pos1 pos2 = negb (positionAfter pos1 pos2) /\
  positionAfterEqual pos1 pos2 = negb (positionBefore pos1 pos2).
Proof.
  split; [apply positionBefore_Precedes|].
  split; [unfold positionAfter, positionBefore; cmp; reflexivity || lia|].
  split; [apply positionEqual_eq|].
  split; [unfold positionBefore; cmp; reflexivity || lia|].
  split.
  { rewrite !positionBefore_Precedes. unfold Precedes. lia. }
  split.
  { unfold positionBefore, positionEqual, positionAfter. cmp; tauto || lia. }
  unfold positionBeforeEqual, positionAfterEqual, positionBefore,
    positionEqual, positionAfter.
  split; cmp; reflexivity || lia.
Qed.

(** X2.  A range and a position: the range contains the position exactly
    when it is neither before nor after it, which is when the position is
    not before the start and not after the end.  A range that does not
    end before it starts is not both before and after a position, so of
    the three tests exactly one holds. *)
Theorem range_tests_partition (range : Range) (pos : Position) :
  rangeContains range pos
    = negb (rangeBefore range pos) && negb (rangeAfter range pos) /\
  rangeBefore range pos = positionBefore (rangeEnd range) pos /\
  rangeAfter range pos = positionBefore pos (rangeStart range) /\
  (rangeContains range pos = true <->
   positionBeforeEqual (rangeStart range) pos = true /\
   positionBeforeEqual pos (rangeEnd range) = true) /\
  (WellFormed range ->
   rangeBefore range pos = true -> rangeAfter range pos = false).
Proof.
  split.
  { unfold rangeContains, rangeBefore, rangeAfter. cmp; reflexivity || lia. }
  split; [unfold rangeBefore, positionBefore; cmp; reflexivity || lia|].
  split; [unfold rangeAfter, positionBefore; cmp; reflexivity || lia|].
  split.
  { unfold rangeContains, positionBeforeEqual, positionBefore, positionEqual.
    cmp; split; intros; try lia; try discriminate; try tauto;
      try (destruct_and?; discriminate). }
  intros Hwf Hb. apply not_true_false. intros Ha.
  apply rangeBefore_Precedes in Hb. apply rangeAfter_Precedes in Ha.
  apply Hwf. unfold Precedes in *. lia.
Qed.

Lemma range_tests_partition_witness :
  rangeBefore (span 0 4 0 6) (mkMarker 0 7) = true /\
  rangeAfter (span 0 4 0 6) (mkMarker 0 7) = false.
Proof.
  split; [reflexivity|].
  apply (range_tests_partition (span 0 4 0 6) (mkMarker 0 7)).
  - unfold WellFormed, Precedes. simpl. lia.
  - reflexivity.
Defined.

(** X3.  [rangeIntersection] answers false exactly when the first range
    starts after the end of the second: its second test, of the second
    range against its own end, never holds.  So it answers true for any
    two ranges that share a position, and it also answers true when the
    first range ends before the second starts. *)
Theorem rangeIntersection_one_sided (range1 range2 : Range) :
  rangeIntersection range1 range2
    = negb (rangeAfter range1 (rangeEnd range2)) /\
  (forall pos,
     rangeContains range1 pos = true -> rangeContains range2 pos = true ->
     rangeIntersection range1 range2 = true) /\
  (WellFormed range1 -> WellFormed range2 ->
   rangeBefore range1 (rangeStart range2) = true ->
   rangeIntersection range1 range2 = true /\
   forall pos,
     rangeContains range1 pos = true -> rangeContains range2 pos = false).
Proof.
  assert (Hself : rangeBefore range2 (rangeEnd range2) = false).
  { unfold rangeBefore. cmp; reflexivity || lia. }
  assert (Heq : rangeIntersection range1 range2
                = negb (rangeAfter range1 (rangeEnd range2))).
  { unfold rangeIntersection. rewrite Hself.
    destruct (rangeAfter range1 (rangeEnd range2)); reflexivity. }
  split; [exact Heq|]. split.
  - intros pos H1 H2. rewrite Heq. apply negb_true_iff, not_true_false.
    rewrite rangeAfter_Precedes.
    apply rangeContains_Precedes in H1. apply rangeContains_Precedes in H2.
    unfold Precedes in *. lia.
  - intros Hw1 Hw2 Hb. apply rangeBefore_Precedes in Hb. split.
    + rewrite Heq. apply negb_true_iff, not_true_false.
      rewrite rangeAfter_Precedes. unfold WellFormed, Precedes in *. lia.
    + intros pos H1. apply not_true_false. intros H2.
      apply rangeContains_Precedes in H1. apply rangeContains_Precedes in H2.
      unfold WellFormed, Precedes in *. lia.
Qed.

Lemma rangeIntersection_one_sided_witness :
  rangeIntersection (span 0 0 0 3) (span 0 9 0 12) = true /\
  rangeContains (span 0 0 0 3) (mkMarker 0 2) = true /\
  rangeContains (span 0 9 0 12) (mkMarker 0 2) = false.
Proof.
  destruct (rangeIntersection_one_sided (span 0 0 0 3) (span 0 9 0 12))
    as (_ & _ & H).
  destruct H as [Hi Hn].
  - unfold WellFormed, Precedes. simpl. lia.
  - unfold WellFormed, Precedes. simpl. lia.
  - reflexivity.
  - split; [exact Hi|]. split; [reflexivity|]. apply Hn. reflexivity.
Defined.

(** ** The binary searches *)

Section SearchFacts.

Context {T : Type}.
Variable key : T -> Range.
Variable ranges : list T.
Variable pos : Position.

Lemma at_Some_iff i r :
  at_ ranges i = Some r <->
  (0 <= i < Z.of_nat (length ranges))%Z /\ ranges !! Z.to_nat i = Some r.
Proof.
  unfold at_. destruct (decide (0 <= i)%Z) as [Hi|Hi].
  - split.
    + intros H. pose proof (lookup_lt_Some _ _ _ H). split; [lia | assumption].
    + intros [_ H]. exact H.
  - split; [discriminate | lia].
Qed.

Lemma at_is_Some i :
  (0 <= i < Z.of_nat (length ranges))%Z -> exists r, at_ ranges i = Some r.
Proof.
  intros Hi. destruct (lookup_lt_is_Some_2 ranges (Z.to_nat i)) as [r Hr]; [lia|].
  exists r. apply at_Some_iff. auto.
Qed.

Lemma at_nat i : at_ ranges (Z.of_nat i) = ranges !! i.
Proof.
  unfold at_. rewrite decide_True by lia. rewrite Nat2Z.id. reflexivity.
Qed.

Abbreviation Probed := (Probed key ranges pos).
Abbreviation Answer := (Answer key ranges pos).

Lemma searchLoop_Answer fuel : forall l r,
  (0 <= l)%Z -> (r < Z.of_nat (length ranges))%Z -> (l <= r + 1)%Z ->
  Z.to_nat (r - l + 1) < fuel -> Probed l r ->
  exists idx, searchLoop key fuel ranges pos l r = Done idx /\ Answer idx.
Proof.
  induction fuel as [|fuel IH]; intros l r Hl Hr Hlr Hfuel [Hpl Hpr]; [lia|].
  simpl. destruct (Z.leb_spec l r) as [Hle|Hgt].
  - set (mid := ((r + l) / 2)%Z).
    assert (Hmid : (l <= mid <= r)%Z).
    { unfold mid. split.
      - apply Z.div_le_lower_bound; lia.
      - apply Z.div_le_upper_bound; lia. }
    destruct (at_is_Some mid) as [x Hx]; [lia|]. rewrite Hx.
    destruct (rangeBefore (key x) pos) eqn:Hb.
    + apply IH; try lia. split; [|exact Hpr].
      intros y Hy. replace (mid + 1 - 1)%Z with mid in Hy by lia. congruence.
    + destruct (rangeAfter (key x) pos) eqn:Ha.
      * apply IH; try lia. split; [exact Hpl|].
        intros y Hy. replace (mid - 1 + 1)%Z with mid in Hy by lia. congruence.
      * assert (Hc : rangeContains (key x) pos = true).
        { apply rangeContains_Precedes.
          split; intros H; [apply rangeAfter_Precedes in H
                           | apply rangeBefore_Precedes in H]; congruence. }
        rewrite Hc. eexists. split; [reflexivity|]. exists x. auto.
  - eexists. split; [reflexivity|]. simpl.
    split; [lia|]. split; [lia|]. split; assumption.
Qed.

Lemma binarySearchKeyIndex_Answer :
  exists idx, binarySearchKeyIndex key ranges pos = Done idx /\ Answer idx.
Proof.
  unfold binarySearchKeyIndex. apply searchLoop_Answer; try lia.
  split; intros x Hx; apply at_Some_iff in Hx; lia.
Qed.

(** ** Ordered arrays *)

Hypothesis ordered : Ordered key ranges.

Lemma positionBeforeEqual_Precedes pos1 pos2 :
  positionBeforeEqual pos1 pos2 = true <-> ~ Precedes pos2 pos1.
Proof.
  unfold positionBeforeEqual, positionBefore, positionEqual, Precedes.
  cmp; split; intros; try lia; try discriminate; reflexivity.
Qed.

Lemma Ordered_WellFormed i r : ranges !! i = Some r -> WellFormed (key r).
Proof.
  intros Hr. destruct ordered as [Hwf _].
  apply (positionBeforeEqual_Precedes _ _). eapply Hwf. exact Hr.
Qed.

Lemma Ordered_apart i j r r' :
  i < j -> ranges !! i = Some r -> ranges !! j = Some r' ->
  Precedes (rangeEnd (key r)) (rangeStart (key r')).
Proof.
  intros Hij Hi Hj. destruct ordered as [_ Hord].
  apply positionBefore_Precedes. eapply Hord; eassumption.
Qed.

Lemma Ordered_before i j r r' :
  i <= j -> ranges !! i = Some r -> ranges !! j = Some r' ->
  rangeBefore (key r') pos = true -> rangeBefore (key r) pos = true.
Proof.
  intros Hij Hi Hj Hb. destruct (decide (i = j)) as [->|Hne]; [congruence|].
  pose proof (Ordered_apart i j r r' ltac:(lia) Hi Hj) as Hap.
  pose proof (Ordered_WellFormed _ _ Hj) as Hwf.
  apply rangeBefore_Precedes in Hb. apply rangeBefore_Precedes.
  unfold WellFormed, Precedes in *. lia.
Qed.

Lemma Ordered_after i j r r' :
  i <= j -> ranges !! i = Some r -> ranges !! j = Some r' ->
  rangeAfter (key r) pos = true -> rangeAfter (key r') pos = true.
Proof.
  intros Hij Hi Hj Ha. destruct (decide (i = j)) as [->|Hne]; [congruence|].
  pose proof (Ordered_apart i j r r' ltac:(lia) Hi Hj) as Hap.
  pose proof (Ordered_WellFormed _ _ Hi) as Hwf.
  apply rangeAfter_Precedes in Ha. apply rangeAfter_Precedes.
  unfold WellFormed, Precedes in *. lia.
Qed.

Lemma contains_not_before r :
  rangeContains (key r) pos = true -> rangeBefore (key r) pos = false.
Proof.
  intros Hc. apply not_true_false. intros Hb.
  apply rangeContains_Precedes in Hc. apply rangeBefore_Precedes in Hb. tauto.
Qed.

Lemma contains_not_after r :
  rangeContains (key r) pos = true -> rangeAfter (key r) pos = false.
Proof.
  intros Hc. apply not_true_false. intros Ha.
  apply rangeContains_Precedes in Hc. apply rangeAfter_Precedes in Ha. tauto.
Qed.

(** In an ordered array at most one element contains the position. *)
Lemma Ordered_contains_unique i j r r' :
  ranges !! i = Some r -> ranges !! j = Some r' ->
  rangeContains (key r) pos = true -> rangeContains (key r') pos = true ->
  i = j.
Proof.
  intros Hi Hj Hc Hc'.
  apply rangeContains_Precedes in Hc. apply rangeContains_Precedes in Hc'.
  destruct (lt_eq_lt_dec i j) as [[Hlt| ->]|Hlt]; [|reflexivity|].
  - pose proof (Ordered_apart _ _ _ _ Hlt Hi Hj). unfold Precedes in *. lia.
  - pose proof (Ordered_apart _ _ _ _ Hlt Hj Hi). unfold Precedes in *. lia.
Qed.

(** Between two bounds the search has probed, no element contains the
    position. *)
Lemma Between_none l r i x :
  l = (r + 1)%Z -> (0 <= l <= Z.of_nat (length ranges))%Z ->
  Probed l r -> ranges !! i = Some x ->
  rangeContains (key x) pos = false.
Proof.
  intros -> Hl [Hpl Hpr] Hx. apply not_true_false. intros Hc.
  pose proof (lookup_lt_Some _ _ _ Hx) as Hlt.
  destruct (Z_le_gt_dec (Z.of_nat i) r) as [Hle|Hgt].
  - destruct (at_is_Some r) as [y Hy]; [lia|].
    assert (Hb : rangeBefore (key y) pos = true).
    { apply Hpl. replace (r + 1 - 1)%Z with r by lia. exact Hy. }
    apply at_Some_iff in Hy as [_ Hy].
    pose proof (Ordered_before i (Z.to_nat r) x y ltac:(lia) Hx Hy Hb).
    pose proof (contains_not_before _ Hc). congruence.
  - destruct (at_is_Some (r + 1)) as [y Hy]; [lia|].
    pose proof (Hpr _ Hy) as Ha.
    apply at_Some_iff in Hy as [_ Hy].
    pose proof (Ordered_after (Z.to_nat (r + 1)) i y x ltac:(lia) Hy Hx Ha).
    pose proof (contains_not_after _ Hc). congruence.
Qed.

End SearchFacts.

(** X4.  [binarySearchKeyIndex] (and [binarySearchIndex], its instance on
    ranges) returns on every array and position, ordered or not: its
    loop ends within one turn more than the array has elements and reads
    no element outside of the array.  An index it returns is the index of
    an element that contains the position.  A pair it returns is
    [[left, right]] with [left = right + 1]: the element at [right], if
    any, is before the position and the element at [left], if any, is
    after it. *)
Theorem binarySearchKeyIndex_returns {T} (key : T -> Range) ranges pos :
  exists idx,
    binarySearchKeyIndex key ranges pos = Done idx /\
    match idx with
    | At i =>
        exists r, at_ ranges i = Some r /\ rangeContains (key r) pos = true
    | Between l r =>
        l = (r + 1)%Z /\ (0 <= l <= Z.of_nat (length ranges))%Z /\
        (forall x, at_ ranges r = Some x -> rangeBefore (key x) pos = true) /\
        (forall x, at_ ranges l = Some x -> rangeAfter (key x) pos = true)
    end.
Proof.
  destruct (binarySearchKeyIndex_Answer key ranges pos) as (idx & Hi & Ha).
  exists idx. split; [exact Hi|].
  destruct idx as [i|l r]; [exact Ha|].
  destruct Ha as (-> & Hl & Hpl & Hpr).
  split; [reflexivity|]. split; [exact Hl|]. split.
  - intros x Hx. apply Hpl. replace (r + 1 - 1)%Z with r by lia. exact Hx.
  - exact Hpr.
Qed.

(** X5.  On an ordered array [binarySearch] returns the element that
    contains the position, and returns [undefined] only if no element
    does. *)
Theorem binarySearch_finds {T} (key : T -> Range) ranges pos :
  Ordered key ranges ->
  exists found,
    binarySearch key ranges pos = Done found /\
    forall r,
      found = Some r <->
      exists i, ranges !! i = Some r /\ rangeContains (key r) pos = true.
Proof.
  intros Hord. unfold binarySearch.
  destruct (binarySearchKeyIndex_Answer key ranges pos) as (idx & -> & Ha).
  destruct idx as [i|l r]; simpl.
  - destruct Ha as (x & Hx & Hc). rewrite Hx. eexists. split; [reflexivity|].
    apply at_Some_iff in Hx as [_ Hx].
    intros y. split.
    + intros [= <-]. eauto.
    + intros (j & Hj & Hcj).
      rewrite (Ordered_contains_unique key ranges pos Hord _ _ _ _ Hj Hx Hcj Hc)
        in Hj. congruence.
  - destruct Ha as (Hlr & Hl & Hp). eexists. split; [reflexivity|].
    intros y. split; [discriminate|]. intros (j & Hj & Hcj).
    pose proof (Between_none key ranges pos Hord l r j y Hlr Hl Hp Hj).
    congruence.
Qed.

Lemma binarySearch_finds_witness :
  exists found,
    binarySearch (fun r => r) threeRanges (mkMarker 0 5) = Done found /\
    forall r,
      found = Some r <->
      exists i, threeRanges !! i = Some r /\
                rangeContains r (mkMarker 0 5) = true.
Proof.
  apply (binarySearch_finds (fun r => r) threeRanges (mkMarker 0 5)).
  split.
  - intros [|[|[|i]]] r; simpl; intros [= <-]; reflexivity.
  - intros [|[|[|i]]] [|[|[|j]]] r r' Hij; simpl; intros [= <-] [= <-];
      reflexivity || lia.
Defined.

(** X6.  On an ordered array [binaryRightKey] returns the last element
    that does not start after the position: the element that contains the
    position, or else the nearest one before it.  It returns [undefined]
    exactly when there is no such element, as on the empty array. *)
Theorem binaryRightKey_nearest {T} (key : T -> Range) ranges pos :
  Ordered key ranges ->
  exists found,
    binaryRightKey key ranges pos = Done found /\
    match found with
    | Some r =>
        exists i,
          ranges !! i = Some r /\ rangeAfter (key r) pos = false /\
          forall j r', i < j -> ranges !! j = Some r' ->
                       rangeAfter (key r') pos = true
    | None => forall i r, ranges !! i = Some r -> rangeAfter (key r) pos = true
    end.
Proof.
  intros Hord. unfold binaryRightKey.
  destruct (Nat.eqb_spec (length ranges) 0) as [Hlen|Hlen].
  { eexists. split; [reflexivity|]. intros i r H.
    apply lookup_lt_Some in H. lia. }
  destruct (at_is_Some ranges 0) as [first Hat0]; [lia|].
  rewrite Hat0.
  assert (Hfirst : ranges !! 0 = Some first).
  { apply at_Some_iff in Hat0 as [_ H]. exact H. }
  destruct (rangeAfter (key first) pos) eqn:Ha.
  { eexists. split; [reflexivity|]. intros i r Hr.
    apply (Ordered_after key ranges pos Hord 0 i first r); [lia|auto..]. }
  destruct (binarySearchKeyIndex_Answer key ranges pos) as (idx & -> & Hans).
  destruct idx as [i|l r]; simpl.
  - destruct Hans as (x & Hx & Hc). rewrite Hx. eexists. split; [reflexivity|].
    apply at_Some_iff in Hx as [Hi Hx]. exists (Z.to_nat i).
    split; [exact Hx|]. split; [apply contains_not_after; exact Hc|].
    intros j r' Hij Hj.
    pose proof (Ordered_apart key ranges Hord _ _ _ _ Hij Hx Hj) as Hap.
    apply rangeContains_Precedes in Hc. apply rangeAfter_Precedes.
    unfold Precedes in *. lia.
  - destruct Hans as (-> & Hl & Hpl & Hpr).
    assert (Hr0 : (0 <= r)%Z).
    { destruct (Z_lt_ge_dec r 0) as [Hneg|]; [|lia].
      assert (r = (-1)%Z) as -> by lia.
      pose proof (Hpr first Hat0). congruence. }
    destruct (at_is_Some ranges r) as [x Hx]; [lia|]. rewrite Hx.
    eexists. split; [reflexivity|].
    assert (Hb : rangeBefore (key x) pos = true).
    { apply Hpl. replace (r + 1 - 1)%Z with r by lia. exact Hx. }
    apply at_Some_iff in Hx as [Hi Hx]. exists (Z.to_nat r).
    split; [exact Hx|]. split.
    + apply not_true_false. intros Hax.
      pose proof (Ordered_WellFormed key ranges Hord _ _ Hx) as Hwf.
      apply rangeBefore_Precedes in Hb. apply rangeAfter_Precedes in Hax.
      unfold WellFormed, Precedes in *. lia.
    + intros j r' Hij Hj.
      pose proof (lookup_lt_Some _ _ _ Hj) as Hlt.
      destruct (at_is_Some ranges (r + 1)) as [y Hy]; [lia|].
      pose proof (Hpr _ Hy) as Hay. apply at_Some_iff in Hy as [_ Hy].
      apply (Ordered_after key ranges pos Hord (Z.to_nat (r + 1)) j y r');
        [lia|auto..].
Qed.

Lemma binaryRightKey_nearest_witness :
  exists found,
    binaryRightKey (fun r => r) threeRanges (mkMarker 0 7) = Done found /\
    found = Some (span 0 4 0 6).
Proof.
  destruct (binaryRightKey_nearest (fun r => r) threeRanges (mkMarker 0 7))
    as (found & Hf & _).
  - split.
    + intros [|[|[|i]]] r; simpl; intros [= <-]; reflexivity.
    + intros [|[|[|i]]] [|[|[|j]]] r r' Hij; simpl; intros [= <-] [= <-];
        reflexivity || lia.
  - exists found. split; [exact Hf|].
    vm_compute in Hf. injection Hf as <-. reflexivity.
Defined.

(** X7.  [binaryRight] and [binaryLeft] at the edges.  [binaryRight]
    reads the first element before it looks at the length, so on the
    empty array it throws a [TypeError]; on any other array it returns
    what [binaryRightKey] returns.  [binaryLeft] returns [undefined] on
    the empty array; its guard reads the element at index
    [rangeAfter.length - 1], which is 1, so on an array of one element it
    throws a [TypeError], and on a longer array it returns [undefined]
    whenever the second element is before the position, whatever
    follows.  A range it does return contains the position or is after
    it. *)
Theorem binaryRight_binaryLeft_edges {T} (key : T -> Range) :
  (forall pos, exists msg, binaryRight key [] pos = Raised msg) /\
  (forall ranges pos,
     ranges <> [] -> binaryRight key ranges pos = binaryRightKey key ranges pos) /\
  (forall pos, binaryLeft key [] pos = Done None) /\
  (forall r pos, exists msg, binaryLeft key [r] pos = Raised msg) /\
  (forall first second rest pos,
     rangeBefore (key second) pos = true ->
     binaryLeft key (first :: second :: rest) pos = Done None) /\
  (forall ranges pos r,
     binaryLeft key ranges pos = Done (Some r) ->
     r ∈ ranges /\
     (rangeContains (key r) pos = true \/ rangeAfter (key r) pos = true)).
Proof.
  split; [intros pos; eexists; reflexivity|].
  split.
  { intros [|first rest] pos Hne; [congruence|]. reflexivity. }
  split; [reflexivity|].
  split; [intros r pos; eexists; reflexivity|].
  split.
  { intros first second rest pos Hb. unfold binaryLeft. simpl.
    change (at_ (first :: second :: rest) (rangeAfter_length - 1))
      with (Some second).
    rewrite Hb. reflexivity. }
  intros ranges pos r. unfold binaryLeft.
  destruct (length ranges =? 0)%nat; [discriminate|].
  destruct (at_ ranges (rangeAfter_length - 1)) as [second|]; [|discriminate].
  destruct (rangeBefore (key second) pos); [discriminate|].
  destruct (binarySearchKeyIndex_Answer key ranges pos) as (idx & -> & Hans).
  destruct idx as [i|l rr]; simpl.
  - destruct Hans as (x & Hx & Hc). rewrite Hx. intros [= <-].
    apply at_Some_iff in Hx as [_ Hx].
    split; [eapply list_elem_of_lookup_2; exact Hx | left; exact Hc].
  - destruct Hans as (Hlr & _ & _ & Hpr). intros [= Hl].
    pose proof Hl as Hl'. apply at_Some_iff in Hl' as [_ Hl'].
    split; [eapply list_elem_of_lookup_2; exact Hl'|].
    right. apply Hpr. rewrite <- Hlr. exact Hl.
Qed.


Lemma binaryRight_binaryLeft_edges_witness :
  rangeBefore (span 0 4 0 6) (mkMarker 0 10) = true /\
  rangeContains (span 0 9 0 12) (mkMarker 0 10) = true /\
  binaryLeft (fun r => r) threeRanges (mkMarker 0 10) = Done None.
Proof.
  split; [reflexivity|]. split; [reflexivity|].
  apply (binaryRight_binaryLeft_edges (fun r : Range => r)). reflexivity.
Defined.

End PositionFacts.

(** * More facts about the type engine *)

Module TypeEngineMore.
Import TypeEngine TypeEngineFacts.

(** ** Super types *)

(** X8.  A super type is set at most once.  After [addSuper] has
    returned, the type has the super type it was given and is a subtype
    of it, every other type of the store is as it was, and any further
    [addSuper] on the type throws. *)
Theorem addSuper_once store this type store' :
  GenericType.addSuper store this type = Returned store' ->
  GenericType.getSuperType store' this = Returned (Some type) /\
  (forall fuel,
     GenericType.isSubtype (S (S fuel)) store' this type = Returned true) /\
  (forall type', exists msg,
     GenericType.addSuper store' this type' = Thrown msg) /\
  (forall other, other <> this -> store' !! other = store !! other) /\
  length store' = length store.
Proof.
  unfold GenericType.addSuper.
  destruct (store !! this) as [self|] eqn:Hs; [|discriminate].
  destruct (GenericType.superType self) eqn:Hsup; [discriminate|].
  intros [= <-].
  assert (Hlt : this < length store) by (eapply lookup_lt_Some; eassumption).
  assert (Hl : forall x : GenericType.t, <[this := x]> store !! this = Some x).
  { intros x. apply list_lookup_insert_eq. exact Hlt. }
  split; [unfold GenericType.getSuperType; rewrite Hl; reflexivity|].
  split.
  { intros fuel. cbn [GenericType.isSubtype].
    destruct (decide (type = this)); [reflexivity|].
    rewrite Hl. simpl. rewrite decide_True; reflexivity. }
  split.
  { intros type'. unfold GenericType.addSuper. rewrite Hl. simpl. eauto. }
  split.
  { intros other Hne. apply list_lookup_insert_ne. congruence. }
  apply length_insert.
Qed.

Lemma addSuper_once_witness :
  exists store',
    GenericType.addSuper (map GenericType.create ["structure"; "scalar"])
      1 0 = Returned store' /\
    GenericType.getSuperType store' 1 = Returned (Some 0).
Proof.
  eexists. split; [reflexivity|].
  apply (addSuper_once (map GenericType.create ["structure"; "scalar"]) 1 0).
  reflexivity.
Defined.

(** X9.  [addSuper] does not look for cycles: a type without a super
    type can be given itself as super type.  From then on [isSubtype] on
    that type with any other type does not return, whatever the depth it
    is given; the same holds of [canCoerce], and of [getSuffix] for a
    name the type has no suffix of. *)
Theorem addSuper_self_never_returns store this self :
  store !! this = Some self -> GenericType.superType self = None ->
  exists store',
    GenericType.addSuper store this this = Returned store' /\
    forall fuel type,
      type <> this ->
      GenericType.isSubtype fuel store' this type = Unfinished /\
      (type ∉ GenericType.coercibleTypes self ->
       GenericType.canCoerce fuel store' this type = Unfinished) /\
      (forall nm,
         GenericType.get (GenericType.suffixes self) nm = None ->
         GenericType.getSuffix fuel store' this nm = Unfinished).
Proof.
  intros Hs Hsup. unfold GenericType.addSuper. rewrite Hs, Hsup.
  eexists. split; [reflexivity|].
  assert (Hlt : this < length store) by (eapply lookup_lt_Some; eassumption).
  assert (Hl : forall x : GenericType.t, <[this := x]> store !! this = Some x).
  { intros x. apply list_lookup_insert_eq. exact Hlt. }
  intros fuel type Hne. split; [|split].
  - induction fuel as [|fuel IH]; [reflexivity|].
    cbn [GenericType.isSubtype]. rewrite decide_False by exact Hne.
    rewrite Hl. simpl. exact IH.
  - intros Hnin. induction fuel as [|fuel IH]; [reflexivity|].
    cbn [GenericType.canCoerce]. rewrite decide_False by exact Hne.
    rewrite Hl. simpl. rewrite bool_decide_eq_false_2 by exact Hnin. exact IH.
  - intros nm Hnm. induction fuel as [|fuel IH]; [reflexivity|].
    cbn [GenericType.getSuffix]. rewrite Hl. simpl. rewrite Hnm. exact IH.
Qed.

Lemma addSuper_self_never_returns_witness :
  exists store',
    GenericType.addSuper (map GenericType.create ["structure"; "scalar"])
      1 1 = Returned store' /\
    GenericType.isSubtype 1000 store' 1 0 = Unfinished.
Proof.
  destruct (addSuper_self_never_returns
              (map GenericType.create ["structure"; "scalar"]) 1
              (GenericType.create "scalar") eq_refl eq_refl)
    as (store' & Hadd & Hloop).
  exists store'. split; [exact Hadd|].
  apply (Hloop 1000 0). discriminate.
Defined.

(** The chain of super types above a type has one length. *)
Lemma Height_unique store this n m :
  Height store this n -> Height store this m -> n = m.
Proof.
  intros Hn. revert m.
  induction Hn as [this self Hs Hsup | this self super n Hs Hsup _ IH];
    intros m Hm; inversion Hm; subst; try congruence.
  f_equal. apply IH. congruence.
Qed.

Lemma isSubtype_Height store fuel : forall this type n,
  GenericType.isSubtype fuel store this type = Returned true ->
  Height store this n ->
  type = this \/ exists m, Height store type m /\ m < n.
Proof.
  induction fuel as [|fuel IH]; intros this type n; [discriminate|].
  cbn [GenericType.isSubtype].
  destruct (decide (type = this)) as [->|Hne]; [auto|].
  destruct (store !! this) as [self|] eqn:Hs; [|discriminate].
  destruct (GenericType.superType self) as [super|] eqn:Hsup; [|discriminate].
  intros Hsub Hh. right.
  inversion Hh; subst; try congruence.
  assert (super0 = super) by congruence. subst super0.
  match goal with H : Height store super _ |- _ => rename H into Hsuper end.
  destruct (IH _ _ _ Hsub Hsuper) as [-> | (m & Hm & Hlt)].
  - eexists. split; [exact Hsuper | lia].
  - exists m. split; [exact Hm | lia].
Qed.

(** X10.  On a store in which the chain of super types above a type
    ends, [isSubtype] is antisymmetric at that type: two types each a
    subtype of the other are the same type.  With reflexivity and
    transitivity, [isSubtype] is a partial order there. *)
Theorem isSubtype_antisymmetric store fuel fuel' this type n :
  Height store this n ->
  GenericType.isSubtype fuel store this type = Returned true ->
  GenericType.isSubtype fuel' store type this = Returned true ->
  this = type.
Proof.
  intros Hh H1 H2.
  destruct (isSubtype_Height _ _ _ _ _ H1 Hh) as [-> | (m & Hm & Hlt)];
    [reflexivity|].
  destruct (isSubtype_Height _ _ _ _ _ H2 Hm) as [-> | (k & Hk & Hlt')];
    [reflexivity|].
  pose proof (Height_unique _ _ _ _ Hh Hk). lia.
Qed.

Lemma isSubtype_antisymmetric_witness :
  GenericType.isSubtype 1 sampleTypes scalarType scalarType = Returned true /\
  scalarType = scalarType.
Proof.
  split; [reflexivity|].
  apply (isSubtype_antisymmetric sampleTypes 1 1 scalarType scalarType 1).
  - eapply height_super; [reflexivity | reflexivity |].
    eapply height_top; reflexivity.
  - reflexivity.
  - reflexivity.
Defined.

(** ** Coercion *)

Lemma canCoerce_Plain store fuel : forall this type,
  Plain store ->
  GenericType.canCoerce fuel store this type
    = GenericType.isSubtype fuel store this type.
Proof.
  induction fuel as [|fuel IH]; intros this type Hp; [reflexivity|].
  cbn [GenericType.canCoerce GenericType.isSubtype].
  destruct (decide (type = this)); [reflexivity|].
  destruct (store !! this) as [self|] eqn:Hs; [|reflexivity].
  rewrite (Hp _ _ Hs). rewrite bool_decide_eq_false_2 by apply not_elem_of_nil.
  destruct (GenericType.superType self); [|reflexivity].
  apply IH. exact Hp.
Qed.

Lemma Plain_insert store this self self' :
  Plain store -> store !! this = Some self ->
  GenericType.coercibleTypes self' = GenericType.coercibleTypes self ->
  Plain (<[this := self']> store).
Proof.
  intros Hp Hs Hc other x Hx. unfold GenericType.Store in *.
  destruct (decide (other = this)) as [->|Hne].
  - rewrite list_lookup_insert_eq in Hx by (eapply lookup_lt_Some; eassumption).
    injection Hx as <-. rewrite Hc. eapply Hp. exact Hs.
  - rewrite list_lookup_insert_ne in Hx by congruence. eapply Hp. exact Hx.
Qed.

Lemma addSuffixesTo_keeps self new : forall self',
  GenericType.addSuffixesTo self new = Returned self' ->
  GenericType.name self' = GenericType.name self /\
  GenericType.superType self' = GenericType.superType self /\
  GenericType.coercibleTypes self' = GenericType.coercibleTypes self /\
  GenericType.operators self' = GenericType.operators self.
Proof.
  revert self. induction new as [|[nm type] new IH]; intros self self'; simpl.
  - intros [= <-]. auto.
  - destruct (GenericType.get (GenericType.suffixes self) nm); [discriminate|].
    intros H. apply IH in H. simpl in H. exact H.
Qed.

Lemma addOperatorTo_keeps store self new : forall self',
  GenericType.addOperatorTo store self new = Returned self' ->
  GenericType.name self' = GenericType.name self /\
  GenericType.superType self' = GenericType.superType self /\
  GenericType.coercibleTypes self' = GenericType.coercibleTypes self /\
  GenericType.suffixes self' = GenericType.suffixes self.
Proof.
  revert self. induction new as [|[kind op] new IH]; intros self self'; simpl.
  - intros [= <-]. auto.
  - destruct (find _ _); [discriminate|].
    intros H. apply IH in H. simpl in H. exact H.
Qed.

(** X11.  No method of [GenericType] adds a coercible type: a store
    whose types have none keeps that under [addSuper], [addSuffixes] and
    [addOperator], as does a store of new types.  On such a store
    [canCoerce] and [isSubtype] give the same answer. *)
Theorem canCoerce_is_isSubtype store :
  Plain store ->
  (forall fuel this type,
     GenericType.canCoerce fuel store this type
       = GenericType.isSubtype fuel store this type) /\
  (forall this type store',
     GenericType.addSuper store this type = Returned store' -> Plain store') /\
  (forall this new store',
     GenericType.addSuffixes store this new = Returned store' -> Plain store') /\
  (forall this new store',
     GenericType.addOperator store this new = Returned store' -> Plain store') /\
  (forall names, Plain (map GenericType.create names)).
Proof.
  intros Hp.
  split; [intros; apply canCoerce_Plain; exact Hp|].
  split.
  { intros this type store'. unfold GenericType.addSuper.
    destruct (store !! this) as [self|] eqn:Hs; [|discriminate].
    destruct (GenericType.superType self); [discriminate|].
    intros [= <-]. eapply Plain_insert; [exact Hp | exact Hs | reflexivity]. }
  split.
  { intros this new store'. unfold GenericType.addSuffixes.
    destruct (store !! this) as [self|] eqn:Hs; [|discriminate].
    destruct (GenericType.addSuffixesTo self new) as [self'| |] eqn:Ha;
      try discriminate.
    intros [= <-]. eapply Plain_insert; [exact Hp | exact Hs |].
    apply (addSuffixesTo_keeps _ _ _ Ha). }
  split.
  { intros this new store'. unfold GenericType.addOperator.
    destruct (store !! this) as [self|] eqn:Hs; [|discriminate].
    destruct (GenericType.addOperatorTo store self new) as [self'| |] eqn:Ha;
      try discriminate.
    intros [= <-]. eapply Plain_insert; [exact Hp | exact Hs |].
    apply (addOperatorTo_keeps _ _ _ _ Ha). }
  intros names this self Hs. apply list_lookup_fmap_Some in Hs as (nm & -> & _).
  reflexivity.
Qed.

Lemma canCoerce_is_isSubtype_witness :
  GenericType.canCoerce 3 sampleTypes scalarType stringType
    = GenericType.isSubtype 3 sampleTypes scalarType stringType.
Proof.
  apply (canCoerce_is_isSubtype sampleTypes).
  intros [|[|[|[|this]]]] self; simpl; intros [= <-]; reflexivity.
Defined.

(** ** Suffixes *)

Lemma get_set_same {K V} `{EqDecision K} (m : list (K * V)) key value :
  GenericType.get (GenericType.set m key value) key = Some value.
Proof.
  induction m as [|[k v] m IH]; simpl.
  - rewrite decide_True; reflexivity.
  - destruct (decide (k = key)) as [->|Hne]; simpl.
    + rewrite decide_True; reflexivity.
    + rewrite decide_False; assumption.
Qed.

Lemma get_set_other {K V} `{EqDecision K} (m : list (K * V)) key key' value :
  key <> key' ->
  GenericType.get (GenericType.set m key value) key' = GenericType.get m key'.
Proof.
  intros Hne. induction m as [|[k v] m IH]; simpl.
  - rewrite decide_False; [reflexivity | assumption].
  - destruct (decide (k = key)) as [->|Hk]; simpl.
    + rewrite !decide_False; [reflexivity | assumption | assumption].
    + destruct (decide (k = key')); [reflexivity | assumption].
Qed.

Lemma get_None {K V} `{EqDecision K} (m : list (K * V)) key :
  GenericType.get m key = None <-> key ∉ map fst m.
Proof.
  induction m as [|[k v] m IH]; simpl.
  - split; [intros _; apply not_elem_of_nil | reflexivity].
  - rewrite not_elem_of_cons. destruct (decide (k = key)) as [->|Hne].
    + split; [discriminate | intros [H _]; congruence].
    + rewrite IH. split; [intros H; split; [congruence | exact H] | tauto].
Qed.

Lemma get_elem_of {K V} `{EqDecision K} (m : list (K * V)) key value :
  NoDup (map fst m) -> (key, value) ∈ m -> GenericType.get m key = Some value.
Proof.
  induction m as [|[k v] m IH]; simpl; intros Hnd Hin.
  - apply elem_of_nil in Hin. contradiction.
  - apply NoDup_cons in Hnd as [Hk Hnd].
    apply elem_of_cons in Hin as [[= -> ->]|Hin].
    + rewrite decide_True; reflexivity.
    + destruct (decide (k = key)) as [->|Hne]; [|apply IH; assumption].
      exfalso. apply Hk. apply list_elem_of_fmap. exists (key, value). auto.
Qed.

Lemma addSuffixesTo_suffixes new : forall self self',
  GenericType.addSuffixesTo self new = Returned self' ->
  NoDup (map fst new) /\
  (forall nm, nm ∈ map fst new ->
     GenericType.get (GenericType.suffixes self) nm = None) /\
  (forall nm,
     GenericType.get (GenericType.suffixes self') nm =
     match GenericType.get new nm with
     | Some type => Some type
     | None => GenericType.get (GenericType.suffixes self) nm
     end).
Proof.
  induction new as [|[nm type] new IH]; intros self self'; simpl.
  - intros [= <-]. split; [constructor|].
    split; [intros n H; apply elem_of_nil in H; contradiction | reflexivity].
  - destruct (GenericType.get (GenericType.suffixes self) nm) eqn:Hnm;
      [discriminate|].
    intros H. destruct (IH _ _ H) as (Hnd & Hfresh & Hget). simpl in *.
    assert (Hnin : nm ∉ map fst new).
    { intros Hin. apply Hfresh in Hin. rewrite get_set_same in Hin.
      discriminate. }
    split; [apply NoDup_cons; auto|]. split.
    + intros n Hn. apply elem_of_cons in Hn as [->|Hn]; [exact Hnm|].
      pose proof (Hfresh _ Hn) as Hf.
      rewrite get_set_other in Hf; [exact Hf|]. intros ->. contradiction.
    + intros n. rewrite Hget. destruct (decide (nm = n)) as [<-|Hne].
      * apply get_None in Hnin. rewrite Hnin. apply get_set_same.
      * destruct (GenericType.get new n); [reflexivity|].
        apply get_set_other. exact Hne.
Qed.

(** X12.  [addSuffixes] and [getSuffix].  If [addSuffixes] returns, the
    names it was given were distinct and new to the type; afterwards
    [getSuffix] on the type returns, for each name given, the type given
    with it, and for each name the type had before what it had before;
    and an [addSuffixes] that gives any of these names again throws. *)
Theorem addSuffixes_getSuffix store this self new store' :
  store !! this = Some self ->
  GenericType.addSuffixes store this new = Returned store' ->
  NoDup (map fst new) /\
  (forall nm, nm ∈ map fst new ->
     GenericType.get (GenericType.suffixes self) nm = None) /\
  (forall fuel nm type,
     (nm, type) ∈ new ->
     GenericType.getSuffix (S fuel) store' this nm = Returned (Some type)) /\
  (forall fuel nm type,
     GenericType.get (GenericType.suffixes self) nm = Some type ->
     GenericType.getSuffix (S fuel) store' this nm = Returned (Some type)) /\
  (forall nm type more,
     nm ∈ map fst new \/
     (exists old, GenericType.get (GenericType.suffixes self) nm = Some old) ->
     exists msg,
       GenericType.addSuffixes store' this ((nm, type) :: more) = Thrown msg).
Proof.
  intros Hs. unfold GenericType.addSuffixes. rewrite Hs.
  destruct (GenericType.addSuffixesTo self new) as [self'| |] eqn:Ha;
    try discriminate.
  intros [= <-].
  destruct (addSuffixesTo_suffixes _ _ _ Ha) as (Hnd & Hfresh & Hget).
  assert (Hlt : this < length store) by (eapply lookup_lt_Some; eassumption).
  assert (Hl : <[this := self']> store !! this = Some self').
  { apply list_lookup_insert_eq. exact Hlt. }
  split; [exact Hnd|]. split; [exact Hfresh|].
  split; [|split].
  - intros fuel nm type Hin. cbn [GenericType.getSuffix]. rewrite Hl.
    rewrite Hget, (get_elem_of _ _ _ Hnd Hin). reflexivity.
  - intros fuel nm type Hold. cbn [GenericType.getSuffix]. rewrite Hl.
    rewrite Hget, Hold.
    destruct (GenericType.get new nm) eqn:Hn; [|reflexivity].
    assert (Hin : nm ∈ map fst new).
    { destruct (decide (nm ∈ map fst new)) as [H|H]; [exact H|].
      apply get_None in H. congruence. }
    apply Hfresh in Hin. congruence.
  - intros nm type more Hcase. unfold GenericType.addSuffixes. rewrite Hl.
    simpl. rewrite Hget.
    destruct Hcase as [Hin | [old Hold]].
    + destruct (GenericType.get new nm) eqn:Hn; [eauto|].
      apply get_None in Hn. contradiction.
    + destruct (GenericType.get new nm); [eauto|]. rewrite Hold. eauto.
Qed.

Lemma addSuffixes_getSuffix_witness :
  exists store',
    GenericType.addSuffixes sampleTypes listType [("length", scalarType)]
      = Returned store' /\
    GenericType.getSuffix 1 store' listType "length"
      = Returned (Some scalarType).
Proof.
  eexists. split; [reflexivity|].
  destruct (addSuffixes_getSuffix sampleTypes listType
              (GenericType.mk "list" (Some 0) [] [] [])
              [("length", scalarType)] _ eq_refl eq_refl)
    as (_ & _ & Hget & _).
  apply (Hget 0). apply elem_of_cons. left. reflexivity.
Defined.




(** ** Operators *)

Lemma find_sameOperand_None operator ops :
  find (GenericType.sameOperand operator) ops = None <->
  otherOperand operator ∉ map otherOperand ops.
Proof.
  induction ops as [|o ops IH]; simpl.
  - split; [intros _; apply not_elem_of_nil | reflexivity].
  - unfold GenericType.sameOperand at 1. rewrite not_elem_of_cons.
    case_bool_decide as Ho.
    + split; [discriminate | intros [H _]; congruence].
    + rewrite IH. split; [intros H; split; [congruence | exact H] | tauto].
Qed.

Lemma firstWith_unique ops operator :
  NoDup (map otherOperand ops) -> operator ∈ ops ->
  GenericType.firstWith (otherOperand operator) ops = Some operator.
Proof.
  unfold GenericType.firstWith.
  induction ops as [|o ops IH]; simpl; intros Hnd Hin.
  - apply elem_of_nil in Hin. contradiction.
  - apply NoDup_cons in Hnd as [Ho Hnd].
    apply elem_of_cons in Hin as [->|Hin].
    + rewrite bool_decide_eq_true_2; reflexivity.
    + case_bool_decide as Heq; [|apply IH; assumption].
      exfalso. apply Ho. rewrite <- Heq. apply list_elem_of_fmap.
      exists operator. auto.
Qed.

Lemma addOperatorTo_operators store new : forall self self',
  UniqueOperators self ->
  GenericType.addOperatorTo store self new = Returned self' ->
  UniqueOperators self' /\
  (forall kind operator,
     (kind, operator) ∈ new ->
     exists ops,
       GenericType.get (GenericType.operators self') kind = Some ops /\
       operator ∈ ops) /\
  (forall kind ops operator,
     GenericType.get (GenericType.operators self) kind = Some ops ->
     operator ∈ ops ->
     exists ops',
       GenericType.get (GenericType.operators self') kind = Some ops' /\
       operator ∈ ops').
Proof.
  induction new as [|[kind operator] new IH]; intros self self' Hu; simpl.
  - intros [= <-]. split; [exact Hu|]. split.
    + intros k o H. apply elem_of_nil in H. contradiction.
    + eauto.
  - set (operatorsKind :=
           match GenericType.get (GenericType.operators self) kind with
           | Some operatorsKind => operatorsKind
           | None => []
           end).
    destruct (find (GenericType.sameOperand operator) operatorsKind) eqn:Hf;
      [discriminate|].
    apply find_sameOperand_None in Hf.
    set (self1 := GenericType.mk _ _ _ _ _). intros H.
    assert (Hk : NoDup (map otherOperand operatorsKind)).
    { unfold operatorsKind.
      destruct (GenericType.get (GenericType.operators self) kind) eqn:Hg;
        [eapply Hu; exact Hg | constructor]. }
    assert (Hu1 : UniqueOperators self1).
    { intros k ops. unfold self1. simpl.
      destruct (decide (kind = k)) as [<-|Hne].
      - rewrite get_set_same. intros [= <-].
        rewrite map_app. apply NoDup_app. split; [exact Hk|]. split.
        + intros x Hx Hx'. simpl in Hx'.
          apply elem_of_cons in Hx' as [->|Hx']; [contradiction|].
          apply elem_of_nil in Hx'. contradiction.
        + simpl. apply NoDup_singleton.
      - rewrite get_set_other by exact Hne. apply Hu. }
    destruct (IH _ _ Hu1 H) as (Hu' & Hnew & Hold).
    split; [exact Hu'|]. split.
    + intros k o Hin. apply elem_of_cons in Hin as [[= -> ->]|Hin]; [|eauto].
      apply (Hold kind (operatorsKind ++ [operator])).
      * unfold self1. simpl. apply get_set_same.
      * apply elem_of_app. right. apply elem_of_cons. left. reflexivity.
    + intros k ops o Hg Hin. destruct (decide (kind = k)) as [<-|Hne].
      * apply (Hold kind (operatorsKind ++ [operator])).
        -- unfold self1. simpl. apply get_set_same.
        -- apply elem_of_app. left. unfold operatorsKind. rewrite Hg. exact Hin.
      * apply (Hold k ops); [|exact Hin].
        unfold self1. simpl. rewrite get_set_other by exact Hne. exact Hg.
Qed.

(** X14.  [addOperator] and [getOperator].  On a type none of whose
    kinds has two operators with the same other operand, an
    [addOperator] that returns keeps that, and afterwards [getOperator]
    returns, for the kind and the other operand of each operator added,
    that operator, and still returns every operator it returned before;
    an [addOperator] of another operator of the same kind and other
    operand throws.  A new type has no operators. *)
Theorem addOperator_getOperator store this self new store' :
  store !! this = Some self -> UniqueOperators self ->
  GenericType.addOperator store this new = Returned store' ->
  (exists self', store' !! this = Some self' /\ UniqueOperators self') /\
  (forall kind operator,
     (kind, operator) ∈ new ->
     GenericType.getOperator store' this kind (otherOperand operator)
       = Returned (Some operator)) /\
  (forall kind other operator,
     GenericType.getOperator store this kind other = Returned (Some operator) ->
     GenericType.getOperator store' this kind other
       = Returned (Some operator)) /\
  (forall kind operator operator' more,
     (kind, operator) ∈ new ->
     otherOperand operator' = otherOperand operator ->
     exists msg,
       GenericType.addOperator store' this ((kind, operator') :: more)
         = Thrown msg) /\
  (forall nm, UniqueOperators (GenericType.create nm)).
Proof.
  intros Hs Hu. unfold GenericType.addOperator at 1. rewrite Hs.
  destruct (GenericType.addOperatorTo store self new) as [self'| |] eqn:Ha;
    try discriminate.
  intros [= <-].
  destruct (addOperatorTo_operators _ _ _ _ Hu Ha) as (Hu' & Hnew & Hold).
  assert (Hlt : this < length store) by (eapply lookup_lt_Some; eassumption).
  assert (Hl : <[this := self']> store !! this = Some self').
  { apply list_lookup_insert_eq. exact Hlt. }
  split; [eauto|]. split; [|split; [|split]].
  - intros kind operator Hin. unfold GenericType.getOperator. rewrite Hl.
    destruct (Hnew _ _ Hin) as (ops & Hg & Hops). rewrite Hg.
    rewrite (firstWith_unique _ _ (Hu' _ _ Hg) Hops).
    reflexivity.
  - intros kind other operator. unfold GenericType.getOperator.
    rewrite Hs, Hl.
    destruct (GenericType.get (GenericType.operators self) kind) as [ops|] eqn:Hg;
      [|discriminate].
    destruct (GenericType.firstWith other ops) as [o|] eqn:Hf; [|discriminate].
    intros [= ->]. apply firstWith_Some in Hf as [Hin <-].
    destruct (Hold _ _ _ Hg Hin) as (ops' & Hg' & Hin'). rewrite Hg'.
    rewrite (firstWith_unique _ _ (Hu' _ _ Hg') Hin'). reflexivity.
  - intros kind operator operator' more Hin Heq.
    unfold GenericType.addOperator. rewrite Hl. simpl.
    destruct (Hnew _ _ Hin) as (ops & Hg & Hops). rewrite Hg.
    destruct (find (GenericType.sameOperand operator') ops) eqn:Hf; [eauto|].
    apply find_sameOperand_None in Hf. exfalso. apply Hf. rewrite Heq.
    apply list_elem_of_fmap. exists operator. auto.
  - intros nm kind ops. simpl. discriminate.
Qed.

Lemma addOperator_getOperator_witness :
  exists store',
    GenericType.addOperator sampleTypes stringType
      [(plusKind, mkOperator (Some stringType) stringType)] = Returned store' /\
    GenericType.getOperator store' stringType plusKind (Some stringType)
      = Returned (Some (mkOperator (Some stringType) stringType)).
Proof.
  eexists. split; [reflexivity|].
  destruct (addOperator_getOperator sampleTypes stringType
              (GenericType.mk "string" (Some 0) [] [] [])
              [(plusKind, mkOperator (Some stringType) stringType)] _
              eq_refl ltac:(intros kind ops; discriminate) eq_refl)
    as (_ & Hget & _).
  apply (Hget plusKind (mkOperator (Some stringType) stringType)).
  apply elem_of_cons. left. reflexivity.
Defined.

(** ** Instances of a generic variadic type *)

Lemma Instances_create types :
  Instances (map GenericVariadicType.create types).
Proof.
  intros this self ty result Hs _ Hg.
  apply list_lookup_fmap_Some in Hs as (x & -> & _). discriminate.
Qed.

(** X15.  [GenericVariadicType.toConcreteType].  On a store whose
    caches refer to variadic types of their arguments, as a store of new
    generic variadic types is, the call on a generic variadic type keeps
    that and returns a variadic type of the argument; the same argument
    again returns the same object and leaves the store as it is; another
    argument returns another object; and the object returned is its own
    concrete type, whatever the argument. *)
Theorem toConcreteType_instances store this self ty result store' :
  Instances store ->
  store !! this = Some self -> GenericVariadicType.concrete self = false ->
  GenericVariadicType.toConcreteType store this ty = Returned (result, store') ->
  Instances store' /\
  (exists instance,
     store' !! result = Some instance /\
     GenericVariadicType.type instance = ty /\
     GenericVariadicType.concrete instance = true) /\
  GenericVariadicType.toConcreteType store' this ty = Returned (result, store') /\
  (forall ty' result' store'',
     ty' <> ty ->
     GenericVariadicType.toConcreteType store' this ty'
       = Returned (result', store'') ->
     result' <> result) /\
  (forall ty', instantiate store' result ty' = Returned (result, store')) /\
  (forall types, Instances (map GenericVariadicType.create types)).
Proof.
  intros Hinst Hs Hc Hcall.
  assert (Hstep : forall st obj a r st',
            Instances st -> st !! this = Some obj ->
            GenericVariadicType.concrete obj = false ->
            GenericVariadicType.toConcreteType st this a = Returned (r, st') ->
            Instances st' /\
            (exists obj', st' !! this = Some obj' /\
                          GenericVariadicType.concrete obj' = false /\
                          GenericType.get
                            (GenericVariadicType.concreteTypes obj') a
                            = Some r) /\
            (forall i x, i <> this -> st !! i = Some x -> st' !! i = Some x)).
  { clear. intros st obj a r st' Hinst Hs Hc.
    unfold GenericVariadicType.toConcreteType. rewrite Hs.
    destruct (GenericType.get (GenericVariadicType.concreteTypes obj) a)
      as [cache|] eqn:Hg.
    - intros [= <- <-]. split; [exact Hinst|]. split; [eauto|]. auto.
    - cbv zeta. intros [= <- <-]. unfold GenericVariadicType.Store in *.
      assert (Hlt : this < length st) by (eapply lookup_lt_Some; eassumption).
      set (new := GenericVariadicType.mk a [] true).
      set (obj' := GenericVariadicType.mk _ _ _).
      assert (Hthis : <[this := obj']> (st ++ [new]) !! this = Some obj').
      { apply list_lookup_insert_eq. rewrite length_app. simpl. lia. }
      assert (Hother : forall i, i <> this ->
                <[this := obj']> (st ++ [new]) !! i = (st ++ [new]) !! i).
      { intros i Hi. apply list_lookup_insert_ne. congruence. }
      assert (Hkeep : forall i x, i <> this -> st !! i = Some x ->
                <[this := obj']> (st ++ [new]) !! i = Some x).
      { intros i x Hi Hx. rewrite Hother by exact Hi.
        apply lookup_app_l_Some. exact Hx. }
      assert (Hnew : <[this := obj']> (st ++ [new]) !! length st = Some new).
      { rewrite Hother by lia. rewrite lookup_app_r by lia.
        rewrite Nat.sub_diag. reflexivity. }
      split; [|split; [|exact Hkeep]].
      + intros g x ty r Hgx Hcx Hget. unfold GenericVariadicType.Store in *.
        assert (Hold : forall y, st !! g = Some y ->
                  GenericVariadicType.concrete y = false ->
                  GenericType.get (GenericVariadicType.concreteTypes y) ty = Some r ->
                  exists instance,
                    <[this := obj']> (st ++ [new]) !! r = Some instance /\
                    GenericVariadicType.type instance = ty /\
                    GenericVariadicType.concrete instance = true).
        { intros y Hy Hcy Hgy.
          destruct (Hinst _ _ _ _ Hy Hcy Hgy) as (instance & Hi & Ht & Hci).
          exists instance. split; [|auto]. apply Hkeep; [|exact Hi].
          intros ->. unfold GenericVariadicType.Store in *. congruence. }
        destruct (decide (g = this)) as [->|Hne].
        * rewrite Hthis in Hgx. injection Hgx as <-. unfold obj' in Hget.
          simpl in Hget. destruct (decide (a = ty)) as [->|Hty].
          -- rewrite get_set_same in Hget. injection Hget as <-.
             exists new. auto.
          -- rewrite get_set_other in Hget by exact Hty.
             apply (Hold obj Hs Hc Hget).
        * rewrite Hother in Hgx by exact Hne.
          apply lookup_app_Some in Hgx as [Hgx | [_ Hgx]].
          -- apply (Hold x Hgx Hcx Hget).
          -- apply list_lookup_singleton_Some in Hgx as [_ <-]. discriminate.
      + exists obj'. split; [exact Hthis|]. split; [exact Hc|].
        unfold obj'. simpl. apply get_set_same. }
  destruct (Hstep _ _ _ _ _ Hinst Hs Hc Hcall)
    as (Hinst' & (obj' & Hs' & Hc' & Hg') & Hkeep).
  destruct (Hinst' _ _ _ _ Hs' Hc' Hg') as (instance & Hi & Ht & Hci).
  assert (Hagain :
    GenericVariadicType.toConcreteType store' this ty = Returned (result, store')).
  { unfold GenericVariadicType.toConcreteType. rewrite Hs', Hg'. reflexivity. }
  split; [exact Hinst'|]. split; [eauto|]. split; [exact Hagain|].
  split; [|split; [|apply Instances_create]].
  - intros ty' result' store'' Hne Hcall' ->.
    destruct (Hstep _ _ _ _ _ Hinst' Hs' Hc' Hcall')
      as (Hinst'' & (obj'' & Hs'' & Hc'' & Hg'') & Hkeep').
    destruct (Hinst'' _ _ _ _ Hs'' Hc'' Hg'') as (instance' & Hi' & Ht' & _).
    unfold GenericVariadicType.Store in *.
    assert (Hr : result <> this) by (intros ->; congruence).
    rewrite (Hkeep' _ _ Hr Hi) in Hi'. congruence.
  - intros ty'. unfold instantiate. rewrite Hi, Hci. reflexivity.
Qed.

Lemma toConcreteType_instances_witness :
  exists result store',
    GenericVariadicType.toConcreteType sampleVariadic 0 stringType
      = Returned (result, store') /\
    GenericVariadicType.toConcreteType store' 0 stringType
      = Returned (result, store').
Proof.
  eexists _, _. split; [reflexivity|].
  apply (toConcreteType_instances sampleVariadic 0
           (GenericVariadicType.create scalarType) stringType).
  - apply (Instances_create [scalarType]).
  - reflexivity.
  - reflexivity.
  - reflexivity.
Defined.

End TypeEngineMore.

(** * More facts about the symbol-table builder *)

Module SymbolTableMore.
Import SymbolTableBuilder SymbolTableFacts.

(** ** Trees *)

Lemma nodeAt_app p : forall q root,
  nodeAt (p ++ q) root = nodeAt p root ≫= nodeAt q.
Proof.
  induction p as [|i p IH]; intros q root; simpl; [reflexivity|].
  destruct (children root !! i); [apply IH | reflexivity].
Qed.

Lemma nodeAt_take p : forall root node k,
  nodeAt p root = Some node -> is_Some (nodeAt (take k p) root).
Proof.
  induction p as [|i p IH]; intros root node k Hp.
  - rewrite take_nil. simpl. eauto.
  - destruct k as [|k]; simpl; [eauto|].
    simpl in Hp. destruct (children root !! i) as [child|]; [|discriminate].
    eapply IH. exact Hp.
Qed.

(** Updating the node at a path with a function that keeps the children
    a node has, and may add some: the node at the path is the updated
    one, every other node keeps its scope and the number of its
    children. *)
Lemma nodeAt_updateAt_keeps f p :
  (forall n, exists extra, children (f n) = children n ++ extra) ->
  forall q root node,
    nodeAt q root = Some node ->
    exists node',
      nodeAt q (updateAt p f root) = Some node' /\
      (q = p /\ node' = f node \/
       q <> p /\ scope node' = scope node /\
       length (children node') = length (children node)).
Proof.
  intros Hf. induction p as [|i p IH]; intros q root node Hq.
  - simpl. destruct q as [|j q].
    + simpl in *. injection Hq as <-. eauto.
    + simpl in Hq.
      destruct (children root !! j) as [child|] eqn:Hj; [|discriminate].
      destruct (Hf root) as [extra He].
      exists node. split.
      * simpl. rewrite He, lookup_app_l by (eapply lookup_lt_Some; eauto).
        rewrite Hj. exact Hq.
      * right. split; [discriminate|auto].
  - simpl. destruct (children root !! i) as [child|] eqn:Hi.
    + destruct q as [|j q].
      * simpl in Hq. injection Hq as <-. eexists. split; [reflexivity|].
        right. split; [discriminate|]. simpl. split; [reflexivity|].
        apply length_insert.
      * simpl in Hq.
        destruct (children root !! j) as [c|] eqn:Hj; [|discriminate].
        destruct (decide (j = i)) as [->|Hne].
        -- rewrite Hi in Hj. injection Hj as <-.
           destruct (IH q child node Hq) as (node' & Hn & Hcase).
           exists node'. split.
           { simpl. rewrite list_lookup_insert_eq
               by (eapply lookup_lt_Some; eauto). exact Hn. }
           destruct Hcase as [[-> ->]|(Hne & Hs & Hl)];
             [left; auto | right; split; [congruence | auto]].
        -- exists node. split.
           { simpl. rewrite list_lookup_insert_ne by congruence.
             rewrite Hj. exact Hq. }
           right. split; [congruence|auto].
    + exists node. split; [exact Hq|]. right. split; [|auto].
      intros ->. simpl in Hq. rewrite Hi in Hq. discriminate.
Qed.

(** The nodes of a tree after a scope was pushed: the new one, or the
    ones it had, with their scopes. *)
Lemma nodeAt_push leaf p :
  children leaf = [] ->
  forall q root node',
    nodeAt q
      (updateAt p
         (fun n => mkScopeNode (scope n) (position n) (children n ++ [leaf]))
         root) = Some node' ->
    node' = leaf \/
    exists node, nodeAt q root = Some node /\ scope node' = scope node.
Proof.
  intros Hleaf. induction p as [|i p IH]; intros q root node' Hq.
  - simpl in Hq. destruct q as [|j q].
    + simpl in Hq. injection Hq as <-. right. eauto.
    + simpl in Hq.
      destruct ((children root ++ [leaf]) !! j) as [c|] eqn:Hj; [|discriminate].
      apply lookup_app_Some in Hj as [Hj|[_ Hj]].
      * right. exists node'. simpl. rewrite Hj. auto.
      * apply list_lookup_singleton_Some in Hj as [_ <-].
        destruct q as [|k q]; simpl in Hq.
        -- injection Hq as <-. auto.
        -- rewrite Hleaf in Hq. discriminate.
  - simpl in Hq. destruct (children root !! i) as [child|] eqn:Hi.
    + destruct q as [|j q].
      * simpl in Hq. injection Hq as <-. right. eexists. split; [reflexivity|].
        reflexivity.
      * simpl in Hq. destruct (decide (j = i)) as [->|Hne].
        -- rewrite list_lookup_insert_eq in Hq
             by (eapply lookup_lt_Some; eauto).
           destruct (IH _ _ _ Hq) as [->|(node & Hn & Hs)]; [auto|].
           right. exists node. simpl. rewrite Hi. auto.
        -- rewrite list_lookup_insert_ne in Hq by congruence.
           right. exists node'. simpl. auto.
    + right. eauto.
Qed.

(** The stack of scopes along a path after the node at its end was
    updated. *)
Lemma stackAt_updateAt f p : forall root node,
  nodeAt p root = Some node ->
  exists init,
    stackAt p root = Some (init ++ [scope node]) /\
    stackAt p (updateAt p f root) = Some (init ++ [scope (f node)]).
Proof.
  induction p as [|i p IH]; intros root node Hp.
  - simpl in *. injection Hp as <-. exists []. auto.
  - simpl in *. destruct (children root !! i) as [child|] eqn:Hi; [|discriminate].
    destruct (IH _ _ Hp) as (init & H1 & H2).
    exists (scope root :: init). rewrite H1. split; [reflexivity|].
    simpl. rewrite list_lookup_insert_eq by (eapply lookup_lt_Some; eauto).
    rewrite H2. reflexivity.
Qed.

(** The stack of scopes along a path is made of the scopes of the nodes
    the path goes through. *)
Lemma stackAt_agree p : forall r1 r2,
  (forall k, k <= length p ->
     scope <$> nodeAt (take k p) r1 = scope <$> nodeAt (take k p) r2) ->
  is_Some (nodeAt p r1) ->
  stackAt p r1 = stackAt p r2.
Proof.
  induction p as [|i p IH]; intros r1 r2 Hk Hp.
  - simpl. specialize (Hk 0 (Nat.le_refl _)). simpl in Hk. congruence.
  - simpl in *.
    pose proof (Hk 0 ltac:(lia)) as H0. simpl in H0. injection H0 as H0.
    pose proof (Hk 1 ltac:(lia)) as H1. simpl in H1.
    destruct (children r1 !! i) as [c1|] eqn:Hc1; [|destruct Hp; discriminate].
    destruct (children r2 !! i) as [c2|] eqn:Hc2; [|discriminate].
    rewrite (IH c1 c2), H0; [reflexivity| |exact Hp].
    intros k Hle. specialize (Hk (S k) ltac:(lia)). simpl in Hk.
    rewrite Hc1, Hc2 in Hk. exact Hk.
Qed.

Lemma scopeGet_scopeSet_ne (sc : Scope) key key' v :
  key <> key' -> scopeGet (scopeSet sc key' v) key = scopeGet sc key.
Proof.
  intros Hne. induction sc as [|[k w] sc IH]; simpl.
  - rewrite decide_False by congruence. reflexivity.
  - destruct (decide (k = key')) as [->|Hk]; simpl.
    + rewrite !decide_False by congruence. reflexivity.
    + rewrite IH. reflexivity.
Qed.

Lemma firstInStack_None l key :
  firstInStack l key = None -> forall sc, sc ∈ l -> scopeGet sc key = None.
Proof.
  induction l as [|s l IH]; simpl; intros H sc Hin.
  - apply elem_of_nil in Hin as [].
  - destruct (scopeGet s key) eqn:Hs; [discriminate|].
    apply elem_of_cons in Hin as [->|Hin]; [exact Hs | exact (IH H _ Hin)].
Qed.

Lemma pushUsage_lookup b ref u other :
  trackers (pushUsage b ref u) !! other =
  if decide (ref = other) then (fun t => used t u) <$> trackers b !! ref
  else trackers b !! other.
Proof. unfold pushUsage. simpl. apply list_lookup_alter. Qed.

(** ** Declarations *)

(** What a declare call that returns has done: it met a conflict and
    changed nothing, or it allocated the tracker and bound the name in
    the selected scope. *)
Lemma declare_inv c b scopeType token d b' token' :
  declare c b scopeType token = Returned (d, b', token') ->
  (exists ref, lookup b token scopeType = Returned (Some ref) /\
               b' = b /\ token' = token /\ is_Some d) \/
  (lookup b token scopeType = Returned None /\
   token' = setTracker token (length (trackers b)) /\
   b' = setInScope (addTracker b (declaredTracker c scopeType token'))
          scopeType (lexeme token) (length (trackers b))).
Proof.
  assert (H : forall symbol ty,
            (forall tk, declaredTracker c scopeType tk = newTracker (symbol tk) ty) ->
            declareSymbol b scopeType token symbol ty = Returned (d, b', token') ->
            (exists ref, lookup b token scopeType = Returned (Some ref) /\
                         b' = b /\ token' = token /\ is_Some d) \/
            (lookup b token scopeType = Returned None /\
             token' = setTracker token (length (trackers b)) /\
             b' = setInScope (addTracker b (declaredTracker c scopeType token'))
                    scopeType (lexeme token) (length (trackers b)))).
  { intros symbol ty Hsym. unfold declareSymbol.
    destruct (lookup b token scopeType) as [[ref|]|] eqn:Hl; cbn [andThen];
      [| |discriminate].
    - destruct (symbolOf b ref); cbn [andThen]; [|discriminate].
      intros [= <- <- <-]. left. eauto.
    - unfold declareIn. intros Hd. right. split; [reflexivity|].
      destruct scopeType; cbn [andThen] in Hd.
      + destruct (lookup b token ScopeType.global) as [[shadow|]|];
          cbn [andThen] in Hd; [| |discriminate].
        * destruct (symbolOf b shadow); cbn [andThen] in Hd; [|discriminate].
          destruct (peekScope b); cbn [andThen] in Hd; [|discriminate].
          injection Hd as <- <- <-. rewrite Hsym. auto.
        * destruct (peekScope b); cbn [andThen] in Hd; [|discriminate].
          injection Hd as <- <- <-. rewrite Hsym. auto.
      + injection Hd as <- <- <-. rewrite Hsym. auto. }
  destruct c; cbn [declare];
    unfold declareVariable, declareFunction, declareLock, declareParameter;
    apply H; reflexivity.
Qed.

Lemma lookup_global_setInScope b scopeType token t ref :
  Active b ->
  lookup b token scopeType = Returned None ->
  lookup (setInScope (addTracker b t) scopeType (lexeme token) ref) token
    ScopeType.global = Returned (Some ref).
Proof.
  intros Ha Hl. destruct scopeType; [|apply lookup_setInScope; assumption].
  destruct Ha as [n Hn]. revert Hl.
  unfold lookup, peekScope, activeScopeNode, activeScopeStack, setInScope.
  simpl. rewrite Hn. cbn [andThen]. intros _.
  destruct (stackAt_updateAt
              (fun n => mkScopeNode (scopeSet (scope n) (lexeme token) ref)
                          (position n) (children n))
              _ _ _ Hn) as (init & _ & ->).
  cbn [andThen]. rewrite reverse_snoc. simpl.
  rewrite scopeGet_scopeSet. reflexivity.
Qed.

Lemma kindOf_declaredTracker c scopeType token :
  tag (declared (declaredTracker c scopeType token)) = kindOf c /\
  usages (declaredTracker c scopeType token) = [].
Proof. destruct c; auto. Qed.

(** X17.  Declare, then use.  After a declare call that met no conflict,
    a use of the same name, by [useSymbol] or by the use method of the
    declared kind other than [useFunction], returns no diagnostic,
    resolves to the tracker just declared and leaves it with that one
    usage; the scope then reports nothing for it when it ends. *)
Theorem declare_then_use c u b scopeType token nm e d b1 token1 :
  Active b -> Bounded b ->
  lookup b token scopeType = Returned None ->
  declare c b scopeType token = Returned (d, b1, token1) ->
  lexeme nm = lexeme token ->
  u <> UseFunction -> expects u (kindOf c) ->
  exists b2 t,
    use u b1 nm e
      = Returned (None, b2, setTracker nm (length (trackers b))) /\
    tracker token1 = Some (length (trackers b)) /\
    trackers b2 !! length (trackers b) = Some t /\
    declared t = declared (declaredTracker c scopeType token1) /\
    usages t
      = [createEnitityChange (setTracker nm (length (trackers b))) e] /\
    forall cooked, unusedDiagnostic cooked t = [].
Proof.
  intros Ha Hb Hl Hd Hlex Hu He.
  apply declare_inv in Hd as [(ref & Hl' & _)|(_ & Htok & Hb1)];
    [congruence|].
  set (ref := length (trackers b)) in *.
  set (t0 := declaredTracker c scopeType token1) in *.
  assert (Hl1 : lookup b1 nm ScopeType.global = Returned (Some ref)).
  { rewrite Hb1.
    pose proof (lookup_global_setInScope b scopeType token t0 ref Ha Hl) as H.
    unfold lookup in *. rewrite Hlex. exact H. }
  assert (Ht0 : trackers b1 !! ref = Some t0).
  { rewrite Hb1. unfold setInScope, addTracker. simpl.
    rewrite lookup_app_r by reflexivity.
    unfold ref. rewrite Nat.sub_diag. reflexivity. }
  assert (Hk : tag (declared t0) = kindOf c /\ usages t0 = [])
    by apply kindOf_declaredTracker.
  destruct Hk as [Hk Hus].
  assert (Hex : expects u (tag (declared t0))) by (rewrite Hk; exact He).
  pose proof (use_records u b1 nm e ref t0 Hu Hl1 Ht0 Hex) as Huse.
  eexists _, (used t0 (createEnitityChange (setTracker nm ref) e)).
  split; [exact Huse|]. split; [rewrite Htok; reflexivity|].
  split; [rewrite pushUsage_lookup, decide_True, Ht0 by reflexivity; reflexivity|].
  split; [reflexivity|].
  split; [simpl; rewrite Hus; reflexivity|].
  intros cooked. unfold unusedDiagnostic. simpl. rewrite Hus. simpl.
  destruct (tag (declared t0)); try reflexivity.
  rewrite andb_false_r. reflexivity.
Qed.

Lemma declare_then_use_witness :
  exists b2 t,
    use UseVariable
      (after (newBuilder sampleUri)
         (declare (DeclareVariable None) (newBuilder sampleUri)
            ScopeType.global (sampleName "x")))
      (sampleName "x") None
      = Returned (None, b2, setTracker (sampleName "x") 0) /\
    trackers b2 !! 0 = Some t /\
    unusedDiagnostic rawLocks t = [].
Proof.
  destruct (declare_then_use (DeclareVariable None) UseVariable
              (newBuilder sampleUri) ScopeType.global (sampleName "x")
              (sampleName "x") None None
              (after (newBuilder sampleUri)
                 (declare (DeclareVariable None) (newBuilder sampleUri)
                    ScopeType.global (sampleName "x")))
              (setTracker (sampleName "x") 0))
    as (b2 & t & Huse & _ & Ht & _ & _ & Hun).
  - exact (proj1 (newBuilder_well_formed sampleUri)).
  - exact (proj2 (newBuilder_well_formed sampleUri)).
  - reflexivity.
  - reflexivity.
  - reflexivity.
  - discriminate.
  - reflexivity.
  - exists b2, t. split; [exact Huse|]. split; [exact Ht|]. apply Hun.
Defined.

(** ** Uses *)

Lemma checkUseSymbol_shape b token tracker kind e d b' token' :
  checkUseSymbol b token tracker kind e = Returned (d, b', token') ->
  match d with
  | None =>
      exists ref,
        tracker = Some ref /\ token' = setTracker token ref /\
        b' = pushUsage b ref (createEnitityChange token' e)
  | Some diagnostic =>
      tracker = None /\ b' = b /\ token' = token /\
      severity diagnostic = DiagnosticSeverity.Error
  end.
Proof.
  destruct tracker as [ref|]; simpl.
  - intros [= <- <- <-]. exists ref. auto.
  - intros [= <- <- <-]. auto.
Qed.

Lemma lookupGuarded_shape guard b nm tracker :
  lookupGuarded guard b nm ScopeType.global = Returned tracker ->
  match tracker with
  | Some ref =>
      lookup b nm ScopeType.global = Returned (Some ref) /\
      exists t, trackers b !! ref = Some t /\ guard (declared t) = true
  | None => True
  end.
Proof.
  unfold lookupGuarded.
  destruct (lookup b nm ScopeType.global) as [[ref|]|]; cbn [andThen];
    [|intros [= <-]; exact I | discriminate].
  unfold symbolOf. destruct (trackers b !! ref) as [t|] eqn:Ht;
    cbn [andThen]; [|discriminate].
  destruct (guard (declared t)) eqn:Hg; intros [= <-]; [|exact I].
  split; [reflexivity|]. eauto.
Qed.

(** What a use call that returns has done. *)
Lemma use_inv u b nm e d b' nm' :
  use u b nm e = Returned (d, b', nm') ->
  match d with
  | None =>
      exists ref t,
        lookup b nm ScopeType.global = Returned (Some ref) /\
        trackers b !! ref = Some t /\
        nm' = setTracker nm ref /\
        b' = pushUsage b ref (createEnitityChange nm' e)
  | Some diagnostic =>
      b' = b /\ nm' = nm /\ severity diagnostic = DiagnosticSeverity.Error
  end.
Proof.
  assert (Hguard : forall guard kind,
            (let? tracker := lookupGuarded guard b nm ScopeType.global in
             checkUseSymbol b nm tracker kind e) = Returned (d, b', nm') ->
            match d with
            | None =>
                exists ref t,
                  lookup b nm ScopeType.global = Returned (Some ref) /\
                  trackers b !! ref = Some t /\
                  nm' = setTracker nm ref /\
                  b' = pushUsage b ref (createEnitityChange nm' e)
            | Some diagnostic =>
                b' = b /\ nm' = nm /\
                severity diagnostic = DiagnosticSeverity.Error
            end).
  { intros guard kind.
    destruct (lookupGuarded guard b nm ScopeType.global) as [tracker|] eqn:Hg;
      cbn [andThen]; [|discriminate].
    intros Hc. apply checkUseSymbol_shape in Hc.
    destruct d as [diagnostic|]; [tauto|].
    destruct Hc as (ref & -> & Hnm & Hb).
    apply lookupGuarded_shape in Hg as (Hl & t & Ht & _).
    exists ref, t. auto. }
  destruct u; cbn [use];
    unfold useSymbol, useVariable, useFunction, useLock, useParameter,
      lookupVariableTracker, lookupFunctionTracker, lookupLockTracker,
      lookupParameterTracker; try apply Hguard.
  clear Hguard.
  destruct (lookup b nm ScopeType.global) as [[ref|]|] eqn:Hl; cbn [andThen];
    [|intros [= <- <- <-]; auto | discriminate].
  unfold symbolOf. destruct (trackers b !! ref) as [t|] eqn:Ht; cbn [andThen];
    [|discriminate].
  intros Hc. apply checkUseSymbol_shape in Hc.
  destruct d as [diagnostic|]; [destruct Hc; discriminate|].
  destruct Hc as (ref' & [= <-] & Hnm & Hb).
  exists ref, t. auto.
Qed.

Lemma use_returns u b nm e :
  Active b -> Closed b -> exists r, use u b nm e = Returned r.
Proof.
  intros Ha Hc.
  assert (Hcheck : forall tracker kind,
            exists r, checkUseSymbol b nm tracker kind e = Returned r).
  { intros [ref|] kind; simpl; eauto. }
  assert (Hguard : forall guard kind,
            exists r,
              (let? tracker := lookupGuarded guard b nm ScopeType.global in
               checkUseSymbol b nm tracker kind e) = Returned r).
  { intros guard kind. unfold lookupGuarded.
    destruct (lookup_returns b nm ScopeType.global Ha) as [[ref|] Hl];
      rewrite Hl; cbn [andThen]; [|apply Hcheck].
    destruct (Hc _ _ _ Hl) as [t Ht].
    rewrite (symbolOf_lookup _ _ _ Ht). cbn [andThen].
    destruct (guard (declared t)); cbn [andThen]; apply Hcheck. }
  destruct u; cbn [use];
    unfold useSymbol, useVariable, useFunction, useLock, useParameter,
      lookupVariableTracker, lookupFunctionTracker, lookupLockTracker,
      lookupParameterTracker; try apply Hguard.
  destruct (lookup_returns b nm ScopeType.global Ha) as [[ref|] Hl];
    rewrite Hl; cbn [andThen]; [|eauto].
  destruct (Hc _ _ _ Hl) as [t Ht].
  rewrite (symbolOf_lookup _ _ _ Ht). cbn [andThen]. apply Hcheck.
Qed.



(** ** Scopes *)

Lemma nextChild_eq active backTrack :
  nextChild active backTrack
  = match backTrack !! length active with
    | Some i => S i
    | None => 0
    end.
Proof.
  unfold nextChild.
  replace (Z.to_nat (Z.of_nat (length active) - 1 + 1)) with (length active)
    by lia.
  destruct (backTrack !! length active); [lia|reflexivity].
Qed.

Lemma beginScope_inv b r b' :
  beginScope b r = Returned b' ->
  exists node,
    nodeAt (activeScopePath b) (rootScope b) = Some node /\
    trackers b' = trackers b /\
    childSymbolTables b' = childSymbolTables b /\
    activeScopePath b'
      = activeScopePath b
          ++ [nextChild (activeScopePath b) (backTrackPath b)] /\
    backTrackPath b' = activeScopePath b' /\
    rootScope b'
      = match children node
                !! nextChild (activeScopePath b) (backTrackPath b) with
        | Some _ => rootScope b
        | None =>
            updateAt (activeScopePath b)
              (fun n =>
                 mkScopeNode (scope n) (position n)
                   (children n ++
                      [mkScopeNode []
                         (RealPosition (rangeStart r) (rangeEnd r)) []]))
              (rootScope b)
        end.
Proof.
  unfold beginScope, activeScopeNode.
  destruct (nodeAt (activeScopePath b) (rootScope b)) as [node|];
    cbn [andThen]; [|discriminate].
  intros [= <-]. exists node. simpl. auto 10.
Qed.

Lemma beginScope_returns b r :
  Active b -> exists b', beginScope b r = Returned b'.
Proof.
  intros [node Hn]. unfold beginScope, activeScopeNode. rewrite Hn.
  cbn [andThen]. eauto.
Qed.

Lemma beginScope_Bounded b r b' :
  Bounded b -> beginScope b r = Returned b' -> Bounded b'.
Proof.
  intros [Htree Htables] Hb.
  apply beginScope_inv in Hb
    as (node & Hn & Ht & Hc & _ & _ & Hroot).
  split; rewrite Ht.
  - intros path node' ref Hp Hin. rewrite Hroot in Hp.
    destruct (children node !! _); [eauto|].
    apply nodeAt_push in Hp as [->|(n & Hp & Hs)]; [| |reflexivity].
    + apply elem_of_nil in Hin as [].
    + rewrite Hs in Hin. eauto.
  - rewrite Hc. exact Htables.
Qed.

Lemma endScope_inv cooked b diags b' :
  endScope cooked b = Returned (diags, b') ->
  is_Some (nodeAt (activeScopePath b) (rootScope b)) /\
  b' = mkBuilder (trackers b) (rootScope b) (removelast (activeScopePath b))
         (backTrackPath b) (childSymbolTables b) (builderUri b).
Proof.
  unfold endScope, activeScopeNode.
  destruct (nodeAt (activeScopePath b) (rootScope b)) as [node|];
    cbn [andThen]; [|discriminate].
  destruct (unusedIn cooked (trackers b) (scopeValues (scope node)));
    cbn [andThen]; [|discriminate].
  intros [= <- <-]. eauto.
Qed.

Lemma unusedIn_returns cooked store refs :
  (forall ref, ref ∈ refs -> ref < length store) ->
  exists diags, unusedIn cooked store refs = Returned diags.
Proof.
  induction refs as [|ref refs IH]; intros Hin; simpl; [eauto|].
  destruct (lookup_lt_is_Some_2 store ref) as [t Ht].
  { apply Hin. left. }
  rewrite Ht.
  destruct IH as [diags Hd]. { intros r Hr. apply Hin. right. exact Hr. }
  rewrite Hd. destruct (declared t); simpl; eauto.
Qed.

Lemma endScope_returns cooked b :
  Active b -> Bounded b -> exists r, endScope cooked b = Returned r.
Proof.
  intros [node Hn] [Htree _]. unfold endScope, activeScopeNode. rewrite Hn.
  cbn [andThen].
  destruct (unusedIn_returns cooked (trackers b) (scopeValues (scope node)))
    as [diags Hd]. { intros ref Hin. eapply Htree; eauto. }
  rewrite Hd. cbn [andThen]. eauto.
Qed.

Lemma setVariable_inv b token d b' token' :
  setVariable b token = Returned (d, b', token') -> b' = b.
Proof.
  unfold setVariable.
  destruct (lookup b token ScopeType.global) as [[ref|]|]; cbn [andThen];
    [| |discriminate]; intros [= _ <- _]; reflexivity.
Qed.

Lemma setVariable_returns b token :
  Active b -> exists r, setVariable b token = Returned r.
Proof.
  intros Ha. unfold setVariable.
  destruct (lookup_returns b token ScopeType.global Ha) as [[ref|] ->];
    cbn [andThen]; eauto.
Qed.

Lemma declare_returns c b scopeType token :
  Active b -> Closed b -> exists r, declare c b scopeType token = Returned r.
Proof.
  intros Ha Hc.
  assert (H : exists result,
             declare c b scopeType token = Returned result /\
             (Conflict b scopeType token result \/
              Takes c b scopeType token result)).
  { destruct c; simpl;
      unfold declareVariable, declareFunction, declareLock, declareParameter;
      apply declareSymbol_either; auto. }
  destruct H as (result & Hr & _). eauto.
Qed.

(** ** The first pass *)

Lemma FirstPass_Active b : FirstPass b -> Active b.
Proof.
  intros [[rest Hp] Hk].
  destruct (Hk (length (activeScopePath b))) as (node & Hn & _).
  { rewrite Hp, length_app. lia. }
  rewrite Hp, take_app_length in Hn. exists node. exact Hn.
Qed.

Lemma newBuilder_FirstPass u : FirstPass (newBuilder u).
Proof.
  split; [reflexivity|]. simpl. intros k Hk.
  assert (k = 0) as -> by lia. eexists. split; reflexivity.
Qed.

(** In the first pass [beginScope] pushes a new node and enters it. *)
Lemma beginScope_FirstPass b r b' :
  FirstPass b -> beginScope b r = Returned b' ->
  FirstPass b' /\ peekScope b' = Returned [] /\
  exists node,
    nodeAt (activeScopePath b) (rootScope b) = Some node /\
    activeScopePath b' = activeScopePath b ++ [length (children node)].
Proof.
  intros [[rest Hp] Hk] Hb.
  apply beginScope_inv in Hb
    as (node & Hn & _ & _ & Hact & Hback & Hroot).
  set (p := activeScopePath b) in *.
  set (leaf := mkScopeNode [] (RealPosition (rangeStart r) (rangeEnd r)) [])
    in *.
  set (push := fun n : ScopeNode =>
                 mkScopeNode (scope n) (position n) (children n ++ [leaf]))
    in *.
  assert (Hnext : nextChild p (backTrackPath b) = length (children node)).
  { rewrite nextChild_eq.
    destruct (Hk (length p)) as (node0 & Hn0 & Hl0).
    { rewrite Hp, length_app. lia. }
    rewrite Hp, take_app_length in Hn0. congruence. }
  rewrite Hnext in *.
  rewrite lookup_ge_None_2 in Hroot by lia.
  assert (Hpush : forall n, exists extra, children (push n) = children n ++ extra)
    by (intros n; exists [leaf]; reflexivity).
  assert (Hnew : nodeAt (p ++ [length (children node)]) (rootScope b')
                 = Some leaf).
  { rewrite nodeAt_app, Hroot.
    destruct (nodeAt_updateAt_keeps push p Hpush p _ _ Hn)
      as (node' & -> & [[_ ->]|[Hne _]]); [|congruence].
    simpl. rewrite lookup_app_r by reflexivity.
    rewrite Nat.sub_diag. reflexivity. }
  split; [|split].
  - split; [rewrite Hback; reflexivity|].
    rewrite Hback, Hact. intros k Hle. rewrite length_app in Hle. simpl in Hle.
    destruct (decide (k <= length p)) as [Hin|Hout].
    + rewrite take_app_le by exact Hin.
      destruct (Hk k) as (nk & Hnk & Hlk).
      { rewrite Hp, length_app. lia. }
      rewrite Hp, take_app_le in Hnk by exact Hin.
      destruct (nodeAt_updateAt_keeps push p Hpush _ _ _ Hnk)
        as (node' & Hn' & Hcase).
      exists node'. rewrite Hroot. split; [exact Hn'|].
      destruct Hcase as [[Heq ->]|(Hne & _ & Hlen)].
      * assert (k = length p) as ->.
        { apply (f_equal length) in Heq. rewrite length_take in Heq. lia. }
        rewrite firstn_all in Hnk. assert (nk = node) as -> by congruence.
        rewrite lookup_app_r by reflexivity. rewrite Nat.sub_diag. simpl.
        rewrite length_app. simpl. lia.
      * assert (k < length p).
        { destruct (decide (k = length p)) as [->|]; [|lia].
          rewrite firstn_all in Hne. congruence. }
        rewrite Hlen, Hlk, Hp. rewrite !lookup_app_l by lia. reflexivity.
    + assert (k = S (length p)) as -> by lia.
      rewrite take_ge by (rewrite length_app; simpl; lia).
      exists leaf. split; [exact Hnew|].
      rewrite lookup_ge_None_2 by (rewrite length_app; simpl; lia).
      reflexivity.
  - unfold peekScope, activeScopeNode. rewrite Hact, Hnew. reflexivity.
  - exists node. auto.
Qed.

Lemma take_prefix_of {A} n (l : list A) : take n l `prefix_of` l.
Proof. exists (drop n l). symmetry. apply take_drop. Qed.

Lemma removelast_prefix_of {A} (l : list A) : removelast l `prefix_of` l.
Proof. rewrite removelast_firstn_len. apply take_prefix_of. Qed.

Lemma FirstPass_paths b b' :
  FirstPass b ->
  activeScopePath b' `prefix_of` activeScopePath b ->
  backTrackPath b' = backTrackPath b ->
  (forall q node,
     nodeAt q (rootScope b) = Some node ->
     exists node',
       nodeAt q (rootScope b') = Some node' /\
       length (children node') = length (children node)) ->
  FirstPass b'.
Proof.
  intros [Hp Hk] Hact Hback Htree. split.
  - rewrite Hback. etrans; eassumption.
  - rewrite Hback. intros k Hle.
    destruct (Hk k Hle) as (node & Hn & Hl).
    destruct (Htree _ _ Hn) as (node' & Hn' & Hl').
    exists node'. split; [exact Hn'|congruence].
Qed.

Lemma setInScope_FirstPass b scopeType key t ref :
  FirstPass b -> FirstPass (setInScope (addTracker b t) scopeType key ref).
Proof.
  intros Hf. apply (FirstPass_paths b); [exact Hf|reflexivity|reflexivity|].
  intros q node Hq. unfold setInScope. simpl.
  match goal with
  | |- context [updateAt ?p ?f _] =>
      destruct (nodeAt_updateAt_keeps f p
                  ltac:(intros n; exists []; simpl; rewrite app_nil_r;
                        reflexivity) _ _ _ Hq)
        as (node' & Hn' & Hcase)
  end.
  exists node'. split; [exact Hn'|].
  destruct Hcase as [[_ ->]|(_ & _ & Hl)]; [reflexivity|exact Hl].
Qed.

(** Each call of a first pass returns, and leaves a builder in its first
    pass whose scopes refer to trackers of the store. *)
Lemma call_first_pass cooked c b :
  FirstPass b -> Bounded b ->
  exists ds b',
    call cooked c b = Returned (ds, b') /\ FirstPass b' /\ Bounded b'.
Proof.
  intros Hf Hb. pose proof (FirstPass_Active _ Hf) as Ha.
  pose proof (Bounded_Closed _ Hb) as Hc.
  destruct c as [r| |c scopeType token|u nm e|token]; cbn [call].
  - destruct (beginScope_returns b r Ha) as [b' Hb']. rewrite Hb'.
    cbn [andThen]. eexists _, _. split; [reflexivity|].
    split; [exact (proj1 (beginScope_FirstPass _ _ _ Hf Hb'))|].
    eapply beginScope_Bounded; eassumption.
  - destruct (endScope_returns cooked b Ha Hb) as [[ds b'] Hr].
    rewrite Hr. exists ds, b'. split; [reflexivity|].
    apply endScope_inv in Hr as [_ ->]. split.
    + apply (FirstPass_paths b); [exact Hf| |reflexivity|eauto].
      apply removelast_prefix_of.
    + exact Hb.
  - destruct (declare_returns c b scopeType token Ha Hc) as [[[d b'] token'] Hr].
    rewrite Hr. cbn [andThen]. eexists _, _. split; [reflexivity|]. simpl.
    split; [|exact (proj2 (declare_well_formed _ _ _ _ _ _ _ Ha Hb Hr))].
    apply declare_inv in Hr as [(ref & _ & -> & _)|(_ & _ & ->)];
      [exact Hf|]. apply setInScope_FirstPass. exact Hf.
  - destruct (use_returns u b nm e Ha Hc) as [[[d b'] nm'] Hr].
    rewrite Hr. cbn [andThen]. eexists _, _. split; [reflexivity|]. simpl.
    split; [|exact (proj2 (use_well_formed _ _ _ _ _ _ _ Ha Hb Hr))].
    apply use_inv in Hr. destruct d as [diagnostic|].
    + destruct Hr as (-> & _). exact Hf.
    + destruct Hr as (ref & t & _ & _ & _ & ->).
      apply (FirstPass_paths b); [exact Hf|reflexivity|reflexivity|eauto].
  - destruct (setVariable_returns b token Ha) as [[[d b'] token'] Hr].
    rewrite Hr. cbn [andThen]. eexists _, _. split; [reflexivity|]. simpl.
    apply setVariable_inv in Hr as ->. auto.
Qed.

Lemma calls_first_pass cooked cs : forall b,
  FirstPass b -> Bounded b ->
  exists ds b',
    calls cooked cs b = Returned (ds, b') /\ FirstPass b' /\ Bounded b'.
Proof.
  induction cs as [|c cs IH]; intros b Hf Hb; cbn [calls].
  - eauto.
  - destruct (call_first_pass cooked c b Hf Hb) as (ds & b1 & -> & Hf1 & Hb1).
    cbn [andThen]. simpl.
    destruct (IH b1 Hf1 Hb1) as (ds' & b' & -> & Hf' & Hb').
    cbn [andThen]. simpl. eauto.
Qed.

Lemma calls_inv_first_pass cooked cs b ds b' :
  FirstPass b -> Bounded b ->
  calls cooked cs b = Returned (ds, b') -> FirstPass b' /\ Bounded b'.
Proof.
  intros Hf Hb Hr.
  destruct (calls_first_pass cooked cs b Hf Hb) as (ds0 & b0 & Hr0 & H).
  rewrite Hr0 in Hr. injection Hr as _ <-. exact H.
Qed.

(** X18.  The first pass never throws.  From a new builder, no sequence
    of calls of [beginScope], [endScope], the four declare methods, the
    five use methods and [setVariable] throws: the run returns its
    diagnostics and a builder whose active path leads to a node of the
    tree, so that the error [Unable to find scope node] is out of
    reach. *)
Theorem first_pass_never_throws cooked u cs :
  exists ds b,
    calls cooked cs (newBuilder u) = Returned (ds, b) /\
    (exists node, activeScopeNode b = Returned node) /\
    (exists scopes, activeScopeStack b = Returned scopes).
Proof.
  destruct (calls_first_pass cooked cs (newBuilder u)
              (newBuilder_FirstPass u)
              (proj2 (newBuilder_well_formed u)))
    as (ds & b & Hr & Hf & _).
  exists ds, b. split; [exact Hr|].
  destruct (FirstPass_Active _ Hf) as [node Hn].
  unfold activeScopeNode, activeScopeStack. rewrite Hn.
  destruct (stackAt_nodeAt _ _ _ Hn) as [scopes ->]. eauto.
Qed.

(** X19.  A scope opened in the first pass is new.  After any calls from
    a new builder, [beginScope] pushes a node below the active one and
    enters it: the active scope is then empty, whatever the blocks
    opened before declared, and a local lookup finds nothing. *)
Theorem first_pass_scope_is_new cooked u cs ds b r b' :
  calls cooked cs (newBuilder u) = Returned (ds, b) ->
  beginScope b r = Returned b' ->
  peekScope b' = Returned [] /\
  (forall token, lookup b' token ScopeType.local = Returned None) /\
  exists node,
    nodeAt (activeScopePath b) (rootScope b) = Some node /\
    activeScopePath b' = activeScopePath b ++ [length (children node)] /\
    nodeAt (activeScopePath b') (rootScope b) = None.
Proof.
  intros Hr Hb.
  destruct (calls_inv_first_pass _ _ _ _ _ (newBuilder_FirstPass u)
              (proj2 (newBuilder_well_formed u)) Hr) as [Hf _].
  destruct (beginScope_FirstPass _ _ _ Hf Hb) as (_ & Hpeek & node & Hn & Hact).
  split; [exact Hpeek|]. split.
  - intros token. unfold lookup. rewrite Hpeek. reflexivity.
  - exists node. split; [exact Hn|]. split; [exact Hact|].
    rewrite Hact, nodeAt_app, Hn. simpl.
    rewrite lookup_ge_None_2 by lia. reflexivity.
Qed.

Lemma first_pass_scope_is_new_witness :
  exists ds b b',
    calls rawLocks sampleBlock (newBuilder sampleUri) = Returned (ds, b) /\
    beginScope b sampleRange = Returned b' /\
    peekScope b' = Returned [].
Proof.
  assert (H1 : calls rawLocks sampleBlock (newBuilder sampleUri)
               = Returned (reports blockRun, afterBlock))
    by (vm_compute; reflexivity).
  assert (H2 : beginScope afterBlock sampleRange
               = Returned (entered afterBlock
                             (beginScope afterBlock sampleRange)))
    by (vm_compute; reflexivity).
  eexists _, _, _. split; [exact H1|]. split; [exact H2|].
  exact (proj1 (first_pass_scope_is_new _ _ _ _ _ _ _ H1 H2)).
Defined.

(** ** The second pass *)

Lemma call_paths cooked c b ds b' :
  call cooked c b = Returned (ds, b') ->
  (activeScopePath b', backTrackPath b')
  = walk (skeleton [c]) (activeScopePath b, backTrackPath b).
Proof.
  destruct c as [r| |c scopeType token|u nm e|token]; cbn [call skeleton walk].
  - destruct (beginScope b r) as [b0|] eqn:Hb; cbn [andThen]; [|discriminate].
    intros [= _ <-].
    apply beginScope_inv in Hb as (_ & _ & _ & _ & Hact & Hback & _).
    rewrite Hback, Hact. reflexivity.
  - intros Hr. apply endScope_inv in Hr as [_ ->]. reflexivity.
  - destruct (declare c b scopeType token) as [[[d b0] token0]|] eqn:Hr;
      cbn [andThen]; [|discriminate].
    intros [= _ <-].
    apply declare_inv in Hr as [(ref & _ & -> & _)|(_ & _ & ->)]; reflexivity.
  - destruct (use u b nm e) as [[[d b0] nm0]|] eqn:Hr;
      cbn [andThen]; [|discriminate].
    intros [= _ <-]. apply use_inv in Hr. destruct d as [diagnostic|].
    + destruct Hr as (-> & _). reflexivity.
    + destruct Hr as (ref & t & _ & _ & _ & ->). reflexivity.
  - destruct (setVariable b token) as [[[d b0] token0]|] eqn:Hr;
      cbn [andThen]; [|discriminate].
    intros [= _ <-]. apply setVariable_inv in Hr as ->. reflexivity.
Qed.

Lemma skeleton_cons c cs : skeleton (c :: cs) = skeleton [c] ++ skeleton cs.
Proof. destruct c; reflexivity. Qed.

Lemma walk_app s1 : forall s2 paths,
  walk (s1 ++ s2) paths = walk s2 (walk s1 paths).
Proof.
  induction s1 as [|[] s1 IH]; intros s2 paths; simpl; [reflexivity| |];
    apply IH.
Qed.

Lemma calls_cons cooked c cs b ds b' :
  calls cooked (c :: cs) b = Returned (ds, b') ->
  exists d1 b1 d2,
    call cooked c b = Returned (d1, b1) /\
    calls cooked cs b1 = Returned (d2, b') /\ ds = d1 ++ d2.
Proof.
  cbn [calls]. destruct (call cooked c b) as [[d1 b1]|]; cbn [andThen];
    [|discriminate].
  simpl. destruct (calls cooked cs b1) as [[d2 b2]|] eqn:Hcs; cbn [andThen];
    [|discriminate].
  simpl. intros [= <- <-]. exists d1, b1, d2. auto.
Qed.

(** The two paths after a run depend on the scopes it opens and closes
    only. *)
Lemma calls_walk cooked cs : forall b ds b',
  calls cooked cs b = Returned (ds, b') ->
  (activeScopePath b', backTrackPath b')
  = walk (skeleton cs) (activeScopePath b, backTrackPath b).
Proof.
  induction cs as [|c cs IH]; intros b ds b' Hr.
  - simpl in Hr. injection Hr as _ <-. reflexivity.
  - apply calls_cons in Hr as (d1 & b1 & d2 & Hc & Hcs & _).
    rewrite skeleton_cons, walk_app, <- (call_paths _ _ _ _ _ Hc).
    eapply IH. exact Hcs.
Qed.

(** No call removes a node of the tree. *)
Lemma call_grows cooked c b ds b' :
  call cooked c b = Returned (ds, b') ->
  forall q, is_Some (nodeAt q (rootScope b)) ->
            is_Some (nodeAt q (rootScope b')).
Proof.
  destruct c as [r| |c scopeType token|u nm e|token]; cbn [call].
  - destruct (beginScope b r) as [b0|] eqn:Hb; cbn [andThen]; [|discriminate].
    intros [= _ <-] q [n Hq].
    apply beginScope_inv in Hb as (node & _ & _ & _ & _ & _ & ->).
    destruct (children node !! _); [eauto|].
    match goal with
    | |- context [updateAt ?p ?f _] =>
        destruct (nodeAt_updateAt_keeps f p
                    ltac:(intros; eexists; reflexivity) _ _ _ Hq)
          as (node' & -> & _)
    end. eauto.
  - intros Hr. apply endScope_inv in Hr as [_ ->]. auto.
  - destruct (declare c b scopeType token) as [[[d b0] token0]|] eqn:Hr;
      cbn [andThen]; [|discriminate].
    intros [= _ <-] q [n Hq].
    apply declare_inv in Hr as [(ref & _ & -> & _)|(_ & _ & ->)]; [eauto|].
    unfold setInScope. simpl.
    match goal with
    | |- context [updateAt ?p ?f _] =>
        destruct (nodeAt_updateAt_keeps f p
                    ltac:(intros; exists []; simpl; rewrite app_nil_r;
                          reflexivity) _ _ _ Hq)
          as (node' & -> & _)
    end. eauto.
  - destruct (use u b nm e) as [[[d b0] nm0]|] eqn:Hr;
      cbn [andThen]; [|discriminate].
    intros [= _ <-]. apply use_inv in Hr. destruct d as [diagnostic|].
    + destruct Hr as (-> & _). auto.
    + destruct Hr as (ref & t & _ & _ & _ & ->). auto.
  - destruct (setVariable b token) as [[[d b0] token0]|] eqn:Hr;
      cbn [andThen]; [|discriminate].
    intros [= _ <-]. apply setVariable_inv in Hr as ->. auto.
Qed.

Lemma calls_grows cooked cs : forall b ds b',
  calls cooked cs b = Returned (ds, b') ->
  forall q, is_Some (nodeAt q (rootScope b)) ->
            is_Some (nodeAt q (rootScope b')).
Proof.
  induction cs as [|c cs IH]; intros b ds b' Hr q Hq.
  - simpl in Hr. injection Hr as _ <-. exact Hq.
  - apply calls_cons in Hr as (d1 & b1 & d2 & Hc & Hcs & _).
    eapply IH; [exact Hcs|]. eapply call_grows; eassumption.
Qed.

Lemma visited_head s active backTrack :
  exists rest, visited s active backTrack = active :: rest.
Proof. destruct s as [|[] s]; simpl; eauto. Qed.

(** The active paths of a first pass lead to nodes of the tree it
    leaves. *)
Lemma calls_visited cooked cs : forall b ds b',
  FirstPass b -> Bounded b ->
  calls cooked cs b = Returned (ds, b') ->
  Forall (fun q => is_Some (nodeAt q (rootScope b')))
    (visited (skeleton cs) (activeScopePath b) (backTrackPath b)).
Proof.
  induction cs as [|c cs IH]; intros b ds b' Hf Hb Hr.
  - simpl in Hr. injection Hr as _ <-. simpl. constructor; [|constructor].
    exact (FirstPass_Active _ Hf).
  - pose proof (calls_grows _ _ _ _ _ Hr _ (FirstPass_Active _ Hf)) as Hhere.
    apply calls_cons in Hr as (d1 & b1 & d2 & Hc & Hcs & _).
    destruct (call_first_pass cooked c b Hf Hb) as (d0 & b0 & Hc0 & Hf1 & Hb1).
    rewrite Hc0 in Hc. injection Hc as -> ->.
    pose proof (IH _ _ _ Hf1 Hb1 Hcs) as Hrest.
    pose proof (call_paths _ _ _ _ _ Hc0) as Hp.
    destruct c as [r| |c scopeType token|u nm e|token];
      cbn [skeleton walk visited fst snd] in *;
      injection Hp as Hact Hback; rewrite Hact, Hback in Hrest;
      try (constructor; [exact Hhere|]); exact Hrest.
Qed.

Lemma SameShape_refl t : SameShape t t.
Proof. intros path. reflexivity. Qed.

Lemma SameShape_trans t1 t2 t3 :
  SameShape t1 t2 -> SameShape t2 t3 -> SameShape t1 t3.
Proof. intros H1 H2 path. rewrite (H1 path). apply H2. Qed.

Lemma setInScope_SameShape b scopeType key t ref :
  SameShape (rootScope (setInScope (addTracker b t) scopeType key ref))
    (rootScope b).
Proof.
  intros q. unfold setInScope. simpl. split.
  - intros [n Hq]. apply nodeAt_setScope in Hq as (node & -> & _). eauto.
  - intros [n Hq].
    match goal with
    | |- context [updateAt ?p ?f _] =>
        destruct (nodeAt_updateAt_keeps f p
                    ltac:(intros; exists []; simpl; rewrite app_nil_r;
                          reflexivity) _ _ _ Hq)
          as (node' & -> & _)
    end. eauto.
Qed.

(** A run whose active paths all lead to nodes of the tree returns, and
    leaves the tree with the nodes it had. *)
Lemma calls_revisit cooked cs : forall a,
  Bounded a ->
  Forall (fun q => is_Some (nodeAt q (rootScope a)))
    (visited (skeleton cs) (activeScopePath a) (backTrackPath a)) ->
  exists ds a',
    calls cooked cs a = Returned (ds, a') /\
    SameShape (rootScope a') (rootScope a).
Proof.
  induction cs as [|c cs IH]; intros a Hb Hv.
  - simpl. eexists _, _. split; [reflexivity|]. apply SameShape_refl.
  - assert (Ha : Active a).
    { destruct (visited_head (skeleton (c :: cs)) (activeScopePath a)
                  (backTrackPath a)) as [rest Hrest].
      rewrite Hrest in Hv. apply Forall_cons in Hv as [Hv _]. exact Hv. }
    pose proof (Bounded_Closed _ Hb) as Hc.
    assert (Hstep : exists d1 a1,
               call cooked c a = Returned (d1, a1) /\ Bounded a1 /\
               SameShape (rootScope a1) (rootScope a) /\
               Forall (fun q => is_Some (nodeAt q (rootScope a1)))
                 (visited (skeleton cs) (activeScopePath a1)
                    (backTrackPath a1))).
    { destruct c as [r| |c scopeType token|u nm e|token];
        cbn [call skeleton visited] in *.
      - apply Forall_cons in Hv as [_ Hv].
        destruct (beginScope_returns a r Ha) as [a1 Ha1]. rewrite Ha1.
        cbn [andThen]. eexists _, _. split; [reflexivity|].
        split; [eapply beginScope_Bounded; eassumption|].
        apply beginScope_inv in Ha1
          as (node & Hn & _ & _ & Hact & Hback & Hroot).
        assert (Hsame : rootScope a1 = rootScope a).
        { rewrite Hroot.
          destruct (visited_head (skeleton cs)
                      (activeScopePath a
                         ++ [nextChild (activeScopePath a) (backTrackPath a)])
                      (activeScopePath a
                         ++ [nextChild (activeScopePath a) (backTrackPath a)]))
            as [rest Hrest].
          rewrite Hrest in Hv. apply Forall_cons in Hv as [[n Hv] _].
          rewrite nodeAt_app, Hn in Hv. simpl in Hv.
          destruct (children node !! _); [reflexivity|discriminate]. }
        rewrite Hsame, Hback, Hact.
        split; [apply SameShape_refl|exact Hv].
      - apply Forall_cons in Hv as [_ Hv].
        destruct (endScope_returns cooked a Ha Hb) as [[d1 a1] Hr].
        rewrite Hr. exists d1, a1. split; [reflexivity|].
        apply endScope_inv in Hr as [_ ->].
        split; [exact Hb|]. split; [apply SameShape_refl|exact Hv].
      - destruct (declare_returns c a scopeType token Ha Hc)
          as [[[d a1] token'] Hr].
        rewrite Hr. cbn [andThen]. eexists _, _. split; [reflexivity|]. simpl.
        split; [exact (proj2 (declare_well_formed _ _ _ _ _ _ _ Ha Hb Hr))|].
        apply declare_inv in Hr as [(ref & _ & -> & _)|(_ & _ & ->)].
        + split; [apply SameShape_refl|exact Hv].
        + split; [apply setInScope_SameShape|].
          eapply Forall_impl; [exact Hv|]. intros q Hq.
          apply setInScope_SameShape. exact Hq.
      - destruct (use_returns u a nm e Ha Hc) as [[[d a1] nm'] Hr].
        rewrite Hr. cbn [andThen]. eexists _, _. split; [reflexivity|]. simpl.
        split; [exact (proj2 (use_well_formed _ _ _ _ _ _ _ Ha Hb Hr))|].
        apply use_inv in Hr. destruct d as [diagnostic|].
        + destruct Hr as (-> & _). split; [apply SameShape_refl|exact Hv].
        + destruct Hr as (ref & t & _ & _ & _ & ->).
          split; [apply SameShape_refl|exact Hv].
      - destruct (setVariable_returns a token Ha) as [[[d a1] token'] Hr].
        rewrite Hr. cbn [andThen]. eexists _, _. split; [reflexivity|]. simpl.
        apply setVariable_inv in Hr as ->.
        split; [exact Hb|]. split; [apply SameShape_refl|exact Hv]. }
    destruct Hstep as (d1 & a1 & Hc1 & Hb1 & Hs1 & Hv1).
    destruct (IH a1 Hb1 Hv1) as (ds & a' & Hcs & Hs).
    cbn [calls]. rewrite Hc1. cbn [andThen]. simpl. rewrite Hcs.
    cbn [andThen]. simpl. eexists _, _. split; [reflexivity|].
    eapply SameShape_trans; eassumption.
Qed.

(** X20.  The second pass walks the scopes of the first.  After a first
    pass from a new builder and [rewindScope], a run that opens and
    closes scopes in the order of the first pass, with whatever declare
    and use calls in between, does not throw, enters at each
    [beginScope] the node the first pass pushed there instead of pushing
    one, and ends on the paths the first pass ended on. *)
Theorem second_pass_revisits cooked u cs1 cs2 d1 b1 :
  calls cooked cs1 (newBuilder u) = Returned (d1, b1) ->
  skeleton cs2 = skeleton cs1 ->
  exists d2 b2,
    calls cooked cs2 (rewindScope b1) = Returned (d2, b2) /\
    activeScopePath b2 = activeScopePath b1 /\
    backTrackPath b2 = backTrackPath b1 /\
    SameShape (rootScope b2) (rootScope b1).
Proof.
  intros Hr Hs.
  pose proof (calls_visited _ _ _ _ _ (newBuilder_FirstPass u)
                (proj2 (newBuilder_well_formed u)) Hr) as Hv.
  destruct (calls_inv_first_pass _ _ _ _ _ (newBuilder_FirstPass u)
              (proj2 (newBuilder_well_formed u)) Hr) as [_ Hb1].
  destruct (calls_revisit cooked cs2 (rewindScope b1)) as (d2 & b2 & Hr2 & Hsh).
  - exact Hb1.
  - rewrite Hs. exact Hv.
  - exists d2, b2. split; [exact Hr2|].
    pose proof (calls_walk _ _ _ _ _ Hr) as H1.
    pose proof (calls_walk _ _ _ _ _ Hr2) as H2.
    rewrite Hs in H2. simpl in H1, H2. rewrite <- H1 in H2.
    injection H2 as -> ->. auto.
Qed.

Lemma second_pass_revisits_witness :
  exists d1 b1 d2 b2,
    calls rawLocks sampleBlock (newBuilder sampleUri) = Returned (d1, b1) /\
    calls rawLocks sampleSecondPass (rewindScope b1) = Returned (d2, b2) /\
    SameShape (rootScope b2) (rootScope b1).
Proof.
  assert (H1 : calls rawLocks sampleBlock (newBuilder sampleUri)
               = Returned (reports blockRun, afterBlock))
    by (vm_compute; reflexivity).
  destruct (second_pass_revisits rawLocks sampleUri sampleBlock
              sampleSecondPass _ _ H1 eq_refl)
    as (d2 & b2 & Hr & _ & _ & Hs).
  eexists _, _, d2, b2. split; [exact H1|]. split; [exact Hr|exact Hs].
Defined.

(** ** What the calls keep *)

Lemma lookup_None_scope b token scopeType path node :
  lookup b token scopeType = Returned None ->
  path = match scopeType with
         | ScopeType.global => []
         | ScopeType.local => activeScopePath b
         end ->
  nodeAt path (rootScope b) = Some node ->
  scopeGet (scope node) (lexeme token) = None.
Proof.
  intros Hl -> Hn. destruct scopeType.
  - unfold lookup, peekScope, activeScopeNode in Hl. rewrite Hn in Hl.
    cbn [andThen] in Hl. congruence.
  - simpl in Hn. injection Hn as <-.
    unfold lookup, activeScopeStack in Hl.
    destruct (stackAt (activeScopePath b) (rootScope b)) as [scopes|] eqn:Hs;
      cbn [andThen] in Hl; [|discriminate].
    destruct (firstInStack (reverse scopes) (lexeme token)) eqn:Hf;
      [discriminate|].
    apply (firstInStack_None _ _ Hf).
    destruct (stackAt_root _ _ _ Hs) as (rest & -> & _).
    rewrite reverse_cons. apply elem_of_app. right. left.
Qed.

Lemma call_keeps_bindings cooked c b ds b' q n key ref :
  call cooked c b = Returned (ds, b') ->
  nodeAt q (rootScope b) = Some n ->
  scopeGet (scope n) key = Some ref ->
  exists n',
    nodeAt q (rootScope b') = Some n' /\ scopeGet (scope n') key = Some ref.
Proof.
  intros Hr Hq Hk.
  destruct c as [r| |c scopeType token|u nm e|token]; cbn [call] in Hr.
  - destruct (beginScope b r) as [b0|] eqn:Hb; cbn [andThen] in Hr;
      [|discriminate].
    injection Hr as _ <-.
    apply beginScope_inv in Hb as (node & _ & _ & _ & _ & _ & ->).
    destruct (children node !! _); [eauto|].
    match goal with
    | |- context [updateAt ?p ?f _] =>
        destruct (nodeAt_updateAt_keeps f p
                    ltac:(intros; eexists; reflexivity) _ _ _ Hq)
          as (node' & -> & Hcase)
    end.
    exists node'. split; [reflexivity|].
    destruct Hcase as [[_ ->]|(_ & -> & _)]; exact Hk.
  - apply endScope_inv in Hr as [_ ->]. eauto.
  - destruct (declare c b scopeType token) as [[[d b0] token0]|] eqn:Hd;
      cbn [andThen] in Hr; [|discriminate].
    injection Hr as _ <-.
    apply declare_inv in Hd as [(r0 & _ & -> & _)|(Hl & _ & ->)]; [eauto|].
    unfold setInScope. simpl.
    match goal with
    | |- context [updateAt ?p ?f _] =>
        destruct (nodeAt_updateAt_keeps f p
                    ltac:(intros; exists []; simpl; rewrite app_nil_r;
                          reflexivity) _ _ _ Hq)
          as (node' & -> & Hcase)
    end.
    exists node'. split; [reflexivity|].
    destruct Hcase as [[Heq ->]|(_ & -> & _)]; [|exact Hk].
    simpl. destruct (decide (key = lexeme token)) as [->|Hne].
    + pose proof (lookup_None_scope b token scopeType q n Hl) as Hnone.
      rewrite Hnone in Hk; [discriminate| |exact Hq].
      rewrite Heq. destruct scopeType; reflexivity.
    + rewrite scopeGet_scopeSet_ne by exact Hne. exact Hk.
  - destruct (use u b nm e) as [[[d b0] nm0]|] eqn:Hu;
      cbn [andThen] in Hr; [|discriminate].
    injection Hr as _ <-. apply use_inv in Hu. destruct d as [diagnostic|].
    + destruct Hu as (-> & _). eauto.
    + destruct Hu as (r0 & t & _ & _ & _ & ->). eauto.
  - destruct (setVariable b token) as [[[d b0] token0]|] eqn:Hs;
      cbn [andThen] in Hr; [|discriminate].
    injection Hr as _ <-. apply setVariable_inv in Hs as ->. eauto.
Qed.

Lemma call_keeps_symbols cooked c b ds b' ref t :
  call cooked c b = Returned (ds, b') ->
  trackers b !! ref = Some t ->
  exists t', trackers b' !! ref = Some t' /\ declared t' = declared t.
Proof.
  intros Hr Ht.
  destruct c as [r| |c scopeType token|u nm e|token]; cbn [call] in Hr.
  - destruct (beginScope b r) as [b0|] eqn:Hb; cbn [andThen] in Hr;
      [|discriminate].
    injection Hr as _ <-.
    apply beginScope_inv in Hb as (node & _ & -> & _). eauto.
  - apply endScope_inv in Hr as [_ ->]. eauto.
  - destruct (declare c b scopeType token) as [[[d b0] token0]|] eqn:Hd;
      cbn [andThen] in Hr; [|discriminate].
    injection Hr as _ <-.
    apply declare_inv in Hd as [(r0 & _ & -> & _)|(Hl & _ & ->)]; [eauto|].
    unfold setInScope, addTracker. simpl. exists t.
    rewrite lookup_app_l by (eapply lookup_lt_Some; eassumption). auto.
  - destruct (use u b nm e) as [[[d b0] nm0]|] eqn:Hu;
      cbn [andThen] in Hr; [|discriminate].
    injection Hr as _ <-. apply use_inv in Hu. destruct d as [diagnostic|].
    + destruct Hu as (-> & _). eauto.
    + destruct Hu as (r0 & t0 & _ & _ & _ & ->).
      rewrite pushUsage_lookup. case_decide; [subst r0|eauto].
      rewrite Ht. simpl. eauto.
  - destruct (setVariable b token) as [[[d b0] token0]|] eqn:Hs;
      cbn [andThen] in Hr; [|discriminate].
    injection Hr as _ <-. apply setVariable_inv in Hs as ->. eauto.
Qed.

(** X21.  A name stays bound.  No call of [beginScope], [endScope], the
    declare methods, the use methods or [setVariable] removes a name
    from a scope or binds it to another tracker, and no call changes the
    symbol a tracker declares: what a scope node binds a name to, it
    binds it to after any run that returns. *)
Theorem bindings_are_kept cooked cs : forall b ds b' q n key ref t,
  calls cooked cs b = Returned (ds, b') ->
  nodeAt q (rootScope b) = Some n ->
  scopeGet (scope n) key = Some ref ->
  trackers b !! ref = Some t ->
  exists n' t',
    nodeAt q (rootScope b') = Some n' /\
    scopeGet (scope n') key = Some ref /\
    trackers b' !! ref = Some t' /\
    declared t' = declared t.
Proof.
  induction cs as [|c cs IH]; intros b ds b' q n key ref t Hr Hq Hk Ht.
  - simpl in Hr. injection Hr as _ <-. eauto 10.
  - apply calls_cons in Hr as (d1 & b1 & d2 & Hc & Hcs & _).
    destruct (call_keeps_bindings _ _ _ _ _ _ _ _ _ Hc Hq Hk)
      as (n1 & Hq1 & Hk1).
    destruct (call_keeps_symbols _ _ _ _ _ _ _ Hc Ht) as (t1 & Ht1 & Hd1).
    destruct (IH _ _ _ _ _ _ _ _ Hcs Hq1 Hk1 Ht1)
      as (n' & t' & Hq' & Hk' & Ht' & Hd').
    exists n', t'. repeat split; try assumption. congruence.
Qed.

Lemma bindings_are_kept_witness :
  exists ds b' n' t',
    calls rawLocks sampleSecondPass withFunction = Returned (ds, b') /\
    nodeAt [] (rootScope b') = Some n' /\
    scopeGet (scope n') "hi" = Some 0 /\
    trackers b' !! 0 = Some t' /\
    tag (declared t') = KsSymbolKind.function.
Proof.
  assert (H1 : calls rawLocks sampleSecondPass withFunction
               = Returned
                   (reports (calls rawLocks sampleSecondPass withFunction),
                    ended withFunction
                      (calls rawLocks sampleSecondPass withFunction)))
    by (vm_compute; reflexivity).
  assert (H2 : trackers withFunction !! 0
               = Some (newTracker
                         (KsFunction ScopeType.global
                            (setTracker (sampleName "hi") 0) [] false) None))
    by (vm_compute; reflexivity).
  assert (H3 : scopeGet (scope (rootScope withFunction)) "hi" = Some 0)
    by (vm_compute; reflexivity).
  destruct (bindings_are_kept rawLocks sampleSecondPass withFunction _ _
              [] (rootScope withFunction) "hi" 0 _ H1 eq_refl H3 H2)
    as (n' & t' & Hq & Hk & Ht & Hd).
  eexists _, _, n', t'. split; [exact H1|]. split; [exact Hq|].
  split; [exact Hk|]. split; [exact Ht|]. rewrite Hd. reflexivity.
Defined.

(** ** Blocks *)

Lemma length_removelast {A} (l : list A) :
  length (removelast l) = pred (length l).
Proof.
  rewrite removelast_firstn_len, length_take. lia.
Qed.

Section Block.

Variable b : Builder.

Lemma Agree_tree c c' :
  Agree b c ->
  childSymbolTables c' = childSymbolTables c ->
  (forall k n,
     k <= length (activeScopePath b) ->
     nodeAt (take k (activeScopePath b)) (rootScope c) = Some n ->
     exists n',
       nodeAt (take k (activeScopePath b)) (rootScope c') = Some n' /\
       scope n' = scope n) ->
  Agree b c'.
Proof.
  intros [Ht Hk] Ht' Hn. split; [congruence|].
  intros k Hle. destruct (Hk k Hle) as (n & n1 & Hb & Hc & Hs).
  destruct (Hn k n1 Hle Hc) as (n' & Hc' & Hs').
  exists n, n'. split; [exact Hb|]. split; [exact Hc'|congruence].
Qed.

Lemma call_inside cooked c cs d ext cur ds cur' :
  stays d (c :: cs) = true ->
  activeScopePath cur = activeScopePath b ++ ext -> length ext = d ->
  Agree b cur ->
  call cooked c cur = Returned (ds, cur') ->
  exists d' ext',
    stays d' cs = true /\
    activeScopePath cur' = activeScopePath b ++ ext' /\ length ext' = d' /\
    Agree b cur'.
Proof.
  intros Hst Hact Hlen Hag Hr.
  destruct c as [r| |c scopeType token|u nm e|token];
    cbn [call stays] in Hr, Hst.
  - destruct (beginScope cur r) as [c0|] eqn:Hb; cbn [andThen] in Hr;
      [|discriminate].
    injection Hr as _ <-.
    apply beginScope_inv in Hb as (node & _ & _ & Htab & Hact' & _ & Hroot).
    exists (S d), (ext ++ [nextChild (activeScopePath cur) (backTrackPath cur)]).
    split; [exact Hst|]. split; [rewrite Hact', Hact, app_assoc; reflexivity|].
    split; [rewrite length_app; simpl; lia|].
    apply (Agree_tree cur); [exact Hag|exact Htab|].
    intros k n Hle Hn. rewrite Hroot.
    destruct (children node !! _); [eauto|].
    match goal with
    | |- context [updateAt ?p ?f _] =>
        destruct (nodeAt_updateAt_keeps f p
                    ltac:(intros; eexists; reflexivity) _ _ _ Hn)
          as (node' & -> & Hcase)
    end.
    exists node'. split; [reflexivity|].
    destruct Hcase as [[_ ->]|(_ & -> & _)]; reflexivity.
  - destruct d as [|d]; [discriminate|].
    apply endScope_inv in Hr as [_ ->]. simpl.
    exists d, (removelast ext).
    split; [exact Hst|].
    split; [rewrite Hact; apply removelast_app; intros ->; discriminate|].
    split; [rewrite length_removelast, Hlen; reflexivity|].
    apply (Agree_tree cur); [exact Hag|reflexivity|eauto].
  - destruct scopeType; [|discriminate].
    apply andb_prop in Hst as [Hpos Hst]. apply Nat.ltb_lt in Hpos.
    destruct (declare c cur ScopeType.local token) as [[[d0 c0] token0]|] eqn:Hd;
      cbn [andThen] in Hr; [|discriminate].
    injection Hr as _ <-. exists d, ext.
    apply declare_inv in Hd as [(r0 & _ & -> & _)|(_ & _ & ->)]; [auto|].
    split; [exact Hst|]. split; [exact Hact|]. split; [exact Hlen|].
    apply (Agree_tree cur); [exact Hag|reflexivity|].
    intros k n Hle Hn. unfold setInScope. simpl.
    match goal with
    | |- context [updateAt ?p ?f _] =>
        destruct (nodeAt_updateAt_keeps f p
                    ltac:(intros; exists []; simpl; rewrite app_nil_r;
                          reflexivity) _ _ _ Hn)
          as (node' & -> & Hcase)
    end.
    exists node'. split; [reflexivity|].
    destruct Hcase as [[Heq _]|(_ & -> & _)]; [|reflexivity].
    apply (f_equal length) in Heq. rewrite length_take in Heq.
    rewrite Hact, length_app in Heq. lia.
  - destruct (use u cur nm e) as [[[d0 c0] nm0]|] eqn:Hu;
      cbn [andThen] in Hr; [|discriminate].
    injection Hr as _ <-. exists d, ext. apply use_inv in Hu.
    destruct d0 as [diagnostic|].
    + destruct Hu as (-> & _). auto.
    + destruct Hu as (r0 & t & _ & _ & _ & ->). auto.
  - destruct (setVariable cur token) as [[[d0 c0] token0]|] eqn:Hs;
      cbn [andThen] in Hr; [|discriminate].
    injection Hr as _ <-. apply setVariable_inv in Hs as ->.
    exists d, ext. auto.
Qed.

Lemma calls_inside cooked cs : forall d ext cur ds cur',
  stays d cs = true ->
  activeScopePath cur = activeScopePath b ++ ext -> length ext = d ->
  Agree b cur ->
  calls cooked cs cur = Returned (ds, cur') ->
  activeScopePath cur' = activeScopePath b /\ Agree b cur'.
Proof.
  induction cs as [|c cs IH]; intros d ext cur ds cur' Hst Hact Hlen Hag Hr.
  - simpl in Hr. injection Hr as _ <-. simpl in Hst.
    apply Nat.eqb_eq in Hst. subst d. destruct ext; [|discriminate].
    rewrite app_nil_r in Hact. auto.
  - apply calls_cons in Hr as (d1 & c1 & d2 & Hc & Hcs & _).
    destruct (call_inside _ _ _ _ _ _ _ _ Hst Hact Hlen Hag Hc)
      as (d' & ext' & Hst' & Hact' & Hlen' & Hag').
    eapply IH; eassumption.
Qed.

Lemma Agree_lookup c token sc :
  activeScopePath c = activeScopePath b -> Agree b c ->
  lookup c token sc = lookup b token sc.
Proof.
  intros Hact [Htab Hk]. unfold lookup, peekScope, activeScopeNode,
    activeScopeStack. rewrite Hact, Htab.
  destruct sc.
  - destruct (Hk _ (Nat.le_refl _)) as (n & n' & Hb & Hc & Hs).
    rewrite firstn_all in Hb, Hc. rewrite Hb, Hc. cbn [andThen].
    rewrite Hs. reflexivity.
  - rewrite (stackAt_agree (activeScopePath b) (rootScope c) (rootScope b)).
    + reflexivity.
    + intros k Hle. destruct (Hk k Hle) as (n & n' & -> & -> & Hs).
      simpl. rewrite Hs. reflexivity.
    + destruct (Hk _ (Nat.le_refl _)) as (n & n' & _ & Hc & _).
      rewrite firstn_all in Hc. eauto.
Qed.

(** X22.  What a block declares ends with the block.  A run that opens a
    block, declares only in local scopes inside it, and closes every
    scope it opened, returns to the active path it started on, and every
    lookup, local or through the enclosing scopes, then gives what it
    gave before the block. *)
Theorem block_declarations_end_with_block cooked cs ds b' :
  Active b ->
  stays 0 cs = true ->
  calls cooked cs b = Returned (ds, b') ->
  activeScopePath b' = activeScopePath b /\
  forall token sc, lookup b' token sc = lookup b token sc.
Proof.
  intros [node Hn] Hst Hr.
  assert (Hag : Agree b b).
  { split; [reflexivity|]. intros k Hle.
    destruct (nodeAt_take _ _ _ k Hn) as [n Hk]. exists n, n. auto. }
  destruct (calls_inside cooked cs 0 [] b ds b' Hst) as [Hact Hag'];
    [symmetry; apply app_nil_r|reflexivity|exact Hag|exact Hr|].
  split; [exact Hact|]. intros token sc. apply Agree_lookup; assumption.
Qed.

End Block.

Lemma block_declarations_end_with_block_witness :
  exists ds b',
    calls rawLocks (tail sampleBlock) withFunction = Returned (ds, b') /\
    lookup b' (sampleName "x") ScopeType.global = Returned None /\
    lookup b' (sampleName "hi") ScopeType.global = Returned (Some 0).
Proof.
  assert (H1 : calls rawLocks (tail sampleBlock) withFunction
               = Returned (reports blockRun, afterBlock))
    by (vm_compute; reflexivity).
  assert (Ha : Active withFunction) by (eexists; reflexivity).
  destruct (block_declarations_end_with_block withFunction rawLocks
              (tail sampleBlock) _ _ Ha eq_refl H1) as [_ Hl].
  eexists _, _. split; [exact H1|]. rewrite !Hl.
  split; vm_compute; reflexivity.
Defined.

(** ** Child tables *)

Lemma firstInTables_app l1 l2 key :
  firstInTables (l1 ++ l2) key =
  match firstInTables l1 key with
  | Some tracker => Some tracker
  | None => firstInTables l2 key
  end.
Proof.
  induction l1 as [|t l1 IH]; simpl; [reflexivity|].
  destruct (scopeGet (scope (tableRoot t)) key); [reflexivity|exact IH].
Qed.

(** X23.  Where the symbols of another file are found.  After
    [addScope], a lookup through the enclosing scopes gives what it gave
    before if that was a tracker, and otherwise what the root scope of
    the added table binds the name to: the scopes of the file and the
    tables added before come first.  A local lookup never reads the
    added table, so a declaration in a local scope may take a name the
    table has. *)
Theorem addScope_is_consulted_last b table token :
  lookup (addScope b table) token ScopeType.local
    = lookup b token ScopeType.local /\
  lookup (addScope b table) token ScopeType.global
    = match lookup b token ScopeType.global with
      | Returned None =>
          Returned (scopeGet (scope (tableRoot table)) (lexeme token))
      | found => found
      end.
Proof.
  split; [reflexivity|].
  unfold lookup, activeScopeStack, addScope. simpl.
  destruct (stackAt (activeScopePath b) (rootScope b)) as [scopes|];
    cbn [andThen]; [|reflexivity].
  destruct (firstInStack (reverse scopes) (lexeme token)); [reflexivity|].
  rewrite firstInTables_app. simpl.
  destruct (firstInTables (childSymbolTables b) (lexeme token));
    [reflexivity|].
  destruct (scopeGet (scope (tableRoot table)) (lexeme token)); reflexivity.
Qed.

End SymbolTableMore.

(** * More facts about the parser *)

Module ParserMore.
Import Parser ParserFacts.

#[local] Arguments wp {A} !o QR QT QO /.

Section Turns.

Variable tokens : list Token.
Variable isValidIdentifier : TokenType.t -> bool.
Variable declPrototype : DeclClass -> Prototype.

Hypothesis tokens_end :
  exists front e, tokens = front ++ [e] /\ type e = TokenType.eof.
Hypothesis identifier_valid : isValidIdentifier TokenType.identifier = true.

Abbreviation execute := (exec tokens isValidIdentifier declPrototype).
Abbreviation Stmts := (Statements tokens isValidIdentifier declPrototype).

(** A returning call of [declaration] is one turn, over the tokens from
    the cursor before the call up to the cursor after it. *)
Lemma declaration_turn fuel s r s' :
  Inv tokens s ->
  execute fuel _ m_declaration s = Ret r s' ->
  exists a,
    attemptNode tokens a = value r /\ span a = (current s, current s') /\
    attemptErrors a = errors r /\ isInvalid (value r) = didFail a /\
    forall s0 rest s'',
      isAtEnd tokens s0 = Ret false s ->
      Stmts s' rest s'' -> Stmts s0 (a :: rest) s''.
Proof.
  intros HI E. destruct fuel as [|fuel]; [discriminate E|].
  simpl in E. unfold declaration, bind, getCurrent, tryCatch in E.
  pose proof (declarationTry_valid tokens isValidIdentifier declPrototype
                tokens_end identifier_valid fuel s HI) as W.
  destruct (declarationTry tokens (execute fuel) s) as [node s1|e s1| |] eqn:Et;
    simpl in W; try discriminate E.
  - inversion E; subst. exists (Parsed (current s) (current s') r).
    simpl. repeat split; [tauto|].
    intros s0 rest s'' H0 Hrest. eapply statements_parsed; eauto.
  - destruct (synchronize tokens (execute fuel) (failed e) s1)
      as [[] s2| | |] eqn:Es; try discriminate E.
    simpl in E. inversion E; subst.
    exists (Failed (current s) (current s') e).
    simpl. repeat split.
    intros s0 rest s'' H0 Hrest. eapply statements_failed; eauto.
Qed.

Lemma parse_while_tiles fuel :
  forall instructions parseErrors s r s',
    Inv tokens s ->
    execute fuel _ (m_parse_while instructions parseErrors) s = Ret r s' ->
    exists attempts,
      Stmts s attempts s' /\
      insts (ParseResult.script r)
        = instructions ++ map (attemptNode tokens) attempts /\
      Tiles (current s) attempts (current s').
Proof.
  induction fuel as [|fuel IH]; intros instructions parseErrors s r s' HI E;
    [discriminate E|].
  simpl in E. unfold parse_while, bind in E.
  destruct (isAtEnd_returns tokens s HI) as (b & s0 & E0 & HI0 & Hc0 & Hb).
  rewrite E0 in E. destruct b.
  - inversion E; subst. exists []. simpl. rewrite !app_nil_r.
    repeat split; auto. constructor. exact E0.
  - pose proof (exec_contract tokens isValidIdentifier declPrototype
                  tokens_end identifier_valid fuel _ m_declaration s0 HI0) as W.
    destruct (execute fuel _ m_declaration s0) as [r1 s1| | |] eqn:Ed;
      try discriminate E.
    simpl in W. destruct W as (HI1 & _ & Hmove).
    { right. rewrite Hc0. auto. }
    destruct (declaration_turn fuel s0 r1 s1 HI0 Ed)
      as (a & Hn & Hsp & _ & _ & Hstep).
    destruct (IH _ _ _ _ _ HI1 E) as (rest & Hrest & Hi & Ht).
    exists (a :: rest). simpl. rewrite Hn, Hsp. simpl.
    split; [apply Hstep; assumption|].
    split; [rewrite Hi, <- app_assoc; reflexivity|].
    split; [exact Hc0|]. split; [|exact Ht].
    rewrite <- Hc0. apply Hmove. rewrite Hc0. auto.
Qed.

Lemma Tiles_length from attempts to :
  Tiles from attempts to -> from + length attempts <= to.
Proof.
  revert from. induction attempts as [|a rest IH]; simpl; intros from.
  - intros ->. lia.
  - intros (_ & Hlt & Hrest). specialize (IH _ Hrest). lia.
Qed.

End Turns.

(** X24.  The statements tile the tokens.  The top-level nodes of the
    tree [parse] returns are the turns of its statement loop in order;
    the first turn starts on the first token, each turn starts on the
    token the one before stopped on and goes over one token at least,
    and the last stops on a token of type [eof].  So there are no more
    top-level nodes than tokens, and when no token of the input is an
    [eof] the loop goes over all of them. *)
Theorem statements_tile_the_tokens isValidIdentifier declPrototype tokens
    fuel p :
  isValidIdentifier TokenType.identifier = true ->
  parse isValidIdentifier declPrototype tokens fuel = Some p ->
  exists attempts,
    Statements (constructTokens tokens) isValidIdentifier declPrototype
      initial attempts (final p) /\
    insts (ParseResult.script (result p))
      = map (attemptNode (constructTokens tokens)) attempts /\
    Tiles 0 attempts (current (final p)) /\
    typeAt (constructTokens tokens) (current (final p)) = TokenType.eof /\
    length (insts (ParseResult.script (result p))) <= length tokens /\
    (Forall (fun t => type t <> TokenType.eof) tokens ->
     current (final p) = length tokens).
Proof.
  intros Hid Hp. unfold parse, parseWith in Hp.
  pose proof (parse_while_no_exception (constructTokens tokens)
                isValidIdentifier declPrototype (constructTokens_end tokens)
                Hid fuel) as Hno.
  pose proof (exec_contract (constructTokens tokens) isValidIdentifier
                declPrototype (constructTokens_end tokens) Hid fuel _
                (m_parse_while [] []) initial
                (initial_Inv _ (constructTokens_end tokens)) I) as W.
  destruct (exec _ _ _ _ _ _ _) as [r s| | |] eqn:E; try contradiction;
    [|discriminate Hp].
  inversion Hp; subst p; simpl.
  simpl in W. destruct W as ([Hlt _] & _ & Heof).
  destruct (parse_while_tiles (constructTokens tokens) isValidIdentifier
              declPrototype (constructTokens_end tokens) Hid fuel _ _ _ _ _
              (initial_Inv _ (constructTokens_end tokens)) E)
    as (attempts & Hs & Hi & Ht).
  simpl in Hi, Ht. exists attempts. rewrite Hi.
  rewrite constructTokens_length in Hlt.
  split; [exact Hs|]. split; [reflexivity|]. split; [exact Ht|].
  split; [exact Heof|]. split.
  - rewrite length_map. apply Tiles_length in Ht. lia.
  - intros Hall. destruct (decide (current s = length tokens)) as [|Hne];
      [assumption|exfalso].
    assert (Hin : current s < length tokens) by lia.
    destruct (lookup_lt_is_Some_2 _ _ Hin) as [t Htok].
    rewrite Forall_lookup in Hall. apply (Hall _ _ Htok).
    revert Heof. unfold extraR, typeAt, constructTokens.
    rewrite lookup_app_l by exact Hin. rewrite Htok. auto.
Qed.

Lemma statements_tile_the_tokens_witness :
  exists attempts,
    Tiles 0 attempts (current (final printTenRun)) /\
    current (final printTenRun) = length printTen.
Proof.
  destruct (statements_tile_the_tokens identifierOnly declAsInst printTen 400
              printTenRun)
    as (attempts & _ & _ & Ht & _ & _ & Hall);
    [reflexivity|vm_compute; reflexivity|].
  exists attempts. split; [exact Ht|].
  apply Hall. repeat constructor; discriminate.
Defined.

(** X25.  [parseInstruction] returns.  On an input whose first token is
    not an [eof], with a call stack of [depthPerToken] frames per token,
    [parseInstruction] does not throw: it returns after consuming one
    token at least, with the cursor on a token, either an instruction
    that is not [Invalid], or one parse error and an [Invalid] node over
    the tokens it went over. *)
Theorem parseInstruction_returns isValidIdentifier declPrototype tokens fuel :
  isValidIdentifier TokenType.identifier = true ->
  typeAt (constructTokens tokens) 0 <> TokenType.eof ->
  depthPerToken * length tokens + 32 < fuel ->
  exists r s,
    parseInstruction (constructTokens tokens) isValidIdentifier declPrototype
      fuel initial = Ret r s /\
    0 < current s <= length tokens /\
    (isInvalid (value r) = false \/
     exists e,
       value r = InstInvalid (take (current s) (constructTokens tokens)) /\
       errors r = [e]).
Proof.
  intros Hid Hlive Hfuel. unfold parseInstruction.
  pose proof (initial_Inv _ (constructTokens_end tokens)) as HI.
  pose proof (exec_contract (constructTokens tokens) isValidIdentifier
                declPrototype (constructTokens_end tokens) Hid fuel _
                m_declaration initial HI) as W.
  destruct (exec _ _ _ _ _ m_declaration initial) as [r s| | |] eqn:E;
    simpl in W.
  - destruct W as ([Hlt _] & _ & Hmove); [right; exact Hlive|].
    rewrite constructTokens_length in Hlt.
    exists r, s. split; [reflexivity|]. simpl in Hmove.
    split; [specialize (Hmove Hlive); lia|].
    destruct (declaration_turn (constructTokens tokens) isValidIdentifier
                declPrototype (constructTokens_end tokens) Hid fuel _ _ _
                HI E) as (a & Hn & Hsp & He & Hv & _).
    destruct a as [from to node|from to e]; simpl in *.
    + left. exact Hv.
    + right. exists e. injection Hsp as -> ->.
      rewrite <- Hn, <- He. unfold slice. rewrite Nat.sub_0_r, drop_0.
      auto.
  - destruct W as (_ & _ & []). right. exact Hlive.
  - destruct (W (or_intror Hlive)).
  - exfalso. specialize (W (or_intror Hlive)).
    unfold enough, remaining in W.
    rewrite constructTokens_length in W. cbn [current initial rank] in W.
    unfold depthPerToken in *. lia.
Qed.

Lemma parseInstruction_returns_witness :
  exists r s,
    parseInstruction (constructTokens printTen) identifierOnly declAsInst
      400 initial = Ret r s /\
    0 < current s <= length printTen.
Proof.
  destruct (parseInstruction_returns identifierOnly declAsInst printTen 400)
    as (r & s & E & Hc & _);
    [reflexivity|vm_compute; discriminate|vm_compute; lia|].
  exists r, s. auto.
Defined.

End ParserMore.

(** * Facts about the function resolver *)

Module ResolverFacts.
Import Parser FuncResolver.

Lemma fold_normalStep l : forall st,
  fold_left normalStep l st
  = mkBuilt
      (parameters st
         ++ map (fun p => mkKsParameter (identifier p) false
                            SymbolTableBuilder.SymbolState.declared) l)
      (errors st
         ++ (if seenDefaulted st then
               map (fun p =>
                      mkResolverError (identifier p)
                        "Normal parameters cannot occur after defaulted parameters"
                        []) l
             else []))
      (seenDefaulted st).
Proof.
  induction l as [|p l IH]; intros st; simpl.
  - destruct st as [ps es []]; simpl; rewrite !app_nil_r; reflexivity.
  - rewrite IH. unfold normalStep. simpl.
    destruct (seenDefaulted st); simpl; rewrite <- !app_assoc; reflexivity.
Qed.

Lemma fold_defaultStep l : forall st,
  fold_left defaultStep l st
  = mkBuilt
      (parameters st
         ++ map (fun p => mkKsParameter (defaultIdentifier p) true
                            SymbolTableBuilder.SymbolState.declared) l)
      (errors st)
      (match l with [] => seenDefaulted st | _ => true end).
Proof.
  induction l as [|p l IH]; intros st; simpl.
  - destruct st; simpl; rewrite app_nil_r; reflexivity.
  - rewrite IH. unfold defaultStep. simpl. rewrite <- app_assoc.
    destruct l; reflexivity.
Qed.

Lemma late_app seen l1 l2 :
  late seen (l1 ++ l2)
  = late seen l1
      ++ late (seen || existsb snd l1) l2.
Proof.
  revert seen. induction l1 as [|[x []] l1 IH]; intros seen; simpl.
  - rewrite orb_false_r. reflexivity.
  - rewrite IH. rewrite orb_true_r. reflexivity.
  - rewrite IH, <- app_assoc. reflexivity.
Qed.

Lemma late_true l :
  late true l = [] <-> Forall (fun x => x.2 = true) l.
Proof.
  induction l as [|[x []] l IH]; simpl.
  - split; auto.
  - rewrite IH. split; [intros H; constructor; auto|].
    intros H. apply Forall_cons in H as [_ H]. exact H.
  - split; [discriminate|]. intros H. apply Forall_cons in H as [H _].
    discriminate.
Qed.

Lemma late_false l : late false l = [] <-> Ordered l.
Proof.
  induction l as [|[x []] l IH]; simpl.
  - split; [|reflexivity]. intros _ i j a b _ Hi. rewrite lookup_nil in Hi.
    discriminate.
  - rewrite late_true. split.
    + intros Hall i j a b Hlt Hi Hj.
      destruct j as [|j]; [lia|]. simpl in Hj.
      rewrite Forall_lookup in Hall. specialize (Hall _ _ Hj). discriminate.
    + intros Hord. apply Forall_lookup. intros j [y []] Hj; [reflexivity|].
      exfalso. apply (Hord 0 (S j) x y); [lia|reflexivity|exact Hj].
  - rewrite IH. split.
    + intros Hord i j a b Hlt Hi Hj.
      destruct i as [|i]; [discriminate|]. destruct j as [|j]; [lia|].
      apply (Hord i j a b); [lia|exact Hi|exact Hj].
    + intros Hord i j a b Hlt Hi Hj.
      apply (Hord (S i) (S j) a b); [lia|exact Hi|exact Hj].
Qed.

Lemma late_normal seen (normal : list DeclParameter) :
  late seen (map (fun p => (identifier p, false)) normal)
  = if seen then map identifier normal else [].
Proof.
  induction normal as [|p normal IH]; simpl.
  - destruct seen; reflexivity.
  - rewrite IH. destruct seen; reflexivity.
Qed.

Lemma late_default seen (defaults : list DefaultParam) :
  late seen (map (fun p => (defaultIdentifier p, true)) defaults) = [].
Proof.
  revert seen. induction defaults as [|p defaults IH]; simpl; auto.
Qed.

Lemma existsb_normal (normal : list DeclParameter) :
  existsb snd (map (fun p => (identifier p, false)) normal) = false.
Proof. induction normal; simpl; auto. Qed.

Lemma existsb_default (defaults : list DefaultParam) :
  existsb snd (map (fun p => (defaultIdentifier p, true)) defaults)
  = match defaults with [] => false | _ => true end.
Proof. destruct defaults; reflexivity. Qed.

(** What the loop of [buildParameters] has built after some
    declarations, from the state it starts in. *)
Lemma fold_declStep decls : forall st,
  let st' := fold_left declStep decls st in
  map (fun p => (name p, defaulted p)) (parameters st')
  = map (fun p => (name p, defaulted p)) (parameters st) ++ declared decls /\
  map state (parameters st')
  = map state (parameters st)
      ++ map (fun _ => SymbolTableBuilder.SymbolState.declared)
           (declared decls) /\
  map token (errors st')
  = map token (errors st) ++ late (seenDefaulted st) (declared decls) /\
  map (fun e => (message e, otherInfo e)) (errors st')
  = map (fun e => (message e, otherInfo e)) (errors st)
      ++ map (fun _ =>
                ("Normal parameters cannot occur after defaulted parameters",
                 []))
           (late (seenDefaulted st) (declared decls)).
Proof.
  induction decls as [|[normal defaults] decls IH]; intros st; simpl.
  - unfold declared. simpl. rewrite !app_nil_r. auto.
  - destruct (IH (declStep st (normal, defaults))) as (Hp & Hs & He & Hm).
    clear IH. unfold declStep in *. simpl in *.
    rewrite fold_defaultStep, fold_normalStep in *. simpl in *.
    rewrite Hp, Hs, He, Hm. clear Hp Hs He Hm.
    unfold declared. simpl. fold (declared decls).
    rewrite !late_app, !existsb_app, existsb_normal, existsb_default,
      late_normal, late_default.
    rewrite !map_app, !map_map. simpl. rewrite <- !app_assoc.
    assert (Hseen : (match defaults with
                     | [] => seenDefaulted st
                     | _ :: _ => true
                     end)
                    = seenDefaulted st || false
                      || match defaults with [] => false | _ => true end).
    { destruct defaults; [rewrite !orb_false_r|rewrite orb_true_r];
        reflexivity. }
    rewrite Hseen.
    repeat split; try reflexivity;
      destruct (seenDefaulted st); simpl; rewrite ?map_map; reflexivity.
Qed.

(** X26.  The parameters of a function.  [buildParameters] returns the
    parameters of the declarations in order, those of a declaration that
    are not defaulted before its defaulted ones, every one in the state
    [declared]; it returns one error, on the identifier, for every
    parameter that is not defaulted and is declared after a defaulted
    one, and keeps that parameter in the list.  So it returns no error
    exactly when no parameter that is not defaulted follows a defaulted
    one. *)
Theorem buildParameters_reports_late_parameters decls :
  map (fun p => (name p, defaulted p)) (buildParameters decls).1
    = declared decls /\
  Forall (fun p => state p = SymbolTableBuilder.SymbolState.declared)
    (buildParameters decls).1 /\
  map token (buildParameters decls).2 = late false (declared decls) /\
  Forall (fun e =>
            message e
              = "Normal parameters cannot occur after defaulted parameters" /\
            otherInfo e = [])
    (buildParameters decls).2 /\
  ((buildParameters decls).2 = [] <-> Ordered (declared decls)).
Proof.
  unfold buildParameters.
  destruct (fold_declStep decls (mkBuilt [] [] false)) as (Hp & Hs & He & Hm).
  simpl in *. split; [exact Hp|]. split; [|split; [exact He|split]].
  - apply Forall_forall. intros p Hin.
    apply (list_elem_of_fmap_2 state) in Hin.
    change (state <$> ?l) with (map state l) in Hin.
    rewrite Hs in Hin. apply list_elem_of_fmap in Hin as (y & -> & _).
    reflexivity.
  - apply Forall_forall. intros e Hin.
    apply (list_elem_of_fmap_2 (fun e => (message e, otherInfo e))) in Hin.
    change ((fun e => (message e, otherInfo e)) <$> ?l)
      with (map (fun e => (message e, otherInfo e)) l) in Hin.
    rewrite Hm in Hin. apply list_elem_of_fmap in Hin as (y & Heq & _).
    injection Heq as -> ->. auto.
  - rewrite <- late_false, <- He. split; [intros ->; reflexivity|].
    intros Hnil. destruct (errors _); [reflexivity|discriminate].
Qed.

End ResolverFacts.

(** * Facts about the document service *)

Module DocumentFacts.
Import DocumentService.

(** ** Maps *)

Lemma docsGet_docsSet m key v key' :
  docsGet (docsSet m key v) key'
  = if decide (key = key') then Some v else docsGet m key'.
Proof.
  induction m as [|[k w] m IH]; simpl.
  - destruct (decide (key = key')); reflexivity.
  - destruct (decide (k = key)) as [->|Hk]; simpl.
    + destruct (decide (key = key')); reflexivity.
    + rewrite IH. destruct (decide (k = key')) as [->|];
        [rewrite decide_False by congruence|]; reflexivity.
Qed.

Lemma docsGet_docsDelete_ne m key key' :
  key <> key' -> docsGet (docsDelete m key) key' = docsGet m key'.
Proof.
  intros Hne. induction m as [|[k w] m IH]; simpl; [reflexivity|].
  destruct (decide (k = key)) as [->|Hk]; simpl.
  - rewrite decide_False by exact Hne. reflexivity.
  - rewrite IH. reflexivity.
Qed.

(** A key is found once, so that what [delete] leaves has it no more,
    when the keys of the map are distinct. *)
Lemma docsGet_docsDelete m key :
  NoDup (map fst m) -> docsGet (docsDelete m key) key = None.
Proof.
  induction m as [|[k w] m IH]; simpl; intros Hnd; [reflexivity|].
  apply NoDup_cons in Hnd as [Hk Hnd].
  destruct (decide (k = key)) as [->|Hne]; simpl.
  - clear IH Hnd. induction m as [|[k' w'] m IH]; simpl; [reflexivity|].
    simpl in Hk. apply not_elem_of_cons in Hk as [Hne Hk].
    rewrite decide_False by congruence. apply IH. exact Hk.
  - rewrite decide_False by exact Hne. apply IH. exact Hnd.
Qed.

Lemma docsSet_keys m key v :
  map fst (docsSet m key v)
  = if docsHas m key then map fst m else map fst m ++ [key].
Proof.
  unfold docsHas. induction m as [|[k w] m IH]; simpl; [reflexivity|].
  destruct (decide (k = key)) as [->|Hne]; simpl; [reflexivity|].
  rewrite IH. destruct (docsGet m key); reflexivity.
Qed.

Lemma docsGet_None m key : docsGet m key = None -> key ∉ map fst m.
Proof.
  induction m as [|[k w] m IH]; simpl; intros H.
  - apply not_elem_of_nil.
  - destruct (decide (k = key)); [discriminate|].
    apply not_elem_of_cons. split; [congruence|auto].
Qed.

Lemma docsDelete_keys m key k :
  k ∈ map fst (docsDelete m key) -> k ∈ map fst m.
Proof.
  induction m as [|[k' w] m IH]; simpl; [auto|].
  destruct (decide (k' = key)); simpl.
  - intros H. right. exact H.
  - intros H. apply elem_of_cons in H as [->|H]; [left|right; auto].
Qed.

Lemma docsSet_NoDup m key v :
  NoDup (map fst m) -> NoDup (map fst (docsSet m key v)).
Proof.
  intros Hnd. rewrite docsSet_keys. unfold docsHas.
  destruct (docsGet m key) eqn:Hg; [exact Hnd|].
  apply NoDup_app. split; [exact Hnd|]. split; [|apply NoDup_singleton].
  intros k Hk Hk'. apply elem_of_cons in Hk' as [->|Hk'].
  - apply docsGet_None in Hg. contradiction.
  - apply elem_of_nil in Hk' as [].
Qed.

Lemma docsDelete_NoDup m key :
  NoDup (map fst m) -> NoDup (map fst (docsDelete m key)).
Proof.
  induction m as [|[k w] m IH]; simpl; intros Hnd; [exact Hnd|].
  apply NoDup_cons in Hnd as [Hk Hnd].
  destruct (decide (k = key)); simpl; [exact Hnd|].
  apply NoDup_cons. split; [|auto].
  intros Hin. apply Hk. eapply docsDelete_keys. exact Hin.
Qed.

Lemma create_eta (document : TextDocument) :
  create (uri document) (languageId document) (version document)
    (text document) = document.
Proof. destruct document; reflexivity. Qed.

Section ServiceFacts.

Context {Uri Resolver : Type}.
Variable extname : string -> string.
Variable uriString : Uri -> string.
Variable fsPath : Uri -> string.
Variable parseUri : string -> Maybe Uri.
Variable resolverReady : Resolver -> bool.
Variable setVolume0 : Resolver -> Uri -> Resolver.
Variable applyEdits : TextDocument -> list Edit -> string.

Abbreviation normalize := (normalizeExtensions extname uriString fsPath).
Abbreviation get := (getDocument extname uriString fsPath).
Abbreviation change := (onChangeHandler (Resolver := Resolver) applyEdits).
Abbreviation handleEvent := (handle (Resolver := Resolver) setVolume0 applyEdits).
Abbreviation runEvents := (run (Resolver := Resolver) setVolume0 applyEdits).
Abbreviation load :=
  (loadDocument extname uriString fsPath parseUri resolverReady).

Lemma Keyed_docsSet m key document :
  Keyed m -> uri document = key -> Keyed (docsSet m key document).
Proof.
  intros Hm Hu key' document'. rewrite docsGet_docsSet.
  case_decide; [intros [= <-]; congruence|apply Hm].
Qed.

Lemma Keyed_docsDelete m key :
  NoDup (map fst m) -> Keyed m -> Keyed (docsDelete m key).
Proof.
  intros Hnd Hm key' document'.
  destruct (decide (key = key')) as [<-|Hne].
  - rewrite docsGet_docsDelete by exact Hnd. discriminate.
  - rewrite docsGet_docsDelete_ne by exact Hne. apply Hm.
Qed.

Lemma handle_Stored (s : Service (Resolver := Resolver)) e :
  Stored s -> Stored (handleEvent s e).
Proof.
  intros (Hc & Hs & Hnc & Hns).
  destruct e as [document|target changes|target|normalized retrieved
                |target retrieved|u]; simpl.
  - split; [|split; [exact Hs|split; [|exact Hns]]].
    + apply Keyed_docsSet; [|reflexivity].
      apply Keyed_docsDelete; assumption.
    + apply docsSet_NoDup, docsDelete_NoDup. exact Hnc.
  - unfold onChangeHandler.
    destruct (docsGet (clientDocs s) target) as [document|] eqn:Hg; simpl;
      [|repeat split; assumption].
    split; [|split; [exact Hs|split; [|exact Hns]]].
    + apply Keyed_docsSet; [exact Hc|reflexivity].
    + apply docsSet_NoDup. exact Hnc.
  - split; [apply Keyed_docsDelete; assumption|].
    split; [|split; [apply docsDelete_NoDup; exact Hnc|]].
    + destruct (docsGet (clientDocs s) target) as [document|] eqn:Hg;
        [|exact Hs].
      apply Keyed_docsSet; [exact Hs|]. apply Hc. exact Hg.
    + destruct (docsGet (clientDocs s) target); [|exact Hns].
      apply docsSet_NoDup. exact Hns.
  - split; [exact Hc|]. split; [|split; [exact Hnc|]].
    + apply Keyed_docsSet; [exact Hs|reflexivity].
    + apply docsSet_NoDup. exact Hns.
  - unfold cacheDocument. simpl.
    destruct (docsHas (clientDocs s) target); [repeat split; assumption|].
    simpl. split; [exact Hc|]. split; [|split; [exact Hnc|]].
    + apply Keyed_docsSet; [exact Hs|reflexivity].
    + apply docsSet_NoDup. exact Hns.
  - repeat split; assumption.
Qed.

Lemma run_Stored events : forall s : Service (Resolver := Resolver),
  Stored s -> Stored (runEvents s events).
Proof.
  induction events as [|e events IH]; intros s Hs; simpl; [exact Hs|].
  apply IH, handle_Stored, Hs.
Qed.

Lemma newService_Stored (resolver : Resolver) : Stored (newService resolver).
Proof.
  split; [|split]; [intros key document; discriminate..|].
  split; constructor.
Qed.

Lemma run_app events1 events2 (s : Service (Resolver := Resolver)) :
  runEvents s (events1 ++ events2) = runEvents (runEvents s events1) events2.
Proof. apply fold_left_app. Qed.

(** X27.  Every document is stored under its own uri.  Whatever
    notifications of the client, loads and cache turns a new service has
    gone through, each of its two maps has every document once, under
    the uri of the document; and a document [getDocument] returns has,
    as its uri, the normalized form of the uri that was asked for. *)
Theorem documents_are_stored_under_their_uri (resolver : Resolver) events :
  Keyed (clientDocs (runEvents (newService resolver) events)) /\
  Keyed (serverDocs (runEvents (newService resolver) events)) /\
  NoDup (map fst (clientDocs (runEvents (newService resolver) events))) /\
  NoDup (map fst (serverDocs (runEvents (newService resolver) events))) /\
  forall target document,
    get (runEvents (newService resolver) events) target = Some document ->
    normalize (inr target) = Some (uri document).
Proof.
  destruct (run_Stored events _ (newService_Stored resolver))
    as (Hc & Hs & Hnc & Hns).
  repeat (split; [assumption|]).
  intros target document. unfold getDocument.
  destruct (normalize (inr target)) as [normalized|]; [|discriminate].
  destruct (docsGet (clientDocs _) normalized) as [found|] eqn:Hg.
  - intros [= <-]. f_equal. symmetry. apply Hc. exact Hg.
  - intros Hg'. f_equal. symmetry. apply Hs. exact Hg'.
Qed.

(** An event that is not about a uri leaves what the client has under
    it; what [getDocument] returns for it, while the client has it, is
    what the client has. *)
Lemma handle_other (s : Service (Resolver := Resolver)) e target :
  Stored s ->
  about e <> Some target ->
  docsGet (clientDocs (handleEvent s e)) target
  = docsGet (clientDocs s) target.
Proof.
  intros (Hc & _) Hne.
  destruct e as [document|changed changes|closed|normalized retrieved
                |cached retrieved|u]; simpl in *; try reflexivity.
  - rewrite docsGet_docsSet, decide_False by congruence.
    apply docsGet_docsDelete_ne. congruence.
  - unfold onChangeHandler.
    destruct (docsGet (clientDocs s) changed) as [document|] eqn:Hg; simpl;
      [|reflexivity].
    rewrite docsGet_docsSet. case_decide as Hu; [|reflexivity].
    subst target. rewrite (Hc _ _ Hg) in Hne. congruence.
  - apply docsGet_docsDelete_ne. congruence.
  - unfold cacheDocument. simpl.
    destruct (docsHas (clientDocs s) cached); reflexivity.
Qed.

Lemma run_other events : forall (s : Service (Resolver := Resolver)) target,
  Stored s ->
  Forall (fun e => about e <> Some target) events ->
  docsGet (clientDocs (runEvents s events)) target
  = docsGet (clientDocs s) target.
Proof.
  induction events as [|e events IH]; intros s target Hs Hall; simpl;
    [reflexivity|].
  apply Forall_cons in Hall as [He Hall].
  rewrite IH by (try apply handle_Stored; assumption).
  apply handle_other; assumption.
Qed.

Lemma normalize_ks target :
  extname target = ".ks" -> normalize (inr target) = Some target.
Proof.
  intros He. unfold normalizeExtensions. rewrite He.
  rewrite decide_True by reflexivity. reflexivity.
Qed.

(** X28.  An open document is served until it is closed, and after.
    Once the client has opened a document whose uri has the extension
    [.ks], [getDocument] returns that document for its uri, through
    every load, cache turn and notification about other uris; when the
    client closes it, the document moves from the documents of the
    client to those of the server, and [getDocument] still returns
    it. *)
Theorem open_document_is_served (resolver : Resolver) before document events :
  extname (uri document) = ".ks" ->
  Forall (fun e => about e <> Some (uri document)) events ->
  let s1 :=
    (onOpenHandler (runEvents (newService resolver) before) document).1 in
  let s2 := runEvents s1 events in
  let s3 := (onCloseHandler s2 (uri document)).1 in
  get s1 (uri document) = Some document /\
  get s2 (uri document) = Some document /\
  get s3 (uri document) = Some document /\
  docsGet (clientDocs s3) (uri document) = None /\
  docsGet (serverDocs s3) (uri document) = Some document.
Proof.
  intros He Hall s1 s2 s3.
  pose proof (run_Stored before _ (newService_Stored resolver)) as H0.
  assert (H1 : Stored s1) by (apply (handle_Stored _ (DidOpen document) H0)).
  assert (H2 : Stored s2) by (apply run_Stored; exact H1).
  assert (Hg1 : docsGet (clientDocs s1) (uri document) = Some document).
  { unfold s1. simpl. rewrite docsGet_docsSet, decide_True by reflexivity.
    rewrite create_eta. reflexivity. }
  assert (Hg2 : docsGet (clientDocs s2) (uri document) = Some document).
  { unfold s2. rewrite run_other by assumption. exact Hg1. }
  assert (Hc3 : docsGet (clientDocs s3) (uri document) = None).
  { unfold s3. simpl. apply docsGet_docsDelete. apply H2. }
  assert (Hs3 : docsGet (serverDocs s3) (uri document) = Some document).
  { unfold s3. simpl. rewrite Hg2, docsGet_docsSet, decide_True by reflexivity.
    reflexivity. }
  unfold getDocument. rewrite (normalize_ks _ He), Hg1, Hg2, Hc3, Hs3. auto.
Qed.

(** X29.  [loadDocument] reads a file once.  While the resolver is not
    ready [loadDocument] returns nothing and changes nothing; when it
    returns nothing, it has changed nothing; when it returns a document,
    that document is in the documents of the server under the normalized
    uri, the documents of the client are as they were, and a second call
    for the same uri returns the same document without a change,
    whatever the loader would now find. *)
Theorem loadDocument_reads_the_file_once loader
    (s : Service (Resolver := Resolver)) target :
  (resolverReady (pathResolver s) = false ->
   load loader s target = (s, None)) /\
  (forall s', load loader s target = (s', None) -> s' = s) /\
  (forall s' document,
     load loader s target = (s', Some document) ->
     clientDocs s' = clientDocs s /\
     (exists normalized,
        normalize (inr target) = Some normalized /\
        docsGet (serverDocs s') normalized = Some document) /\
     forall loader', load loader' s' target = (s', Some document)).
Proof.
  unfold loadDocument, loadDocumentBegin, ready, loadNormalized.
  split; [intros ->; reflexivity|].
  destruct (resolverReady (pathResolver s)) eqn:Hr; simpl.
  2: { split; [intros s' [= <-]; reflexivity|discriminate]. }
  destruct (normalize (inr target)) as [normalized|] eqn:Hn.
  2: { split; [intros s' [= <-]; reflexivity|discriminate]. }
  destruct (docsGet (serverDocs s) normalized) as [cached|] eqn:Hg.
  { split; [discriminate|]. intros s' document [= <- <-].
    split; [reflexivity|]. split; [eauto|]. intros loader'.
    rewrite Hr. simpl. rewrite Hg. reflexivity. }
  destruct (parseUri normalized) as [u|].
  2: { split; [intros s' [= <-]; reflexivity|discriminate]. }
  unfold loadDocumentEnd. destruct (loader (fsPath u)) as [retrieved|].
  - split; [discriminate|]. intros s' document [= <- <-].
    split; [reflexivity|]. simpl.
    split.
    + exists normalized. rewrite docsGet_docsSet, decide_True by reflexivity.
      auto.
    + intros loader'. rewrite Hr. simpl.
      rewrite docsGet_docsSet, decide_True by reflexivity. reflexivity.
  - split; [intros s' [= <-]; reflexivity|discriminate].
Qed.

Lemma run_keeps_version document events :
  forall s : Service (Resolver := Resolver),
    Stored s ->
    (exists text',
       docsGet (clientDocs s) (uri document)
       = Some (create (uri document) (languageId document)
                 (version document) text')) ->
    Forall (fun e => keepsOpen (uri document) e = true) events ->
    exists text',
      docsGet (clientDocs (runEvents s events)) (uri document)
      = Some (create (uri document) (languageId document) (version document)
                text').
Proof.
  induction events as [|e events IH]; intros s Hs Hg Hall; simpl;
    [exact Hg|].
  apply Forall_cons in Hall as [He Hall].
  apply IH; [apply handle_Stored; exact Hs| |exact Hall].
  destruct Hg as [text1 Hg].
  destruct (decide (about e = Some (uri document))) as [Ha|Ha].
  - destruct e as [opened|changed changes|closed|normalized retrieved
                  |cached retrieved|u]; simpl in Ha, He; try discriminate.
    + injection Ha as Ha. rewrite bool_decide_true in He by exact Ha.
      discriminate.
    + injection Ha as ->. simpl. unfold onChangeHandler. rewrite Hg.
      simpl. rewrite docsGet_docsSet, decide_True by reflexivity. eauto.
    + injection Ha as Ha. rewrite bool_decide_true in He by exact Ha.
      discriminate.
  - rewrite handle_other by assumption. eauto.
Qed.

(** X30.  A change keeps the version.  From the opening of a document
    until the client opens it again or closes it, whatever changes are
    applied to it, the document the client has under its uri has the
    uri, the language and the version it was opened with: the changes
    replace its text only.  A change for a uri the client has not opened
    changes nothing and notifies nobody. *)
Theorem change_keeps_the_version (resolver : Resolver) before document events :
  Forall (fun e => keepsOpen (uri document) e = true) events ->
  let s1 :=
    (onOpenHandler (runEvents (newService resolver) before) document).1 in
  let s2 := runEvents s1 events in
  (exists text',
     docsGet (clientDocs s2) (uri document)
     = Some (create (uri document) (languageId document) (version document)
               text')) /\
  forall target contentChanges,
    docsGet (clientDocs s2) target = None ->
    change s2 target contentChanges = (s2, []).
Proof.
  intros Hall s1 s2. split.
  - pose proof (run_Stored before _ (newService_Stored resolver)) as H0.
    apply run_keeps_version; [|exists (text document)|exact Hall].
    + apply (handle_Stored _ (DidOpen document) H0).
    + unfold s1. simpl.
      rewrite docsGet_docsSet, decide_True by reflexivity. reflexivity.
  - intros target contentChanges Hg. unfold onChangeHandler. rewrite Hg.
    reflexivity.
Qed.

End ServiceFacts.

Lemma open_document_is_served_witness :
  getDocument sampleExtname id id
    (onCloseHandler
       (run sampleSetVolume sampleEdits
          (onOpenHandler sampleService sampleDocument).1
          [Loaded "file:///boot.ks" "print 2."])
       "file:///boot.ks").1
    "file:///boot.ks"
  = Some sampleDocument.
Proof.
  refine (proj1 (proj2 (proj2
    (open_document_is_served sampleExtname id id sampleSetVolume sampleEdits
       true [] sampleDocument [Loaded "file:///boot.ks" "print 2."] _ _)))).
  - reflexivity.
  - constructor; [discriminate|constructor].
Defined.

Lemma change_keeps_the_version_witness :
  exists text',
    docsGet
      (clientDocs
         (run sampleSetVolume sampleEdits
            (onOpenHandler sampleService sampleDocument).1 sampleEvents))
      "file:///boot.ks"
    = Some (create "file:///boot.ks" "kos" 3 text').
Proof.
  refine (proj1
    (change_keeps_the_version sampleSetVolume sampleEdits true []
       sampleDocument sampleEvents _)).
  repeat constructor.
Defined.

End DocumentFacts.
